(** * Attention subsystem of nanotron's fast LLaMa model

    A shallow embedding of [src/nanotron/models/fast/llama.py]:
    [RotaryEmbedding], [CoreAttention], [pad_to_right] and
    [CausalSelfAttention.forward], with the properties of the
    specification stated and settled against that embedding.

    Conventions of the embedding.
    - A torch tensor is a nested list, outermost dimension first.  Scalars
      are real numbers: float32 / bfloat16 arithmetic is idealised as exact
      arithmetic, and the dtype is kept as a tag next to the data.
    - Python exceptions are values of [error]; a function that may raise
      returns a [result].
    - Sizes and counts are [nat]; position ids, which the source keeps in
      int32 tensors, are [Z] with the two's-complement wrap written out. *)

From Stdlib Require Import List ZArith Lia Bool Reals Lra.
Import ListNotations.

(* ================================================================== *)
(** * Exceptions and the result monad *)

(** The [assert] statements of the source, by what they check. *)
Inductive assertion : Type :=
| AssertDimEven        (* assert dim % 2 == 0 / assert inner_dim % 2 == 0 *)
| AssertNoMidMask      (* assert ~(mask[:, :-1] & ~mask[:, 1:]).any() *)
| AssertHeadsDivTP     (* num_attention_heads % tp_pg.size() == 0 *)
| AssertKVHeadsDivTP   (* num_key_value_heads % tp_pg.size() == 0 *)
| AssertHeadsDivKV     (* num_attention_heads % num_key_value_heads == 0 *)
| AssertHiddenDivHeads. (* hidden_size % num_attention_heads == 0 *)

Inductive error : Type :=
| AssertionError (a : assertion)
  (* ValueError("Position ids must be in the range [0, end), but got min and max") *)
| ValueError (end_ : Z) (pos_min pos_max : Z)
| IndexError           (* torch indexing out of bounds (on CUDA a device-side
                          assertion), or mask shape mismatch *)
| RuntimeError         (* torch shape errors: view, split, broadcasting *)
| KeyError             (* store[...] on a missing key *)
| ZeroDivisionError.   (* Python // or % by zero *)

Inductive result (A : Type) : Type :=
| Ok (a : A)
| Raise (e : error).
Arguments Ok {A} a.
Arguments Raise {A} e.

Definition bind {A B} (r : result A) (k : A -> result B) : result B :=
  match r with
  | Ok a => k a
  | Raise e => Raise e
  end.

Notation "x <- c1 ;; c2" := (bind c1 (fun x => c2))
  (at level 61, c1 at next level, right associativity).
Notation "' pat <- c1 ;; c2" := (bind c1 (fun x => match x with pat => c2 end))
  (at level 61, pat pattern, c1 at next level, right associativity).

Definition assert_ (b : bool) (a : assertion) : result unit :=
  if b then Ok tt else Raise (AssertionError a).

Definition guard (b : bool) (e : error) : result unit :=
  if b then Ok tt else Raise e.

(* ================================================================== *)
(** * Tensors *)

Inductive dtype : Type := BFloat16 | Float16 | Float32 | Float64.

Abbreviation vec := (list R).                      (* [d] *)
Abbreviation tensor2 := (list vec).                (* [a, b] *)
Abbreviation tensor3 := (list tensor2).            (* [a, b, c] *)
Abbreviation tensor4 := (list tensor3).            (* [a, b, c, d] *)
Abbreviation bool_mask := (list (list bool)).      (* torch.BoolTensor [batch, seqlen] *)

(** [t.shape[1]] of a two-or-more dimensional tensor. *)
Definition shape1 {A} (t : list (list A)) : nat :=
  match t with
  | [] => 0
  | row :: _ => length row
  end.

(** All rows of [t] have length [n]. *)
Definition rows_have {A} (n : nat) (t : list (list A)) : bool :=
  forallb (fun row => length row =? n) t.

(** [t] has leading shape [(b, s)]. *)
Definition has_shape2 {A} (b s : nat) (t : list (list A)) : bool :=
  (length t =? b) && rows_have s t.

(** [mask.sum()] of one row. *)
Definition count_true (mrow : list bool) : nat :=
  length (filter (fun b => b) mrow).

(** [torch.zeros_like]. *)
Definition zeros_like (t : tensor4) : tensor4 :=
  map (map (map (map (fun _ => 0%R)))) t.

(** [torch.zeros((a, b, c, d))]. *)
Definition zeros (a b c d : nat) : tensor4 :=
  repeat (repeat (repeat (repeat 0%R d) c) b) a.

(** ** Boolean-mask indexing *)

(** One row of [tensor[mask]]: the entries whose mask bit is set, in order. *)
Fixpoint select_row {A} (row : list A) (mrow : list bool) : list A :=
  match row, mrow with
  | x :: row', b :: mrow' =>
      if b then x :: select_row row' mrow' else select_row row' mrow'
  | _, _ => []
  end.

Fixpoint select_rows {A} (t : list (list A)) (m : bool_mask) : list A :=
  match t, m with
  | row :: t', mrow :: m' => select_row row mrow ++ select_rows t' m'
  | _, _ => []
  end.

(** [tensor[mask]] for a mask over the two leading dimensions: torch
    requires the mask's shape to be the tensor's leading shape, and returns
    the selected entries in row-major order. *)
Definition masked_select {A} (t : list (list A)) (m : bool_mask) : result (list A) :=
  _ <- guard (has_shape2 (length m) (shape1 m) t) IndexError ;;
  Ok (select_rows t m).

(** One row of [dest[mask] = values]: positions whose bit is set take the
    next value; the values left over are handed to the next row.  Entries
    of [row] beyond the mask's length are outside the slice and stay. *)
Fixpoint assign_row {A} (row : list A) (mrow : list bool) (vals : list A)
  : list A * list A :=
  match row, mrow with
  | x :: row', b :: mrow' =>
      if b then
        match vals with
        | v :: vals' =>
            let (r, rest) := assign_row row' mrow' vals' in (v :: r, rest)
        | [] =>
            let (r, rest) := assign_row row' mrow' [] in (x :: r, rest)
        end
      else
        let (r, rest) := assign_row row' mrow' vals in (x :: r, rest)
  | _, _ => (row, vals)
  end.

Fixpoint assign_rows {A} (dest : list (list A)) (m : bool_mask) (vals : list A)
  : list (list A) :=
  match dest, m with
  | row :: dest', mrow :: m' =>
      let (r, rest) := assign_row row mrow vals in
      r :: assign_rows dest' m' rest
  | _, _ => dest
  end.

Definition count_all (m : bool_mask) : nat :=
  list_sum (map count_true m).

(** The trailing sizes [(d1, d2)] of a tensor [(b, s, d1, d2)], read off
    its first entry (an empty tensor does not record them). *)
Definition inner_dims (t : tensor4) : nat * nat :=
  (shape1 (hd [] t), shape1 (hd [] (hd [] t))).

(** torch's rule for writing a value of size [d] along a dimension of size
    [D]: the sizes are equal, or [d] is 1 and the value is repeated. *)
Definition expandable (d D : nat) : bool := (d =? D) || (d =? 1).

Definition expand {A} (d D : nat) (l : list A) : list A :=
  if d =? D then l
  else match l with
       | x :: _ => repeat x D
       | [] => []
       end.

(** [dest[:, :s][mask] = values] with [mask] of shape [(b, s)] and values
    of trailing sizes [dims]: the slice must have the mask's shape (so
    [dest] has [b] rows of at least [s] entries), an IndexError otherwise;
    then there must be one value per set bit and the values must broadcast
    to the selected entries of [dest], a RuntimeError otherwise. *)
Definition masked_assign (dest : tensor4) (m : bool_mask) (dims : nat * nat)
                         (vals : list tensor2)
  : result tensor4 :=
  let (d1, d2) := dims in
  let (D1, D2) := inner_dims dest in
  _ <- guard ((length dest =? length m)
              && forallb (fun row => shape1 m <=? length row) dest
              && rows_have (shape1 m) m) IndexError ;;
  _ <- guard ((length vals =? count_all m)
              && expandable d1 D1 && expandable d2 D2) RuntimeError ;;
  Ok (assign_rows dest m (map (fun v => expand d1 D1 (map (expand d2 D2) v)) vals)).

(* ================================================================== *)
(** * [pad_to_right] *)

(** [indices < unpad_seqlens[:, None]] *)
Definition right_pad_mask (unpad_seqlens : list nat) (max_seqlen : nat) : bool_mask :=
  let indices := seq 0 max_seqlen in
  map (fun n => map (fun i => i <? n) indices) unpad_seqlens.

Definition pad_to_right (tensor : tensor4) (mask : bool_mask)
                        (new_tensor : option tensor4)
  : result (tensor4 * bool_mask) :=
  (* First, we need to find the number of padding for each row *)
  let unpad_seqlens := map count_true mask in
  (* Then, we need to find the maximum length of the tensor *)
  let max_seqlen := shape1 mask in
  let right_padded_mask := right_pad_mask unpad_seqlens max_seqlen in
  (* We select the useful values *)
  useful_values <- masked_select tensor mask ;;
  (* We create the new tensor (if not provided) *)
  let new_tensor :=
    match new_tensor with
    | None => zeros_like tensor
    | Some t => t
    end in
  (* We fill the new tensor with the useful values *)
  new_tensor' <- masked_assign new_tensor right_padded_mask
                               (inner_dims tensor) useful_values ;;
  Ok (new_tensor', right_padded_mask).

(* ================================================================== *)
(** * Broadcasting and small list helpers *)

Fixpoint map2 {A B C} (f : A -> B -> C) (xs : list A) (ys : list B) : list C :=
  match xs, ys with
  | x :: xs', y :: ys' => f x y :: map2 f xs' ys'
  | _, _ => []
  end.

(** Sequence a list of results, left to right; the first error wins. *)
Fixpoint sequence {A} (l : list (result A)) : result (list A) :=
  match l with
  | [] => Ok []
  | r :: l' => x <- r ;; xs <- sequence l' ;; Ok (x :: xs)
  end.

(** torch's broadcasting rule along one dimension: the two sizes are equal,
    or one of them is 1 and that operand is repeated. *)
Definition broadcast2 {A B C} (f : A -> B -> result C) (xs : list A) (ys : list B)
  : result (list C) :=
  if length xs =? length ys then sequence (map2 f xs ys)
  else match xs, ys with
       | [x], _ => sequence (map (f x) ys)
       | _, [y] => sequence (map (fun x => f x y) xs)
       | _, _ => Raise RuntimeError
       end.

(** [t[-1]]: IndexError on an empty dimension. *)
Definition last_entry {A} (l : list A) : result A :=
  match rev l with
  | x :: _ => Ok x
  | [] => Raise IndexError
  end.

(** int32 two's-complement wrap-around. *)
Definition wrap32 (z : Z) : Z := ((z + 2 ^ 31) mod 2 ^ 32 - 2 ^ 31)%Z.

Definition b2z (b : bool) : Z := if b then 1%Z else 0%Z.

(** [torch.cumsum(row, dtype=torch.int32)], started from [acc]. *)
Fixpoint cumsum32 (acc : Z) (row : list bool) : list Z :=
  match row with
  | [] => []
  | b :: row' => let acc' := wrap32 (acc + b2z b) in acc' :: cumsum32 acc' row'
  end.

(** A tensor together with its dtype tag. *)
Record tensor (A : Type) : Type := Tensor { dtype_of : dtype; data : A }.
Arguments Tensor {A} _ _.
Arguments dtype_of {A} _.
Arguments data {A} _.

(** [t.type(d)]; values are idealised, so only the tag changes. *)
Definition type_as {A} (t : tensor A) (d : dtype) : tensor A :=
  Tensor d (data t).

(** [t.float()]. *)
Definition to_float {A} (t : tensor A) : tensor A := type_as t Float32.

(** Result dtype of an arithmetic operation between two floating tensors
    (torch type promotion, restricted to the floating dtypes). *)
Definition promote (a b : dtype) : dtype :=
  match a, b with
  | Float64, _ | _, Float64 => Float64
  | Float32, _ | _, Float32 => Float32
  | Float16, Float16 => Float16
  | BFloat16, BFloat16 => BFloat16
  | _, _ => Float32
  end.

(** Shape of a four-dimensional tensor, read off its first entries. *)
Definition shape4 (x : tensor4) : nat * nat * nat * nat :=
  (length x, shape1 x, shape1 (hd [] x), shape1 (hd [] (hd [] x))).

(** [x] is the nested-list image of a tensor of shape [(b, s, h, d)]. *)
Definition has_shape4 (b s h d : nat) (x : tensor4) : bool :=
  (length x =? b)
  && forallb (fun xb => (length xb =? s)
     && forallb (fun xs => (length xs =? h)
        && forallb (fun xh => length xh =? d) xs) xb) x.

(* ================================================================== *)
(** * [RotaryEmbedding] *)

Module RotaryEmbedding.

Abbreviation complex := (R * R)%type.             (* (real, imaginary) *)

Record t : Type := {
  dim : nat;
  end_ : nat;
  theta : R;
  freqs_cis : list (list complex);   (* buffer [end, dim // 2, 2] *)
  _initialized_buffer : bool
}.

(** [__init__]; [uninit] stands for the contents of the [torch.empty]
    buffer, which are unspecified until the first use. *)
Definition init_ (dim end_ : nat) (theta : R) (uninit : list (list complex))
  : result t :=
  _ <- assert_ (dim mod 2 =? 0) AssertDimEven ;;
  Ok {| dim := dim; end_ := end_; theta := theta;
        freqs_cis := uninit; _initialized_buffer := false |}.

(** [torch.polar(abs, angle)]. *)
Definition polar (abs angle : R) : complex :=
  (abs * cos angle, abs * sin angle)%R.

(** [1.0 / theta ** (torch.arange(0, dim, 2)[: dim // 2] / dim)] *)
Definition inv_freqs (dim : nat) (theta : R) : list R :=
  map (fun a => (1 / Rpower theta (INR a / INR dim))%R)
      (firstn (dim / 2) (map (fun i => 2 * i) (seq 0 ((dim + 1) / 2)))).

(** The table [torch.polar(ones, outer(arange(end), freqs))]. *)
Definition rotary_table (dim end_ : nat) (theta : R) : list (list complex) :=
  let freqs := inv_freqs dim theta in
  let t := seq 0 end_ in
  map (fun p => map (fun f => polar 1 (INR p * f)) freqs) t.

Definition init_rotary_embeddings (self : t) : t :=
  if _initialized_buffer self then self   (* Buffer if already initialized *)
  else {| dim := dim self; end_ := end_ self; theta := theta self;
          freqs_cis := rotary_table (dim self) (end_ self) (theta self);
          _initialized_buffer := true |}.

(** [x.view(..., inner_dim // 2, 2)] followed by [view_as_complex]. *)
Fixpoint view_as_complex (v : vec) : list complex :=
  match v with
  | a :: b :: v' => (a, b) :: view_as_complex v'
  | _ => []
  end.

(** [view_as_real] followed by [.view(..., inner_dim)]. *)
Fixpoint view_as_real (c : list complex) : vec :=
  match c with
  | (a, b) :: c' => a :: b :: view_as_real c'
  | [] => []
  end.

Definition cmul (x y : complex) : complex :=
  let (a, b) := x in
  let (c, d) := y in
  (a * c - b * d, a * d + b * c)%R.

(** [buf[p]] with a tensor index: negative indices count from the end. *)
Definition index_row (buf : list (list complex)) (p : Z) : result (list complex) :=
  let n := Z.of_nat (length buf) in
  let i := if (p <? 0)%Z then (p + n)%Z else p in
  if ((0 <=? i) && (i <? n))%Z then
    match nth_error buf (Z.to_nat i) with
    | Some row => Ok row
    | None => Raise IndexError
    end
  else Raise IndexError.

Definition zmin_list (l : list Z) (d : Z) : Z := fold_right Z.min d l.
Definition zmax_list (l : list Z) (d : Z) : Z := fold_right Z.max d l.
(** [position_ids.min()] and [position_ids.max()] of a non-empty matrix. *)
Definition pos_min (position_ids : list (list Z)) : Z :=
  let l := concat position_ids in zmin_list l (hd 0%Z l).
Definition pos_max (position_ids : list (list Z)) : Z :=
  let l := concat position_ids in zmax_list l (hd 0%Z l).

(** The rotations [freqs_cis] selected for the call, as a tensor of shape
    [(b', s', 1, dim // 2)] with the size-one head axis left implicit. *)
Definition select_freqs (self : t) (seq_length : nat)
                        (position_ids : option (list (list Z)))
  : result (list (list (list complex))) :=
  match position_ids with
  | None =>
      (* self.freqs_cis[None, :seq_length, None, :] *)
      Ok [firstn seq_length (freqs_cis self)]
  | Some position_ids =>
      last_row <- last_entry position_ids ;;
      last <- last_entry last_row ;;
      (* Quick test hopefully *)
      if ((last <? 0) || (Z.of_nat (end_ self) <=? last))%Z then
        Raise (ValueError (Z.of_nat (end_ self))
                          (pos_min position_ids) (pos_max position_ids))
      else
        (* self.freqs_cis[position_ids][:, :, None, :] *)
        sequence (map (fun row => sequence (map (index_row (freqs_cis self)) row))
                      position_ids)
  end.

(** [complex_x * complex_freqs] with broadcasting on every axis; the head
    axis of the rotations has size one. *)
Definition rotate (complex_x : list (list (list (list complex))))
                  (complex_freqs : list (list (list complex)))
  : result (list (list (list (list complex)))) :=
  broadcast2
    (fun xb fb =>
       broadcast2
         (fun xs fs =>
            broadcast2
              (fun xh f1 => broadcast2 (fun c f => Ok (cmul c f)) xh f1)
              xs [fs])
         xb fb)
    complex_x complex_freqs.

Definition forward (self : t) (x : tensor tensor4)
                   (position_ids : option (list (list Z)))
  : t * result (tensor tensor4) :=
  let self := if _initialized_buffer self then self
              else init_rotary_embeddings self in
  (self,
   let '(batch_size, seq_length, num_heads, inner_dim) := shape4 (data x) in
   let dtype := dtype_of x in
   _ <- assert_ (inner_dim mod 2 =? 0) AssertDimEven ;;
   let x := match dtype_of x with
            | BFloat16 => to_float x
            | _ => x
            end in
   let complex_x := map (map (map view_as_complex)) (data x) in
   complex_freqs <- select_freqs self seq_length position_ids ;;
   prod <- rotate complex_x complex_freqs ;;
   let x_out := Tensor (promote (dtype_of x) Float32)
                       (map (map (map view_as_real)) prod) in
   (* .view(batch_size, seq_length, num_heads, inner_dim) *)
   _ <- guard (has_shape4 batch_size seq_length num_heads inner_dim (data x_out))
              RuntimeError ;;
   Ok (type_as x_out dtype)).

End RotaryEmbedding.

(* ================================================================== *)
(** * External collaborators and module state *)

(** Arguments of [flash_attn_varlen_func] (the ragged form of the kernel). *)
Record varlen_args : Type := {
  vl_q : tensor3;                 (* (total_q, n_heads, d) *)
  vl_k : tensor3;
  vl_v : tensor3;
  vl_cu_seqlens_q : list Z;
  vl_cu_seqlens_k : list Z;
  vl_max_seqlen_q : nat;
  vl_max_seqlen_k : nat;
  vl_causal : bool
}.

(** Arguments of [flash_attn_with_kvcache] (the incremental form). *)
Record kvcache_args : Type := {
  kc_q : tensor4;                 (* (batch, 1, n_heads, d) *)
  kc_k_cache : tensor4;
  kc_v_cache : tensor4;
  kc_k : tensor4;
  kc_v : tensor4;
  kc_cache_seqlens : list Z;
  kc_causal : bool
}.

Inductive kernel_call : Type :=
| VarlenCall (a : varlen_args)
| KvcacheCall (a : kvcache_args).

(** The attached store of [AttachableStore]: a dict read and written under
    the three keys ["key"], ["value"] and ["position_offsets"]; a field is
    [None] when its key is absent. *)
Record store : Type := {
  key : option tensor4;
  value : option tensor4;
  position_offsets : option (list Z)
}.

Definition empty_store : store :=
  {| key := None; value := None; position_offsets := None |}.

(** What a call of the attention module can read and change: its rotary
    sub-module (lazily initialised buffer), the attached store
    ([get_local_store()], [None] when no store is attached), and the list of
    calls made to the external kernels, oldest first, kept to state how
    often and with which arguments they are invoked. *)
Record state : Type := {
  rotary_embedding : RotaryEmbedding.t;
  local_store : option store;
  kernel_log : list kernel_call
}.

(** State that survives an exception, plus the result or the exception. *)
Definition M (A : Type) : Type := state -> state * result A.

Definition retM {A} (a : A) : M A := fun st => (st, Ok a).

Definition bindM {A B} (c : M A) (k : A -> M B) : M B :=
  fun st =>
    match c st with
    | (st', Ok a) => k a st'
    | (st', Raise e) => (st', Raise e)
    end.

Definition lift {A} (r : result A) : M A := fun st => (st, r).

Notation "x <~ c1 ;; c2" := (bindM c1 (fun x => c2))
  (at level 61, c1 at next level, right associativity).
Notation "' pat <~ c1 ;; c2" := (bindM c1 (fun x => match x with pat => c2 end))
  (at level 61, pat pattern, c1 at next level, right associativity).

Definition get_local_store : M (option store) :=
  fun st => (st, Ok (local_store st)).

Definition set_local_store (s : store) : M unit :=
  fun st => ({| rotary_embedding := rotary_embedding st;
                local_store := Some s;
                kernel_log := kernel_log st |}, Ok tt).

Definition log_call (c : kernel_call) : M unit :=
  fun st => ({| rotary_embedding := rotary_embedding st;
                local_store := local_store st;
                kernel_log := kernel_log st ++ [c] |}, Ok tt).

(** [self.rotary_embedding(x, position_ids=...)] *)
Definition call_rotary (x : tensor tensor4) (position_ids : option (list (list Z)))
  : M (tensor tensor4) :=
  fun st =>
    let (rot, r) := RotaryEmbedding.forward (rotary_embedding st) x position_ids in
    ({| rotary_embedding := rot;
        local_store := local_store st;
        kernel_log := kernel_log st |}, r).

(** [n] consecutive chunks of [size] entries. *)
Fixpoint chunks {A} (n size : nat) (l : list A) : list (list A) :=
  match n with
  | 0 => []
  | S n' => firstn size l :: chunks n' size (skipn size l)
  end.

(** [t.transpose(0, 1)] of a tensor with [ncols] entries along dimension 1. *)
Definition column {A} (j : nat) (t : list (list A)) : list A :=
  flat_map (fun row => match nth_error row j with
                       | Some x => [x]
                       | None => []
                       end) t.

Definition transpose01 {A} (ncols : nat) (t : list (list A)) : list (list A) :=
  map (fun j => column j t) (seq 0 ncols).

(** [t.view(b, s, f)] of a contiguous tensor given by its scalars in
    row-major order. *)
Definition view3 (b s f : nat) (flat : list R) : result tensor3 :=
  _ <- guard (length flat =? b * s * f) RuntimeError ;;
  Ok (map (chunks s f) (chunks b (s * f) flat)).

Section Attention.

(** The external primitives, taken as given: the sharded projections, the
    two entry points of the fused kernel and flash-attn's padding helpers.
    They are assumed to return; [flash_attn_with_kvcache] returns the
    caches it has updated in place next to its output. *)
Variable qkv_proj : tensor tensor3 -> tensor tensor3.
Variable o_proj : tensor tensor3 -> tensor tensor3.
Variable flash_attn_varlen_func : varlen_args -> tensor3.
Variable flash_attn_with_kvcache : kvcache_args -> tensor4 * tensor4 * tensor4.
(* bert_padding.unpad_input: (packed, indices, cu_seqlens, max_seqlen_in_batch) *)
Variable unpad_input : tensor4 -> bool_mask -> tensor3 * list nat * list Z * nat.
(* bert_padding.pad_input(packed, indices, batch, seqlen) *)
Variable pad_input : tensor3 -> list nat -> nat -> nat -> tensor4.

(* ---------------------------------------------------------------- *)
(** ** [CoreAttention] *)

(** [cu_seqlens]: a zero followed by the int32 running sum of the rows'
    valid counts. *)
Definition cu_seqlens (m : bool_mask) : list Z :=
  0%Z :: (fix cumsum (acc : Z) (l : list Z) : list Z :=
            match l with
            | [] => []
            | c :: l' => let acc' := wrap32 (acc + c) in acc' :: cumsum acc' l'
            end) 0%Z (map (fun row => wrap32 (Z.of_nat (count_true row))) m).

Definition CoreAttention_forward
    (query_states key_states value_states : tensor3)
    (q_sequence_mask kv_sequence_mask : bool_mask) : M tensor3 :=
  let cu_seqlens_q := cu_seqlens q_sequence_mask in
  let cu_seqlens_k := cu_seqlens kv_sequence_mask in
  (* This is a hack as we always have q_length == 1 when using kv cache. *)
  let causal := if shape1 q_sequence_mask =? 1 then false else true in
  let args := {| vl_q := query_states; vl_k := key_states; vl_v := value_states;
                 vl_cu_seqlens_q := cu_seqlens_q;
                 vl_cu_seqlens_k := cu_seqlens_k;
                 vl_max_seqlen_q := shape1 q_sequence_mask;
                 vl_max_seqlen_k := shape1 kv_sequence_mask;
                 vl_causal := causal |} in
  _ <~ log_call (VarlenCall args) ;;
  retM (flash_attn_varlen_func args).

(* ---------------------------------------------------------------- *)
(** ** [CausalSelfAttention] *)

(** The fields of [LlamaConfig] the module reads; [num_key_value_heads]
    is [None] when the attribute is not defined. *)
Record LlamaConfig : Type := {
  hidden_size : nat;
  num_attention_heads : nat;
  num_key_value_heads : option nat;
  max_position_embeddings : nat
}.

Record CausalSelfAttention : Type := {
  n_local_q_heads : nat;
  n_local_kv_heads : nat;
  n_repeats : nat;
  is_gqa : bool;
  d_qk : nat;
  d_v : nat;
  d_model : nat;
  prefill_kv_len : nat
}.

(** Python's [a % b] and [a // b] on non-negative integers. *)
Definition py_mod (a b : nat) : result nat :=
  if b =? 0 then Raise ZeroDivisionError else Ok (a mod b).
Definition py_div (a b : nat) : result nat :=
  if b =? 0 then Raise ZeroDivisionError else Ok (a / b).

(** [CausalSelfAttention.__init__]: the module and its rotary sub-module. *)
Definition CausalSelfAttention_init
    (config : LlamaConfig) (tp_size : nat)
    (uninit : list (list RotaryEmbedding.complex))
  : result (CausalSelfAttention * RotaryEmbedding.t) :=
  r <- py_mod (num_attention_heads config) tp_size ;;
  _ <- assert_ (r =? 0) AssertHeadsDivTP ;;
  kv_heads <-
    match num_key_value_heads config with
    | Some kv =>
        r <- py_mod kv tp_size ;;
        _ <- assert_ (r =? 0) AssertKVHeadsDivTP ;;
        Ok kv
    | None => Ok (num_attention_heads config)
    end ;;
  r <- py_mod (num_attention_heads config) kv_heads ;;
  _ <- assert_ (r =? 0) AssertHeadsDivKV ;;
  n_local_q_heads <- py_div (num_attention_heads config) tp_size ;;
  n_local_kv_heads <- py_div kv_heads tp_size ;;
  n_repeats <- py_div (num_attention_heads config) kv_heads ;;
  let is_gqa := negb (num_attention_heads config =? kv_heads) in
  d_qk <- py_div (hidden_size config) (num_attention_heads config) ;;
  d_v <- py_div (hidden_size config) (num_attention_heads config) ;;
  rotary <- RotaryEmbedding.init_ d_qk (max_position_embeddings config)
                                  10000 uninit ;;
  (* CoreAttention.__init__ *)
  r <- py_mod (hidden_size config) (num_attention_heads config) ;;
  _ <- assert_ (r =? 0) AssertHiddenDivHeads ;;
  Ok ({| n_local_q_heads := n_local_q_heads;
         n_local_kv_heads := n_local_kv_heads;
         n_repeats := n_repeats;
         is_gqa := is_gqa;
         d_qk := d_qk;
         d_v := d_v;
         d_model := hidden_size config;
         prefill_kv_len := max_position_embeddings config |},
      rotary).

(** Splitting the projection [seq, batch, features] into query, key and
    value of shape [batch, seq, heads, d_qk]. *)
Definition split_qkv (self : CausalSelfAttention) (qkv_states : tensor3)
                     (batch_size q_length : nat)
  : result (tensor4 * tensor4 * tensor4) :=
  if is_gqa self then
    (* torch.split(qkv_states, [q, k, v sizes], dim=-1) *)
    let nq := n_local_q_heads self * d_qk self in
    let nk := n_local_kv_heads self * d_qk self in
    _ <- guard (forallb (rows_have (nq + nk + nk)) qkv_states) RuntimeError ;;
    let part (from len heads : nat) : tensor4 :=
      (* .transpose(0, 1).contiguous().view(batch, q_length, heads, d_qk) *)
      map (map (fun row => chunks heads (d_qk self) (firstn len (skipn from row))))
          (transpose01 batch_size qkv_states) in
    Ok (part 0 nq (n_local_q_heads self),
        part nq nk (n_local_kv_heads self),
        part (nq + nk) nk (n_local_kv_heads self))
  else
    (* qkv_states.view(q_length, batch, 3, heads, d_qk).permute(2, 1, 0, 3, 4) *)
    let n := n_local_q_heads self * d_qk self in
    _ <- guard (forallb (rows_have (3 * n)) qkv_states) RuntimeError ;;
    let part (i : nat) : tensor4 :=
      map (map (fun row => chunks (n_local_q_heads self) (d_qk self)
                                  (firstn n (skipn (i * n) row))))
          (transpose01 batch_size qkv_states) in
    Ok (part 0, part 1, part 2).

(** [(sequence_mask[:, :-1] & (~sequence_mask[:, 1:])).any()]: some True
    is directly followed by a False. *)
Definition true_then_false (sequence_mask : bool_mask) : bool :=
  existsb (fun row =>
             existsb (fun b => b)
                     (map2 andb (removelast row) (map negb (tl row))))
          sequence_mask.

(** The attention output before the final [view]: packed
    [(batch * seq, heads, d)] from [CoreAttention], dense
    [(batch, seq, heads, d)] from the cached paths. *)
Inductive attention_result : Type :=
| Packed (t : tensor3)
| Dense (t : tensor4).

Definition scalars (a : attention_result) : list R :=
  match a with
  | Packed t => concat (concat t)
  | Dense t => concat (concat (concat t))
  end.

Definition update_store (k_cache v_cache : tensor4) (offsets : list Z) : M unit :=
  set_local_store {| key := Some k_cache;
                     value := Some v_cache;
                     position_offsets := Some offsets |}.

Definition CausalSelfAttention_forward
    (self : CausalSelfAttention)
    (hidden_states : tensor tensor3)        (* [seq_length, batch_size, hidden_size] *)
    (sequence_mask : bool_mask)             (* [batch_size, seq_length] *)
  : M (tensor tensor3 * bool_mask) :=
  let qkv_states := qkv_proj hidden_states in
  let q_length := length (data qkv_states) in
  let batch_size := shape1 (data qkv_states) in
  let dt := dtype_of qkv_states in
  '(query_states, key_states, value_states) <~
     lift (split_qkv self (data qkv_states) batch_size q_length) ;;
  store <~ get_local_store ;;
  attention_output <~
    match store with
    | Some store =>                         (* Inference case *)
        position_ids <~ lift
          match position_offsets store with
          | Some old_position_offsets =>
              (* old_position_offsets[:, None] + sequence_mask *)
              broadcast2 (fun o mrow => Ok (map (fun m => wrap32 (o + b2z m)) mrow))
                         old_position_offsets sequence_mask
          | None =>
              (* torch.cumsum(sequence_mask, dim=-1, dtype=torch.int32) - 1 *)
              Ok (map (fun mrow => map (fun c => wrap32 (c - 1)) (cumsum32 0 mrow))
                      sequence_mask)
          end ;;
        (* position_ids[:, -1] *)
        position_offsets <~ lift (sequence (map last_entry position_ids)) ;;
        (* Compute rotary embeddings *)
        query_states <~ call_rotary (Tensor dt query_states) (Some position_ids) ;;
        key_states <~ call_rotary (Tensor dt key_states) (Some position_ids) ;;
        '(attention_output, k_cache, v_cache) <~
          match key store with
          | None =>                         (* First inference iteration (Prefill) *)
              _ <~ lift (assert_ (negb (true_then_false sequence_mask))
                                 AssertNoMidMask) ;;
              (* preallocate k_cache, v_cache to self.prefill_kv_len *)
              let k_cache := zeros batch_size (prefill_kv_len self)
                                   (n_local_kv_heads self) (d_qk self) in
              let v_cache := zeros batch_size (prefill_kv_len self)
                                   (n_local_kv_heads self) (d_v self) in
              let '(query_unpad, indices_q, cu_seqlens_q, max_seqlen_q) :=
                unpad_input (data query_states) sequence_mask in
              let '(key_unpad, indices_k, cu_seqlens_k, max_seqlen_k) :=
                unpad_input (data key_states) sequence_mask in
              let '(value_unpad, _, _, _) := unpad_input value_states sequence_mask in
              let args := {| vl_q := query_unpad; vl_k := key_unpad;
                             vl_v := value_unpad;
                             vl_cu_seqlens_q := cu_seqlens_q;
                             vl_cu_seqlens_k := cu_seqlens_k;
                             vl_max_seqlen_q := max_seqlen_q;
                             vl_max_seqlen_k := max_seqlen_k;
                             vl_causal := true |} in
              _ <~ log_call (VarlenCall args) ;;
              let output_unpad := flash_attn_varlen_func args in
              let attention_output :=
                pad_input output_unpad indices_q batch_size q_length in
              (* pad_to_right fills the caches in place *)
              '(k_cache, _) <~ lift (pad_to_right (data key_states) sequence_mask
                                                  (Some k_cache)) ;;
              '(v_cache, _) <~ lift (pad_to_right value_states sequence_mask
                                                  (Some v_cache)) ;;
              retM (Dense attention_output, k_cache, v_cache)
          | Some k_cache =>                 (* Subsequent inference iterations *)
              v_cache <~ lift match value store with
                              | Some v_cache => Ok v_cache
                              | None => Raise KeyError
                              end ;;
              (* the views of query, key and value to their own shapes
                 change nothing *)
              let args := {| kc_q := data query_states;
                             kc_k_cache := k_cache;
                             kc_v_cache := v_cache;
                             kc_k := data key_states;
                             kc_v := value_states;
                             kc_cache_seqlens := position_offsets;
                             kc_causal := true |} in
              _ <~ log_call (KvcacheCall args) ;;
              (* flash-attn has updated with new key_states using cache_seqlens:
                 the tensors of the store, changed in place *)
              let '(attention_output, k_cache, v_cache) :=
                flash_attn_with_kvcache args in
              retM (Dense attention_output, k_cache, v_cache)
          end ;;
        (* store.update({"key": ..., "value": ..., "position_offsets": ...}) *)
        _ <~ update_store k_cache v_cache position_offsets ;;
        retM attention_output
    | None =>                               (* Training case *)
        (* Apply rotary embeddings to query/key states *)
        query_states <~ call_rotary (Tensor dt query_states) None ;;
        key_states <~ call_rotary (Tensor dt key_states) None ;;
        let q_sequence_mask := sequence_mask in
        let kv_sequence_mask := sequence_mask in
        (* .view(batch_size * length, heads, d) *)
        attention_output <~
          CoreAttention_forward (concat (data query_states))
                                (concat (data key_states))
                                (concat value_states)
                                q_sequence_mask kv_sequence_mask ;;
        retM (Packed attention_output)
    end ;;
  (* .view(batch_size, q_length, n_local_q_heads * d_v).transpose(0, 1) *)
  attention_output <~
    lift (view3 batch_size q_length (n_local_q_heads self * d_v self)
                (scalars attention_output)) ;;
  let output := o_proj (Tensor dt (transpose01 q_length attention_output)) in
  retM (output, sequence_mask).

End Attention.

(* ================================================================== *)
(** * Vocabulary of the specification *)

(** Prop-level reading of [has_shape4]. *)
Definition shaped4 {A} (b s h d : nat) (x : list (list (list (list A)))) : Prop :=
  length x = b /\
  Forall (fun xb => length xb = s /\
    Forall (fun xs => length xs = h /\
      Forall (fun xh => length xh = d) xs) xb) x.

(** The entry of a tensor at indices [(b, s, h)]. *)
Definition entry3 {A} (x : list (list (list A))) (b s h : nat) : option A :=
  match nth_error x b with
  | Some xb => match nth_error xb s with
               | Some xs => nth_error xs h
               | None => None
               end
  | None => None
  end.

(** Squared Euclidean norm and Euclidean norm of a per-head vector. *)
Definition sum_sq (v : vec) : R := fold_right (fun a acc => (a * a + acc)%R) 0%R v.
Definition norm (v : vec) : R := sqrt (sum_sq v).

Definition unit_modulus (c : RotaryEmbedding.complex) : Prop :=
  (fst c * fst c + snd c * snd c = 1)%R.

Definition csum_sq (cs : list RotaryEmbedding.complex) : R :=
  fold_right (fun c acc => (fst c * fst c + snd c * snd c + acc)%R) 0%R cs.

(** A rotary module as the code can hold it: once the one-shot flag is set,
    the buffer is the generated table. *)
Definition rotary_wf (self : RotaryEmbedding.t) : Prop :=
  RotaryEmbedding._initialized_buffer self = true ->
  RotaryEmbedding.freqs_cis self
  = RotaryEmbedding.rotary_table (RotaryEmbedding.dim self) (RotaryEmbedding.end_ self)
                                 (RotaryEmbedding.theta self).

(** Position arguments on which the rotary lookup is defined: a matrix of
    the input's [(batch, seq)] shape whose entries index the table
    (negative ones from its end) and whose last entry passes the range
    test; or no matrix and a sequence no longer than the table. *)
Definition positions_ok (self : RotaryEmbedding.t) (b s : nat)
           (position_ids : option (list (list Z))) : Prop :=
  match position_ids with
  | None => s <= RotaryEmbedding.end_ self
  | Some pos =>
      let n := Z.of_nat (RotaryEmbedding.end_ self) in
      length pos = b
      /\ Forall (fun row => length row = s /\ Forall (fun p => (- n <= p < n)%Z) row) pos
      /\ exists last_row last,
           last_entry pos = Ok last_row /\ last_entry last_row = Ok last
           /\ (0 <= last < n)%Z
  end.

(** The rows [pad_to_right] is expected to produce: the valid entries of
    the source row, then what the destination row held beyond them. *)
Fixpoint right_padded {A} (dest t : list (list A)) (m : bool_mask) : list (list A) :=
  match dest, t, m with
  | drow :: dest', row :: t', mrow :: m' =>
      (select_row row mrow ++ skipn (count_true mrow) drow)
        :: right_padded dest' t' m'
  | _, _, _ => []
  end.

(** Some row holds a True at an index and a False at a later one. *)
Definition has_gap (sequence_mask : bool_mask) : Prop :=
  exists row i j,
    In row sequence_mask /\ i < j
    /\ nth_error row i = Some true /\ nth_error row j = Some false.

(** Pure left padding: a run of False followed by a run of True. *)
Definition left_padded (row : list bool) : Prop :=
  exists a b, row = repeat false a ++ repeat true b.

Definition shaped3 {A} (a b c : nat) (x : list (list (list A))) : Prop :=
  length x = a /\
  Forall (fun r => length r = b /\ Forall (fun f => length f = c) r) x.

(** Width of the fused projection: query, key and value features. *)
Definition qkv_features (self : CausalSelfAttention) : nat :=
  if is_gqa self then
    n_local_q_heads self * d_qk self
    + n_local_kv_heads self * d_qk self + n_local_kv_heads self * d_qk self
  else 3 * (n_local_q_heads self * d_qk self).

(** Number of key/value heads the split produces. *)
Definition kv_heads (self : CausalSelfAttention) : nat :=
  if is_gqa self then n_local_kv_heads self else n_local_q_heads self.

(** Errors other than the mask assertion. *)
Definition not_mask_error (e : error) : Prop :=
  e <> AssertionError AssertNoMidMask.

(** [old_position_offsets[:, None] + sequence_mask] for matching batch
    sizes. *)
Definition decode_positions (old : list Z) (sequence_mask : bool_mask)
  : list (list Z) :=
  map2 (fun o mrow => map (fun m => wrap32 (o + b2z m)) mrow) old sequence_mask.

(** The preconditions under which a prefill call gets past the rotary
    encoder: a projection [qkv_states] of the configured width, a mask of
    the batch's shape, and valid counts that fit the rotary table (no row
    has more valid tokens than the table has positions, the last row has
    at least one). *)
Definition prefill_ready (self : CausalSelfAttention) (st : state)
           (qkv_states : tensor3) (sequence_mask : bool_mask)
           (b s : nat) : Prop :=
  rotary_wf (rotary_embedding st)
  /\ RotaryEmbedding.dim (rotary_embedding st) = d_qk self
  /\ d_qk self mod 2 = 0
  /\ shaped3 s b (qkv_features self) qkv_states
  /\ has_shape2 b s sequence_mask = true
  /\ 1 <= s /\ (Z.of_nat s < 2 ^ 31)%Z
  /\ Forall (fun mrow => count_true mrow
                         <= RotaryEmbedding.end_ (rotary_embedding st))
            sequence_mask
  /\ exists last_row, last_entry sequence_mask = Ok last_row
                      /\ 1 <= count_true last_row.

(* ================================================================== *)
(** * A concrete instantiation

    Stand-ins for the external primitives, a small module and small
    states, used to run the model on concrete inputs.  The padding helpers
    and the cache write follow flash-attn's documented behaviour; the
    attention arithmetic itself is not modelled (the kernels return the
    query). *)

Module Example.

(** One head of dimension two: the projection triples the features. *)
Definition qkv_proj (h : tensor tensor3) : tensor tensor3 :=
  Tensor (dtype_of h) (map (map (fun row => row ++ row ++ row)) (data h)).

Definition o_proj (h : tensor tensor3) : tensor tensor3 := h.

Definition flash_attn_varlen_func (a : varlen_args) : tensor3 := vl_q a.

Fixpoint write_at {A} (i : nat) (x : A) (l : list A) : list A :=
  match l, i with
  | [], _ => []
  | _ :: l', 0 => x :: l'
  | y :: l', S i' => y :: write_at i' x l'
  end.

(** Appends the new key/value at each row's cursor. *)
Definition flash_attn_with_kvcache (a : kvcache_args)
  : tensor4 * tensor4 * tensor4 :=
  let append (cache new : tensor4) : tensor4 :=
    map2 (fun rows pos => write_at (Z.to_nat pos) (hd [] (snd rows)) (fst rows))
         (combine cache new) (kc_cache_seqlens a) in
  (kc_q a, append (kc_k_cache a) (kc_k a), append (kc_v_cache a) (kc_v a)).

(** Flat indices of the valid positions. *)
Definition valid_indices (m : bool_mask) : list nat :=
  map fst (filter snd (combine (seq 0 (length (concat m))) (concat m))).

Definition unpad_input (t : tensor4) (m : bool_mask)
  : tensor3 * list nat * list Z * nat :=
  (select_rows t m, valid_indices m, cu_seqlens m,
   fold_right Nat.max 0 (map count_true m)).

Fixpoint index_of (i : nat) (l : list nat) : option nat :=
  match l with
  | [] => None
  | j :: l' => if i =? j then Some 0 else option_map S (index_of i l')
  end.

Definition pad_input (packed : tensor3) (indices : list nat) (b s : nat)
  : tensor4 :=
  let zero := map (map (fun _ => 0%R)) (hd [] packed) in
  chunks b s (map (fun i => match index_of i indices with
                            | Some j => nth j packed zero
                            | None => zero
                            end) (seq 0 (b * s))).

Definition forward :=
  CausalSelfAttention_forward qkv_proj o_proj flash_attn_varlen_func
                              flash_attn_with_kvcache unpad_input pad_input.

(** Rotary table of three positions for head dimension two. *)
Definition rot : RotaryEmbedding.t :=
  {| RotaryEmbedding.dim := 2; RotaryEmbedding.end_ := 3;
     RotaryEmbedding.theta := 10000;
     RotaryEmbedding.freqs_cis := [];
     RotaryEmbedding._initialized_buffer := false |}.

Definition config : LlamaConfig :=
  {| hidden_size := 2; num_attention_heads := 1;
     num_key_value_heads := Some 1; max_position_embeddings := 3 |}.

(** One query head and one key/value head of dimension two, capacity
    three: what [__init__] builds from [config]. *)
Definition attn : CausalSelfAttention :=
  {| n_local_q_heads := 1; n_local_kv_heads := 1; n_repeats := 1;
     is_gqa := false; d_qk := 2; d_v := 2; d_model := 2;
     prefill_kv_len := 3 |}.

Definition state_with (s : option store) : state :=
  {| rotary_embedding := rot; local_store := s; kernel_log := [] |}.

(** A store as a prefill of [n + 1] tokens in a single row leaves it. *)
Definition store_at (n : Z) : store :=
  {| key := Some (zeros 1 3 1 2);
     value := Some (zeros 1 3 1 2);
     position_offsets := Some [n] |}.

(** Hidden states [seq_length, batch_size, hidden_size]. *)
Definition one_token : tensor tensor3 := Tensor Float32 [[[1%R; 2%R]]].
Definition two_tokens : tensor tensor3 :=
  Tensor Float32 [[[1%R; 2%R]]; [[3%R; 4%R]]].
Definition two_rows : tensor tensor3 :=
  Tensor Float32 [[[1%R; 2%R]; [3%R; 4%R]]; [[5%R; 6%R]; [7%R; 8%R]]].

End Example.

(** Evaluate the model on a concrete input, leaving real arithmetic
    alone. *)
Ltac run := cbv -[Rplus Rmult Rminus Rdiv IZR INR cos sin Rpower].

(* ================================================================== *)
(** * Vocabulary for the rotations of the rotary encoder *)

(** The table row a position id selects: a negative id counts from the
    table's end. *)
Definition table_index (end_ : nat) (p : Z) : nat :=
  Z.to_nat (if (p <? 0)%Z then (p + Z.of_nat end_)%Z else p).

(** The angle by which pair [j] of a vector is turned at position [p]:
    [p * theta ** (-2j / dim)]. *)
Definition rotary_angle (dim : nat) (theta : R) (p j : nat) : R :=
  (INR p * (1 / Rpower theta (INR (2 * j) / INR dim)))%R.

(** The rotations of position [p], one per pair. *)
Definition rotation_at (dim : nat) (theta : R) (p : nat)
  : list RotaryEmbedding.complex :=
  map (fun j => RotaryEmbedding.polar 1 (rotary_angle dim theta p j)) (seq 0 (dim / 2)).

(** A vector with its consecutive pairs turned by the given rotations. *)
Definition rotate_vec (rot : list RotaryEmbedding.complex) (v : vec) : vec :=
  RotaryEmbedding.view_as_real
    (map2 RotaryEmbedding.cmul (RotaryEmbedding.view_as_complex v) rot).

(** A tensor [(b, s, h, d)] with the vectors of slot [(ib, js)] turned by
    the rotations of position [pos[ib][js]]. *)
Definition rotated (self : RotaryEmbedding.t) (x : tensor4) (pos : list (list Z))
  : tensor4 :=
  map2 (fun xb prow =>
          map2 (fun xs p =>
                  map (rotate_vec
                         (rotation_at (RotaryEmbedding.dim self)
                                      (RotaryEmbedding.theta self)
                                      (table_index (RotaryEmbedding.end_ self) p)))
                      xs)
               xb prow)
       x pos.

(** [torch.arange(s)] in every one of [b] rows. *)
Definition arange_positions (b s : nat) : list (list Z) :=
  repeat (map Z.of_nat (seq 0 s)) b.

(* ================================================================== *)
(** * Vocabulary for the projection split and the packed layout *)

(** The entry of a tensor at indices [(i, j)]. *)
Definition entry2 {A} (x : list (list A)) (i j : nat) : option A :=
  match nth_error x i with
  | Some row => nth_error row j
  | None => None
  end.

(** Number of valid positions in the first [i] rows of a mask. *)
Definition valid_before (m : bool_mask) (i : nat) : nat :=
  list_sum (map count_true (firstn i m)).

(* ================================================================== *)
(** * The rest of the model file

    [GLUActivation], [MLP], [LlamaDecoderLayer], [Embedding],
    [masked_mean], [Loss], [get_block_compute_costs], [get_flops_per_sec]
    and [get_flops].  The pipeline wiring of [LlamaModel] ([PipelineBlock],
    [P2P]) and [init_model_randomly] (a walk over [nn.Module]'s parameter
    registry) are not embedded. *)

(** The exceptions of this part of the code: those of the attention path
    and Python's own unpacking, argument and attribute errors. *)
Inductive exception : Type :=
| Raised (e : error)
  (* unpacking [got] values into [expected] names: Python's ValueError,
     the interpreter's RuntimeError when the module is scripted *)
| UnpackError (expected got : nat)
  (* ValueError("recompute_granularity must be one of 'full' or 'selective'") *)
| GranularityValueError
  (* AttributeError: 'NoneType' object has no attribute ... *)
| AttributeError.

Inductive outcome (A : Type) : Type :=
| Return (a : A)
| Throw (e : exception).
Arguments Return {A} a.
Arguments Throw {A} e.

Definition obind {A B} (c : outcome A) (k : A -> outcome B) : outcome B :=
  match c with
  | Return a => k a
  | Throw e => Throw e
  end.

Notation "x <-- c1 ;; c2" := (obind c1 (fun x => c2))
  (at level 61, c1 at next level, right associativity).
Notation "' pat <-- c1 ;; c2" := (obind c1 (fun x => match x with pat => c2 end))
  (at level 61, pat pattern, c1 at next level, right associativity).

Definition of_result {A} (r : result A) : outcome A :=
  match r with
  | Ok a => Return a
  | Raise e => Throw (Raised e)
  end.

(** int64 two's-complement wrap-around. *)
Definition wrap64 (z : Z) : Z := ((z + 2 ^ 63) mod 2 ^ 64 - 2 ^ 63)%Z.

(** An elementwise binary operation on tensors [(a, b, c)], with torch's
    broadcasting on every axis. *)
Definition broadcast3 (f : R -> R -> R) (x y : tensor3) : result tensor3 :=
  broadcast2
    (fun xa ya =>
       broadcast2 (fun xb yb => broadcast2 (fun u v => Ok (f u v)) xb yb) xa ya)
    x y.

(** [x + y] and [x * y] on tensors. *)
Definition tensor_add (x y : tensor tensor3) : result (tensor tensor3) :=
  d <- broadcast3 Rplus (data x) (data y) ;;
  Ok (Tensor (promote (dtype_of x) (dtype_of y)) d).

Definition tensor_mul (x y : tensor tensor3) : result (tensor tensor3) :=
  d <- broadcast3 Rmult (data x) (data y) ;;
  Ok (Tensor (promote (dtype_of x) (dtype_of y)) d).

(** [torch.zeros_like] on a tensor [(a, b, c)]. *)
Definition zeros_like3 (x : tensor tensor3) : tensor tensor3 :=
  Tensor (dtype_of x) (map (map (map (fun _ => 0%R))) (data x)).

(* ---------------------------------------------------------------- *)
(** ** [GLUActivation] and [MLP] *)

(** [torch.split(t, split_size, dim=-1)] of a tensor [(a, b, n)]: chunks
    of [split_size] features, the last one smaller when [split_size] does
    not divide [n]; a zero [split_size] is accepted for [n = 0] only, and
    then gives the tensor itself. *)
Definition split_last (t : tensor3) (split_size : nat) : result (list tensor3) :=
  let n := shape1 (hd [] t) in
  if split_size =? 0 then
    if n =? 0 then Ok [t] else Raise RuntimeError
  else
    let num_splits := Nat.max ((n + split_size - 1) / split_size) 1 in
    Ok (map (fun i =>
               map (map (fun row => firstn split_size (skipn (i * split_size) row))) t)
            (seq 0 num_splits)).

(** [a, b = values]: Python's unpacking into two names. *)
Definition unpack2 {A} (values : list A) : outcome (A * A) :=
  match values with
  | [a; b] => Return (a, b)
  | _ => Throw (UnpackError 2 (length values))
  end.

Section MLP.

(** The external primitives: the activation [ACT2FN[hidden_act]] and the
    two sharded projections, assumed to return. *)
Variable act : tensor tensor3 -> tensor tensor3.
Variable gate_up_proj : tensor tensor3 -> tensor tensor3.
Variable down_proj : tensor tensor3 -> tensor tensor3.

(** The feature count [shape[-1]] is read off the first feature row; a
    tensor with an empty leading dimension does not record it, so the
    definition is meant for non-empty tensors. *)
Definition GLUActivation_forward (merged_states : tensor tensor3)
  : outcome (tensor tensor3) :=
  let n := shape1 (hd [] (data merged_states)) in
  (* torch.split(merged_states, merged_states.shape[-1] // 2, dim=-1) *)
  chunks <-- of_result (split_last (data merged_states) (n / 2)) ;;
  '(gate_states, up_states) <-- unpack2 chunks ;;
  let dt := dtype_of merged_states in
  of_result (tensor_mul (act (Tensor dt gate_states)) (Tensor dt up_states)).

Definition MLP_forward (hidden_states : tensor tensor3) : outcome (tensor tensor3) :=
  let merged_states := gate_up_proj hidden_states in
  x <-- GLUActivation_forward merged_states ;;
  let hidden_states := down_proj x in
  Return hidden_states.

End MLP.

(* ---------------------------------------------------------------- *)
(** ** [LlamaDecoderLayer] *)

(** The state-and-exception monad of the attention module, over the
    larger set of exceptions. *)
Definition MO (A : Type) : Type := state -> state * outcome A.

Definition retMO {A} (a : A) : MO A := fun st => (st, Return a).

Definition bindMO {A B} (c : MO A) (k : A -> MO B) : MO B :=
  fun st =>
    match c st with
    | (st', Return a) => k a st'
    | (st', Throw e) => (st', Throw e)
    end.

Definition liftMO {A} (o : outcome A) : MO A := fun st => (st, o).

Definition of_M {A} (c : M A) : MO A :=
  fun st => let (st', r) := c st in (st', of_result r).

Notation "x <~~ c1 ;; c2" := (bindMO c1 (fun x => c2))
  (at level 61, c1 at next level, right associativity).

Section DecoderLayer.

Variable qkv_proj : tensor tensor3 -> tensor tensor3.
Variable o_proj : tensor tensor3 -> tensor tensor3.
Variable flash_attn_varlen_func : varlen_args -> tensor3.
Variable flash_attn_with_kvcache : kvcache_args -> tensor4 * tensor4 * tensor4.
Variable unpad_input : tensor4 -> bool_mask -> tensor3 * list nat * list Z * nat.
Variable pad_input : tensor3 -> list nat -> nat -> nat -> tensor4.
Variable act : tensor tensor3 -> tensor tensor3.
Variable gate_up_proj : tensor tensor3 -> tensor tensor3.
Variable down_proj : tensor tensor3 -> tensor tensor3.
(* apex's FusedRMSNorm, twice *)
Variable input_layernorm : tensor tensor3 -> tensor tensor3.
Variable post_attention_layernorm : tensor tensor3 -> tensor tensor3.

Definition LlamaDecoderLayer_forward
    (attn : CausalSelfAttention)
    (hidden_states : tensor tensor3) (sequence_mask : bool_mask)
  : MO (tensor tensor3 * bool_mask) :=
  let residual := hidden_states in
  let hidden_states := input_layernorm hidden_states in
  output <~~ of_M (CausalSelfAttention_forward
                     qkv_proj o_proj flash_attn_varlen_func flash_attn_with_kvcache
                     unpad_input pad_input attn hidden_states sequence_mask) ;;
  let hidden_states := fst output in
  hidden_states <~~ liftMO (of_result (tensor_add hidden_states residual)) ;;
  let residual := hidden_states in
  let hidden_states := post_attention_layernorm hidden_states in
  hidden_states <~~ liftMO (MLP_forward act gate_up_proj down_proj hidden_states) ;;
  hidden_states <~~ liftMO (of_result (tensor_add hidden_states residual)) ;;
  retMO (hidden_states, snd output).

End DecoderLayer.

(* ---------------------------------------------------------------- *)
(** ** [Embedding] *)

(** The attached store of the embedding module: a dict read and written
    under the key ["past_length"]. *)
Record embedding_store : Type := { past_length : option (list Z) }.

(** [row.cumsum(-1, dtype=torch.long)], started from [acc]. *)
Fixpoint cumsum64 (acc : Z) (row : list bool) : list Z :=
  match row with
  | [] => []
  | b :: row' => let acc' := wrap64 (acc + b2z b) in acc' :: cumsum64 acc' row'
  end.

(** [Embedding.forward], with the attached store passed explicitly
    ([None]: no store attached); the store survives an exception
    unchanged.  [token_embedding] is the sharded embedding table. *)
Definition Embedding_forward
    (token_embedding : list (list Z) -> tensor tensor3)
    (input_ids : list (list Z)) (input_mask : bool_mask)   (* [batch_size, seq_length] *)
    (store : option embedding_store)
  : option embedding_store * result (tensor tensor3) :=
  let updated :=
    match store with
    | Some st =>
        let past_length :=
          match past_length st with
          | Some past_length => past_length
          | None =>
              (* torch.zeros(1, dtype=torch.long).expand(input_ids.shape[0]) *)
              repeat 0%Z (length input_ids)
          end in
        let cumsum_mask := map (cumsum64 0) input_mask in
        (* Store new past_length in store *)
        last <- sequence (map last_entry cumsum_mask) ;;
        new <- broadcast2 (fun p c => Ok (wrap64 (p + c))) past_length last ;;
        Ok (Some {| past_length := Some new |})
    | None => Ok None
    end in
  match updated with
  | Raise e => (store, Raise e)
  | Ok store' =>
      (* Format input in [seq_length, batch_size] *)
      let input_ids := transpose01 (shape1 input_ids) input_ids in
      (store', Ok (token_embedding input_ids))
  end.

(* ---------------------------------------------------------------- *)
(** ** [masked_mean] and [Loss] *)

(** A value of a float dtype: a real, an infinity or NaN.  Rounding is
    not modelled. *)
Inductive float : Type :=
| Finite (r : R)
| Inf (negative : bool)
| NaN.

(** The largest finite value of each dtype. *)
Definition max_finite (dt : dtype) : R :=
  match dt with
  | Float16 => IZR (2 ^ 16 - 2 ^ 5)
  | BFloat16 => IZR (2 ^ 128 - 2 ^ 120)
  | Float32 => IZR (2 ^ 128 - 2 ^ 104)
  | Float64 => IZR (2 ^ 1024 - 2 ^ 971)
  end.

(** A real result as the dtype holds it: an infinity beyond the largest
    finite value. *)
Definition as_float (dt : dtype) (x : R) : float :=
  if Rle_dec (Rabs x) (max_finite dt) then Finite x
  else Inf (if Rlt_dec x 0 then true else false).

(** IEEE addition in the dtype. *)
Definition float_add (dt : dtype) (x y : float) : float :=
  match x, y with
  | NaN, _ | _, NaN => NaN
  | Inf a, Inf b => if Bool.eqb a b then Inf a else NaN
  | Inf a, Finite _ | Finite _, Inf a => Inf a
  | Finite u, Finite v => as_float dt (u + v)
  end.

(** IEEE division of a float by an integer count: [0/0] is NaN, [x/0] an
    infinity. *)
Definition float_div (dt : dtype) (x : float) (n : Z) : float :=
  match x with
  | NaN => NaN
  | Inf negative => if (n <? 0)%Z then Inf (negb negative) else Inf negative
  | Finite x =>
      if (n =? 0)%Z then
        if Req_EM_T x 0 then NaN
        else Inf (if Rlt_dec x 0 then true else false)
      else as_float dt (x / IZR n)
  end.

Definition b2r (b : bool) : R := if b then 1%R else 0%R.

(** The real sum of a list. *)
Definition total (l : list R) : R := fold_right Rplus 0%R l.

(** [t.sum(dtype=dt)] of a tensor [(a, b)]: the entries are cast to [dt]
    and accumulated in [dt], here from first to last.  (torch fixes
    neither the order of the accumulation nor the accumulator's width;
    they matter only when a partial sum overflows and the entries have
    both signs.) *)
Definition sum_all (dt : dtype) (t : tensor2) : float :=
  fold_left (float_add dt) (map (as_float dt) (concat t)) (Finite 0%R).

Definition masked_mean (loss : tensor2) (label_mask : bool_mask) (dtype : dtype)
  : result (tensor float) :=
  (* loss * label_mask *)
  prod <- broadcast2
            (fun lrow mrow => broadcast2 (fun l m => Ok (l * b2r m)%R) lrow mrow)
            loss label_mask ;;
  (* (...).sum(dtype=dtype) / label_mask.sum() *)
  Ok (Tensor dtype
             (float_div dtype (sum_all dtype prod)
                        (wrap64 (Z.of_nat (count_all label_mask))))).

Section Loss.

(** [sharded_cross_entropy(logits, labels, group, dtype)]: the per-token
    loss, of the labels' shape. *)
Variable sharded_cross_entropy : tensor tensor3 -> list (list Z) -> tensor2.

Definition Loss_forward
    (sharded_logits : tensor tensor3)     (* [seq_length, batch_size, logits] *)
    (label_ids : list (list Z))           (* [batch_size, seq_length] *)
    (label_mask : bool_mask)              (* [batch_size, seq_length] *)
  : result (tensor float) :=
  let loss := sharded_cross_entropy sharded_logits
                (transpose01 (shape1 label_ids) label_ids) in
  let loss := transpose01 (shape1 loss) loss in
  masked_mean loss label_mask Float32.

End Loss.

(* ---------------------------------------------------------------- *)
(** ** Compute costs and flops *)

(** The members of [nanotron.config.RecomputeGranularity] and what a
    caller can pass as [recompute_granularity]. *)
Inductive RecomputeGranularity : Type := SELECTIVE | FULL.

Inductive granularity_arg : Type :=
| GNone
| GEnum (g : RecomputeGranularity)
| GOther.                     (* any other object *)

(** Python's [a // b] on integers. *)
Definition py_floordiv (a b : Z) : outcome Z :=
  if (b =? 0)%Z then Throw (Raised ZeroDivisionError) else Return (a / b)%Z.

(** [get_flops]; the defaults [batch_size=1] and
    [recompute_granularity=None] are the caller's to pass. *)
Definition get_flops
    (num_layers hidden_size num_heads : Z) (num_key_value_heads : option Z)
    (vocab_size seq_len ffn_hidden_size batch_size : Z)
    (recompute_granularity : granularity_arg)
  : outcome (Z * Z) :=
  let num_key_value_heads :=
    match num_key_value_heads with
    | None => num_heads
    | Some k => k
    end in
  hidden_size_per_head <-- py_floordiv hidden_size num_heads ;;
  (* decoder: self attention: qkv projection *)
  let decoder_qkv_proj_flops_fwd :=
    (2 * num_layers * batch_size * seq_len * hidden_size * num_heads
       * hidden_size_per_head
     + 2 * num_layers * batch_size * seq_len * hidden_size * 2
         * num_key_value_heads * hidden_size_per_head)%Z in
  (* qk logits *)
  let decoder_qk_logits_flops_fwd :=
    (2 * num_layers * batch_size * num_heads * seq_len * hidden_size_per_head
       * seq_len)%Z in
  (* v logits *)
  let decoder_v_logits_flops_fwd :=
    (2 * num_layers * batch_size * num_heads * seq_len * seq_len
       * hidden_size_per_head)%Z in
  (* attn out *)
  let decoder_attn_out_flops_fwd :=
    (2 * num_layers * batch_size * num_heads * seq_len * hidden_size_per_head
       * hidden_size)%Z in
  (* FF: 1st layer, 2nd layer *)
  let decoder_ffn_1_flops_fwd :=
    (4 * num_layers * batch_size * seq_len * hidden_size * ffn_hidden_size)%Z in
  let decoder_ffn_2_flops_fwd :=
    (2 * num_layers * batch_size * seq_len * ffn_hidden_size * hidden_size)%Z in
  let decoder_flops_fwd :=
    (decoder_qkv_proj_flops_fwd
     + decoder_qk_logits_flops_fwd
     + decoder_v_logits_flops_fwd
     + decoder_attn_out_flops_fwd
     + decoder_ffn_1_flops_fwd
     + decoder_ffn_2_flops_fwd)%Z in
  (* lm head *)
  let lm_head_flops_fwd := (2 * batch_size * seq_len * hidden_size * vocab_size)%Z in
  (* 1 for fwd + 2 for bwd *)
  let model_flops := (3 * (decoder_flops_fwd + lm_head_flops_fwd))%Z in
  hardware_flops <--
    match recompute_granularity with
    | GNone => Return model_flops
    | GEnum FULL =>
        (* Note: we don't recompute lm head activs *)
        Return (model_flops + decoder_flops_fwd)%Z
    | GEnum SELECTIVE =>
        (* all terms with s^2 are flops that are recomputed *)
        let recomputed_decoder_flops :=
          (decoder_qk_logits_flops_fwd + decoder_v_logits_flops_fwd)%Z in
        Return (model_flops + recomputed_decoder_flops)%Z
    | GOther => Throw GranularityValueError
    end ;;
  Return (model_flops, hardware_flops).

(** The configuration fields [LlamaModel] reads beyond those of the
    attention module. *)
Record LlamaModelConfig : Type := {
  attention_config : LlamaConfig;
  num_hidden_layers : nat;
  vocab_size : nat;
  intermediate_size : nat
}.

(** The dict [get_block_compute_costs] returns, by its two keys. *)
Record block_compute_costs : Type := {
  cost_LlamaDecoderLayer : nat;
  cost_TensorParallelColumnLinear : nat
}.

Definition get_block_compute_costs (model_config : LlamaModelConfig)
  : result block_compute_costs :=
  let config := attention_config model_config in
  let d_ff := intermediate_size model_config in
  d_qkv <- py_div (hidden_size config) (num_attention_heads config) ;;
  Ok {| (* CausalSelfAttention (qkv proj + attn out) + MLP *)
        cost_LlamaDecoderLayer :=
          4 * num_attention_heads config * d_qkv * hidden_size config
          + 3 * d_ff * hidden_size config;
        (* This is the last lm_head *)
        cost_TensorParallelColumnLinear :=
          vocab_size model_config * hidden_size config |}.

(** Python's [a / b] on floats. *)
Definition py_truediv (a b : R) : outcome R :=
  if Req_EM_T b 0 then Throw (Raised ZeroDivisionError) else Return (a / b)%R.

(** [LlamaModel.get_flops_per_sec]; [parallel_config] is the module's
    optional [ParallelismArgs], of which only [recompute_granularity] is
    read, and [world_size] the size of the world process group.  Floats
    are idealised as reals. *)
Definition get_flops_per_sec
    (model_config : LlamaModelConfig) (parallel_config : option granularity_arg)
    (world_size : nat)
    (iteration_time_in_sec : R) (sequence_length global_batch_size : Z)
  : outcome (R * R) :=
  let config := attention_config model_config in
  (* the config has the attribute (possibly None): no AttributeError *)
  let num_key_values_heads := num_key_value_heads config in
  recompute_granularity <--
    match parallel_config with
    | Some g => Return g
    | None => Throw AttributeError
    end ;;
  '(model_flops, hardware_flops) <--
    get_flops (Z.of_nat (num_hidden_layers model_config))
              (Z.of_nat (hidden_size config))
              (Z.of_nat (num_attention_heads config))
              (option_map Z.of_nat num_key_values_heads)
              (Z.of_nat (vocab_size model_config))
              sequence_length
              (Z.of_nat (intermediate_size model_config))
              global_batch_size
              recompute_granularity ;;
  let denominator := (iteration_time_in_sec * INR world_size * 1e12)%R in
  model_flops_per_s <-- py_truediv (IZR model_flops) denominator ;;
  hardware_flops_per_s <-- py_truediv (IZR hardware_flops) denominator ;;
  Return (model_flops_per_s, hardware_flops_per_s).

(** A decoder layer around the attention module of [Example]: identity
    norms and activation, a [gate_up_proj] that doubles the features. *)
Module LayerExample.

Definition act (h : tensor tensor3) : tensor tensor3 := h.

Definition gate_up_proj (h : tensor tensor3) : tensor tensor3 :=
  Tensor (dtype_of h) (map (map (fun row => row ++ row)) (data h)).

Definition down_proj (h : tensor tensor3) : tensor tensor3 := h.

Definition rms_norm (h : tensor tensor3) : tensor tensor3 := h.

(** An output projection with zero weights, for the hidden states
    [Example.two_tokens]. *)
Definition zero_proj (h : tensor tensor3) : tensor tensor3 :=
  zeros_like3 Example.two_tokens.

(** The layer with both output projections at zero. *)
Definition forward :=
  LlamaDecoderLayer_forward
    Example.qkv_proj zero_proj Example.flash_attn_varlen_func
    Example.flash_attn_with_kvcache Example.unpad_input Example.pad_input
    act gate_up_proj zero_proj rms_norm rms_norm.

End LayerExample.

(** Small instances for concrete runs. *)
Module ModelExample.

(** An embedding table: the id as the only feature. *)
Definition id_embedding (input_ids : list (list Z)) : tensor tensor3 :=
  Tensor Float32 (map (map (fun i => [IZR i])) input_ids).

(** A per-token loss: the label itself. *)
Definition label_cross_entropy (sharded_logits : tensor tensor3)
    (label_ids : list (list Z)) : tensor2 :=
  map (map IZR) label_ids.

(** 2 layers, hidden size 8 in 4 heads. *)
Definition small_config : LlamaModelConfig :=
  {| attention_config :=
       {| hidden_size := 8; num_attention_heads := 4;
          num_key_value_heads := None; max_position_embeddings := 16 |};
     num_hidden_layers := 2;
     vocab_size := 100;
     intermediate_size := 32 |}.

End ModelExample.

(* ================================================================== *)
(** * Facts about the result monad and broadcasting *)
Module ResultFacts.

Lemma bind_Ok_inv {A B} (r : result A) (k : A -> result B) (b : B) :
  bind r k = Ok b -> exists a, r = Ok a /\ k a = Ok b.
Proof. destruct r as [a | e]; simpl; [eauto | discriminate]. Qed.

Lemma guard_Ok_inv (c : bool) (e : error) (u : unit) :
  guard c e = Ok u -> c = true.
Proof. destruct c; [reflexivity | discriminate]. Qed.

Lemma assert_Ok_inv (c : bool) (a : assertion) (u : unit) :
  assert_ c a = Ok u -> c = true.
Proof. destruct c; [reflexivity | discriminate]. Qed.

Lemma sequence_Ok_Forall2 {A} (l : list (result A)) (zs : list A) :
  sequence l = Ok zs <-> Forall2 (fun r z => r = Ok z) l zs.
Proof.
  revert zs. induction l as [| r l IH]; intros zs; simpl.
  - split.
    + intros [= <-]. constructor.
    + intros H. inversion H. reflexivity.
  - split.
    + intros H. apply bind_Ok_inv in H as (x & -> & H).
      apply bind_Ok_inv in H as (xs & Hxs & [= <-]).
      constructor; [reflexivity | now apply IH].
    + intros H. inversion H as [| ? z ? zs' Hr Hl]; subst. simpl.
      apply IH in Hl. now rewrite Hl.
Qed.

Lemma sequence_map_Ok {A B} (g : A -> B) (l : list A) :
  sequence (map (fun x => Ok (g x)) l) = Ok (map g l).
Proof. induction l as [| x l IH]; simpl; [reflexivity | now rewrite IH]. Qed.

Lemma broadcast2_same_length {A B C} (f : A -> B -> result C) xs ys :
  length xs = length ys ->
  broadcast2 f xs ys = sequence (map2 f xs ys).
Proof. intros H. unfold broadcast2. now rewrite H, Nat.eqb_refl. Qed.

Lemma broadcast2_singleton_r {A B C} (f : A -> B -> result C) xs y :
  broadcast2 f xs [y] = sequence (map (fun x => f x y) xs).
Proof.
  unfold broadcast2. destruct xs as [| x1 [| x2 xs]]; reflexivity.
Qed.

Lemma broadcast2_singleton_l {A B C} (f : A -> B -> result C) x ys :
  broadcast2 f [x] ys = sequence (map (f x) ys).
Proof.
  unfold broadcast2. destruct ys as [| y1 [| y2 ys]]; reflexivity.
Qed.

(** When the broadcast result is as long as the left operand, each of
    its entries comes from the left entry at the same index and some
    entry of the right operand. *)
Lemma broadcast2_Forall2 {A B C} (f : A -> B -> result C) xs ys zs :
  broadcast2 f xs ys = Ok zs ->
  length zs = length xs ->
  Forall2 (fun x z => exists y, In y ys /\ f x y = Ok z) xs zs.
Proof.
  intros H Hlen.
  assert (Hmap2 : forall xs ys zs,
             sequence (map2 f xs ys) = Ok zs ->
             length xs = length ys ->
             Forall2 (fun x z => exists y, In y ys /\ f x y = Ok z) xs zs).
  { clear. induction xs as [| x xs IH]; intros [| y ys] zs H Hl;
      simpl in *; try discriminate.
    - injection H as <-. constructor.
    - apply bind_Ok_inv in H as (z & Hz & H).
      apply bind_Ok_inv in H as (zs' & Hzs & [= <-]).
      constructor; [exists y; auto |].
      eapply Forall2_impl; [| apply IH; eauto].
      intros a b (y' & ? & ?). exists y'. auto. }
  assert (Hmap : forall y xs zs,
             sequence (map (fun x => f x y) xs) = Ok zs ->
             Forall2 (fun x z => f x y = Ok z) xs zs).
  { clear. intros y. induction xs as [| x xs IH]; intros zs H; simpl in *.
    - injection H as <-. constructor.
    - apply bind_Ok_inv in H as (z & Hz & H).
      apply bind_Ok_inv in H as (zs' & Hzs & [= <-]).
      constructor; auto. }
  unfold broadcast2 in H.
  destruct (Nat.eqb_spec (length xs) (length ys)) as [E | NE].
  - now apply Hmap2.
  - destruct xs as [| x1 [| x2 xs]].
    + destruct zs; [constructor | discriminate].
    + (* a single left entry against several right ones *)
      exfalso. apply sequence_Ok_Forall2 in H.
      apply Forall2_length in H. rewrite length_map in H.
      simpl in *. lia.
    + destruct ys as [| y [| y2 ys]]; try discriminate.
      apply Hmap in H. eapply Forall2_impl; [| exact H].
      intros a b Hab. exists y. simpl. auto.
Qed.

End ResultFacts.

(* ================================================================== *)
(** * Facts about shapes *)

Module ShapeFacts.

Lemma forallb_Forall_iff {A} (p : A -> bool) (P : A -> Prop) (l : list A) :
  (forall a, p a = true <-> P a) ->
  forallb p l = true <-> Forall P l.
Proof.
  intros H. rewrite forallb_forall, Forall_forall.
  split; intros G a Ha; apply H, G, Ha.
Qed.

Lemma has_shape4_spec (b s h d : nat) (x : tensor4) :
  has_shape4 b s h d x = true <-> shaped4 b s h d x.
Proof.
  unfold has_shape4, shaped4.
  rewrite andb_true_iff, Nat.eqb_eq.
  apply and_iff_compat_l.
  apply forallb_Forall_iff. intros xb.
  rewrite andb_true_iff, Nat.eqb_eq. apply and_iff_compat_l.
  apply forallb_Forall_iff. intros xs.
  rewrite andb_true_iff, Nat.eqb_eq. apply and_iff_compat_l.
  apply forallb_Forall_iff. intros xh. apply Nat.eqb_eq.
Qed.

Lemma Forall_nil_rows {A} (P : list A -> Prop) (l : list (list A)) :
  P [] -> Forall (fun r => length r = 0) l -> Forall P l.
Proof.
  intros H0 H. eapply Forall_impl; [| exact H].
  intros r Hr. destruct r; [assumption | discriminate].
Qed.

(** The shape read off the first entries of a tensor determines the
    shape of whatever matches it. *)
Lemma shaped4_transfer {A B} (b s h d : nat)
      (x : list (list (list (list A)))) (z : list (list (list (list B)))) :
  shaped4 b s h d x ->
  shaped4 (length x) (shape1 x) (shape1 (hd [] x)) (shape1 (hd [] (hd [] x))) z ->
  shaped4 b s h d z.
Proof.
  intros [Hb Hx] [Hzb Hz]. split; [congruence |].
  destruct x as [| xb x]; simpl in *.
  { destruct z; [constructor | discriminate]. }
  inversion Hx as [| ? ? [Hs Hxb] _]; subst.
  destruct xb as [| xs xb]; simpl in *.
  { eapply Forall_impl; [| exact Hz]. intros zb [Hl _].
    destruct zb; [| discriminate]. split; [reflexivity | constructor]. }
  inversion Hxb as [| ? ? [Hh Hxs] _]; subst.
  destruct xs as [| xh xs]; simpl in *.
  { eapply Forall_impl; [| exact Hz]. intros zb [Hl Hzb']. split; [assumption |].
    eapply Forall_impl; [| exact Hzb']. intros zs [Hl' _].
    destruct zs; [| discriminate]. split; [reflexivity | constructor]. }
  inversion Hxs as [| ? ? Hd _]; subst. exact Hz.
Qed.

Lemma shaped4_map {A B} (f : list A -> list B) (b s h d d' : nat)
      (x : list (list (list (list A)))) :
  (forall v, length v = d -> length (f v) = d') ->
  shaped4 b s h d x -> shaped4 b s h d' (map (map (map f)) x).
Proof.
  intros Hf [Hb Hx]. split; [now rewrite length_map |].
  apply Forall_map. eapply Forall_impl; [| exact Hx].
  intros xb [Hs Hxb]. split; [now rewrite length_map |].
  apply Forall_map. eapply Forall_impl; [| exact Hxb].
  intros xs [Hh Hxs]. split; [now rewrite length_map |].
  apply Forall_map. eapply Forall_impl; [| exact Hxs].
  intros xh. apply Hf.
Qed.

Lemma shaped4_map_inv {A B} (f : list A -> list B) (b s h d d' : nat)
      (x : list (list (list (list A)))) :
  (forall v, length (f v) = d' -> length v = d) ->
  shaped4 b s h d' (map (map (map f)) x) -> shaped4 b s h d x.
Proof.
  intros Hf [Hb Hx]. split; [now rewrite length_map in Hb |].
  apply Forall_map in Hx. eapply Forall_impl; [| exact Hx].
  intros xb [Hs Hxb]. split; [now rewrite length_map in Hs |].
  apply Forall_map in Hxb. eapply Forall_impl; [| exact Hxb].
  intros xs [Hh Hxs]. split; [now rewrite length_map in Hh |].
  apply Forall_map in Hxs. eapply Forall_impl; [| exact Hxs].
  intros xh. apply Hf.
Qed.

Lemma Forall2_map_l {A A' B} (f : A -> A') (R : A' -> B -> Prop) xs zs :
  Forall2 R (map f xs) zs <-> Forall2 (fun x z => R (f x) z) xs zs.
Proof.
  revert zs. induction xs as [| x xs IH]; intros zs; simpl.
  - split; intros H; inversion H; constructor.
  - split; intros H; inversion H; subst; constructor; auto; now apply IH.
Qed.

Lemma Forall2_map_r {A B B'} (g : B -> B') (R : A -> B' -> Prop) xs zs :
  Forall2 R xs (map g zs) <-> Forall2 (fun x z => R x (g z)) xs zs.
Proof.
  revert zs. induction xs as [| x xs IH]; intros [| z zs]; simpl.
  - split; constructor.
  - split; intros H; inversion H.
  - split; intros H; inversion H.
  - split; intros H; inversion H; subst; constructor; auto; now apply IH.
Qed.

(** Strengthen a [Forall2] with what is known of each side. *)
Lemma Forall2_with {A B} (R R' : A -> B -> Prop) (P : A -> Prop) (Q : B -> Prop) xs zs :
  Forall2 R xs zs -> Forall P xs -> Forall Q zs ->
  (forall x z, R x z -> P x -> Q z -> R' x z) ->
  Forall2 R' xs zs.
Proof.
  intros H. induction H; intros HP HQ Himp; constructor;
    inversion HP; inversion HQ; subst; auto.
Qed.

Lemma Forall2_nth_error_l {A B} (R : A -> B -> Prop) xs zs i x :
  Forall2 R xs zs -> nth_error xs i = Some x ->
  exists z, nth_error zs i = Some z /\ R x z.
Proof.
  intros H. revert i. induction H; intros [| i] Hi; simpl in *; try discriminate.
  - injection Hi as <-. eauto.
  - eauto.
Qed.

End ShapeFacts.

(* ================================================================== *)
(** * Facts about [pad_to_right] *)

Module PadToRightFacts.

Lemma prefix_mask_from (k a s : nat) :
  a <= k -> k <= a + s ->
  map (fun i => i <? k) (seq a s) = repeat true (k - a) ++ repeat false (a + s - k).
Proof.
  revert a. induction s as [| s IH]; intros a Ha Hk; cbn [map seq].
  - replace (k - a) with 0 by lia. replace (a + 0 - k) with 0 by lia. reflexivity.
  - destruct (Nat.ltb_spec a k) as [Hlt | Hge].
    + rewrite IH by lia.
      replace (k - a) with (S (k - S a)) by lia.
      replace (S a + s - k) with (a + S s - k) by lia. reflexivity.
    + assert (k = a) by lia. subst k.
      rewrite Nat.sub_diag.
      replace (a + S s - a) with (S s) by lia. cbn [repeat app]. f_equal.
      clear IH Ha Hk Hge.
      assert (H : forall b, a < b -> map (fun i => i <? a) (seq b s) = repeat false s).
      { induction s as [| s IHs]; intros b Hb; simpl; [reflexivity |].
        destruct (Nat.ltb_spec b a); [lia |]. f_equal. apply IHs. lia. }
      apply H. lia.
Qed.

Lemma prefix_mask (k s : nat) :
  k <= s ->
  map (fun i => i <? k) (seq 0 s) = repeat true k ++ repeat false (s - k).
Proof.
  intros H. rewrite prefix_mask_from by lia.
  now rewrite Nat.sub_0_r.
Qed.

Lemma count_true_le (mrow : list bool) : count_true mrow <= length mrow.
Proof. unfold count_true. apply filter_length_le. Qed.

Lemma count_true_prefix (k j : nat) :
  count_true (repeat true k ++ repeat false j) = k.
Proof.
  unfold count_true. rewrite filter_app, length_app.
  induction k as [| k IH]; simpl.
  - induction j; simpl; auto.
  - lia.
Qed.

Section Rows.
Context {A : Type}.

Lemma select_row_length (row : list A) (mrow : list bool) :
  length mrow <= length row ->
  length (select_row row mrow) = count_true mrow.
Proof.
  revert mrow. induction row as [| x row IH]; intros [| b mrow] H; simpl in *;
    try reflexivity; try lia.
  destruct b; unfold count_true in *; simpl; rewrite IH by lia; reflexivity.
Qed.

Lemma assign_row_false (row : list A) (j : nat) (vals : list A) :
  assign_row row (repeat false j) vals = (row, vals).
Proof.
  revert j. induction row as [| x row IH]; intros [| j]; simpl; try reflexivity.
  now rewrite IH.
Qed.

(** Writing under a prefix mask replaces the first [k] entries of the
    row by the first [k] values and hands the remaining values on. *)
Lemma assign_row_prefix (row : list A) (k j : nat) (vals : list A) :
  k <= length vals -> k <= length row ->
  assign_row row (repeat true k ++ repeat false j) vals
  = (firstn k vals ++ skipn k row, skipn k vals).
Proof.
  revert row vals. induction k as [| k IH]; intros row vals Hv Hr; simpl.
  - apply assign_row_false.
  - destruct row as [| x row]; simpl in *; [lia |].
    destruct vals as [| v vals]; simpl in *; [lia |].
    rewrite IH by lia. reflexivity.
Qed.

Lemma right_padded_nth (dest t : list (list A)) (m : bool_mask) (r : nat)
      (drow row : list A) (mrow : list bool) :
  nth_error dest r = Some drow ->
  nth_error t r = Some row ->
  nth_error m r = Some mrow ->
  nth_error (right_padded dest t m) r
  = Some (select_row row mrow ++ skipn (count_true mrow) drow).
Proof.
  revert dest t m. induction r as [| r IH]; intros [| d dest] [| x t] [| y m];
    simpl; try discriminate.
  - intros [= ->] [= ->] [= ->]. reflexivity.
  - apply IH.
Qed.

Lemma right_padded_length (dest t : list (list A)) (m : bool_mask) :
  length dest = length m -> length t = length m ->
  length (right_padded dest t m) = length m.
Proof.
  revert dest t. induction m as [| y m IH]; intros [| d dest] [| x t];
    simpl; try discriminate; auto.
Qed.

Lemma select_rows_length (t : list (list A)) (m : bool_mask) (s : nat) :
  length t = length m ->
  Forall (fun row => length row = s) t ->
  Forall (fun mrow => length mrow = s) m ->
  length (select_rows t m) = count_all m.
Proof.
  unfold count_all.
  revert m. induction t as [| row t IH]; intros [| mrow m] Hl Ht Hm;
    simpl in *; try discriminate; [reflexivity |].
  inversion Ht; inversion Hm; subst.
  rewrite length_app, select_row_length by lia.
  rewrite IH; auto.
Qed.

Lemma assign_rows_right_pad (dest t : list (list A)) (m : bool_mask) (s : nat) :
  length dest = length m ->
  length t = length m ->
  Forall (fun row => length row = s) t ->
  Forall (fun mrow => length mrow = s) m ->
  Forall (fun drow => s <= length drow) dest ->
  assign_rows dest (right_pad_mask (map count_true m) s) (select_rows t m)
  = right_padded dest t m.
Proof.
  unfold right_pad_mask.
  revert dest t. induction m as [| mrow m IH]; intros [| drow dest] [| row t];
    simpl; try discriminate; [reflexivity |].
  intros Hd Hl Ht Hm Hdest.
  inversion Ht; inversion Hm; inversion Hdest; subst.
  pose proof (count_true_le mrow) as Hk.
  rewrite prefix_mask by lia.
  rewrite assign_row_prefix.
  - assert (Hlen : length (select_row row mrow) = count_true mrow)
      by (apply select_row_length; lia).
    rewrite firstn_app, skipn_app, Hlen, Nat.sub_diag, firstn_O, skipn_O, app_nil_r.
    rewrite <- Hlen at 1 3. rewrite firstn_all, skipn_all. cbn [app].
    f_equal. apply IH; auto.
  - rewrite length_app, select_row_length by lia. lia.
  - lia.
Qed.
End Rows.

Lemma rows_have_Forall {A} (n : nat) (t : list (list A)) :
  rows_have n t = true <-> Forall (fun row => length row = n) t.
Proof.
  unfold rows_have. rewrite forallb_forall, Forall_forall.
  split; intros H x Hx; specialize (H x Hx); now apply Nat.eqb_eq.
Qed.

Lemma has_shape2_spec {A} (b s : nat) (t : list (list A)) :
  has_shape2 b s t = true <->
  length t = b /\ Forall (fun row => length row = s) t.
Proof.
  unfold has_shape2. rewrite andb_true_iff, Nat.eqb_eq, rows_have_Forall.
  reflexivity.
Qed.

Lemma shape1_rows {A} (s : nat) (t : list (list A)) :
  Forall (fun row => length row = s) t -> t <> [] -> shape1 t = s.
Proof. intros H Hne. destruct t; [congruence |]. now inversion H. Qed.

Lemma right_pad_mask_rows (ks : list nat) (s : nat) :
  Forall (fun mrow => length mrow = s) (right_pad_mask ks s).
Proof.
  unfold right_pad_mask. apply Forall_forall. intros x Hx.
  apply in_map_iff in Hx as (k & <- & _).
  now rewrite length_map, length_seq.
Qed.

Lemma count_all_right_pad (m : bool_mask) (s : nat) :
  Forall (fun mrow => length mrow = s) m ->
  count_all (right_pad_mask (map count_true m) s) = count_all m.
Proof.
  unfold count_all, right_pad_mask. induction 1 as [| mrow m Hrow _ IH]; simpl.
  - reflexivity.
  - pose proof (count_true_le mrow).
    rewrite prefix_mask by lia. rewrite count_true_prefix. now rewrite IH.
Qed.

Lemma masked_select_ok {A} (b s : nat) (t : list (list A)) (m : bool_mask) :
  has_shape2 b s t = true ->
  has_shape2 b s m = true ->
  masked_select t m = Ok (select_rows t m).
Proof.
  intros Ht Hm. unfold masked_select.
  apply has_shape2_spec in Ht as [Htl Htr].
  apply has_shape2_spec in Hm as [Hml Hmr].
  destruct m as [| mrow m].
  - simpl in *. subst b. now destruct t.
  - rewrite (@shape1_rows _ s (mrow :: m)) by (auto; discriminate).
    replace (has_shape2 (length (mrow :: m)) s t) with true; [reflexivity |].
    symmetry. apply has_shape2_spec. split; [congruence | auto].
Qed.

Lemma expand_same {A} (d : nat) (l : list A) : expand d d l = l.
Proof. unfold expand. now rewrite Nat.eqb_refl. Qed.

Lemma expandable_same (d : nat) : expandable d d = true.
Proof. unfold expandable. now rewrite Nat.eqb_refl. Qed.

Lemma expand_values_same (d1 d2 : nat) (vals : list tensor2) :
  map (fun v => expand d1 d1 (map (expand d2 d2) v)) vals = vals.
Proof.
  induction vals as [| v vals IH]; [reflexivity |].
  cbn [map]. rewrite IH, expand_same. f_equal.
  induction v as [| row v IHv]; [reflexivity |].
  cbn [map]. now rewrite IHv, expand_same.
Qed.

Lemma inner_dims_zeros_like (t : tensor4) : inner_dims (zeros_like t) = inner_dims t.
Proof.
  unfold inner_dims, zeros_like.
  destruct t as [| [| e xb] t]; try reflexivity.
  destruct e as [| row e]; [reflexivity |].
  simpl. now rewrite !length_map.
Qed.

Lemma masked_assign_right_pad (b s : nat) (dest t : tensor4) (m : bool_mask) :
  has_shape2 b s t = true ->
  has_shape2 b s m = true ->
  length dest = b ->
  Forall (fun drow => s <= length drow) dest ->
  inner_dims dest = inner_dims t ->
  masked_assign dest (right_pad_mask (map count_true m) (shape1 m))
                (inner_dims t) (select_rows t m)
  = Ok (right_padded dest t m).
Proof.
  intros Ht Hm Hb Hd Hin. unfold masked_assign. rewrite Hin.
  destruct (inner_dims t) as [d1 d2].
  rewrite !expandable_same, expand_values_same, !andb_true_r.
  apply has_shape2_spec in Ht as [Htl Htr].
  apply has_shape2_spec in Hm as [Hml Hmr].
  destruct m as [| mrow m].
  - simpl in *. subst b. destruct t; [| discriminate].
    now destruct dest.
  - rewrite (@shape1_rows _ s (mrow :: m)) by (auto; discriminate).
    rewrite (@shape1_rows _ s (right_pad_mask _ _))
      by (try apply right_pad_mask_rows; discriminate).
    replace (length dest =? length (right_pad_mask (map count_true (mrow :: m)) s))
      with true.
    2:{ symmetry. apply Nat.eqb_eq. unfold right_pad_mask.
        rewrite !length_map. congruence. }
    replace (forallb (fun row => s <=? length row) dest) with true.
    2:{ symmetry. apply forallb_forall. intros x Hx. apply Nat.leb_le.
        revert x Hx. now apply Forall_forall. }
    replace (rows_have s (right_pad_mask (map count_true (mrow :: m)) s)) with true
      by (symmetry; apply rows_have_Forall, right_pad_mask_rows).
    cbn [andb guard bind].
    rewrite count_all_right_pad by assumption.
    rewrite (@select_rows_length _ t (mrow :: m) s) by (auto; congruence).
    rewrite Nat.eqb_refl. cbn [guard bind].
    rewrite (@assign_rows_right_pad _ dest t (mrow :: m) s); auto; congruence.
Qed.

(** What [pad_to_right] computes on well-shaped arguments, whatever the
    mask: the destination (all zeros when none is given; of the tensor's
    trailing sizes when given) with each row's valid entries moved to its
    front. *)
Lemma pad_to_right_spec (b s : nat) (tensor : tensor4) (mask : bool_mask)
      (new_tensor : option tensor4) :
  let dest := match new_tensor with
              | None => zeros_like tensor
              | Some t => t
              end in
  has_shape2 b s tensor = true ->
  has_shape2 b s mask = true ->
  length dest = b ->
  Forall (fun drow => s <= length drow) dest ->
  inner_dims dest = inner_dims tensor ->
  pad_to_right tensor mask new_tensor
  = Ok (right_padded dest tensor mask,
        right_pad_mask (map count_true mask) (shape1 mask)).
Proof.
  intros dest Ht Hm Hb Hd Hin.
  unfold pad_to_right.
  rewrite (masked_select_ok _ _ _ _ Ht Hm). cbn [bind].
  fold dest.
  rewrite (masked_assign_right_pad _ _ _ _ _ Ht Hm Hb Hd Hin). reflexivity.
Qed.
End PadToRightFacts.

(* ================================================================== *)
(** * Facts about the rotary embedding *)

Module RotaryFacts.
Import ResultFacts ShapeFacts RotaryEmbedding.


Lemma shaped4_self {A} (b s h d : nat) (x : list (list (list (list A)))) :
  shaped4 b s h d x ->
  shaped4 (length x) (shape1 x) (shape1 (hd [] x)) (shape1 (hd [] (hd [] x))) x.
Proof.
  intros [Hb Hx]. split; [reflexivity |].
  destruct x as [| xb x]; [constructor |]. simpl.
  inversion Hx as [| ? ? [Hs Hxb] Hrest]; subst.
  destruct xb as [| xs xb]; simpl in *.
  { eapply Forall_impl; [| exact Hx]. intros zb [Hl _].
    destruct zb; [| discriminate]. split; [reflexivity | constructor]. }
  inversion Hxb as [| ? ? [Hh Hxs] _]; subst.
  destruct xs as [| xh xs]; simpl in *.
  { eapply Forall_impl; [| exact Hx]. intros zb [Hl Hzb']. split; [assumption |].
    eapply Forall_impl; [| exact Hzb']. intros zs [Hl' _].
    destruct zs; [| discriminate]. split; [reflexivity | constructor]. }
  inversion Hxs as [| ? ? Hd _]; subst. exact Hx.
Qed.

Lemma view_as_complex_length (v : vec) :
  length (view_as_complex v) = length v / 2.
Proof.
  assert (H : forall n (v : vec), length v <= n ->
               length (view_as_complex v) = length v / 2).
  { induction n as [| n IH]; intros [| a [| b w]] Hn;
      cbn [view_as_complex length] in *; try reflexivity; try lia.
    rewrite IH by lia.
    replace (S (S (length w))) with (length w + 1 * 2) by lia.
    rewrite Nat.div_add by lia. lia. }
  apply (H (length v)). lia.
Qed.

Lemma view_as_real_length (c : list complex) :
  length (view_as_real c) = 2 * length c.
Proof. induction c as [| [a b] c IH]; simpl; [reflexivity | rewrite IH; lia]. Qed.

Lemma view_as_real_complex (v : vec) :
  length v mod 2 = 0 -> view_as_real (view_as_complex v) = v.
Proof.
  assert (H : forall n (v : vec), length v <= n -> length v mod 2 = 0 ->
               view_as_real (view_as_complex v) = v).
  { induction n as [| n IH]; intros [| a [| b w]] Hn Hev;
      cbn [view_as_complex view_as_real length] in *;
      try reflexivity; try lia; try discriminate.
    rewrite IH; [reflexivity | lia |].
    replace (S (S (length w))) with (length w + 1 * 2) in Hev by lia.
    rewrite Nat.Div0.mod_add in Hev. exact Hev. }
  apply (H (length v)). lia.
Qed.

Lemma sum_sq_view_as_real (c : list complex) :
  sum_sq (view_as_real c) = csum_sq c.
Proof.
  induction c as [| [a b] c IH]; simpl; [reflexivity |].
  rewrite IH. lra.
Qed.

Lemma cmul_unit (c f : complex) :
  unit_modulus f ->
  (fst (cmul c f) * fst (cmul c f) + snd (cmul c f) * snd (cmul c f)
   = fst c * fst c + snd c * snd c)%R.
Proof.
  destruct c as [a b], f as [p q]. unfold unit_modulus. simpl. intros H.
  replace ((a * p - b * q) * (a * p - b * q) + (a * q + b * p) * (a * q + b * p))%R
    with ((a * a + b * b) * (p * p + q * q))%R by ring.
  rewrite H. ring.
Qed.

Lemma csum_sq_rotated (cs rs : list complex) :
  Forall2 (fun c r => exists f, unit_modulus f /\ r = cmul c f) cs rs ->
  csum_sq rs = csum_sq cs.
Proof.
  induction 1 as [| c r cs rs (f & Hf & ->) _ IH]; simpl; [reflexivity |].
  rewrite IH, cmul_unit by assumption. reflexivity.
Qed.

Lemma polar_unit (angle : R) : unit_modulus (polar 1 angle).
Proof.
  unfold unit_modulus, polar. simpl.
  pose proof (sin2_cos2 angle) as H. unfold Rsqr in H. lra.
Qed.

Lemma rotary_table_unit (dim end_ : nat) (theta : R) :
  Forall (Forall unit_modulus) (rotary_table dim end_ theta).
Proof.
  unfold rotary_table. apply Forall_map, Forall_forall. intros p _.
  apply Forall_map, Forall_forall. intros f _. apply polar_unit.
Qed.

Lemma index_row_In (buf : list (list complex)) (p : Z) (row : list complex) :
  index_row buf p = Ok row -> In row buf.
Proof.
  unfold index_row.
  destruct (_ && _); [| discriminate].
  destruct (nth_error buf _) eqn:E; [| discriminate].
  intros [= <-]. eapply nth_error_In; eauto.
Qed.

Lemma select_freqs_In (self : t) (seq_length : nat) pos cf :
  select_freqs self seq_length pos = Ok cf ->
  Forall (Forall (fun fs => In fs (freqs_cis self))) cf.
Proof.
  unfold select_freqs. destruct pos as [pos |].
  - intros H.
    apply bind_Ok_inv in H as (lr & _ & H).
    apply bind_Ok_inv in H as (l & _ & H).
    destruct (_ || _); [discriminate |].
    apply sequence_Ok_Forall2 in H. apply Forall2_map_l in H.
    clear -H. induction H as [| row fb pos cf Hrow _ IH]; constructor; auto.
    apply sequence_Ok_Forall2, Forall2_map_l in Hrow.
    clear -Hrow. induction Hrow as [| p fs row fb Hp _ IH]; constructor; auto.
    eapply index_row_In; eauto.
  - intros [= <-]. repeat constructor.
    apply Forall_forall. intros fs Hfs.
    rewrite <- (firstn_skipn seq_length (freqs_cis self)).
    apply in_or_app. now left.
Qed.


(** Every entry of the product is the entry of [complex_x] at the same
    index times one of the selected rotations. *)
Lemma rotate_inv (cx : list (list (list (list complex))))
      (cf : list (list (list complex))) prod (b s h d : nat) :
  rotate cx cf = Ok prod ->
  shaped4 b s h d cx ->
  shaped4 b s h d prod ->
  Forall2 (Forall2 (Forall2 (Forall2
    (fun c r => exists fb fs f,
         In fb cf /\ In fs fb /\ In f fs /\ r = cmul c f)))) cx prod.
Proof.
  intros H [Hb Hx] [Hpb Hp]. unfold rotate in H.
  apply broadcast2_Forall2 in H; [| congruence].
  eapply Forall2_with; [exact H | exact Hx | exact Hp |].
  clear H Hx Hp. intros xb zb (fb & Hfb & H) [Hs Hxb] [Hzs Hzb].
  apply broadcast2_Forall2 in H; [| congruence].
  eapply Forall2_with; [exact H | exact Hxb | exact Hzb |].
  clear H Hxb Hzb. intros xs zs (fs & Hfs & H) [Hh Hxs] [Hzh Hzs'].
  apply broadcast2_Forall2 in H; [| congruence].
  eapply Forall2_with; [exact H | exact Hxs | exact Hzs' |].
  clear H Hxs Hzs'. intros xh zh (f1 & Hf1 & H) Hd Hzd.
  destruct Hf1 as [<- | []].
  apply broadcast2_Forall2 in H; [| congruence].
  eapply Forall2_impl; [| exact H].
  intros c r (f & Hf & [= <-]). exists fb, fs, f. auto.
Qed.

(** The state a call leaves behind: the buffer initialised. *)
Lemma forward_state (self : t) x pos :
  fst (forward self x pos)
  = if _initialized_buffer self then self else init_rotary_embeddings self.
Proof. reflexivity. Qed.

Lemma after_init_table (self : t) :
  rotary_wf self ->
  let self' := if _initialized_buffer self then self
               else init_rotary_embeddings self in
  freqs_cis self' = rotary_table (dim self') (end_ self') (theta self')
  /\ _initialized_buffer self' = true
  /\ dim self' = dim self /\ end_ self' = end_ self /\ theta self' = theta self.
Proof.
  intros Hwf. unfold init_rotary_embeddings.
  destruct (_initialized_buffer self) eqn:E; simpl; auto.
Qed.

(** What a successful call returns, entry by entry. *)
Lemma forward_inv (self : t) (x : tensor tensor4) pos (y : tensor tensor4)
      (b s h d : nat) :
  rotary_wf self ->
  shaped4 b s h d (data x) ->
  snd (forward self x pos) = Ok y ->
  dtype_of y = dtype_of x
  /\ shaped4 b s h d (data y)
  /\ Forall2 (Forall2 (Forall2
       (fun v w => length v mod 2 = 0 /\ exists rh,
            w = view_as_real rh
            /\ Forall2 (fun c r => exists f, unit_modulus f /\ r = cmul c f)
                       (view_as_complex v) rh)))
       (data x) (data y).
Proof.
  intros Hwf Hx H.
  pose proof (after_init_table self Hwf) as (Htab & _ & _).
  unfold forward in H. cbn [snd] in H.
  set (self' := if _initialized_buffer self then self
                else init_rotary_embeddings self) in *.
  pose proof (shaped4_self _ _ _ _ _ Hx) as Hx'.
  unfold shape4 in H.
  set (B := length (data x)) in *. set (S_ := shape1 (data x)) in *.
  set (H_ := shape1 (hd [] (data x))) in *.
  set (D := shape1 (hd [] (hd [] (data x)))) in *.
  apply bind_Ok_inv in H as (u & Hev & H). apply assert_Ok_inv in Hev.
  apply Nat.eqb_eq in Hev.
  set (x1 := match dtype_of x with BFloat16 => to_float x | _ => x end) in *.
  assert (Hdata : data x1 = data x) by (unfold x1; destruct (dtype_of x); reflexivity).
  rewrite Hdata in H.
  apply bind_Ok_inv in H as (cf & Hcf & H).
  apply bind_Ok_inv in H as (prod & Hprod & H).
  apply bind_Ok_inv in H as (u' & Hshape & H).
  apply guard_Ok_inv in Hshape. injection H as <-. cbn [data dtype_of type_as] in *.
  apply has_shape4_spec in Hshape.
  split; [reflexivity |].
  split; [eapply shaped4_transfer; eauto |].
  assert (Hcx : shaped4 B S_ H_ (D / 2) (map (map (map view_as_complex)) (data x))).
  { eapply shaped4_map; [| exact Hx'].
    intros v Hv. now rewrite view_as_complex_length, Hv. }
  assert (Hpr : shaped4 B S_ H_ (D / 2) prod).
  { eapply shaped4_map_inv; [| exact Hshape].
    intros v Hv. rewrite view_as_real_length in Hv.
    rewrite <- Hv. rewrite Nat.mul_comm, Nat.div_mul; lia. }
  pose proof (rotate_inv _ _ _ _ _ _ _ Hprod Hcx Hpr) as Hrel.
  pose proof (select_freqs_In _ _ _ _ Hcf) as Hin.
  pose proof (rotary_table_unit (dim self') (end_ self') (theta self')) as Hunit.
  rewrite <- Htab in Hunit.
  destruct Hx' as [_ Hx'].
  apply (proj1 (Forall2_map_l (map (map view_as_complex)) _ _ _)) in Hrel.
  apply (proj2 (Forall2_map_r (map (map view_as_real)) _ _ _)).
  eapply Forall2_with; [exact Hrel | exact Hx' | apply Forall_forall; intros; exact I |].
  clear Hrel Hx'. intros xb zb Hrel [_ Hxb] _.
  apply (proj1 (Forall2_map_l (map view_as_complex) _ _ _)) in Hrel.
  apply (proj2 (Forall2_map_r (map view_as_real) _ _ _)).
  eapply Forall2_with; [exact Hrel | exact Hxb | apply Forall_forall; intros; exact I |].
  clear Hrel Hxb. intros xs zs Hrel [_ Hxs] _.
  apply (proj1 (Forall2_map_l view_as_complex _ _ _)) in Hrel.
  apply (proj2 (Forall2_map_r view_as_real _ _ _)).
  eapply Forall2_with; [exact Hrel | exact Hxs | apply Forall_forall; intros; exact I |].
  clear Hrel Hxs. intros v rh Hrel Hv _.
  split; [now rewrite Hv |].
  exists rh. split; [reflexivity |].
  eapply Forall2_impl; [| exact Hrel].
  intros c r (fb & fs & f & Hfb & Hfs & Hf & ->).
  exists f. split; [| reflexivity].
  rewrite Forall_forall in Hin. specialize (Hin fb Hfb).
  rewrite Forall_forall in Hin. specialize (Hin fs Hfs).
  rewrite Forall_forall in Hunit. specialize (Hunit fs Hin).
  rewrite Forall_forall in Hunit. now apply Hunit.
Qed.



Lemma sequence_ok {A} (T : A -> Prop) (l : list (result A)) :
  Forall (fun r => exists z, r = Ok z /\ T z) l ->
  exists zs, sequence l = Ok zs /\ length zs = length l /\ Forall T zs.
Proof.
  induction 1 as [| r l (z & -> & Hz) _ (zs & IH & Hl & HT)]; simpl.
  - exists []. auto.
  - rewrite IH. exists (z :: zs). simpl. auto.
Qed.

(** Broadcasting succeeds when the right operand is as long as the left
    one or has a single entry, and the entries combine. *)
Lemma broadcast2_ok {A B C} (P : A -> Prop) (Q : B -> Prop) (T : C -> Prop)
      (f : A -> B -> result C) xs ys :
  length ys = length xs \/ length ys = 1 ->
  Forall P xs -> Forall Q ys ->
  (forall x y, P x -> Q y -> exists z, f x y = Ok z /\ T z) ->
  exists zs, broadcast2 f xs ys = Ok zs /\ length zs = length xs /\ Forall T zs.
Proof.
  intros Hlen HP HQ Hf.
  assert (Hsingle : forall y, Q y ->
            exists zs, sequence (map (fun x => f x y) xs) = Ok zs
                       /\ length zs = length xs /\ Forall T zs).
  { intros y Hy.
    destruct (sequence_ok T (map (fun x => f x y) xs)) as (zs & Hzs & Hl & HT).
    - apply Forall_map. eapply Forall_impl; [| exact HP]. intros x Hx. now apply Hf.
    - rewrite length_map in Hl. eauto. }
  destruct (Nat.eq_dec (length ys) (length xs)) as [E | NE].
  - rewrite broadcast2_same_length by auto.
    destruct (sequence_ok T (map2 f xs ys)) as (zs & Hzs & Hl & HT).
    + clear Hlen Hsingle. revert ys E HQ.
      induction HP as [| x xs Hx _ IH]; intros [| y ys] E HQ; simpl in *;
        try discriminate; constructor.
      * inversion HQ; subst. now apply Hf.
      * inversion HQ; subst. apply IH; auto.
    + exists zs. repeat split; auto. rewrite Hl.
      clear -E. revert ys E. induction xs; intros [| y ys] E; simpl in *;
        try discriminate; auto.
  - destruct Hlen as [Hlen | Hlen]; [contradiction |].
    destruct ys as [| y [| ? ?]]; try discriminate.
    rewrite broadcast2_singleton_r. apply Hsingle. now inversion HQ.
Qed.

Lemma rotate_ok (cx : list (list (list (list complex))))
      (cf : list (list (list complex))) (b s h n : nat) :
  shaped4 b s h n cx ->
  length cf = b \/ length cf = 1 ->
  Forall (fun fb => length fb = s /\ Forall (fun fs => length fs = n) fb) cf ->
  exists prod, rotate cx cf = Ok prod /\ shaped4 b s h n prod.
Proof.
  intros [Hb Hx] Hcf Hf. unfold rotate, shaped4.
  set (T4 := fun zh : list complex => length zh = n).
  set (T3 := fun zs : list (list complex) => length zs = h /\ Forall T4 zs).
  set (T2 := fun zb : list (list (list complex)) => length zb = s /\ Forall T3 zb).
  destruct (broadcast2_ok T2 (fun fb => length fb = s /\ Forall T4 fb) T2
              (fun xb fb =>
                 broadcast2
                   (fun xs fs =>
                      broadcast2
                        (fun xh f1 => broadcast2 (fun c f => Ok (cmul c f)) xh f1)
                        xs [fs])
                   xb fb) cx cf)
    as (zs & Hzs & Hl & HT); auto.
  { rewrite Hb. exact Hcf. }
  2:{ exists zs. split; [exact Hzs | split; [congruence | exact HT]]. }
  intros xb fb [Hs Hxb] [Hfs Hfb].
  destruct (broadcast2_ok T3 T4 T3
              (fun xs fs =>
                 broadcast2
                   (fun xh f1 => broadcast2 (fun c f => Ok (cmul c f)) xh f1)
                   xs [fs]) xb fb)
    as (zs & Hzs & Hl & HT); auto.
  { left. congruence. }
  2:{ exists zs. split; [exact Hzs | split; [congruence | exact HT]]. }
  intros xs fs [Hh Hxs] Hn.
  destruct (broadcast2_ok T4 T4 T4
              (fun xh f1 => broadcast2 (fun c f => Ok (cmul c f)) xh f1) xs [fs])
    as (zs & Hzs & Hl & HT); auto.
  2:{ exists zs. split; [exact Hzs | split; [congruence | exact HT]]. }
  intros xh f1 Hd Hf1.
  destruct (broadcast2_ok (fun _ : complex => True) (fun _ : complex => True)
              (fun _ : complex => True) (fun c f => Ok (cmul c f)) xh f1)
    as (zs & Hzs & Hl & HT).
  - left. unfold T4 in *. congruence.
  - apply Forall_forall. auto.
  - apply Forall_forall. auto.
  - intros c f _ _. eauto.
  - exists zs. split; [exact Hzs |]. unfold T4 in *. congruence.
Qed.



Lemma inv_freqs_length (dim : nat) (theta : R) :
  length (inv_freqs dim theta) = dim / 2.
Proof.
  unfold inv_freqs. rewrite length_map, length_firstn, length_map, length_seq.
  apply Nat.min_l. apply Nat.Div0.div_le_mono. lia.
Qed.

Lemma rotary_table_shape (dim end_ : nat) (theta : R) :
  length (rotary_table dim end_ theta) = end_
  /\ Forall (fun row => length row = dim / 2) (rotary_table dim end_ theta).
Proof.
  unfold rotary_table. split.
  - now rewrite length_map, length_seq.
  - apply Forall_map, Forall_forall. intros p _.
    now rewrite length_map, inv_freqs_length.
Qed.

Lemma index_row_ok (buf : list (list complex)) (p : Z) :
  (- Z.of_nat (length buf) <= p < Z.of_nat (length buf))%Z ->
  exists row, index_row buf p = Ok row /\ In row buf.
Proof.
  intros Hp. unfold index_row.
  set (n := Z.of_nat (length buf)) in *.
  set (i := if (p <? 0)%Z then (p + n)%Z else p).
  assert (Hi : (0 <= i < n)%Z) by (unfold i; destruct (Z.ltb_spec p 0); lia).
  replace ((0 <=? i)%Z && (i <? n)%Z) with true by (symmetry; apply andb_true_iff; lia).
  destruct (nth_error buf (Z.to_nat i)) as [row |] eqn:E.
  - exists row. split; [reflexivity | eapply nth_error_In; eauto].
  - apply nth_error_None in E. unfold n in Hi. lia.
Qed.

Lemma shaped4_to_self {A B} (b s h d : nat)
      (x : list (list (list (list A)))) (z : list (list (list (list B)))) :
  shaped4 b s h d x -> shaped4 b s h d z ->
  shaped4 (length x) (shape1 x) (shape1 (hd [] x)) (shape1 (hd [] (hd [] x))) z.
Proof.
  intros [Hb Hx] [Hzb Hz]. split; [congruence |].
  destruct x as [| xb x]; simpl in *.
  { subst b. destruct z; [constructor | discriminate]. }
  inversion Hx as [| ? ? [Hs Hxb] _]; subst.
  destruct xb as [| xs xb]; simpl in *.
  { eapply Forall_impl; [| exact Hz]. intros zb [Hl _].
    destruct zb; [| discriminate]. split; [reflexivity | constructor]. }
  inversion Hxb as [| ? ? [Hh Hxs] _]; subst.
  destruct xs as [| xh xs]; simpl in *.
  { eapply Forall_impl; [| exact Hz]. intros zb [Hl Hzb']. split; [assumption |].
    eapply Forall_impl; [| exact Hzb']. intros zs [Hl' _].
    destruct zs; [| discriminate]. split; [reflexivity | constructor]. }
  inversion Hxs as [| ? ? Hd _]; subst. exact Hz.
Qed.

Lemma shape4_inner_dim {A} (b s h d : nat) (x : list (list (list (list A)))) :
  shaped4 b s h d x ->
  shape1 (hd [] (hd [] x)) = d \/ shape1 (hd [] (hd [] x)) = 0.
Proof.
  intros [_ Hx]. destruct x as [| [| [| xh xs] xb] x]; simpl; auto.
  inversion Hx as [| ? ? [_ Hxb] _]; subst.
  inversion Hxb as [| ? ? [_ Hxs] _]; subst.
  inversion Hxs; subst. auto.
Qed.

Lemma select_freqs_ok (self : t) (b s : nat) pos :
  freqs_cis self = rotary_table (dim self) (end_ self) (theta self) ->
  positions_ok self b s pos ->
  exists cf, select_freqs self s pos = Ok cf
    /\ (length cf = b \/ length cf = 1)
    /\ Forall (fun fb => length fb = s
                         /\ Forall (fun fs => length fs = dim self / 2) fb) cf.
Proof.
  intros Htab Hpos.
  destruct (rotary_table_shape (dim self) (end_ self) (theta self)) as [Hlen Hrows].
  rewrite <- Htab in Hlen, Hrows.
  unfold select_freqs. destruct pos as [pos |]; simpl in Hpos.
  - destruct Hpos as (Hb & Hp & lr & l & -> & Hl & Hlast). cbn [bind]. rewrite Hl.
    cbn [bind].
    replace ((l <? 0)%Z || (Z.of_nat (end_ self) <=? l)%Z) with false
      by (symmetry; apply orb_false_iff; lia).
    destruct (sequence_ok
                (fun fb => length fb = s /\ Forall (fun fs => length fs = dim self / 2) fb)
                (map (fun row => sequence (map (index_row (freqs_cis self)) row)) pos))
      as (cf & Hcf & Hcl & HT).
    + apply Forall_map. eapply Forall_impl; [| exact Hp].
      intros row [Hs Hrow].
      destruct (sequence_ok (fun fs => length fs = dim self / 2)
                            (map (index_row (freqs_cis self)) row))
        as (fb & Hfb & Hfl & HfT).
      * apply Forall_map. eapply Forall_impl; [| exact Hrow].
        intros p Hp'. destruct (index_row_ok (freqs_cis self) p) as (r & Hr & Hin).
        { now rewrite Hlen. }
        exists r. split; [exact Hr |].
        rewrite Forall_forall in Hrows. now apply Hrows.
      * exists fb. rewrite length_map in Hfl. split; [exact Hfb |]. split; [congruence | exact HfT].
    + exists cf. rewrite length_map in Hcl. split; [exact Hcf |]. split; [left; congruence | exact HT].
  - eexists. split; [reflexivity |]. split; [now right |].
    constructor; [| constructor]. split.
    + rewrite length_firstn, Hlen. lia.
    + apply Forall_forall. intros fs Hfs. rewrite Forall_forall in Hrows.
      apply Hrows. rewrite <- (firstn_skipn s (freqs_cis self)).
      apply in_or_app. now left.
Qed.

(** A rotary call on well-shaped arguments returns. *)
Lemma forward_ok (self : t) (x : tensor tensor4) pos (b s h d : nat) :
  rotary_wf self ->
  shaped4 b s h d (data x) ->
  d mod 2 = 0 ->
  dim self / 2 = d / 2 ->
  positions_ok self b s pos ->
  exists y, snd (forward self x pos) = Ok y.
Proof.
  intros Hwf Hx Hd Hdim Hpos.
  pose proof (after_init_table self Hwf) as (Htab & _ & Hdim' & Hend' & _).
  unfold forward. cbn [snd].
  set (self' := if _initialized_buffer self then self
                else init_rotary_embeddings self) in *.
  unfold shape4.
  replace (shape1 (hd [] (hd [] (data x))) mod 2 =? 0) with true.
  2:{ symmetry. apply Nat.eqb_eq.
      destruct (shape4_inner_dim _ _ _ _ _ Hx) as [E | E];
        (etransitivity; [apply (f_equal (fun n => n mod 2)); exact E | auto]). }
  cbn [assert_ bind].
  set (x1 := match dtype_of x with BFloat16 => to_float x | _ => x end).
  assert (Hdata : data x1 = data x) by (unfold x1; destruct (dtype_of x); reflexivity).
  rewrite Hdata.
  assert (Hs : shape1 (data x) = s \/ data x = []).
  { destruct Hx as [_ Hx]. destruct (data x); [now right | left].
    inversion Hx as [| ? ? [? _] _]; subst. reflexivity. }
  assert (Hpos' : positions_ok self' b s pos).
  { unfold positions_ok in *. rewrite Hend'. exact Hpos. }
  destruct (select_freqs_ok self' b s pos Htab Hpos') as (cf & Hcf & Hcl & Hcs).
  assert (Hsel : (exists cf', select_freqs self' (shape1 (data x)) pos = Ok cf'
             /\ (length cf' = b \/ length cf' = 1)
             /\ Forall (fun fb => length fb = s
                         /\ Forall (fun fs => length fs = d / 2) fb) cf')
             \/ (data x = [] /\ pos = None)).
  { destruct Hs as [-> | Hnil].
    - left. exists cf. rewrite Hdim', Hdim in Hcs. auto.
    - destruct pos as [pos |].
      + left. exists cf. rewrite Hdim', Hdim in Hcs. auto.
      + now right. }
  destruct Hsel as [(cf' & -> & Hcl' & Hcs') | [Hnil ->]].
  - cbn [bind].
    destruct (rotate_ok (map (map (map view_as_complex)) (data x)) cf' b s h (d / 2))
      as (prod & -> & Hprod); auto.
    { eapply shaped4_map; [| exact Hx]. intros v Hv.
      now rewrite view_as_complex_length, Hv. }
    cbn [bind data].
    replace (has_shape4 _ _ _ _ _) with true; [cbn [guard bind]; eauto |].
    symmetry. apply has_shape4_spec.
    eapply shaped4_to_self; [exact Hx |].
    eapply shaped4_map; [| exact Hprod]. intros v Hv.
    rewrite view_as_real_length, Hv.
    pose proof (Nat.div_mod_eq d 2). lia.
  - rewrite Hnil. cbn. eauto.
Qed.

End RotaryFacts.

(* ================================================================== *)
(** * Where the rotary encoder's errors come from *)

Module RangeFacts.
Import ResultFacts ShapeFacts RotaryFacts RotaryEmbedding.

Lemma sequence_Raise {A} (l : list (result A)) (e : error) :
  sequence l = Raise e -> In (Raise e) l.
Proof.
  induction l as [| r l IH]; simpl; [discriminate |].
  destruct r as [a | e']; simpl.
  - destruct (sequence l) as [zs | e'']; simpl; [discriminate |].
    intros [= ->]. right. now apply IH.
  - intros [= ->]. now left.
Qed.

Lemma map2_In {A B C} (f : A -> B -> C) xs ys z :
  In z (map2 f xs ys) -> exists x y, In x xs /\ In y ys /\ z = f x y.
Proof.
  revert ys. induction xs as [| x xs IH]; intros [| y ys]; simpl; try tauto.
  intros [<- | H].
  - exists x, y. auto.
  - destruct (IH _ H) as (x' & y' & ? & ? & ?). exists x', y'. auto.
Qed.

(** Broadcasting adds no error of its own except [RuntimeError]. *)
Lemma broadcast2_Raise {A B C} (f : A -> B -> result C) xs ys e :
  broadcast2 f xs ys = Raise e ->
  e = RuntimeError \/ exists x y, In x xs /\ In y ys /\ f x y = Raise e.
Proof.
  unfold broadcast2. destruct (length xs =? length ys).
  - intros H. apply sequence_Raise, map2_In in H as (x & y & ? & ? & ?).
    right. exists x, y. auto.
  - destruct xs as [| x1 [| x2 xs]].
    + destruct ys as [| y [| y2 ys]]; try discriminate; intros [= <-]; auto.
    + intros H. apply sequence_Raise, in_map_iff in H as (y & Hy & Hin).
      right. exists x1, y. simpl. auto.
    + destruct ys as [| y [| y2 ys]]; try (intros [= <-]; auto).
      intros H. apply sequence_Raise, in_map_iff in H as (x & Hx & Hin).
      right. exists x, y. simpl. auto.
Qed.

Lemma rotate_Raise cx cf e : rotate cx cf = Raise e -> e = RuntimeError.
Proof.
  unfold rotate. intros H.
  apply broadcast2_Raise in H as [-> | (xb & fb & _ & _ & H)]; [reflexivity |].
  apply broadcast2_Raise in H as [-> | (xs & fs & _ & _ & H)]; [reflexivity |].
  apply broadcast2_Raise in H as [-> | (xh & f1 & _ & _ & H)]; [reflexivity |].
  apply broadcast2_Raise in H as [-> | (c & f & _ & _ & H)]; [reflexivity |].
  discriminate.
Qed.

Lemma index_row_Raise buf p e : index_row buf p = Raise e -> e = IndexError.
Proof.
  unfold index_row. destruct (_ && _); [| now intros [= <-]].
  destruct (nth_error _ _); [discriminate | now intros [= <-]].
Qed.

Lemma gather_Raise buf (pos : list (list Z)) e :
  sequence (map (fun row => sequence (map (index_row buf) row)) pos) = Raise e ->
  e = IndexError.
Proof.
  intros H. apply sequence_Raise, in_map_iff in H as (row & H & _).
  apply sequence_Raise, in_map_iff in H as (p & H & _).
  eapply index_row_Raise; eauto.
Qed.

Lemma last_entry_In {A} (l : list A) (x : A) : last_entry l = Ok x -> In x l.
Proof.
  unfold last_entry. destruct (rev l) as [| y r] eqn:E; [discriminate |].
  intros [= ->]. apply in_rev. rewrite E. now left.
Qed.

Lemma zmin_list_le (l : list Z) (d p : Z) : In p l -> (zmin_list l d <= p)%Z.
Proof.
  induction l as [| a l IH]; simpl; [tauto |].
  intros [-> | H]; [lia | specialize (IH H); lia].
Qed.

Lemma zmax_list_ge (l : list Z) (d p : Z) : In p l -> (p <= zmax_list l d)%Z.
Proof.
  induction l as [| a l IH]; simpl; [tauto |].
  intros [-> | H]; [lia | specialize (IH H); lia].
Qed.

Lemma pos_min_max (pos : list (list Z)) (p : Z) :
  In p (concat pos) -> (pos_min pos <= p <= pos_max pos)%Z.
Proof.
  intros H. unfold pos_min, pos_max. split.
  - now apply zmin_list_le.
  - now apply zmax_list_ge.
Qed.

Lemma sequence_In_Raise {A} (l : list (result A)) (e : error) :
  In (Raise e) l -> exists e', sequence l = Raise e'.
Proof.
  induction l as [| r l IH]; simpl; [tauto |].
  intros [-> | H]; [simpl; eauto |].
  destruct r as [a | e0]; simpl; [| eauto].
  destruct (IH H) as [e' ->]. simpl. eauto.
Qed.

Lemma index_row_beyond buf p :
  (Z.of_nat (length buf) <= p)%Z -> index_row buf p = Raise IndexError.
Proof.
  intros Hp. unfold index_row.
  replace (p <? 0)%Z with false by (symmetry; apply Z.ltb_ge; lia).
  replace (p <? Z.of_nat (length buf))%Z with false
    by (symmetry; apply Z.ltb_ge; lia).
  now rewrite andb_false_r.
Qed.

(** A position beyond the table makes the lookup fail. *)
Lemma gather_beyond buf (pos : list (list Z)) row p :
  In row pos -> In p row -> (Z.of_nat (length buf) <= p)%Z ->
  sequence (map (fun row => sequence (map (index_row buf) row)) pos)
  = Raise IndexError.
Proof.
  intros Hrow Hp Hbeyond.
  destruct (sequence_In_Raise (map (index_row buf) row) IndexError) as [e He].
  { apply in_map_iff. exists p. split; [now apply index_row_beyond | exact Hp]. }
  destruct (sequence_In_Raise
              (map (fun row => sequence (map (index_row buf) row)) pos) e)
    as [e' He'].
  { apply in_map_iff. exists row. auto. }
  rewrite He'. apply gather_Raise in He'. now subst.
Qed.

(** A call with any position at or beyond the table's end fails: with
    the range error if the range test sees it, with the gather's index
    error otherwise. *)
Lemma forward_beyond_table (self : t) (x : tensor tensor4) (pos : list (list Z))
      (row : list Z) (p : Z) :
  rotary_wf self ->
  shape1 (hd [] (hd [] (data x))) mod 2 = 0 ->
  In row pos -> In p row -> (Z.of_nat (end_ self) <= p)%Z ->
  snd (forward self x (Some pos)) = Raise IndexError
  \/ snd (forward self x (Some pos))
     = Raise (ValueError (Z.of_nat (end_ self)) (pos_min pos) (pos_max pos)).
Proof.
  intros Hwf Hev Hrow Hp Hbeyond.
  pose proof (after_init_table self Hwf) as (Htab & _ & _ & Hend & _).
  unfold forward, shape4. cbn [snd].
  set (self' := if _initialized_buffer self then self
                else init_rotary_embeddings self) in *.
  rewrite Hev. cbn [Nat.eqb assert_ bind].
  unfold select_freqs.
  destruct (last_entry pos) as [last_row | e] eqn:E1; cbn [bind].
  2:{ left. unfold last_entry in E1. destruct (rev pos); [| discriminate].
      now injection E1 as <-. }
  destruct (last_entry last_row) as [last | e] eqn:E2; cbn [bind].
  2:{ left. unfold last_entry in E2. destruct (rev last_row); [| discriminate].
      now injection E2 as <-. }
  rewrite Hend.
  destruct ((last <? 0)%Z || (Z.of_nat (end_ self) <=? last)%Z); [now right |].
  left. rewrite (gather_beyond _ pos row p Hrow Hp); [reflexivity |].
  rewrite Htab. destruct (rotary_table_shape (dim self') (end_ self') (theta self'))
    as [-> _]. now rewrite Hend.
Qed.

(** The range test of [forward] looks at the last entry of the last row
    and at nothing else. *)
Lemma forward_range_test (self : t) (x : tensor tensor4) (pos : list (list Z))
      (last_row : list Z) (last : Z) :
  shape1 (hd [] (hd [] (data x))) mod 2 = 0 ->
  last_entry pos = Ok last_row ->
  last_entry last_row = Ok last ->
  let n := Z.of_nat (end_ self) in
  ((last < 0 \/ n <= last)%Z ->
   snd (forward self x (Some pos))
   = Raise (ValueError n (pos_min pos) (pos_max pos)))
  /\ ((0 <= last < n)%Z ->
      forall e lo hi, snd (forward self x (Some pos)) <> Raise (ValueError e lo hi)).
Proof.
  intros Hev Hrow Hlast n.
  assert (Hend : end_ (if _initialized_buffer self then self
                       else init_rotary_embeddings self) = end_ self).
  { unfold init_rotary_embeddings. now destruct (_initialized_buffer self). }
  unfold forward, shape4. cbn [snd].
  rewrite Hev. cbn [Nat.eqb assert_ bind].
  unfold select_freqs. rewrite Hrow. cbn [bind]. rewrite Hlast. cbn [bind].
  rewrite Hend. fold n. split.
  - intros Hbad.
    replace ((last <? 0)%Z || (n <=? last)%Z) with true
      by (symmetry; apply orb_true_iff; lia).
    reflexivity.
  - intros Hok e lo hi.
    replace ((last <? 0)%Z || (n <=? last)%Z) with false
      by (symmetry; apply orb_false_iff; lia).
    destruct (sequence _) as [cf |] eqn:Ecf.
    + cbn [bind]. destruct (rotate _ _) as [prod |] eqn:Eprod.
      * cbn [bind]. destruct (guard _ _) eqn:Eg; cbn [bind]; [discriminate |].
        unfold guard in Eg. destruct (has_shape4 _ _ _ _ _); [discriminate |].
        injection Eg as <-. discriminate.
      * cbn [bind]. apply rotate_Raise in Eprod as ->. discriminate.
    + cbn [bind]. apply gather_Raise in Ecf as ->. discriminate.
Qed.

End RangeFacts.

(* ================================================================== *)
(** * Facts about the attention module's building blocks *)

Module MonadFacts.

Lemma bindM_Ok_inv {A B} (c : M A) (k : A -> M B) (st st' : state) (b : B) :
  bindM c k st = (st', Ok b) ->
  exists a st1, c st = (st1, Ok a) /\ k a st1 = (st', Ok b).
Proof.
  unfold bindM. destruct (c st) as [st1 [a | e]]; [eauto | discriminate].
Qed.

Lemma bindM_Raise_inv {A B} (c : M A) (k : A -> M B) (st st' : state) (e : error) :
  bindM c k st = (st', Raise e) ->
  c st = (st', Raise e)
  \/ exists a st1, c st = (st1, Ok a) /\ k a st1 = (st', Raise e).
Proof.
  unfold bindM. destruct (c st) as [st1 [a | e']]; [eauto |].
  intros [= -> ->]. now left.
Qed.

(** Every run of a bind is a run of its first part followed, when that
    part returns, by a run of the continuation. *)
Lemma bindM_inv {A B} (c : M A) (k : A -> M B) (st st' : state) (r : result B) :
  bindM c k st = (st', r) ->
  exists st1 r1,
    c st = (st1, r1)
    /\ match r1 with
       | Ok a => k a st1 = (st', r)
       | Raise e => st' = st1 /\ r = Raise e
       end.
Proof.
  unfold bindM. destruct (c st) as [st1 [a | e]]; intros H.
  - exists st1, (Ok a). auto.
  - injection H as <- <-. exists st1, (Raise e). auto.
Qed.

Lemma lift_inv {A} (r : result A) (st st' : state) (r' : result A) :
  lift r st = (st', r') -> st' = st /\ r' = r.
Proof. unfold lift. now intros [= <- <-]. Qed.

Lemma retM_inv {A} (a : A) (st st' : state) (r : result A) :
  retM a st = (st', r) -> st' = st /\ r = Ok a.
Proof. unfold retM. now intros [= <- <-]. Qed.

(** A rotary call touches the rotary sub-module only. *)
Lemma call_rotary_inv (x : tensor tensor4) pos (st st' : state) r :
  call_rotary x pos st = (st', r) ->
  local_store st' = local_store st
  /\ kernel_log st' = kernel_log st
  /\ rotary_embedding st' = fst (RotaryEmbedding.forward (rotary_embedding st) x pos)
  /\ r = snd (RotaryEmbedding.forward (rotary_embedding st) x pos).
Proof.
  unfold call_rotary.
  destruct (RotaryEmbedding.forward (rotary_embedding st) x pos) as [rot r0].
  intros [= <- <-]. auto.
Qed.

Lemma log_call_inv (c : kernel_call) (st st' : state) r :
  log_call c st = (st', r) ->
  local_store st' = local_store st
  /\ kernel_log st' = kernel_log st ++ [c]
  /\ rotary_embedding st' = rotary_embedding st
  /\ r = Ok tt.
Proof. unfold log_call. intros [= <- <-]. auto. Qed.

Lemma set_local_store_inv (s : store) (st st' : state) r :
  set_local_store s st = (st', r) ->
  local_store st' = Some s
  /\ kernel_log st' = kernel_log st
  /\ rotary_embedding st' = rotary_embedding st
  /\ r = Ok tt.
Proof. unfold set_local_store. intros [= <- <-]. auto. Qed.

End MonadFacts.

Module MaskFacts.
Import ResultFacts PadToRightFacts.

Lemma wrap32_small (z : Z) : (- 2 ^ 31 <= z < 2 ^ 31)%Z -> wrap32 z = z.
Proof.
  intros H. unfold wrap32.
  rewrite Z.mod_small by lia. lia.
Qed.

Lemma count_true_cons (b : bool) (row : list bool) :
  count_true (b :: row) = (if b then 1 else 0) + count_true row.
Proof. unfold count_true. simpl. now destruct b. Qed.

(** Without overflow the running sum counts the True entries seen. *)
Lemma cumsum32_spec (row : list bool) (acc : Z) :
  (0 <= acc)%Z -> (acc + Z.of_nat (length row) < 2 ^ 31)%Z ->
  length (cumsum32 acc row) = length row
  /\ Forall (fun c => (acc <= c <= acc + Z.of_nat (count_true row))%Z)
            (cumsum32 acc row)
  /\ (row <> [] ->
      last_entry (cumsum32 acc row) = Ok (acc + Z.of_nat (count_true row))%Z).
Proof.
  revert acc. induction row as [| b row IH]; intros acc Hacc Hlen.
  - simpl. split; [reflexivity |]. split; [constructor | congruence].
  - cbn [cumsum32 length] in *. rewrite Nat2Z.inj_succ in Hlen.
    assert (Hb : (0 <= b2z b <= 1)%Z) by (destruct b; simpl; lia).
    rewrite wrap32_small by lia.
    destruct (IH (acc + b2z b)%Z) as (Hl & Hall & Hlast); try lia.
    rewrite count_true_cons.
    assert (Hc : (b2z b = Z.of_nat (if b then 1 else 0))%Z) by now destruct b.
    split; [now rewrite Hl |]. split.
    + constructor; [lia |].
      eapply Forall_impl; [| exact Hall]. intros c Hc'. cbv beta in Hc'. lia.
    + intros _. destruct row as [| b' row].
      * destruct b; unfold last_entry, count_true; simpl; f_equal; lia.
      * specialize (Hlast ltac:(discriminate)).
        unfold last_entry in *. cbn [rev] in *.
        set (l := cumsum32 (acc + b2z b) (b' :: row)) in *.
        change (rev ((acc + b2z b)%Z :: l)) with (rev l ++ [(acc + b2z b)%Z]).
        destruct (rev l) as [| x r]; [discriminate |].
        simpl. injection Hlast as ->. f_equal. lia.
Qed.

Lemma last_entry_map {A B} (g : A -> B) (l : list A) (x : A) :
  last_entry l = Ok x -> last_entry (map g l) = Ok (g x).
Proof.
  unfold last_entry. rewrite <- map_rev.
  destruct (rev l); [discriminate |]. now intros [= ->].
Qed.

Lemma last_entry_Ok_inv {A} (l : list A) (x : A) :
  last_entry l = Ok x -> exists l', l = l' ++ [x].
Proof.
  unfold last_entry. destruct (rev l) as [| y r] eqn:E; [discriminate |].
  intros [= ->]. exists (rev r).
  rewrite <- (rev_involutive l), E. reflexivity.
Qed.

Lemma last_entry_app {A} (l : list A) (x : A) : last_entry (l ++ [x]) = Ok x.
Proof. unfold last_entry. now rewrite rev_app_distr. Qed.

Lemma last_entry_nonempty {A} (l : list A) :
  l <> [] -> exists x, last_entry l = Ok x.
Proof.
  intros H. unfold last_entry. destruct (rev l) as [| y r] eqn:E; [| eauto].
  apply (f_equal (@rev A)) in E. rewrite rev_involutive in E. contradiction.
Qed.

(** ** The no-gap test *)

Lemma adjacent_exists (row : list bool) :
  existsb (fun b => b) (map2 andb (removelast row) (map negb (tl row))) = true
  <-> exists i, nth_error row i = Some true /\ nth_error row (S i) = Some false.
Proof.
  induction row as [| a row IH].
  - simpl. split; [discriminate | intros (i & H & _); destruct i; discriminate].
  - destruct row as [| b row].
    + simpl. split; [discriminate |].
      intros (i & _ & H). destruct i; discriminate.
    + change (removelast (a :: b :: row)) with (a :: removelast (b :: row)).
      cbn [tl map map2 existsb]. rewrite orb_true_iff, IH. split.
      * intros [H | (i & H1 & H2)].
        -- exists 0. apply andb_true_iff in H as [-> H].
           apply negb_true_iff in H as ->. auto.
        -- exists (S i). auto.
      * intros ([| i] & H1 & H2).
        -- left. simpl in *. injection H1 as ->. injection H2 as ->. reflexivity.
        -- right. exists i. auto.
Qed.

Lemma gap_adjacent (row : list bool) (i j : nat) :
  i < j -> nth_error row i = Some true -> nth_error row j = Some false ->
  exists k, nth_error row k = Some true /\ nth_error row (S k) = Some false.
Proof.
  intros Hlt Hi Hj.
  remember (j - i) as n eqn:Hn. revert i j Hlt Hi Hj Hn.
  induction n as [| n IH]; intros i j Hlt Hi Hj Hn; [lia |].
  destruct (nth_error row (S i)) as [[|] |] eqn:E.
  - destruct (Nat.eq_dec (S i) j) as [Heq | Hne]; [subst j; congruence |].
    apply (IH (S i) j); auto; lia.
  - exists i. auto.
  - apply nth_error_None in E.
    assert (j < length row) by (apply nth_error_Some; congruence). lia.
Qed.

Lemma true_then_false_spec (sequence_mask : bool_mask) :
  true_then_false sequence_mask = true <-> has_gap sequence_mask.
Proof.
  unfold true_then_false, has_gap. rewrite existsb_exists. split.
  - intros (row & Hin & H). apply adjacent_exists in H as (i & H1 & H2).
    exists row, i, (S i). auto.
  - intros (row & i & j & Hin & Hlt & Hi & Hj).
    exists row. split; [exact Hin |]. apply adjacent_exists.
    eapply gap_adjacent; eauto.
Qed.

Lemma left_padded_no_gap (sequence_mask : bool_mask) :
  Forall left_padded sequence_mask -> true_then_false sequence_mask = false.
Proof.
  intros H. destruct (true_then_false sequence_mask) eqn:E; [| reflexivity].
  exfalso. apply true_then_false_spec in E as (row & i & j & Hin & Hlt & Hi & Hj).
  rewrite Forall_forall in H. destruct (H _ Hin) as (a & b & ->).
  destruct (Nat.lt_ge_cases i a) as [Hia | Hia].
  - rewrite nth_error_app1 in Hi by (rewrite repeat_length; lia).
    rewrite nth_error_repeat in Hi by lia. discriminate.
  - rewrite nth_error_app2 in Hj by (rewrite repeat_length; lia).
    rewrite repeat_length in Hj.
    destruct (Nat.lt_ge_cases (j - a) b) as [Hjb | Hjb].
    + rewrite nth_error_repeat in Hj by lia. discriminate.
    + assert (Hnone : nth_error (repeat true b) (j - a) = None)
        by (apply nth_error_None; rewrite repeat_length; lia).
      congruence.
Qed.

End MaskFacts.

Module SplitFacts.
Import ShapeFacts PadToRightFacts.

Lemma chunks_shape {A} (n size : nat) (l : list A) :
  n * size <= length l ->
  length (chunks n size l) = n
  /\ Forall (fun c => length c = size) (chunks n size l).
Proof.
  revert l. induction n as [| n IH]; intros l Hl; simpl.
  - split; [reflexivity | constructor].
  - destruct (IH (skipn size l)) as [Hlen Hall].
    { rewrite length_skipn. simpl in Hl. lia. }
    split; [now rewrite Hlen |].
    constructor; [| exact Hall].
    rewrite length_firstn. simpl in Hl. lia.
Qed.

Lemma column_shape {A} (j s b : nat) (t : list (list A)) (P : A -> Prop) :
  length t = s ->
  Forall (fun row => length row = b /\ Forall P row) t ->
  j < b ->
  length (column j t) = s /\ Forall P (column j t).
Proof.
  intros Hs Ht Hj. subst s. unfold column.
  induction Ht as [| row t [Hb HP] _ IH]; simpl.
  - split; [reflexivity | constructor].
  - destruct (nth_error row j) as [x |] eqn:E.
    + destruct IH as [IHl IHP]. simpl. split; [now rewrite IHl |].
      constructor; [| exact IHP].
      rewrite Forall_forall in HP. apply HP. eapply nth_error_In; eauto.
    + apply nth_error_None in E. lia.
Qed.

Lemma transpose01_shape {A} (s b c : nat) (t : list (list (list A))) :
  shaped3 s b c t -> shaped3 b s c (transpose01 b t).
Proof.
  intros [Hs Ht]. unfold transpose01, shaped3. split.
  - now rewrite length_map, length_seq.
  - apply Forall_map, Forall_forall. intros j Hj. apply in_seq in Hj.
    apply (column_shape j s b t (fun f => length f = c)); auto. lia.
Qed.

Lemma part_shape (b s c from len heads d : nat) (t : tensor3) :
  shaped3 b s c t ->
  from + len <= c ->
  len = heads * d ->
  shaped4 b s heads d
    (map (map (fun row => chunks heads d (firstn len (skipn from row)))) t).
Proof.
  intros [Hb Ht] Hc Hlen. split; [now rewrite length_map |].
  apply Forall_map. eapply Forall_impl; [| exact Ht].
  intros xb [Hs Hxb]. split; [now rewrite length_map |].
  apply Forall_map. eapply Forall_impl; [| exact Hxb].
  intros row Hrow. cbv beta in Hrow.
  apply chunks_shape. rewrite length_firstn, length_skipn. lia.
Qed.

Lemma shaped3_shape1 {A} (a b c : nat) (x : list (list (list A))) :
  shaped3 a b c x -> 1 <= a -> shape1 x = b.
Proof.
  intros [Ha Hx] H1. destruct x as [| r x]; simpl in *; [lia |].
  inversion Hx as [| ? ? [Hb _] _]; subst. reflexivity.
Qed.

(** A projection of the configured width splits into query, key and
    value tensors of shape (batch, seq, heads, d_qk). *)
Lemma split_qkv_ok (self : CausalSelfAttention) (qkv : tensor3) (s b : nat) :
  1 <= s ->
  shaped3 s b (qkv_features self) qkv ->
  exists q k v,
    split_qkv self qkv (shape1 qkv) (length qkv) = Ok (q, k, v)
    /\ shaped4 b s (n_local_q_heads self) (d_qk self) q
    /\ shaped4 b s (kv_heads self) (d_qk self) k
    /\ shaped4 b s (kv_heads self) (d_qk self) v.
Proof.
  intros Hs Hqkv.
  rewrite (shaped3_shape1 _ _ _ _ Hqkv Hs).
  pose proof (transpose01_shape _ _ _ _ Hqkv) as Ht.
  destruct Hqkv as [Hlen Hrows].
  unfold split_qkv, qkv_features, kv_heads in *.
  destruct (is_gqa self).
  - replace (forallb _ qkv) with true.
    2:{ symmetry. apply forallb_forall. intros row Hin.
        rewrite Forall_forall in Hrows. destruct (Hrows _ Hin) as [_ Hr].
        now apply rows_have_Forall. }
    cbn [guard bind]. eexists _, _, _. split; [reflexivity |].
    repeat split; try (now rewrite length_map; destruct Ht);
      eapply part_shape; eauto; lia.
  - replace (forallb _ qkv) with true.
    2:{ symmetry. apply forallb_forall. intros row Hin.
        rewrite Forall_forall in Hrows. destruct (Hrows _ Hin) as [_ Hr].
        now apply rows_have_Forall. }
    cbn [guard bind]. eexists _, _, _. split; [reflexivity |].
    repeat split; try (now rewrite length_map; destruct Ht);
      eapply part_shape; eauto; lia.
Qed.

End SplitFacts.

Module ForwardEval.
Import ResultFacts ShapeFacts PadToRightFacts RotaryFacts MaskFacts RangeFacts.

Lemma bindM_Ok {A B} (c : M A) (k : A -> M B) (st st1 : state) (a : A) :
  c st = (st1, Ok a) -> bindM c k st = k a st1.
Proof. intros H. unfold bindM. now rewrite H. Qed.

Lemma bindM_Raise {A B} (c : M A) (k : A -> M B) (st st1 : state) (e : error) :
  c st = (st1, Raise e) -> bindM c k st = (st1, Raise e).
Proof. intros H. unfold bindM. now rewrite H. Qed.

Lemma lift_Ok {A} (r : result A) (a : A) (st : state) :
  r = Ok a -> lift r st = (st, Ok a).
Proof. now intros ->. Qed.

Lemma lift_Raise {A} (r : result A) (e : error) (st : state) :
  r = Raise e -> lift r st = (st, @Raise A e).
Proof. now intros ->. Qed.

Lemma sequence_map2_Ok {A B C} (g : A -> B -> C) (xs : list A) (ys : list B) :
  sequence (map2 (fun x y => Ok (g x y)) xs ys) = Ok (map2 g xs ys).
Proof.
  revert ys. induction xs as [| x xs IH]; intros [| y ys]; simpl; try reflexivity.
  now rewrite IH.
Qed.

Lemma map2_length {A B C} (g : A -> B -> C) (xs : list A) (ys : list B) :
  length xs = length ys -> length (map2 g xs ys) = length xs.
Proof.
  revert ys. induction xs as [| x xs IH]; intros [| y ys] H; simpl in *;
    try discriminate; auto.
Qed.

Lemma decode_positions_eq (old : list Z) (sequence_mask : bool_mask) :
  length old = length sequence_mask ->
  broadcast2 (fun o mrow => Ok (map (fun m => wrap32 (o + b2z m)) mrow))
             old sequence_mask
  = Ok (decode_positions old sequence_mask).
Proof.
  intros H. rewrite broadcast2_same_length by exact H.
  apply sequence_map2_Ok.
Qed.

Lemma call_rotary_eq (x : tensor tensor4) pos (st : state) :
  call_rotary x pos st
  = ({| rotary_embedding :=
          fst (RotaryEmbedding.forward (rotary_embedding st) x pos);
        local_store := local_store st;
        kernel_log := kernel_log st |},
     snd (RotaryEmbedding.forward (rotary_embedding st) x pos)).
Proof.
  unfold call_rotary.
  now destruct (RotaryEmbedding.forward (rotary_embedding st) x pos).
Qed.

Lemma map2_app {A B C} (g : A -> B -> C) xs xs' ys ys' :
  length xs = length ys ->
  map2 g (xs ++ xs') (ys ++ ys') = map2 g xs ys ++ map2 g xs' ys'.
Proof.
  revert ys. induction xs as [| x xs IH]; intros [| y ys] H; simpl in *;
    try discriminate; [reflexivity |].
  now rewrite IH by lia.
Qed.

Lemma last_entry_map2 {A B C} (g : A -> B -> C) xs ys x y :
  length xs = length ys ->
  last_entry xs = Ok x -> last_entry ys = Ok y ->
  last_entry (map2 g xs ys) = Ok (g x y).
Proof.
  intros Hlen Hx Hy.
  apply last_entry_Ok_inv in Hx as [xs' ->].
  apply last_entry_Ok_inv in Hy as [ys' ->].
  rewrite !length_app in Hlen. simpl in Hlen.
  rewrite map2_app by lia. simpl. apply last_entry_app.
Qed.

Lemma map2_nth_error {A B C} (g : A -> B -> C) xs ys i x y :
  nth_error xs i = Some x -> nth_error ys i = Some y ->
  nth_error (map2 g xs ys) i = Some (g x y).
Proof.
  revert ys i. induction xs as [| x0 xs IH]; intros [| y0 ys] [| i];
    simpl; try discriminate.
  - now intros [= ->] [= ->].
  - apply IH.
Qed.

Lemma last_entry_nth_error {A} (l : list A) (i : nat) (x : A) :
  nth_error l i = Some x -> length l = S i -> last_entry l = Ok x.
Proof.
  intros Hn Hl.
  destruct (last_entry_nonempty l) as [y Hy].
  { intros ->. discriminate Hl. }
  rewrite Hy. apply last_entry_Ok_inv in Hy as [l' ->].
  rewrite length_app in Hl. simpl in Hl.
  rewrite nth_error_app2 in Hn by lia.
  replace (i - length l') with 0 in Hn by lia. simpl in Hn. congruence.
Qed.

Lemma offsets_ok {A} (pos : list (list A)) :
  Forall (fun row => row <> []) pos ->
  exists offs, sequence (map last_entry pos) = Ok offs.
Proof.
  intros H.
  destruct (sequence_ok (fun _ => True) (map last_entry pos)) as (offs & Ho & _).
  - apply Forall_map. eapply Forall_impl; [| exact H].
    intros row Hrow. destruct (last_entry_nonempty row Hrow) as [x Hx]. eauto.
  - eauto.
Qed.

Lemma map2_Forall {A B C} (g : A -> B -> C) (P : C -> Prop) xs ys :
  (forall x y, In y ys -> P (g x y)) -> Forall P (map2 g xs ys).
Proof.
  intros H. revert ys H. induction xs as [| x xs IH]; intros [| y ys] H;
    simpl; constructor.
  - apply H. now left.
  - apply IH. intros x' y' Hy. apply H. now right.
Qed.

(** The rotary sub-module stays well formed, with the same dimensions. *)
Lemma rotary_forward_wf (self : RotaryEmbedding.t) x pos :
  rotary_wf self ->
  let self' := fst (RotaryEmbedding.forward self x pos) in
  rotary_wf self'
  /\ RotaryEmbedding.dim self' = RotaryEmbedding.dim self
  /\ RotaryEmbedding.end_ self' = RotaryEmbedding.end_ self.
Proof.
  intros Hwf. rewrite forward_state.
  destruct (after_init_table self Hwf) as (Htab & _ & Hdim & Hend & _).
  split; [intros _; exact Htab | auto].
Qed.

(** The position ids of a prefill call index the rotary table when no
    row has more valid tokens than the table has positions and the last
    row has at least one. *)
Lemma prefill_positions_ok (self : RotaryEmbedding.t) (b s : nat)
      (sequence_mask : bool_mask) (last_row : list bool) :
  has_shape2 b s sequence_mask = true ->
  1 <= s -> (Z.of_nat s < 2 ^ 31)%Z ->
  Forall (fun mrow => count_true mrow <= RotaryEmbedding.end_ self) sequence_mask ->
  last_entry sequence_mask = Ok last_row ->
  1 <= count_true last_row ->
  positions_ok self b s
    (Some (map (fun mrow => map (fun c => wrap32 (c - 1)) (cumsum32 0 mrow))
               sequence_mask)).
Proof.
  intros Hm Hs Hs31 Hcnt Hlast Hc.
  apply has_shape2_spec in Hm as [Hb Hrows].
  assert (Hn : 1 <= RotaryEmbedding.end_ self).
  { apply last_entry_In in Hlast. rewrite Forall_forall in Hcnt.
    specialize (Hcnt _ Hlast). cbv beta in Hcnt. lia. }
  unfold positions_ok. split; [now rewrite length_map |]. split.
  - apply Forall_map, Forall_forall. intros mrow Hin.
    rewrite Forall_forall in Hrows, Hcnt.
    specialize (Hrows _ Hin). specialize (Hcnt _ Hin). cbv beta in Hrows, Hcnt.
    destruct (cumsum32_spec mrow 0) as (Hl & Hall & _); [lia | lia |].
    split; [now rewrite length_map, Hl |].
    apply Forall_map. eapply Forall_impl; [| exact Hall].
    intros c Hc'. cbv beta in Hc'.
    pose proof (count_true_le mrow).
    rewrite wrap32_small by lia. lia.
  - assert (Hin : In last_row sequence_mask) by now apply last_entry_In.
    rewrite Forall_forall in Hrows, Hcnt.
    specialize (Hrows _ Hin). specialize (Hcnt _ Hin). cbv beta in Hrows, Hcnt.
    destruct (cumsum32_spec last_row 0) as (_ & _ & Hl); [lia | lia |].
    assert (Hne : last_row <> []) by (intros ->; simpl in Hrows; lia).
    specialize (Hl Hne).
    eexists _, _. split; [apply last_entry_map; exact Hlast |].
    split; [apply last_entry_map; exact Hl |].
    pose proof (count_true_le last_row).
    rewrite wrap32_small by lia. lia.
Qed.

End ForwardEval.

Module ErrorOrigins.
Import ResultFacts RangeFacts.

Lemma guard_Raise (c : bool) (e e' : error) :
  guard c e = Raise e' -> e' = e.
Proof. destruct c; [discriminate | now intros [= <-]]. Qed.

Lemma bind_Raise_inv {A B} (r : result A) (k : A -> result B) (e : error) :
  bind r k = Raise e -> r = Raise e \/ exists a, r = Ok a /\ k a = Raise e.
Proof. destruct r as [a | e']; simpl; [eauto | intros [= ->]; auto]. Qed.

Lemma split_qkv_Raise self qkv b s e :
  split_qkv self qkv b s = Raise e -> e = RuntimeError.
Proof.
  unfold split_qkv. destruct (is_gqa self); intros H;
    apply bind_Raise_inv in H as [H | (u & _ & H)];
    try discriminate; now apply guard_Raise in H.
Qed.

Lemma pad_to_right_Raise tensor mask dest e :
  pad_to_right tensor mask dest = Raise e -> e = IndexError \/ e = RuntimeError.
Proof.
  unfold pad_to_right, masked_select, masked_assign. intros H.
  apply bind_Raise_inv in H as [H | (vals & _ & H)].
  - apply bind_Raise_inv in H as [H | (u & _ & H)]; [| discriminate].
    apply guard_Raise in H. auto.
  - destruct (inner_dims tensor) as [d1 d2].
    destruct (inner_dims _) as [D1 D2].
    apply bind_Raise_inv in H as [H | (t' & _ & H)]; [| discriminate].
    apply bind_Raise_inv in H as [H | (u & _ & H)].
    + apply guard_Raise in H. auto.
    + apply bind_Raise_inv in H as [H | (u' & _ & H)]; [| discriminate].
      apply guard_Raise in H. auto.
Qed.

Lemma view3_Raise b s f flat e : view3 b s f flat = Raise e -> e = RuntimeError.
Proof.
  unfold view3. intros H.
  apply bind_Raise_inv in H as [H | (u & _ & H)]; [| discriminate].
  now apply guard_Raise in H.
Qed.

Lemma offsets_Raise {A} (pos : list (list A)) e :
  sequence (map last_entry pos) = Raise e -> e = IndexError.
Proof.
  intros H. apply sequence_Raise, in_map_iff in H as (row & H & _).
  unfold last_entry in H. destruct (rev row); [now injection H | discriminate].
Qed.

Lemma decode_positions_Raise (old : list Z) (mask : bool_mask) e :
  broadcast2 (fun o mrow => Ok (map (fun m => wrap32 (o + b2z m)) mrow)) old mask
  = Raise e -> e = RuntimeError.
Proof.
  intros H. apply broadcast2_Raise in H as [H | (x & y & _ & _ & H)];
    [assumption | discriminate].
Qed.

Lemma rotary_forward_Raise (self : RotaryEmbedding.t) x pos e :
  snd (RotaryEmbedding.forward self x pos) = Raise e -> not_mask_error e.
Proof.
  unfold RotaryEmbedding.forward, shape4, not_mask_error. cbn [snd]. intros H.
  apply bind_Raise_inv in H as [H | (u & _ & H)].
  { unfold assert_ in H. destruct (_ =? _); [discriminate |].
    injection H as <-. discriminate. }
  apply bind_Raise_inv in H as [H | (cf & _ & H)].
  { unfold RotaryEmbedding.select_freqs in H. destruct pos as [pos |]; [| discriminate].
    apply bind_Raise_inv in H as [H | (lr & _ & H)].
    { unfold last_entry in H. destruct (rev pos); [| discriminate].
      injection H as <-. discriminate. }
    apply bind_Raise_inv in H as [H | (l & _ & H)].
    { unfold last_entry in H. destruct (rev lr); [| discriminate].
      injection H as <-. discriminate. }
    destruct (_ || _).
    - injection H as <-. discriminate.
    - apply gather_Raise in H as ->. discriminate. }
  apply bind_Raise_inv in H as [H | (prod & _ & H)].
  { apply rotate_Raise in H as ->. discriminate. }
  apply bind_Raise_inv in H as [H | (u' & _ & H)]; [| discriminate].
  apply guard_Raise in H as ->. discriminate.
Qed.

End ErrorOrigins.

Module OffsetFacts.
Import ResultFacts PadToRightFacts MaskFacts.

Lemma prefill_offsets (sequence_mask : bool_mask) (offs : list Z) :
  sequence (map last_entry
              (map (fun mrow => map (fun c => wrap32 (c - 1)) (cumsum32 0 mrow))
                   sequence_mask)) = Ok offs ->
  Forall (fun mrow => (Z.of_nat (length mrow) < 2 ^ 31)%Z) sequence_mask ->
  offs = map (fun mrow => (Z.of_nat (count_true mrow) - 1)%Z) sequence_mask.
Proof.
  revert offs. induction sequence_mask as [| mrow mask IH]; intros offs H Hlen.
  - simpl in H. now injection H as <-.
  - cbn [map sequence] in H.
    apply bind_Ok_inv in H as (x & Hx & H).
    apply bind_Ok_inv in H as (xs & Hxs & [= <-]).
    inversion Hlen as [| ? ? Hl Hrest]; subst.
    cbn [map]. f_equal; [| now apply IH].
    destruct mrow as [| b mrow]; [discriminate Hx |].
    destruct (cumsum32_spec (b :: mrow) 0) as (_ & _ & Hlast); [lia | lia |].
    specialize (Hlast ltac:(discriminate)).
    rewrite (last_entry_map _ _ _ Hlast) in Hx. injection Hx as <-.
    pose proof (count_true_le (b :: mrow)).
    rewrite wrap32_small by lia. lia.
Qed.

Lemma decode_offsets (old : list Z) (sequence_mask : bool_mask) (offs : list Z) :
  sequence (map last_entry (decode_positions old sequence_mask)) = Ok offs ->
  length old = length sequence_mask ->
  rows_have 1 sequence_mask = true ->
  offs = map2 (fun o mrow => wrap32 (o + b2z (hd false mrow))) old sequence_mask.
Proof.
  unfold decode_positions. intros H Hlen Hrows.
  apply rows_have_Forall in Hrows.
  revert sequence_mask offs H Hlen Hrows.
  induction old as [| o old IH]; intros [| mrow mask] offs H Hlen Hrows;
    simpl in Hlen; try discriminate.
  - simpl in H. now injection H as <-.
  - cbn [map2 map sequence] in H.
    apply bind_Ok_inv in H as (x & Hx & H).
    apply bind_Ok_inv in H as (xs & Hxs & [= <-]).
    inversion Hrows as [| ? ? Hl Hrest]; subst.
    cbn [map2]. f_equal; [| apply IH; auto].
    destruct mrow as [| m [| ? ?]]; try discriminate Hl.
    simpl in Hx. now injection Hx as <-.
Qed.

Lemma decode_offsets_succ (old : list Z) (sequence_mask : bool_mask) :
  length old = length sequence_mask ->
  Forall (fun mrow => mrow = [true]) sequence_mask ->
  Forall (fun o => (- 2 ^ 31 <= o + 1 < 2 ^ 31)%Z) old ->
  map2 (fun o mrow => wrap32 (o + b2z (hd false mrow))) old sequence_mask
  = map Z.succ old.
Proof.
  revert sequence_mask. induction old as [| o old IH]; intros [| mrow mask] Hlen Hm Ho;
    simpl in Hlen; try discriminate; [reflexivity |].
  inversion Hm; inversion Ho; subst. cbn [map2 map hd b2z].
  rewrite wrap32_small by lia. f_equal; try lia. apply IH; auto.
Qed.

End OffsetFacts.

(* ================================================================== *)
(** * Facts about [CausalSelfAttention.forward] *)

Import ResultFacts ShapeFacts PadToRightFacts RotaryFacts RangeFacts.
Import MonadFacts MaskFacts SplitFacts ForwardEval ErrorOrigins OffsetFacts.

Section ForwardFacts.

Variable qkv_proj : tensor tensor3 -> tensor tensor3.
Variable o_proj : tensor tensor3 -> tensor tensor3.
Variable flash_attn_varlen_func : varlen_args -> tensor3.
Variable flash_attn_with_kvcache : kvcache_args -> tensor4 * tensor4 * tensor4.
Variable unpad_input : tensor4 -> bool_mask -> tensor3 * list nat * list Z * nat.
Variable pad_input : tensor3 -> list nat -> nat -> nat -> tensor4.

Let forward := CausalSelfAttention_forward qkv_proj o_proj flash_attn_varlen_func
                 flash_attn_with_kvcache unpad_input pad_input.

(** Under [prefill_ready], the steps of a prefill call that precede the
    mask validation succeed and leave store and kernel log alone. *)
Lemma prefill_prefix
      (self : CausalSelfAttention) (hidden_states : tensor tensor3)
      (sequence_mask : bool_mask) (st : state) (b s : nat)
      (q k : tensor4) (dt : dtype) {T : Type}
      (K : list (list Z) -> list Z -> tensor tensor4 -> tensor tensor4 -> M T) :
  prefill_ready self st (data (qkv_proj hidden_states)) sequence_mask b s ->
  shaped4 b s (n_local_q_heads self) (d_qk self) q ->
  shaped4 b s (kv_heads self) (d_qk self) k ->
  exists pos offs q' k' st2,
    bindM (lift (Ok (map (fun mrow => map (fun c => wrap32 (c - 1))
                                          (cumsum32 0 mrow)) sequence_mask)))
      (fun position_ids =>
         bindM (lift (sequence (map last_entry position_ids)))
           (fun position_offsets =>
              bindM (call_rotary (Tensor dt q) (Some position_ids))
                (fun query_states =>
                   bindM (call_rotary (Tensor dt k) (Some position_ids))
                     (fun key_states =>
                        K position_ids position_offsets query_states key_states))))
      st
    = K pos offs q' k' st2
    /\ local_store st2 = local_store st
    /\ kernel_log st2 = kernel_log st.
Proof.
  intros (Hwf & Hdim & Hd & Hqkv & Hmask & Hs & Hs31 & Hcnt & lr & Hlast & Hc) Hq Hk.
  set (pos := map (fun mrow => map (fun c => wrap32 (c - 1)) (cumsum32 0 mrow))
                  sequence_mask).
  pose proof (prefill_positions_ok (rotary_embedding st) b s sequence_mask lr
                Hmask Hs Hs31 Hcnt Hlast Hc) as Hpos. fold pos in Hpos.
  destruct (offsets_ok pos) as [offs Hoffs].
  { destruct Hpos as (_ & Hrows & _).
    eapply Forall_impl; [| exact Hrows]. intros row [Hl _] ->. simpl in Hl. lia. }
  assert (Hdim2 : RotaryEmbedding.dim (rotary_embedding st) / 2 = d_qk self / 2)
    by now rewrite Hdim.
  destruct (forward_ok (rotary_embedding st) (Tensor dt q) (Some pos)
              b s _ _ Hwf Hq Hd Hdim2 Hpos) as [q' Hq'].
  destruct (rotary_forward_wf (rotary_embedding st) (Tensor dt q) (Some pos) Hwf)
    as (Hwf1 & Hdim1 & Hend1).
  set (rot1 := fst (RotaryEmbedding.forward (rotary_embedding st)
                      (Tensor dt q) (Some pos))) in *.
  assert (Hpos1 : positions_ok rot1 b s (Some pos)).
  { unfold positions_ok in *. rewrite Hend1. exact Hpos. }
  assert (Hdim3 : RotaryEmbedding.dim rot1 / 2 = d_qk self / 2)
    by now rewrite Hdim1, Hdim.
  destruct (forward_ok rot1 (Tensor dt k) (Some pos)
              b s _ _ Hwf1 Hk Hd Hdim3 Hpos1) as [k' Hk'].
  eexists pos, offs, q', k', _. split; [| split].
  - erewrite bindM_Ok by reflexivity.
    erewrite bindM_Ok by (apply lift_Ok; exact Hoffs).
    erewrite bindM_Ok by (rewrite call_rotary_eq, Hq'; reflexivity).
    erewrite bindM_Ok by (rewrite call_rotary_eq; cbn [rotary_embedding];
                          fold rot1; rewrite Hk'; reflexivity).
    reflexivity.
  - reflexivity.
  - reflexivity.
Qed.

(** A prefill call whose mask has a gap stops at the mask validation. *)
Lemma prefill_gap_rejected
      (self : CausalSelfAttention) (hidden_states : tensor tensor3)
      (sequence_mask : bool_mask) (st : state) (cache : store) (b s : nat) :
  local_store st = Some cache ->
  position_offsets cache = None ->
  key cache = None ->
  prefill_ready self st (data (qkv_proj hidden_states)) sequence_mask b s ->
  has_gap sequence_mask ->
  exists st',
    forward self hidden_states sequence_mask st
    = (st', Raise (AssertionError AssertNoMidMask))
    /\ local_store st' = local_store st
    /\ kernel_log st' = kernel_log st.
Proof.
  intros Hstore Hoff Hkey Hready Hgap.
  pose proof Hready as (_ & _ & _ & Hqkv & _ & Hs & _).
  destruct (split_qkv_ok self _ s b Hs Hqkv) as (q & k & v & Hsplit & Hq & Hk & Hv).
  apply true_then_false_spec in Hgap.
  unfold forward, CausalSelfAttention_forward.
  erewrite bindM_Ok by (apply lift_Ok; exact Hsplit). cbv beta iota.
  erewrite bindM_Ok by reflexivity. rewrite Hstore. cbv beta iota.
  rewrite Hoff, Hkey.
  match goal with
  | |- exists st', bindM (bindM _ (fun position_ids =>
                     bindM _ (fun position_offsets =>
                       bindM _ (fun query_states =>
                         bindM _ (fun key_states =>
                           @?K position_ids position_offsets
                               query_states key_states))))) _ _ = _ /\ _ =>
      destruct (prefill_prefix self hidden_states sequence_mask st b s q k
                  (dtype_of (qkv_proj hidden_states)) K Hready Hq Hk)
        as (pos & offs & q' & k' & st2 & Heval & Hst2 & Hlog2)
  end.
  exists st2. split; [| split; [congruence | exact Hlog2]].
  apply bindM_Raise. rewrite Heval.
  apply bindM_Raise. apply bindM_Raise. apply lift_Raise. now rewrite Hgap.
Qed.

(** A prefill call whose mask is purely left-padded passes the mask
    validation and goes on to invoke the varlen kernel, causal. *)
Lemma prefill_left_padded_accepted
      (self : CausalSelfAttention) (hidden_states : tensor tensor3)
      (sequence_mask : bool_mask) (st : state) (cache : store) (b s : nat) :
  local_store st = Some cache ->
  position_offsets cache = None ->
  key cache = None ->
  prefill_ready self st (data (qkv_proj hidden_states)) sequence_mask b s ->
  Forall left_padded sequence_mask ->
  exists st' r a,
    forward self hidden_states sequence_mask st = (st', r)
    /\ r <> Raise (AssertionError AssertNoMidMask)
    /\ kernel_log st' = kernel_log st ++ [VarlenCall a]
    /\ vl_causal a = true.
Proof.
  intros Hstore Hoff Hkey Hready Hpad.
  pose proof Hready as (_ & _ & _ & Hqkv & _ & Hs & _).
  destruct (split_qkv_ok self _ s b Hs Hqkv) as (q & k & v & Hsplit & Hq & Hk & Hv).
  apply left_padded_no_gap in Hpad.
  unfold forward, CausalSelfAttention_forward.
  erewrite bindM_Ok by (apply lift_Ok; exact Hsplit). cbv beta iota.
  erewrite bindM_Ok by reflexivity. rewrite Hstore. cbv beta iota.
  rewrite Hoff, Hkey.
  match goal with
  | |- exists st' r a, bindM (bindM _ (fun position_ids =>
                     bindM _ (fun position_offsets =>
                       bindM _ (fun query_states =>
                         bindM _ (fun key_states =>
                           @?K position_ids position_offsets
                               query_states key_states))))) _ _ = _ /\ _ =>
      destruct (prefill_prefix self hidden_states sequence_mask st b s q k
                  (dtype_of (qkv_proj hidden_states)) K Hready Hq Hk)
        as (pos & offs & q' & k' & st2 & Heval & Hst2 & Hlog2)
  end.
  unfold bindM at 1. rewrite Heval. clear Heval.
  rewrite Hpad. cbn [negb assert_].
  destruct (unpad_input (data q') sequence_mask) as [[[query_unpad indices_q] cu_q] max_q].
  destruct (unpad_input (data k') sequence_mask) as [[[key_unpad indices_k] cu_k] max_k].
  destruct (unpad_input v sequence_mask) as [[[value_unpad ?] ?] ?].
  match goal with
  | |- context [log_call (VarlenCall ?args)] => set (a := args)
  end.
  set (st3 := {| rotary_embedding := rotary_embedding st2;
                 local_store := local_store st2;
                 kernel_log := kernel_log st2 ++ [VarlenCall a] |}).
  assert (Hlog3 : kernel_log st3 = kernel_log st ++ [VarlenCall a])
    by (unfold st3; simpl; now rewrite Hlog2).
  unfold bindM, lift, log_call, update_store, set_local_store, retM.
  fold st3.
  destruct (pad_to_right (data k') sequence_mask _) as [[kc ?] | e1] eqn:E1.
  2:{ exists st3, (Raise e1), a. repeat split; auto.
      apply pad_to_right_Raise in E1 as [-> | ->]; discriminate. }
  destruct (pad_to_right v sequence_mask _) as [[vc ?] | e2] eqn:E2.
  2:{ exists st3, (Raise e2), a. repeat split; auto.
      apply pad_to_right_Raise in E2 as [-> | ->]; discriminate. }
  cbn [rotary_embedding local_store kernel_log].
  destruct (view3 _ _ _ _) as [out | e3] eqn:E3.
  - eexists _, (Ok _), a. repeat split; [discriminate | exact Hlog3].
  - eexists _, (Raise e3), a. repeat split; [| exact Hlog3].
    apply view3_Raise in E3 as ->. discriminate.
Qed.

Tactic Notation "inv_raise" hyp(H) "as" ident(a) ident(s) ident(Hc) :=
  apply bindM_Raise_inv in H as [H | (a & s & Hc & H)].

(** Leaves of the inversion: a primitive step cannot have raised the
    mask assertion. *)
Ltac leaf H :=
  solve
    [ apply lift_inv in H as [_ H];
      first
        [ discriminate H
        | symmetry in H; apply split_qkv_Raise in H; discriminate H
        | symmetry in H; apply view3_Raise in H; discriminate H
        | symmetry in H; apply offsets_Raise in H; discriminate H
        | symmetry in H; apply decode_positions_Raise in H; discriminate H
        | symmetry in H; apply pad_to_right_Raise in H as [H | H]; discriminate H ]
    | apply call_rotary_inv in H as (_ & _ & _ & H); symmetry in H;
      apply rotary_forward_Raise in H; now contradiction H
    | apply log_call_inv in H as (_ & _ & _ & H); discriminate H
    | apply set_local_store_inv in H as (_ & _ & _ & H); discriminate H
    | apply retM_inv in H as [_ H]; discriminate H
    | discriminate H ].

(** The mask assertion is raised only for a mask with a gap. *)
Lemma mask_error_only_from_gap
      (self : CausalSelfAttention) (hidden_states : tensor tensor3)
      (sequence_mask : bool_mask) (st st' : state) :
  forward self hidden_states sequence_mask st
  = (st', Raise (AssertionError AssertNoMidMask)) ->
  has_gap sequence_mask.
Proof.
  unfold forward, CausalSelfAttention_forward. intros H.
  inv_raise H as qkv s1 H1; [leaf H |]. destruct qkv as [[q k] v].
  inv_raise H as cache s2 H2; [leaf H |].
  inv_raise H as ao s3 H3.
  2:{ inv_raise H as ao' s4 H4; [leaf H | leaf H]. }
  destruct cache as [cache |].
  - (* inference *)
    inv_raise H as pos s4 H4.
    { destruct (position_offsets cache); leaf H. }
    inv_raise H as offs s5 H5; [leaf H |].
    inv_raise H as q' s6 H6; [leaf H |].
    inv_raise H as k' s7 H7; [leaf H |].
    inv_raise H as caches s8 H8.
    2:{ destruct caches as [[ao' kc] vc].
        inv_raise H as u s9 H9; [leaf H | leaf H]. }
    destruct (key cache) as [k_cache |].
    + inv_raise H as v_cache s9 H9.
      { destruct (value cache); leaf H. }
      inv_raise H as u s10 H10; [leaf H |].
      destruct (flash_attn_with_kvcache _) as [[out kc] vc]. leaf H.
    + inv_raise H as u s9 H9.
      { apply lift_inv in H as [_ H]. symmetry in H.
        unfold assert_ in H.
        destruct (true_then_false sequence_mask) eqn:E; [| discriminate H].
        now apply true_then_false_spec. }
      destruct (unpad_input (data q') sequence_mask) as [[[? ?] ?] ?].
      destruct (unpad_input (data k') sequence_mask) as [[[? ?] ?] ?].
      destruct (unpad_input v sequence_mask) as [[[? ?] ?] ?].
      inv_raise H as u' s10 H10; [leaf H |].
      inv_raise H as kcm s11 H11; [leaf H |].
      destruct kcm as [kc ?].
      inv_raise H as vcm s12 H12; [leaf H |].
      destruct vcm as [vc ?]. leaf H.
  - (* training *)
    inv_raise H as q' s4 H4; [leaf H |].
    inv_raise H as k' s5 H5; [leaf H |].
    inv_raise H as out s6 H6; [| leaf H].
    unfold CoreAttention_forward in H.
    inv_raise H as u s7 H7; [leaf H | leaf H].
Qed.

Tactic Notation "inv_ok" hyp(H) "as" ident(a) ident(s) ident(Hc) :=
  apply bindM_Ok_inv in H as (a & s & Hc & H).

(** What a successful call with an attached store leaves in the store. *)
Lemma inference_store_update
      (self : CausalSelfAttention) (hidden_states : tensor tensor3)
      (sequence_mask : bool_mask) (st st' : state) (cache : store)
      (r : tensor tensor3 * bool_mask) :
  local_store st = Some cache ->
  forward self hidden_states sequence_mask st = (st', Ok r) ->
  exists pos offsets k_cache v_cache,
    match position_offsets cache with
    | Some old =>
        broadcast2 (fun o mrow => Ok (map (fun m => wrap32 (o + b2z m)) mrow))
                   old sequence_mask
    | None =>
        Ok (map (fun mrow => map (fun c => wrap32 (c - 1)) (cumsum32 0 mrow))
                sequence_mask)
    end = Ok pos
    /\ sequence (map last_entry pos) = Ok offsets
    /\ local_store st'
       = Some {| key := Some k_cache; value := Some v_cache;
                 position_offsets := Some offsets |}
    /\ forall kc, key cache = Some kc ->
         exists args out,
           kernel_log st' = kernel_log st ++ [KvcacheCall args]
           /\ kc_k_cache args = kc
           /\ kc_cache_seqlens args = offsets
           /\ kc_causal args = true
           /\ flash_attn_with_kvcache args = (out, k_cache, v_cache).
Proof.
  unfold forward, CausalSelfAttention_forward. intros Hstore H.
  inv_ok H as qkv s1 H1. apply lift_inv in H1 as [-> _]. destruct qkv as [[q k] v].
  inv_ok H as c s2 H2. unfold get_local_store in H2. injection H2 as <- <-.
  rewrite Hstore in H.
  inv_ok H as ao s3 H3.
  inv_ok H as ao' s4 H4. apply lift_inv in H4 as [-> _].
  apply retM_inv in H as [-> _].
  inv_ok H3 as pos s4 H4. apply lift_inv in H4 as [-> Hpos].
  inv_ok H3 as offs s5 H5. apply lift_inv in H5 as [-> Hoffs].
  inv_ok H3 as q' s6 H6. apply call_rotary_inv in H6 as (Hs6 & Hl6 & _).
  inv_ok H3 as k' s7 H7. apply call_rotary_inv in H7 as (Hs7 & Hl7 & _).
  inv_ok H3 as caches s8 H8. destruct caches as [[ao1 k_new] v_new].
  inv_ok H3 as u0 s9 H9.
  apply set_local_store_inv in H9 as (Hs9 & Hl9 & _).
  apply retM_inv in H3 as [-> _].
  exists pos, offs, k_new, v_new. repeat split; auto.
  intros kc0 Hkc. rewrite Hkc in H8.
  inv_ok H8 as v_cache s10 H10. apply lift_inv in H10 as [-> _].
  inv_ok H8 as u s11 H11. apply log_call_inv in H11 as (_ & Hl11 & _).
  destruct (flash_attn_with_kvcache _) as [[out kc] vc] eqn:Ek.
  apply retM_inv in H8 as [-> [= -> -> ->]].
  eexists _, out. split; [| split; [| split; [| split]]].
  - rewrite Hl9, Hl11, Hl7, Hl6. reflexivity.
  - reflexivity.
  - reflexivity.
  - reflexivity.
  - exact Ek.
Qed.

End ForwardFacts.

(* ================================================================== *)
(** * What [CausalSelfAttention.__init__] establishes *)

Module InitFacts.
Import ResultFacts.

(** The module and its rotary sub-module are built from the same
    configuration: the cache capacity is the size of the rotary table,
    the rotary dimension is the (even) head dimension, and the table is
    not generated yet. *)
Lemma init_establishes (config : LlamaConfig) (tp_size : nat)
      (uninit : list (list RotaryEmbedding.complex))
      (self : CausalSelfAttention) (rot : RotaryEmbedding.t) :
  CausalSelfAttention_init config tp_size uninit = Ok (self, rot) ->
  prefill_kv_len self = RotaryEmbedding.end_ rot
  /\ prefill_kv_len self = max_position_embeddings config
  /\ RotaryEmbedding.dim rot = d_qk self
  /\ d_qk self mod 2 = 0
  /\ d_v self = d_qk self
  /\ rotary_wf rot.
Proof.
  unfold CausalSelfAttention_init. intros H.
  apply bind_Ok_inv in H as (r1 & _ & H).
  apply bind_Ok_inv in H as (u1 & _ & H).
  apply bind_Ok_inv in H as (kv & _ & H).
  apply bind_Ok_inv in H as (r2 & _ & H).
  apply bind_Ok_inv in H as (u2 & _ & H).
  apply bind_Ok_inv in H as (nq & _ & H).
  apply bind_Ok_inv in H as (nkv & _ & H).
  apply bind_Ok_inv in H as (nrep & _ & H).
  apply bind_Ok_inv in H as (dqk & Hdqk & H).
  apply bind_Ok_inv in H as (dv & Hdv & H).
  apply bind_Ok_inv in H as (rotary & Hrot & H).
  apply bind_Ok_inv in H as (r3 & _ & H).
  apply bind_Ok_inv in H as (u3 & _ & H).
  injection H as <- <-.
  unfold RotaryEmbedding.init_ in Hrot.
  apply bind_Ok_inv in Hrot as (u4 & Hev & Hrot).
  apply assert_Ok_inv in Hev. apply Nat.eqb_eq in Hev.
  injection Hrot as <-. cbn.
  split; [reflexivity |]. split; [reflexivity |]. split; [reflexivity |].
  split; [exact Hev |]. split; [congruence |].
  intros Hinit. discriminate Hinit.
Qed.

(** The example module is what [__init__] builds from the example
    configuration. *)
Lemma example_init :
  CausalSelfAttention_init Example.config 1 [] = Ok (Example.attn, Example.rot).
Proof. reflexivity. Qed.

End InitFacts.

(* ================================================================== *)
(** * Properties of [pad_to_right] *)

Import ResultFacts ShapeFacts PadToRightFacts.

(** The valid entries of a row, said with the library's [filter]. *)
Lemma select_row_filter {A} (row : list A) (mrow : list bool) :
  select_row row mrow = map fst (filter snd (combine row mrow)).
Proof.
  revert mrow. induction row as [| x row IH]; intros [| b mrow]; simpl;
    try reflexivity.
  destruct b; simpl; now rewrite IH.
Qed.

Lemma zeros_like_nth (tensor : tensor4) (r : nat) (row : tensor3) :
  nth_error tensor r = Some row ->
  nth_error (zeros_like tensor) r = Some (map (map (map (fun _ => 0%R))) row).
Proof. intros H. unfold zeros_like. now rewrite nth_error_map, H. Qed.

Lemma zeros_like_shape (b s : nat) (tensor : tensor4) :
  has_shape2 b s tensor = true ->
  length (zeros_like tensor) = b
  /\ Forall (fun drow => s <= length drow) (zeros_like tensor).
Proof.
  intros H. apply has_shape2_spec in H as [Hb Hr]. unfold zeros_like. split.
  - now rewrite length_map.
  - apply Forall_map. eapply Forall_impl; [| exact Hr].
    intros row Hrow. cbv beta in *. rewrite length_map. lia.
Qed.

(** C5. For every tensor of shape (batch, seq, d1, d2) and mask of shape
    (batch, seq), [pad_to_right] with no destination returns a tensor and a
    mask such that, in every row with [k] valid positions: the first [k]
    entries are the row's valid entries in their original order, the
    returned mask row is [k] times True followed by False, and every entry
    past index [k] is zero (the destination defaulted to zeros of the
    source's shape). *)
Theorem pad_to_right_default_destination
        (b s : nat) (tensor : tensor4) (mask : bool_mask) :
  has_shape2 b s tensor = true ->
  has_shape2 b s mask = true ->
  exists new_tensor right_padded_mask,
    pad_to_right tensor mask None = Ok (new_tensor, right_padded_mask)
    /\ has_shape2 b s new_tensor = true
    /\ has_shape2 b s right_padded_mask = true
    /\ forall r row mrow,
         nth_error tensor r = Some row ->
         nth_error mask r = Some mrow ->
         let k := count_true mrow in
         exists new_row,
           nth_error new_tensor r = Some new_row
           /\ firstn k new_row = select_row row mrow
           /\ skipn k new_row = map (map (map (fun _ => 0%R))) (skipn k row)
           /\ nth_error right_padded_mask r
              = Some (repeat true k ++ repeat false (s - k)).
Proof.
  intros Ht Hm.
  destruct (zeros_like_shape b s tensor Ht) as [Hzb Hzs].
  pose proof (pad_to_right_spec b s tensor mask None Ht Hm Hzb Hzs
                (inner_dims_zeros_like tensor)) as Hspec.
  cbv zeta in Hspec.
  pose proof Ht as Ht'. pose proof Hm as Hm'.
  apply has_shape2_spec in Ht' as [Htl Htr].
  apply has_shape2_spec in Hm' as [Hml Hmr].
  assert (Hrows : forall r row mrow,
             nth_error tensor r = Some row -> nth_error mask r = Some mrow ->
             length row = s /\ length mrow = s /\ count_true mrow <= s
             /\ length (select_row row mrow) = count_true mrow).
  { intros r row mrow Hr Hmr'.
    apply nth_error_In in Hr, Hmr'.
    rewrite Forall_forall in Htr, Hmr.
    specialize (Htr _ Hr). specialize (Hmr _ Hmr').
    pose proof (count_true_le mrow).
    repeat split; try lia. apply select_row_length. lia. }
  eexists _, _. split; [exact Hspec |].
  split; [| split].
  - apply has_shape2_spec. split.
    + rewrite right_padded_length; congruence.
    + apply Forall_forall. intros new_row Hin.
      apply In_nth_error in Hin as [r Hr].
      assert (Hlt : r < b).
      { assert (Hsome : nth_error (right_padded (zeros_like tensor) tensor mask) r
                          <> None) by (rewrite Hr; discriminate).
        apply nth_error_Some in Hsome.
        rewrite right_padded_length in Hsome; congruence. }
      destruct (nth_error tensor r) as [row |] eqn:Er;
        [| apply nth_error_None in Er; lia].
      destruct (nth_error mask r) as [mrow |] eqn:Em;
        [| apply nth_error_None in Em; lia].
      rewrite (right_padded_nth _ _ _ _ _ _ _ (zeros_like_nth _ _ _ Er) Er Em) in Hr.
      injection Hr as <-.
      destruct (Hrows _ _ _ Er Em) as (Hl & Hl' & Hk & Hsel).
      rewrite length_app, length_skipn, Hsel, !length_map. lia.
  - destruct mask as [| mrow0 mask'].
    + simpl in Hml. rewrite <- Hml. reflexivity.
    + rewrite (shape1_rows s (mrow0 :: mask')) by (auto; discriminate).
      apply has_shape2_spec. split.
      * unfold right_pad_mask. now rewrite !length_map.
      * apply right_pad_mask_rows.
  - intros r row mrow Hr Hmr' k.
    destruct (Hrows _ _ _ Hr Hmr') as (Hl & Hl' & Hk & Hsel).
    eexists. split.
    { apply (right_padded_nth _ _ _ _ _ _ _ (zeros_like_nth _ _ _ Hr) Hr Hmr'). }
    fold k in Hsel, Hk. fold k.
    split; [| split].
    + rewrite firstn_app, Hsel, Nat.sub_diag, firstn_O, app_nil_r.
      rewrite <- Hsel. apply firstn_all.
    + rewrite skipn_app, Hsel, Nat.sub_diag, skipn_O.
      rewrite <- Hsel at 1. rewrite skipn_all. cbn [app].
      now rewrite skipn_map.
    + assert (Hne : mask <> []) by (intros ->; destruct r; discriminate).
      rewrite (shape1_rows s mask) by auto.
      unfold right_pad_mask. rewrite nth_error_map, nth_error_map, Hmr'. simpl.
      fold k. now rewrite prefix_mask by lia.
Qed.

(** Witness for C5: two rows of three positions, one of them with a gap. *)
Lemma pad_to_right_default_destination_witness :
  let tensor : tensor4 := [[[[1%R]]; [[2%R]]; [[3%R]]]; [[[4%R]]; [[5%R]]; [[6%R]]]] in
  let mask := [[false; true; true]; [true; false; true]] in
  has_shape2 2 3 tensor = true
  /\ has_shape2 2 3 mask = true
  /\ exists new_tensor right_padded_mask,
       pad_to_right tensor mask None = Ok (new_tensor, right_padded_mask)
       /\ has_shape2 2 3 new_tensor = true
       /\ has_shape2 2 3 right_padded_mask = true
       /\ forall r row mrow,
            nth_error tensor r = Some row ->
            nth_error mask r = Some mrow ->
            let k := count_true mrow in
            exists new_row,
              nth_error new_tensor r = Some new_row
              /\ firstn k new_row = select_row row mrow
              /\ skipn k new_row = map (map (map (fun _ => 0%R))) (skipn k row)
              /\ nth_error right_padded_mask r
                 = Some (repeat true k ++ repeat false (3 - k)).
Proof.
  intros tensor mask.
  split; [reflexivity |]. split; [reflexivity |].
  apply (pad_to_right_default_destination 2 3 tensor mask); reflexivity.
Defined.

(** C10. [pad_to_right] needs no left-padding invariant: for every mask,
    gaps included, with the default destination or a destination with
    room for the mask (a non-empty one of the tensor's trailing sizes, as
    the docstring asks), each output row is the row's valid entries (those
    whose mask bit is set, in their order) followed by what the
    destination row held beyond them; in particular the first
    [valid_count] entries of the row are its valid entries in order. *)
Theorem pad_to_right_any_mask
        (b s : nat) (tensor : tensor4) (mask : bool_mask)
        (new_tensor : option tensor4) :
  let dest := match new_tensor with
              | None => zeros_like tensor
              | Some t => t
              end in
  has_shape2 b s tensor = true ->
  has_shape2 b s mask = true ->
  length dest = b ->
  Forall (fun drow => s <= length drow) dest ->
  match new_tensor with
  | None => True
  | Some t => 0 < b /\ 0 < s /\ inner_dims t = inner_dims tensor
  end ->
  exists out right_padded_mask,
    pad_to_right tensor mask new_tensor = Ok (out, right_padded_mask)
    /\ length out = b
    /\ forall r row mrow drow,
         nth_error tensor r = Some row ->
         nth_error mask r = Some mrow ->
         nth_error dest r = Some drow ->
         let valid := map fst (filter snd (combine row mrow)) in
         length valid = count_true mrow
         /\ nth_error out r = Some (valid ++ skipn (count_true mrow) drow)
         /\ exists out_row,
              nth_error out r = Some out_row
              /\ firstn (count_true mrow) out_row = valid.
Proof.
  intros dest Ht Hm Hb Hd Hinner.
  assert (Hin : inner_dims dest = inner_dims tensor).
  { subst dest. destruct new_tensor as [t |]; [apply Hinner |].
    apply inner_dims_zeros_like. }
  pose proof (pad_to_right_spec b s tensor mask new_tensor Ht Hm Hb Hd Hin) as Hspec.
  cbv zeta in Hspec. fold dest in Hspec.
  pose proof Ht as Ht'. pose proof Hm as Hm'.
  apply has_shape2_spec in Ht' as [Htl Htr].
  apply has_shape2_spec in Hm' as [Hml Hmr].
  eexists _, _. split; [exact Hspec |]. split.
  - rewrite right_padded_length; congruence.
  - intros r row mrow drow Hr Hmr' Hdr valid.
    assert (Hlen : length valid = count_true mrow).
    { unfold valid. rewrite <- select_row_filter. apply select_row_length.
      apply nth_error_In in Hr, Hmr'.
      rewrite Forall_forall in Htr, Hmr.
      rewrite (Htr _ Hr), (Hmr _ Hmr'). lia. }
    assert (Hout : nth_error (right_padded dest tensor mask) r
                   = Some (valid ++ skipn (count_true mrow) drow)).
    { unfold valid. rewrite <- select_row_filter.
      now apply right_padded_nth. }
    split; [exact Hlen |]. split; [exact Hout |].
    eexists. split; [exact Hout |].
    rewrite firstn_app, Hlen, Nat.sub_diag, firstn_O, app_nil_r.
    rewrite <- Hlen. apply firstn_all.
Qed.

(** Witness for C10: the mask [T, F, T] has a gap, the destination is a
    cache of four slots per row. *)
Lemma pad_to_right_any_mask_witness :
  let tensor : tensor4 := [[[[1%R]]; [[2%R]]; [[3%R]]]] in
  let mask := [[true; false; true]] in
  let dest := zeros 1 4 1 1 in
  has_shape2 1 3 tensor = true
  /\ has_shape2 1 3 mask = true
  /\ length dest = 1
  /\ Forall (fun drow => 3 <= length drow) dest
  /\ inner_dims dest = inner_dims tensor
  /\ exists out right_padded_mask,
       pad_to_right tensor mask (Some dest) = Ok (out, right_padded_mask)
       /\ length out = 1
       /\ forall r row mrow drow,
            nth_error tensor r = Some row ->
            nth_error mask r = Some mrow ->
            nth_error dest r = Some drow ->
            let valid := map fst (filter snd (combine row mrow)) in
            length valid = count_true mrow
            /\ nth_error out r = Some (valid ++ skipn (count_true mrow) drow)
            /\ exists out_row,
                 nth_error out r = Some out_row
                 /\ firstn (count_true mrow) out_row = valid.
Proof.
  intros tensor mask dest.
  assert (Hd : Forall (fun drow : tensor3 => 3 <= length drow) dest).
  { repeat constructor. }
  split; [reflexivity |]. split; [reflexivity |]. split; [reflexivity |].
  split; [exact Hd |]. split; [reflexivity |].
  apply (pad_to_right_any_mask 1 3 tensor mask (Some dest)); auto.
  split; [lia |]. split; [lia | reflexivity].
Defined.

(* ================================================================== *)
(** * Properties of the rotary encoder *)

Module RotaryClaims.
Import ResultFacts ShapeFacts RotaryFacts RangeFacts RotaryEmbedding.


Lemma entry3_Forall2 {A B} (P : A -> B -> Prop)
      (x : list (list (list A))) (y : list (list (list B))) (ib js ih : nat) (v : A) :
  Forall2 (Forall2 (Forall2 P)) x y ->
  entry3 x ib js ih = Some v ->
  exists w, entry3 y ib js ih = Some w /\ P v w.
Proof.
  unfold entry3. intros H Hv.
  destruct (nth_error x ib) as [xb |] eqn:Eb; [| discriminate].
  destruct (Forall2_nth_error_l _ _ _ _ _ H Eb) as (yb & -> & Hb).
  destruct (nth_error xb js) as [xs |] eqn:Es; [| discriminate].
  destruct (Forall2_nth_error_l _ _ _ _ _ Hb Es) as (ys & -> & Hs).
  destruct (Forall2_nth_error_l _ _ _ _ _ Hs Hv) as (w & -> & Hw).
  eauto.
Qed.

(** C7. For every input tensor with even head_dim and every valid
    position assignment, the rotary encoder returns a tensor in which the
    vector at every (batch, position, head) slot has the same Euclidean
    norm as the input vector at that slot.  Floating-point arithmetic is
    idealised as real arithmetic. *)
Theorem rotary_preserves_norm
        (self : t) (x : tensor tensor4) (position_ids : option (list (list Z)))
        (b s h d : nat) :
  rotary_wf self ->
  has_shape4 b s h d (data x) = true ->
  d mod 2 = 0 ->
  dim self = d ->
  positions_ok self b s position_ids ->
  exists y,
    snd (forward self x position_ids) = Ok y
    /\ forall ib js ih v,
         entry3 (data x) ib js ih = Some v ->
         exists w, entry3 (data y) ib js ih = Some w /\ norm w = norm v.
Proof.
  intros Hwf Hx Hd Hdim Hpos.
  apply has_shape4_spec in Hx.
  assert (Hdim2 : dim self / 2 = d / 2) by now rewrite Hdim.
  destruct (forward_ok self x position_ids b s h d Hwf Hx Hd Hdim2 Hpos) as [y Hy].
  exists y. split; [exact Hy |].
  destruct (forward_inv self x position_ids y b s h d Hwf Hx Hy) as (_ & _ & Hrel).
  intros ib js ih v Hv.
  destruct (entry3_Forall2 _ _ _ _ _ _ _ Hrel Hv) as (w & Hw & Hev & rh & -> & Hrot).
  exists (view_as_real rh). split; [exact Hw |].
  unfold norm. f_equal.
  rewrite sum_sq_view_as_real, (csum_sq_rotated _ _ Hrot).
  rewrite <- sum_sq_view_as_real. now rewrite view_as_real_complex.
Qed.

Lemma example_rot_wf : rotary_wf Example.rot.
Proof. intros H. discriminate H. Qed.

(** Witness for C7: one row of two positions, one head of dimension two,
    positions 0 and 1. *)
Lemma rotary_preserves_norm_witness :
  let x := Tensor BFloat16 [[[[3%R; 4%R]]; [[1%R; 2%R]]]] in
  let position_ids := Some [[0%Z; 1%Z]] in
  rotary_wf Example.rot
  /\ has_shape4 1 2 1 2 (data x) = true
  /\ 2 mod 2 = 0
  /\ dim Example.rot = 2
  /\ positions_ok Example.rot 1 2 position_ids
  /\ exists y,
       snd (forward Example.rot x position_ids) = Ok y
       /\ forall ib js ih v,
            entry3 (data x) ib js ih = Some v ->
            exists w, entry3 (data y) ib js ih = Some w /\ norm w = norm v.
Proof.
  intros x position_ids.
  assert (Hpos : positions_ok Example.rot 1 2 position_ids).
  { simpl. split; [reflexivity |]. split.
    - repeat constructor; simpl; lia.
    - exists [0%Z; 1%Z], 1%Z. repeat split; simpl; lia. }
  split; [exact example_rot_wf |]. split; [reflexivity |].
  split; [reflexivity |]. split; [reflexivity |]. split; [exact Hpos |].
  apply (rotary_preserves_norm Example.rot x position_ids 1 2 1 2);
    [exact example_rot_wf | reflexivity | reflexivity | reflexivity | exact Hpos].
Defined.

Lemma shape4_eq {A B} (b s h d : nat)
      (x : list (list (list (list A)))) (z : list (list (list (list B)))) :
  shaped4 b s h d x -> shaped4 b s h d z ->
  (length z, shape1 z, shape1 (hd [] z), shape1 (hd [] (hd [] z)))
  = (length x, shape1 x, shape1 (hd [] x), shape1 (hd [] (hd [] x))).
Proof.
  intros [Hb Hx] [Hzb Hz].
  destruct x as [| xb x], z as [| zb z]; simpl in *; try congruence.
  inversion Hx as [| ? ? [Hs Hxb] _]; inversion Hz as [| ? ? [Hzs Hzb'] _]; subst.
  destruct xb as [| xs xb], zb as [| zs zb]; simpl in *; try congruence.
  inversion Hxb as [| ? ? [Hh Hxs] _]; inversion Hzb' as [| ? ? [Hzh Hzs'] _]; subst.
  destruct xs as [| xh xs], zs as [| zh zs]; simpl in *; try congruence.
  inversion Hxs; inversion Hzs'; subst. congruence.
Qed.

(** C9. The rotary encoder returns a tensor of the same shape and the
    same dtype as its input, whatever the dtype (bfloat16 inputs are
    computed in float32 and cast back); and it does return on every
    well-shaped input with valid positions. *)
Theorem rotary_preserves_shape_and_dtype
        (self : t) (x : tensor tensor4) (position_ids : option (list (list Z)))
        (b s h d : nat) :
  rotary_wf self ->
  has_shape4 b s h d (data x) = true ->
  (forall y,
      snd (forward self x position_ids) = Ok y ->
      dtype_of y = dtype_of x
      /\ has_shape4 b s h d (data y) = true
      /\ shape4 (data y) = shape4 (data x))
  /\ (d mod 2 = 0 -> dim self = d -> positions_ok self b s position_ids ->
      exists y, snd (forward self x position_ids) = Ok y).
Proof.
  intros Hwf Hx. apply has_shape4_spec in Hx. split.
  - intros y Hy.
    destruct (forward_inv self x position_ids y b s h d Hwf Hx Hy) as (Hdt & Hsh & _).
    split; [exact Hdt |]. split; [now apply has_shape4_spec |].
    unfold shape4. eapply shape4_eq; eauto.
  - intros Hd Hdim Hpos.
    assert (Hdim2 : dim self / 2 = d / 2) by now rewrite Hdim.
    exact (forward_ok self x position_ids b s h d Hwf Hx Hd Hdim2 Hpos).
Qed.

(** Witness for C9: a bfloat16 input comes back as bfloat16, in its
    shape. *)
Lemma rotary_preserves_shape_and_dtype_witness :
  let x := Tensor BFloat16 [[[[3%R; 4%R]]; [[1%R; 2%R]]]] in
  rotary_wf Example.rot
  /\ has_shape4 1 2 1 2 (data x) = true
  /\ positions_ok Example.rot 1 2 None
  /\ exists y,
       snd (forward Example.rot x None) = Ok y
       /\ dtype_of y = BFloat16
       /\ shape4 (data y) = (1, 2, 1, 2).
Proof.
  intros x.
  assert (Hpos : positions_ok Example.rot 1 2 None) by (simpl; lia).
  split; [exact example_rot_wf |]. split; [reflexivity |]. split; [exact Hpos |].
  destruct (rotary_preserves_shape_and_dtype Example.rot x None 1 2 1 2
              example_rot_wf eq_refl) as [Hinv Hex].
  destruct (Hex eq_refl eq_refl Hpos) as [y Hy].
  destruct (Hinv y Hy) as (Hdt & _ & Hsh).
  exists y. split; [exact Hy |]. split; [exact Hdt | exact Hsh].
Defined.

(** C2 (as the code has it).  The range test of the rotary encoder reads
    the last entry of the last row of [position_ids] only: on an input with
    even head dimension, the call fails with the range error, which carries
    the minimum and maximum of all position ids, exactly when that entry is
    outside [0, max_positions); so no range error is raised when every
    entry is inside the range. *)
Theorem rotary_range_test_reads_last_entry
        (self : t) (x : tensor tensor4) (pos : list (list Z))
        (b s h d : nat) (last_row : list Z) (last : Z) :
  has_shape4 b s h d (data x) = true ->
  d mod 2 = 0 ->
  last_entry pos = Ok last_row ->
  last_entry last_row = Ok last ->
  let n := Z.of_nat (end_ self) in
  let r := snd (forward self x (Some pos)) in
  ((last < 0 \/ n <= last)%Z ->
   r = Raise (ValueError n (pos_min pos) (pos_max pos))
   /\ forall p, In p (concat pos) -> (pos_min pos <= p <= pos_max pos)%Z)
  /\ ((0 <= last < n)%Z -> forall e lo hi, r <> Raise (ValueError e lo hi))
  /\ (Forall (Forall (fun p => (0 <= p < n)%Z)) pos ->
      forall e lo hi, r <> Raise (ValueError e lo hi)).
Proof.
  intros Hx Hd Hrow Hlast n r.
  assert (Hev : shape1 (hd [] (hd [] (data x))) mod 2 = 0).
  { apply has_shape4_spec in Hx.
    destruct (shape4_inner_dim _ _ _ _ _ Hx) as [E | E]; rewrite E; auto. }
  destruct (forward_range_test self x pos last_row last Hev Hrow Hlast) as [Hbad Hok].
  split; [| split].
  - intros H. split; [now apply Hbad | apply pos_min_max].
  - exact Hok.
  - intros Hall. apply Hok.
    apply last_entry_In in Hrow, Hlast.
    rewrite Forall_forall in Hall. specialize (Hall _ Hrow).
    rewrite Forall_forall in Hall. now apply Hall.
Qed.

(** Witness for C2 (as the code has it): the last position id is 5, the
    table has 3 positions. *)
Lemma rotary_range_test_reads_last_entry_witness :
  let x := Tensor Float32 [[[[3%R; 4%R]]; [[1%R; 2%R]]]] in
  let pos := [[0%Z; 5%Z]] in
  has_shape4 1 2 1 2 (data x) = true
  /\ 2 mod 2 = 0
  /\ last_entry pos = Ok [0%Z; 5%Z]
  /\ last_entry [0%Z; 5%Z] = Ok 5%Z
  /\ snd (forward Example.rot x (Some pos)) = Raise (ValueError 3 0 5).
Proof.
  intros x pos.
  split; [reflexivity |]. split; [reflexivity |].
  split; [reflexivity |]. split; [reflexivity |].
  destruct (rotary_range_test_reads_last_entry Example.rot x pos 1 2 1 2
              [0%Z; 5%Z] 5%Z eq_refl eq_refl eq_refl eq_refl) as [Hbad _].
  destruct Hbad as [Hr _]; [right; simpl; lia |].
  rewrite Hr. reflexivity.
Defined.

(** Counterexample to C2 as stated: the position matrix [[-1, 0]] has an
    entry outside [0, 3), yet the call raises no range error: it returns
    (a negative index reads the table from its end). *)
Lemma rotary_range_check_counterexample :
  let x := Tensor Float32 [[[[3%R; 4%R]]; [[1%R; 2%R]]]] in
  let pos := [[(-1)%Z; 0%Z]] in
  (exists p, In p (concat pos) /\ ~ (0 <= p < Z.of_nat (end_ Example.rot))%Z)
  /\ exists y, snd (forward Example.rot x (Some pos)) = Ok y.
Proof.
  intros x pos. split.
  - exists (-1)%Z. split; [simpl; auto | simpl; lia].
  - eexists. run. reflexivity.
Qed.

End RotaryClaims.

(* ================================================================== *)
(** * Properties of [CausalSelfAttention.forward] *)

Import MonadFacts MaskFacts SplitFacts ForwardEval ErrorOrigins OffsetFacts.

Section ForwardClaims.

Variable qkv_proj : tensor tensor3 -> tensor tensor3.
Variable o_proj : tensor tensor3 -> tensor tensor3.
Variable flash_attn_varlen_func : varlen_args -> tensor3.
Variable flash_attn_with_kvcache : kvcache_args -> tensor4 * tensor4 * tensor4.
Variable unpad_input : tensor4 -> bool_mask -> tensor3 * list nat * list Z * nat.
Variable pad_input : tensor3 -> list nat -> nat -> nat -> tensor4.

Let forward := CausalSelfAttention_forward qkv_proj o_proj flash_attn_varlen_func
                 flash_attn_with_kvcache unpad_input pad_input.

(** C8. Whatever the mode (training, prefill or decode), the mask a
    call of the attention module returns is the mask it was given. *)
Theorem forward_returns_its_mask
        (self : CausalSelfAttention) (hidden_states : tensor tensor3)
        (sequence_mask : bool_mask) (st st' : state)
        (output : tensor tensor3) (returned_mask : bool_mask) :
  forward self hidden_states sequence_mask st = (st', Ok (output, returned_mask)) ->
  returned_mask = sequence_mask.
Proof.
  unfold forward, CausalSelfAttention_forward. intros H.
  apply bindM_Ok_inv in H as ([[q k] v] & st1 & _ & H).
  apply bindM_Ok_inv in H as (store & st2 & _ & H).
  apply bindM_Ok_inv in H as (ao & st3 & _ & H).
  apply bindM_Ok_inv in H as (ao' & st4 & _ & H).
  apply retM_inv in H as [_ H]. now injection H.
Qed.

(** C6 (as the code has it). In the no-cache branch a call invokes the
    fused varlen kernel at most once, and exactly once when it returns
    (or fails only after the kernel, in the final view); the causal flag
    of that call is enabled exactly when the mask's sequence length is
    not 1: a single-column mask gets a non-causal call. *)
Theorem training_invokes_kernel_once
        (self : CausalSelfAttention) (hidden_states : tensor tensor3)
        (sequence_mask : bool_mask) (st st' : state)
        (r : result (tensor tensor3 * bool_mask)) :
  local_store st = None ->
  forward self hidden_states sequence_mask st = (st', r) ->
  let invoked_once :=
    exists a,
      kernel_log st' = kernel_log st ++ [VarlenCall a]
      /\ vl_causal a = negb (shape1 sequence_mask =? 1) in
  (forall out, r = Ok out -> invoked_once)
  /\ (invoked_once \/ (kernel_log st' = kernel_log st /\ exists e, r = Raise e)).
Proof.
  intros Hstore H invoked_once. unfold forward, CausalSelfAttention_forward in H.
  apply bindM_inv in H as (s1 & r1 & H1 & H). apply lift_inv in H1 as [-> ->].
  destruct (split_qkv _ _ _ _) as [[[q k] v] | e1].
  2:{ destruct H as [-> ->]. split; [discriminate | right; eauto]. }
  apply bindM_inv in H as (s2 & r2 & H2 & H).
  unfold get_local_store in H2. injection H2 as <- <-. rewrite Hstore in H.
  apply bindM_inv in H as (s3 & r3 & H3 & H).
  assert (Hlog3 : match r3 with
                  | Ok _ =>
                      exists a,
                        kernel_log s3 = kernel_log st ++ [VarlenCall a]
                        /\ vl_causal a = negb (shape1 sequence_mask =? 1)
                  | Raise _ => kernel_log s3 = kernel_log st
                  end).
  { clear H.
    apply bindM_inv in H3 as (s4 & r4 & H4 & H3).
    apply call_rotary_inv in H4 as (_ & Hl4 & _ & _).
    destruct r4 as [q' | e4]; [| destruct H3 as [-> ->]; exact Hl4].
    apply bindM_inv in H3 as (s5 & r5 & H5 & H3).
    apply call_rotary_inv in H5 as (_ & Hl5 & _ & _).
    destruct r5 as [k' | e5]; [| destruct H3 as [-> ->]; congruence].
    apply bindM_inv in H3 as (s6 & r6 & H6 & H3).
    unfold CoreAttention_forward in H6.
    apply bindM_inv in H6 as (s7 & r7 & H7 & H6).
    apply log_call_inv in H7 as (_ & Hl7 & _ & ->).
    apply retM_inv in H6 as [-> ->]. apply retM_inv in H3 as [-> ->].
    eexists. split.
    - rewrite Hl7, Hl5, Hl4. reflexivity.
    - cbn [vl_causal]. now destruct (shape1 sequence_mask =? 1). }
  destruct r3 as [ao | e3].
  - apply bindM_inv in H as (s8 & r8 & H8 & H). apply lift_inv in H8 as [-> ->].
    destruct (view3 _ _ _ _) as [out | e8].
    + apply retM_inv in H as [-> ->]. split; [intros _ _; exact Hlog3 | now left].
    + destruct H as [-> ->]. split; [discriminate | now left].
  - destruct H as [-> ->]. split; [discriminate | right; eauto].
Qed.

(** C1 (as the code has it). In a call with a cache whose position
    offsets are present (decode, one new token per row), if the new
    position [position_offset + mask bit] of some row reaches the cache
    capacity [prefill_kv_len], which is also the size of the rotary
    table, the call fails in the rotary encoder before any kernel is
    invoked, and the store (key cache, value cache, position offsets) is
    left exactly as it was.  The failure is the encoder's range error
    when that row is the last one (the only one its range test reads);
    for another row it is the range error or the index error of the
    table lookup.  No separate capacity test exists. *)
Theorem decode_beyond_capacity_raises
        (self : CausalSelfAttention) (hidden_states : tensor tensor3)
        (sequence_mask : bool_mask) (st : state) (cache : store)
        (old : list Z) (b i : nat) (o : Z) (m : bool) :
  d_qk self mod 2 = 0 ->
  rotary_wf (rotary_embedding st) ->
  prefill_kv_len self = RotaryEmbedding.end_ (rotary_embedding st) ->
  local_store st = Some cache ->
  position_offsets cache = Some old ->
  shaped3 1 b (qkv_features self) (data (qkv_proj hidden_states)) ->
  has_shape2 b 1 sequence_mask = true ->
  length old = b ->
  nth_error old i = Some o ->
  nth_error sequence_mask i = Some [m] ->
  (Z.of_nat (prefill_kv_len self) <= o + b2z m < 2 ^ 31)%Z ->
  let range_error :=
    ValueError (Z.of_nat (prefill_kv_len self))
               (RotaryEmbedding.pos_min (decode_positions old sequence_mask))
               (RotaryEmbedding.pos_max (decode_positions old sequence_mask)) in
  exists st' e,
    forward self hidden_states sequence_mask st = (st', Raise e)
    /\ (e = range_error \/ e = IndexError)
    /\ (S i = b -> e = range_error)
    /\ local_store st' = Some cache
    /\ kernel_log st' = kernel_log st.
Proof.
  intros Hd Hwf Hcap Hstore Hold Hqkv Hmask Hlen Ho Hm Hover range_error.
  destruct (split_qkv_ok self _ 1 b (le_n 1) Hqkv) as (q & k & v & Hsplit & Hq & Hk & Hv).
  apply has_shape2_spec in Hmask as [Hmb Hmrows].
  set (pos := decode_positions old sequence_mask) in *.
  assert (Hpos : broadcast2
                   (fun o mrow => Ok (map (fun m => wrap32 (o + b2z m)) mrow))
                   old sequence_mask
                 = Ok pos)
    by (apply decode_positions_eq; congruence).
  destruct (offsets_ok pos) as [offs Hoffs].
  { apply map2_Forall. intros x y Hy.
    rewrite Forall_forall in Hmrows. specialize (Hmrows _ Hy). cbv beta in Hmrows.
    destruct y; [discriminate | discriminate]. }
  assert (Hrow : nth_error pos i = Some [(o + b2z m)%Z]).
  { unfold pos, decode_positions.
    rewrite (map2_nth_error _ old sequence_mask i o [m] Ho Hm).
    cbn [map]. now rewrite wrap32_small by lia. }
  assert (Hev : shape1 (hd [] (hd [] q)) mod 2 = 0).
  { destruct (shape4_inner_dim _ _ _ _ _ Hq) as [E | E]; rewrite E; auto. }
  set (dt := dtype_of (qkv_proj hidden_states)).
  assert (Hfail : exists e,
             snd (RotaryEmbedding.forward (rotary_embedding st) (Tensor dt q)
                                          (Some pos)) = Raise e
             /\ (e = range_error \/ e = IndexError)
             /\ (S i = b -> e = range_error)).
  { unfold range_error. rewrite Hcap.
    destruct (forward_beyond_table (rotary_embedding st) (Tensor dt q) pos
                [(o + b2z m)%Z] (o + b2z m)%Z Hwf Hev
                (nth_error_In _ _ Hrow) (or_introl eq_refl)) as [HE | HE];
      [lia | | eexists; split; [exact HE | auto]].
    exists IndexError. split; [exact HE |]. split; [now right |].
    intros Hi.
    assert (Hlast : last_entry pos = Ok [(o + b2z m)%Z]).
    { apply (last_entry_nth_error pos i); [exact Hrow |].
      unfold pos, decode_positions. rewrite map2_length; congruence. }
    destruct (forward_range_test (rotary_embedding st) (Tensor dt q) pos
                _ _ Hev Hlast eq_refl) as [Hbad _].
    rewrite Hbad in HE by lia. discriminate HE. }
  destruct Hfail as (e & HE & Hkind & Hlastrow).
  eexists _, e. split; [| split; [exact Hkind | split; [exact Hlastrow | split]]].
  - unfold forward, CausalSelfAttention_forward.
    erewrite bindM_Ok by (apply lift_Ok; exact Hsplit). cbv beta iota.
    erewrite bindM_Ok by reflexivity. rewrite Hstore. cbv beta iota.
    apply bindM_Raise.
    rewrite Hold.
    erewrite bindM_Ok by (apply lift_Ok; exact Hpos).
    erewrite bindM_Ok by (apply lift_Ok; exact Hoffs).
    apply bindM_Raise. rewrite call_rotary_eq. fold dt. rewrite HE. reflexivity.
  - simpl. exact Hstore.
  - reflexivity.
Qed.

(** C3 (as the code has it). In a prefill call (store attached, no
    cache entry yet) that gets as far as the mask validation, i.e. whose
    position ids pass the rotary encoder ([prefill_ready]): a mask in
    which some row has a True followed later by a False makes the call
    fail with the mask assertion, store and kernel log untouched; a mask
    whose rows are all a run of False followed by a run of True passes
    the validation and the call goes on to invoke the varlen kernel with
    the causal flag set.  In any call, the mask assertion is raised only
    for a mask with such a gap. *)
Theorem prefill_mask_validation
        (self : CausalSelfAttention) (hidden_states : tensor tensor3)
        (sequence_mask : bool_mask) (st : state) (cache : store) (b s : nat) :
  local_store st = Some cache ->
  position_offsets cache = None ->
  key cache = None ->
  prefill_ready self st (data (qkv_proj hidden_states)) sequence_mask b s ->
  (has_gap sequence_mask ->
   exists st',
     forward self hidden_states sequence_mask st
     = (st', Raise (AssertionError AssertNoMidMask))
     /\ local_store st' = local_store st
     /\ kernel_log st' = kernel_log st)
  /\ (Forall left_padded sequence_mask ->
      exists st' r a,
        forward self hidden_states sequence_mask st = (st', r)
        /\ r <> Raise (AssertionError AssertNoMidMask)
        /\ kernel_log st' = kernel_log st ++ [VarlenCall a]
        /\ vl_causal a = true)
  /\ (forall st',
        forward self hidden_states sequence_mask st
        = (st', Raise (AssertionError AssertNoMidMask)) ->
        has_gap sequence_mask).
Proof.
  intros Hstore Hoff Hkey Hready. split; [| split].
  - intros Hgap.
    destruct (prefill_gap_rejected qkv_proj o_proj flash_attn_varlen_func
                flash_attn_with_kvcache unpad_input pad_input
                self hidden_states sequence_mask st cache b s
                Hstore Hoff Hkey Hready Hgap) as (st' & H & Hs & Hl).
    exists st'. auto.
  - intros Hpad.
    exact (prefill_left_padded_accepted qkv_proj o_proj flash_attn_varlen_func
             flash_attn_with_kvcache unpad_input pad_input
             self hidden_states sequence_mask st cache b s
             Hstore Hoff Hkey Hready Hpad).
  - intros st' H.
    exact (mask_error_only_from_gap qkv_proj o_proj flash_attn_varlen_func
             flash_attn_with_kvcache unpad_input pad_input
             self hidden_states sequence_mask st st' H).
Qed.

(** C4 (as the code has it). Every call with a store that returns
    stores key cache, value cache and position offsets back together.
    After a prefill (no offsets stored before) the offset of each row is
    its number of valid tokens minus one.  After a decode call (offsets
    stored, one mask column) the offset of each row is the previous
    offset plus the row's mask bit, in int32: incremented by exactly one
    where the bit is True, unchanged where it is False; that offset is
    the cursor handed to the cache kernel, whose updated caches are the
    ones stored. *)
Theorem cache_cursor_bookkeeping
        (self : CausalSelfAttention) (hidden_states : tensor tensor3)
        (sequence_mask : bool_mask) (st st' : state) (cache : store)
        (r : tensor tensor3 * bool_mask) :
  local_store st = Some cache ->
  forward self hidden_states sequence_mask st = (st', Ok r) ->
  exists k_cache v_cache offsets,
    local_store st'
    = Some {| key := Some k_cache; value := Some v_cache;
              position_offsets := Some offsets |}
    /\ (position_offsets cache = None ->
        Forall (fun mrow => (Z.of_nat (length mrow) < 2 ^ 31)%Z) sequence_mask ->
        offsets = map (fun mrow => (Z.of_nat (count_true mrow) - 1)%Z)
                      sequence_mask)
    /\ (forall old,
          position_offsets cache = Some old ->
          length old = length sequence_mask ->
          rows_have 1 sequence_mask = true ->
          offsets = map2 (fun o mrow => wrap32 (o + b2z (hd false mrow)))
                         old sequence_mask
          /\ (Forall (fun mrow => mrow = [true]) sequence_mask ->
              Forall (fun o => (- 2 ^ 31 <= o + 1 < 2 ^ 31)%Z) old ->
              offsets = map Z.succ old)
          /\ (forall kc,
                key cache = Some kc ->
                exists args out,
                  kernel_log st' = kernel_log st ++ [KvcacheCall args]
                  /\ kc_k_cache args = kc
                  /\ kc_cache_seqlens args = offsets
                  /\ flash_attn_with_kvcache args = (out, k_cache, v_cache))).
Proof.
  intros Hstore H.
  destruct (inference_store_update qkv_proj o_proj flash_attn_varlen_func
              flash_attn_with_kvcache unpad_input pad_input
              self hidden_states sequence_mask st st' cache r Hstore H)
    as (pos & offsets & k_cache & v_cache & Hpos & Hoffs & Hst & Hkernel).
  exists k_cache, v_cache, offsets. split; [exact Hst |]. split.
  - intros Hnone Hlen. rewrite Hnone in Hpos. injection Hpos as <-.
    now apply prefill_offsets.
  - intros old Hold Hlen Hrows. rewrite Hold in Hpos.
    rewrite decode_positions_eq in Hpos by exact Hlen. injection Hpos as <-.
    pose proof (decode_offsets old sequence_mask offsets Hoffs Hlen Hrows) as Heq.
    split; [exact Heq |]. split.
    + intros Hm Ho. rewrite Heq. now apply decode_offsets_succ.
    + intros kc Hkc. destruct (Hkernel kc Hkc) as (args & out & Hl & Hk & Hc & _ & Hf).
      exists args, out. auto.
Qed.

End ForwardClaims.

(** ** Concrete runs *)

Import Example.

(** Witness for C8: a training call on one row of two tokens. *)
Lemma forward_returns_its_mask_witness :
  exists st' output returned_mask,
    Example.forward attn two_tokens [[true; true]] (state_with None)
    = (st', Ok (output, returned_mask))
    /\ returned_mask = [[true; true]].
Proof.
  eexists _, _, _.
  match goal with
  | |- ?A /\ _ => assert (H : A) by (run; reflexivity)
  end.
  split; [exact H |].
  exact (forward_returns_its_mask qkv_proj o_proj flash_attn_varlen_func
           flash_attn_with_kvcache unpad_input pad_input _ _ _ _ _ _ _ H).
Defined.

(** Witness for C6 (as the code has it): a training call on one row of
    two tokens returns, having invoked the kernel once, causal. *)
Lemma training_invokes_kernel_once_witness :
  local_store (state_with None) = None
  /\ exists st' out a,
       Example.forward attn two_tokens [[true; true]] (state_with None)
       = (st', Ok out)
       /\ kernel_log st' = kernel_log (state_with None) ++ [VarlenCall a]
       /\ vl_causal a = true.
Proof.
  split; [reflexivity |].
  eexists _, _.
  match goal with
  | |- exists a, ?A /\ _ => assert (H : A) by (run; reflexivity)
  end.
  destruct (training_invokes_kernel_once qkv_proj o_proj flash_attn_varlen_func
              flash_attn_with_kvcache unpad_input pad_input
              attn two_tokens [[true; true]] (state_with None) _ _
              eq_refl H) as [Hret _].
  destruct (Hret _ eq_refl) as (a & Hlog & Hc).
  exists a. auto.
Defined.

(** Counterexample to C6 as stated: a training call on a single token
    (seq_len == 1) returns after invoking the kernel once with the causal
    flag disabled. *)
Lemma training_single_token_not_causal :
  local_store (state_with None) = None
  /\ shape1 [[true]] = 1
  /\ exists st' r a,
       Example.forward attn one_token [[true]] (state_with None) = (st', Ok r)
       /\ kernel_log st' = [VarlenCall a]
       /\ vl_causal a = false.
Proof.
  split; [reflexivity |]. split; [reflexivity |].
  eexists _, _, _. split; [run; reflexivity |].
  split; reflexivity.
Qed.

(** Witness for C1 (as the code has it): the single row's offset is 2,
    the capacity is 3 and the row's mask bit is set. *)
Lemma decode_beyond_capacity_raises_witness :
  d_qk attn mod 2 = 0
  /\ rotary_wf (rotary_embedding (state_with (Some (store_at 2))))
  /\ prefill_kv_len attn
     = RotaryEmbedding.end_ (rotary_embedding (state_with (Some (store_at 2))))
  /\ shaped3 1 1 (qkv_features attn) (data (qkv_proj one_token))
  /\ has_shape2 1 1 [[true]] = true
  /\ (Z.of_nat (prefill_kv_len attn) <= 2 + b2z true < 2 ^ 31)%Z
  /\ exists st' e,
       Example.forward attn one_token [[true]] (state_with (Some (store_at 2)))
       = (st', Raise e)
       /\ e = ValueError 3 3 3
       /\ local_store st' = Some (store_at 2)
       /\ kernel_log st' = kernel_log (state_with (Some (store_at 2))).
Proof.
  assert (Hwf : rotary_wf (rotary_embedding (state_with (Some (store_at 2))))).
  { intros H. discriminate H. }
  assert (Hq : shaped3 1 1 (qkv_features attn) (data (qkv_proj one_token))).
  { repeat constructor. }
  assert (Hover : (Z.of_nat (prefill_kv_len attn) <= 2 + b2z true < 2 ^ 31)%Z).
  { simpl. lia. }
  split; [reflexivity |]. split; [exact Hwf |]. split; [reflexivity |].
  split; [exact Hq |]. split; [reflexivity |]. split; [exact Hover |].
  destruct (decode_beyond_capacity_raises qkv_proj o_proj flash_attn_varlen_func
              flash_attn_with_kvcache unpad_input pad_input
              attn one_token [[true]] (state_with (Some (store_at 2))) (store_at 2)
              [2%Z] 1 0 2%Z true
              eq_refl Hwf eq_refl eq_refl eq_refl Hq eq_refl eq_refl eq_refl eq_refl
              Hover)
    as (st' & e & Hrun & _ & Hlast & Hst & Hlog).
  exists st', e. split; [exact Hrun |]. split; [| split; [exact Hst | exact Hlog]].
  rewrite (Hlast eq_refl). reflexivity.
Defined.

(** Counterexample to C1 as stated: the row's cursor [2 + 1] has reached
    the capacity 3, yet with the row's mask bit unset the call returns,
    having invoked the cache kernel and stored its result, instead of
    failing. *)
Lemma decode_at_capacity_may_return :
  position_offsets (store_at 2) = Some [2%Z]
  /\ (Z.of_nat (prefill_kv_len attn) <= 2 + 1)%Z
  /\ exists st' r a,
       Example.forward attn one_token [[false]] (state_with (Some (store_at 2)))
       = (st', Ok r)
       /\ kernel_log st' = [KvcacheCall a]
       /\ local_store st' <> Some (store_at 2).
Proof.
  split; [reflexivity |]. split; [simpl; lia |].
  eexists _, _, _. split; [run; reflexivity |].
  split; [reflexivity |].
  intros H.
  apply (f_equal (fun s => match s with
                           | Some c => value c
                           | None => None
                           end)) in H.
  revert H. run. intros H. injection H. intros. lra.
Qed.

(** Witness for C3 (as the code has it): one row, [F, T] is accepted and
    [T, F] rejected. *)
Lemma prefill_mask_validation_witness :
  let st := state_with (Some empty_store) in
  let mask := [[false; true]] in
  prefill_ready attn st (data (qkv_proj two_tokens)) mask 1 2
  /\ ((has_gap mask ->
       exists st',
         Example.forward attn two_tokens mask st
         = (st', Raise (AssertionError AssertNoMidMask))
         /\ local_store st' = local_store st
         /\ kernel_log st' = kernel_log st)
      /\ (Forall left_padded mask ->
          exists st' r a,
            Example.forward attn two_tokens mask st = (st', r)
            /\ r <> Raise (AssertionError AssertNoMidMask)
            /\ kernel_log st' = kernel_log st ++ [VarlenCall a]
            /\ vl_causal a = true)
      /\ (forall st',
            Example.forward attn two_tokens mask st
            = (st', Raise (AssertionError AssertNoMidMask)) ->
            has_gap mask)).
Proof.
  intros st mask.
  assert (Hready : prefill_ready attn st (data (qkv_proj two_tokens)) mask 1 2).
  { unfold prefill_ready.
    split; [intros H; discriminate H |].
    split; [reflexivity |]. split; [reflexivity |].
    split; [repeat constructor |]. split; [reflexivity |].
    split; [repeat constructor |]. split; [reflexivity |].
    split; [repeat constructor |].
    exists [false; true]. split; [reflexivity | repeat constructor]. }
  split; [exact Hready |].
  exact (prefill_mask_validation qkv_proj o_proj flash_attn_varlen_func
           flash_attn_with_kvcache unpad_input pad_input
           attn two_tokens mask st empty_store 1 2
           eq_refl eq_refl eq_refl Hready).
Defined.

(** Counterexample to C3 as stated: in a prefill of two rows the first
    row [T, F] has a gap, but the last row is all padding, so the call
    fails in the rotary encoder's range test (position id -1), not with
    the mask assertion. *)
Lemma prefill_gap_range_error_first :
  let mask := [[true; false]; [false; false]] in
  has_gap mask
  /\ exists st',
       Example.forward attn two_rows mask (state_with (Some empty_store))
       = (st', Raise (ValueError 3 (-1) 0)).
Proof.
  intros mask. split.
  - exists [true; false], 0, 1. repeat split; simpl; auto.
  - eexists. run. reflexivity.
Qed.

(** Witness for C4 (as the code has it): a decode step from offset 0. *)
Lemma cache_cursor_bookkeeping_witness :
  let st := state_with (Some (store_at 0)) in
  local_store st = Some (store_at 0)
  /\ exists st' r k_cache v_cache offsets,
       Example.forward attn one_token [[true]] st = (st', Ok r)
       /\ local_store st'
          = Some {| key := Some k_cache; value := Some v_cache;
                    position_offsets := Some offsets |}
       /\ offsets = [1%Z].
Proof.
  intros st. split; [reflexivity |].
  eexists _, _.
  match goal with
  | |- exists k v o, ?A /\ _ => assert (H : A) by (run; reflexivity)
  end.
  destruct (cache_cursor_bookkeeping qkv_proj o_proj flash_attn_varlen_func
              flash_attn_with_kvcache unpad_input pad_input
              attn one_token [[true]] st _ (store_at 0) _ eq_refl H)
    as (k_cache & v_cache & offsets & Hst & _ & Hdec).
  exists k_cache, v_cache, offsets. split; [exact H |]. split; [exact Hst |].
  destruct (Hdec [0%Z] eq_refl eq_refl eq_refl) as (_ & Hsucc & _).
  apply Hsucc; repeat constructor; simpl; lia.
Defined.

(** Counterexample to C4 as stated: a decode step whose mask bit is unset
    returns with the row's offset where it was, 0, instead of 0 + 1; the
    position handed to the rotary encoder and the kernel is 0 as well. *)
Lemma decode_masked_row_not_incremented :
  position_offsets (store_at 0) = Some [0%Z]
  /\ exists st' r k_cache v_cache a,
       Example.forward attn one_token [[false]] (state_with (Some (store_at 0)))
       = (st', Ok r)
       /\ local_store st'
          = Some {| key := Some k_cache; value := Some v_cache;
                    position_offsets := Some [0%Z] |}
       /\ kernel_log st' = [KvcacheCall a]
       /\ kc_cache_seqlens a = [0%Z].
Proof.
  split; [reflexivity |].
  eexists _, _, _, _, _. split; [run; reflexivity |].
  split; [reflexivity |]. split; reflexivity.
Qed.

Module RotationFacts.
Import ResultFacts ShapeFacts RotaryFacts RangeFacts RotaryEmbedding.

(** ** Lists *)

Lemma map2_ext_in {A B C} (f g : A -> B -> C) xs ys :
  (forall x y, In x xs -> In y ys -> f x y = g x y) ->
  map2 f xs ys = map2 g xs ys.
Proof.
  revert ys. induction xs as [| x xs IH]; intros [| y ys] H; simpl; try reflexivity.
  rewrite H by (now left). rewrite IH; [reflexivity |].
  intros x' y' Hx Hy. apply H; now right.
Qed.

Lemma map2_map_l {A A' B C} (f : A' -> B -> C) (g : A -> A') xs ys :
  map2 f (map g xs) ys = map2 (fun x y => f (g x) y) xs ys.
Proof.
  revert ys. induction xs as [| x xs IH]; intros [| y ys]; simpl; try reflexivity.
  now rewrite IH.
Qed.

Lemma map2_map_r {A B B' C} (f : A -> B' -> C) (g : B -> B') xs ys :
  map2 f xs (map g ys) = map2 (fun x y => f x (g y)) xs ys.
Proof.
  revert ys. induction xs as [| x xs IH]; intros [| y ys]; simpl; try reflexivity.
  now rewrite IH.
Qed.

Lemma map_map2 {A B C D} (h : C -> D) (f : A -> B -> C) xs ys :
  map h (map2 f xs ys) = map2 (fun x y => h (f x y)) xs ys.
Proof.
  revert ys. induction xs as [| x xs IH]; intros [| y ys]; simpl; try reflexivity.
  now rewrite IH.
Qed.

Lemma map2_nth_error_inv {A B C} (f : A -> B -> C) xs ys i z :
  nth_error (map2 f xs ys) i = Some z ->
  exists x y, nth_error xs i = Some x /\ nth_error ys i = Some y /\ z = f x y.
Proof.
  revert ys i. induction xs as [| x xs IH]; intros [| y ys] [| i]; simpl;
    try discriminate.
  - intros [= <-]. eauto.
  - apply IH.
Qed.

(** ** Sequencing and broadcasting, when every step returns *)

Lemma sequence_map_Ok_in {A B} (f : A -> result B) (g : A -> B) (l : list A) :
  (forall x, In x l -> f x = Ok (g x)) ->
  sequence (map f l) = Ok (map g l).
Proof.
  induction l as [| x l IH]; intros H; simpl; [reflexivity |].
  rewrite H by (now left). simpl. rewrite IH; [reflexivity |].
  intros x' Hx. apply H. now right.
Qed.

Lemma sequence_map2_Ok_in {A B C} (f : A -> B -> result C) (g : A -> B -> C) xs ys :
  (forall x y, In x xs -> In y ys -> f x y = Ok (g x y)) ->
  sequence (map2 f xs ys) = Ok (map2 g xs ys).
Proof.
  revert ys. induction xs as [| x xs IH]; intros [| y ys] H; simpl; try reflexivity.
  rewrite H by (now left). simpl. rewrite IH; [reflexivity |].
  intros x' y' Hx Hy. apply H; now right.
Qed.

Lemma broadcast2_map2_Ok {A B C} (f : A -> B -> result C) (g : A -> B -> C) xs ys :
  length xs = length ys ->
  (forall x y, In x xs -> In y ys -> f x y = Ok (g x y)) ->
  broadcast2 f xs ys = Ok (map2 g xs ys).
Proof.
  intros Hlen H. rewrite broadcast2_same_length by exact Hlen.
  now apply sequence_map2_Ok_in.
Qed.

Lemma broadcast2_single_Ok {A B C} (f : A -> B -> result C) (g : A -> B -> C) xs y :
  (forall x, In x xs -> f x y = Ok (g x y)) ->
  broadcast2 f xs [y] = Ok (map (fun x => g x y) xs).
Proof.
  intros H. rewrite broadcast2_singleton_r.
  now apply sequence_map_Ok_in.
Qed.

(** ** The table *)

Lemma inv_freqs_eq (dim : nat) (theta : R) :
  inv_freqs dim theta
  = map (fun j => (1 / Rpower theta (INR (2 * j) / INR dim))%R) (seq 0 (dim / 2)).
Proof.
  unfold inv_freqs. rewrite <- firstn_map, map_map.
  assert (Hle : dim / 2 <= (dim + 1) / 2) by (apply Nat.Div0.div_le_mono; lia).
  replace ((dim + 1) / 2) with (dim / 2 + ((dim + 1) / 2 - dim / 2)) by lia.
  rewrite seq_app, map_app, firstn_app, length_map, length_seq, Nat.sub_diag.
  rewrite firstn_O, app_nil_r. rewrite firstn_all2; [reflexivity |].
  now rewrite length_map, length_seq.
Qed.

Lemma table_row (dim end_ : nat) (theta : R) (p : nat) :
  p < end_ ->
  nth_error (rotary_table dim end_ theta) p = Some (rotation_at dim theta p).
Proof.
  intros Hp. unfold rotary_table, rotation_at.
  rewrite nth_error_map, nth_error_seq.
  replace (p <? end_) with true by (symmetry; now apply Nat.ltb_lt).
  cbn [option_map Nat.add]. rewrite inv_freqs_eq, map_map. reflexivity.
Qed.

Lemma index_row_exact (dim end_ : nat) (theta : R) (p : Z) :
  (- Z.of_nat end_ <= p < Z.of_nat end_)%Z ->
  index_row (rotary_table dim end_ theta) p
  = Ok (rotation_at dim theta (table_index end_ p)).
Proof.
  intros Hp. unfold index_row, table_index.
  destruct (rotary_table_shape dim end_ theta) as [-> _].
  set (i := if (p <? 0)%Z then (p + Z.of_nat end_)%Z else p).
  assert (Hi : (0 <= i < Z.of_nat end_)%Z)
    by (unfold i; destruct (Z.ltb_spec p 0); lia).
  replace ((0 <=? i)%Z && (i <? Z.of_nat end_)%Z) with true
    by (symmetry; apply andb_true_iff; lia).
  rewrite table_row by lia. reflexivity.
Qed.

Lemma select_freqs_exact (self : t) (b s sl : nat) (pos : list (list Z)) :
  freqs_cis self = rotary_table (dim self) (end_ self) (theta self) ->
  positions_ok self b s (Some pos) ->
  select_freqs self sl (Some pos)
  = Ok (map (map (fun p => rotation_at (dim self) (theta self)
                                       (table_index (end_ self) p))) pos).
Proof.
  intros Htab (Hb & Hp & lr & l & Hlr & Hl & Hlast).
  unfold select_freqs. rewrite Hlr. cbn [bind]. rewrite Hl. cbn [bind].
  replace ((l <? 0)%Z || (Z.of_nat (end_ self) <=? l)%Z) with false
    by (symmetry; apply orb_false_iff; lia).
  rewrite Htab.
  apply sequence_map_Ok_in. intros row Hrow.
  apply sequence_map_Ok_in. intros p Hin.
  rewrite Forall_forall in Hp. destruct (Hp _ Hrow) as [_ Hr].
  rewrite Forall_forall in Hr. apply index_row_exact. now apply Hr.
Qed.

(** ** The product *)

Lemma rotate_exact (cx : list (list (list (list complex))))
      (cf : list (list (list complex))) (b s h n : nat) :
  shaped4 b s h n cx ->
  length cf = b ->
  Forall (fun fb => length fb = s /\ Forall (fun fs => length fs = n) fb) cf ->
  rotate cx cf
  = Ok (map2 (fun xb fb =>
                map2 (fun xs fs => map (fun xh => map2 cmul xh fs) xs) xb fb)
             cx cf).
Proof.
  intros [Hb Hx] Hcf Hf. unfold rotate.
  apply broadcast2_map2_Ok; [congruence |].
  intros xb fb Hxb Hfb.
  rewrite Forall_forall in Hx, Hf.
  destruct (Hx _ Hxb) as [Hs Hrows]. destruct (Hf _ Hfb) as [Hfs Hfrows].
  apply broadcast2_map2_Ok; [congruence |].
  intros xs fs Hxs Hfs'.
  rewrite Forall_forall in Hrows, Hfrows.
  destruct (Hrows _ Hxs) as [Hh Hvecs]. specialize (Hfrows _ Hfs').
  apply broadcast2_single_Ok. intros xh Hxh.
  rewrite Forall_forall in Hvecs. specialize (Hvecs _ Hxh).
  apply broadcast2_map2_Ok; [congruence |]. reflexivity.
Qed.

(** ** The call *)

(** With position ids of the input's [(batch, seq)] shape, the call
    returns the input with every vector turned by the rotations of its
    position. *)
Lemma forward_positions_exact (self : t) (x : tensor tensor4) (pos : list (list Z))
      (b s h d : nat) :
  rotary_wf self ->
  shaped4 b s h d (data x) ->
  d mod 2 = 0 ->
  dim self / 2 = d / 2 ->
  positions_ok self b s (Some pos) ->
  snd (forward self x (Some pos))
  = Ok (Tensor (dtype_of x) (rotated self (data x) pos)).
Proof.
  intros Hwf Hx Hd Hdim Hpos.
  destruct (forward_ok self x (Some pos) b s h d Hwf Hx Hd Hdim Hpos) as [y Hy].
  rewrite Hy. f_equal.
  pose proof (after_init_table self Hwf) as (Htab & _ & Hdim' & Hend' & Hth').
  unfold forward in Hy. cbn [snd] in Hy.
  set (self' := if _initialized_buffer self then self
                else init_rotary_embeddings self) in *.
  unfold shape4 in Hy.
  apply bind_Ok_inv in Hy as (u & _ & Hy).
  set (x1 := match dtype_of x with BFloat16 => to_float x | _ => x end) in *.
  assert (Hdata : data x1 = data x) by (unfold x1; destruct (dtype_of x); reflexivity).
  rewrite Hdata in Hy.
  assert (Hpos' : positions_ok self' b s (Some pos)).
  { unfold positions_ok in *. rewrite Hend'. exact Hpos. }
  rewrite (select_freqs_exact self' b s _ pos Htab Hpos') in Hy. cbn [bind] in Hy.
  destruct Hpos as (Hb & Hp & _).
  erewrite (rotate_exact _ _ b s h (d / 2)) in Hy.
  - cbn [bind] in Hy.
    apply bind_Ok_inv in Hy as (u' & _ & Hy). injection Hy as <-.
    unfold type_as. cbn [data]. f_equal.
    unfold rotated. rewrite Hdim', Hend', Hth'.
    rewrite map_map2, map2_map_l, map2_map_r.
    apply map2_ext_in. intros xb prow _ _.
    rewrite map_map2, map2_map_l, map2_map_r.
    apply map2_ext_in. intros xs p _ _.
    rewrite !map_map. reflexivity.
  - eapply shaped4_map; [| exact Hx]. intros v Hv.
    now rewrite view_as_complex_length, Hv.
  - now rewrite length_map.
  - apply Forall_map. eapply Forall_impl; [| exact Hp].
    intros row [Hs _]. split; [now rewrite length_map |].
    apply Forall_map, Forall_forall. intros p _.
    unfold rotation_at. rewrite length_map, length_seq. congruence.
Qed.

Lemma rotate_single_exact (cx : list (list (list (list complex))))
      (fb : list (list complex)) (b s h n : nat) :
  shaped4 b s h n cx ->
  length fb = s ->
  Forall (fun fs => length fs = n) fb ->
  rotate cx [fb]
  = Ok (map (fun xb =>
               map2 (fun xs fs => map (fun xh => map2 cmul xh fs) xs) xb fb)
            cx).
Proof.
  intros [Hb Hx] Hfs Hfrows. unfold rotate.
  apply broadcast2_single_Ok.
  intros xb Hxb.
  rewrite Forall_forall in Hx. destruct (Hx _ Hxb) as [Hs Hrows].
  apply broadcast2_map2_Ok; [congruence |].
  intros xs fs Hxs Hfs'.
  rewrite Forall_forall in Hrows, Hfrows.
  destruct (Hrows _ Hxs) as [Hh Hvecs]. specialize (Hfrows _ Hfs').
  apply broadcast2_single_Ok. intros xh Hxh.
  rewrite Forall_forall in Hvecs. specialize (Hvecs _ Hxh).
  apply broadcast2_map2_Ok; [congruence |]. reflexivity.
Qed.

Lemma table_firstn (dim end_ : nat) (theta : R) (s : nat) :
  s <= end_ ->
  firstn s (rotary_table dim end_ theta) = map (rotation_at dim theta) (seq 0 s).
Proof.
  intros Hs. unfold rotary_table.
  rewrite firstn_map.
  replace end_ with (s + (end_ - s)) by lia.
  rewrite seq_app, firstn_app, length_seq, Nat.sub_diag.
  rewrite firstn_O, app_nil_r, firstn_all2 by (now rewrite length_seq).
  apply map_ext. intros p. unfold rotation_at.
  rewrite inv_freqs_eq, map_map. reflexivity.
Qed.

Lemma map2_repeat_r {A B C} (f : A -> B -> C) (xs : list A) (y : B) :
  map2 f xs (repeat y (length xs)) = map (fun x => f x y) xs.
Proof. induction xs as [| x xs IH]; simpl; [reflexivity | now rewrite IH]. Qed.

Lemma table_index_nat (end_ j : nat) : table_index end_ (Z.of_nat j) = j.
Proof.
  unfold table_index.
  replace (Z.of_nat j <? 0)%Z with false by (symmetry; apply Z.ltb_ge; lia).
  apply Nat2Z.id.
Qed.

(** Without position ids, slot [js] of every row gets the rotations of
    position [js]. *)
Lemma forward_training_exact (self : t) (x : tensor tensor4) (b s h d : nat) :
  rotary_wf self ->
  shaped4 b s h d (data x) ->
  d mod 2 = 0 ->
  dim self / 2 = d / 2 ->
  s <= end_ self ->
  snd (forward self x None)
  = Ok (Tensor (dtype_of x) (rotated self (data x) (arange_positions b s))).
Proof.
  intros Hwf Hx Hd Hdim Hs.
  destruct (forward_ok self x None b s h d Hwf Hx Hd Hdim Hs) as [y Hy].
  rewrite Hy. f_equal.
  pose proof (after_init_table self Hwf) as (Htab & _ & Hdim' & Hend' & Hth').
  unfold forward in Hy. cbn [snd] in Hy.
  set (self' := if _initialized_buffer self then self
                else init_rotary_embeddings self) in *.
  unfold shape4 in Hy.
  apply bind_Ok_inv in Hy as (u & _ & Hy).
  set (x1 := match dtype_of x with BFloat16 => to_float x | _ => x end) in *.
  assert (Hdata : data x1 = data x) by (unfold x1; destruct (dtype_of x); reflexivity).
  rewrite Hdata in Hy.
  unfold select_freqs in Hy. cbn [bind] in Hy.
  assert (Hrot : rotated self (data x) (arange_positions b s)
                 = map (fun xb =>
                          map2 (fun xs p =>
                                  map (rotate_vec (rotation_at (dim self) (theta self) p))
                                      xs)
                               xb (seq 0 s))
                       (data x)).
  { unfold rotated, arange_positions. destruct Hx as [<- _].
    rewrite map2_repeat_r. apply map_ext. intros xb.
    rewrite map2_map_r. apply map2_ext_in. intros xs p _ _.
    now rewrite table_index_nat. }
  rewrite Hrot. clear Hrot.
  assert (HS : data x = [] \/ shape1 (data x) = s).
  { destruct Hx as [_ Hx]. destruct (data x); [now left | right].
    inversion Hx as [| ? ? [Hl _] _]. exact Hl. }
  destruct HS as [Hnil | HS].
  { rewrite Hnil in Hy |- *. cbn in Hy. injection Hy as <-. reflexivity. }
  rewrite HS, Htab, Hend' in Hy.
  rewrite table_firstn in Hy by exact Hs.
  erewrite (rotate_single_exact _ _ b s h (d / 2)) in Hy.
  - cbn [bind] in Hy.
    apply bind_Ok_inv in Hy as (u' & _ & Hy). injection Hy as <-.
    unfold type_as. cbn [data]. f_equal.
    rewrite Hdim', Hth'. rewrite !map_map.
    apply map_ext. intros xb.
    rewrite map_map2, map2_map_l, map2_map_r.
    apply map2_ext_in. intros xs p _ _.
    rewrite !map_map. reflexivity.
  - eapply shaped4_map; [| exact Hx]. intros v Hv.
    now rewrite view_as_complex_length, Hv.
  - now rewrite length_map, length_seq.
  - apply Forall_map, Forall_forall. intros p _.
    unfold rotation_at. rewrite length_map, length_seq. congruence.
Qed.

(** ** Vectors *)

Lemma view_as_complex_real (c : list complex) :
  view_as_complex (view_as_real c) = c.
Proof. induction c as [| [a b] c IH]; simpl; [reflexivity | now rewrite IH]. Qed.

Lemma rotate_vec_pair (rot : list complex) (v : vec) (j : nat) (a c co si : R) :
  nth_error v (2 * j) = Some a ->
  nth_error v (2 * j + 1) = Some c ->
  nth_error rot j = Some (co, si) ->
  nth_error (rotate_vec rot v) (2 * j) = Some (a * co - c * si)%R
  /\ nth_error (rotate_vec rot v) (2 * j + 1) = Some (a * si + c * co)%R.
Proof.
  unfold rotate_vec. revert v rot.
  induction j as [| j IH]; intros v rot Ha Hc Hr.
  - destruct v as [| a' [| c' v]]; try discriminate.
    destruct rot as [| [co' si'] rot]; try discriminate.
    simpl in *. injection Ha as ->. injection Hc as ->. injection Hr as -> ->.
    auto.
  - replace (2 * S j) with (S (S (2 * j))) in * by lia.
    replace (S (S (2 * j)) + 1) with (S (S (2 * j + 1))) in * by lia.
    destruct v as [| a' [| c' v]]; try discriminate.
    destruct rot as [| [co' si'] rot]; try discriminate.
    cbn [view_as_complex map2 view_as_real nth_error] in *.
    now apply IH.
Qed.

Lemma rotation_at_nth (dim : nat) (theta : R) (p j : nat) :
  j < dim / 2 ->
  nth_error (rotation_at dim theta p) j
  = Some (polar 1 (rotary_angle dim theta p j)).
Proof.
  intros Hj. unfold rotation_at.
  rewrite nth_error_map, nth_error_seq.
  replace (j <? dim / 2) with true by (symmetry; now apply Nat.ltb_lt).
  reflexivity.
Qed.

Lemma rotation_at_length (dim : nat) (theta : R) (p : nat) :
  length (rotation_at dim theta p) = dim / 2.
Proof. unfold rotation_at. now rewrite length_map, length_seq. Qed.

(** The rotations of position 0 change nothing. *)
Lemma rotate_vec_zero (dim : nat) (theta : R) (v : vec) :
  length v mod 2 = 0 ->
  dim / 2 = length v / 2 ->
  rotate_vec (rotation_at dim theta 0) v = v.
Proof.
  intros Hev Hdim. unfold rotate_vec.
  rewrite <- (view_as_real_complex v Hev) at 2. f_equal.
  pose proof (view_as_complex_length v) as Hl. rewrite <- Hdim in Hl.
  unfold rotation_at. rewrite map2_map_r.
  generalize dependent (view_as_complex v). intros cv Hl.
  rewrite <- Hl. clear Hl.
  generalize 0 at 2. induction cv as [| [a b] cv IH]; intros k; simpl;
    [reflexivity |].
  rewrite IH. f_equal. unfold rotary_angle, polar. simpl.
  rewrite Rmult_0_l, cos_0, sin_0. f_equal; ring.
Qed.

Lemma cmul_assoc (x y z : complex) : cmul (cmul x y) z = cmul x (cmul y z).
Proof. destruct x, y, z. unfold cmul. f_equal; ring. Qed.

Lemma map2_assoc {A} (f : A -> A -> A) (xs ys zs : list A) :
  (forall x y z, f (f x y) z = f x (f y z)) ->
  map2 f (map2 f xs ys) zs = map2 f xs (map2 f ys zs).
Proof.
  intros H. revert ys zs.
  induction xs as [| x xs IH]; intros [| y ys] [| z zs]; simpl; try reflexivity.
  now rewrite H, IH.
Qed.

Lemma map2_map_same {A B C D} (f : B -> C -> D) (g : A -> B) (h : A -> C) l :
  map2 f (map g l) (map h l) = map (fun x => f (g x) (h x)) l.
Proof. induction l as [| x l IH]; simpl; [reflexivity | now rewrite IH]. Qed.

(** Turning by the rotations of [p] and then of [q] is turning by those
    of [p + q]. *)
Lemma rotation_at_add (dim : nat) (theta : R) (p q : nat) :
  map2 cmul (rotation_at dim theta p) (rotation_at dim theta q)
  = rotation_at dim theta (p + q).
Proof.
  unfold rotation_at. rewrite map2_map_same. apply map_ext. intros j.
  unfold polar, cmul, rotary_angle. rewrite plus_INR, Rmult_plus_distr_r.
  rewrite cos_plus, sin_plus. f_equal; ring.
Qed.

Lemma rotate_vec_add (dim : nat) (theta : R) (p q : nat) (v : vec) :
  rotate_vec (rotation_at dim theta q) (rotate_vec (rotation_at dim theta p) v)
  = rotate_vec (rotation_at dim theta (p + q)) v.
Proof.
  unfold rotate_vec. rewrite view_as_complex_real.
  rewrite map2_assoc by apply cmul_assoc. now rewrite rotation_at_add.
Qed.

Lemma rotate_vec_length (rot : list complex) (v : vec) (n : nat) :
  length v = 2 * n -> length rot = n -> length (rotate_vec rot v) = 2 * n.
Proof.
  intros Hv Hr. unfold rotate_vec. rewrite view_as_real_length. f_equal.
  pose proof (view_as_complex_length v) as Hl. rewrite Hv in Hl.
  rewrite Nat.mul_comm, Nat.div_mul in Hl by lia.
  rewrite ForwardEval.map2_length; congruence.
Qed.

End RotationFacts.

(* ================================================================== *)
(** * Further properties of the rotary encoder *)

Module RotaryProperties.
Import ResultFacts ShapeFacts RotaryFacts RangeFacts MaskFacts ForwardEval.
Import PadToRightFacts RotationFacts RotaryEmbedding.

(** The vector of the rotated tensor at a slot. *)
Lemma rotated_entry (self : t) (x : tensor4) (pos : list (list Z))
      (ib js ih : nat) (v : vec) (prow : list Z) (p : Z) :
  entry3 x ib js ih = Some v ->
  nth_error pos ib = Some prow ->
  nth_error prow js = Some p ->
  entry3 (rotated self x pos) ib js ih
  = Some (rotate_vec (rotation_at (dim self) (theta self)
                                  (table_index (end_ self) p)) v).
Proof.
  unfold entry3, rotated. intros Hv Hprow Hp.
  destruct (nth_error x ib) as [xb |] eqn:Exb; [| discriminate].
  destruct (nth_error xb js) as [xs |] eqn:Exs; [| discriminate].
  rewrite (map2_nth_error _ x pos ib xb prow Exb Hprow).
  rewrite (map2_nth_error _ xb prow js xs p Exs Hp).
  rewrite nth_error_map, Hv. reflexivity.
Qed.

(** X1. With position ids of the input's shape, the rotary encoder turns
    pair [j] (components [2j] and [2j+1]) of the vector at every slot by
    the angle [p * theta ** (-2j / dim)], where [p] is the slot's position
    id, a negative one counted from the end of the table. *)
Theorem rotary_rotates_pairs
        (self : t) (x : tensor tensor4) (pos : list (list Z)) (b s h d : nat)
        (ib js ih j : nat) (v : vec) (prow : list Z) (p : Z) (a c : R) :
  rotary_wf self ->
  has_shape4 b s h d (data x) = true ->
  d mod 2 = 0 ->
  dim self = d ->
  positions_ok self b s (Some pos) ->
  entry3 (data x) ib js ih = Some v ->
  nth_error pos ib = Some prow ->
  nth_error prow js = Some p ->
  nth_error v (2 * j) = Some a ->
  nth_error v (2 * j + 1) = Some c ->
  let angle := rotary_angle d (theta self) (table_index (end_ self) p) j in
  exists y w,
    snd (forward self x (Some pos)) = Ok y
    /\ entry3 (data y) ib js ih = Some w
    /\ nth_error w (2 * j) = Some (a * cos angle - c * sin angle)%R
    /\ nth_error w (2 * j + 1) = Some (a * sin angle + c * cos angle)%R.
Proof.
  intros Hwf Hx Hd Hdim Hpos Hv Hprow Hp Ha Hc angle.
  apply has_shape4_spec in Hx.
  assert (Hdim2 : dim self / 2 = d / 2) by now rewrite Hdim.
  eexists _, _. split.
  { exact (forward_positions_exact self x pos b s h d Hwf Hx Hd Hdim2 Hpos). }
  cbn [data]. split.
  { exact (rotated_entry self (data x) pos ib js ih v prow p Hv Hprow Hp). }
  assert (Hlen : length v = d).
  { unfold entry3 in Hv. destruct Hx as [_ Hx].
    destruct (nth_error (data x) ib) as [xb |] eqn:Exb; [| discriminate].
    destruct (nth_error xb js) as [xs |] eqn:Exs; [| discriminate].
    apply nth_error_In in Exb, Exs, Hv.
    rewrite Forall_forall in Hx. destruct (Hx _ Exb) as [_ Hxb].
    rewrite Forall_forall in Hxb. destruct (Hxb _ Exs) as [_ Hxs].
    rewrite Forall_forall in Hxs. now apply Hxs. }
  assert (Hj : j < d / 2).
  { assert (Hlt : 2 * j + 1 < length v) by (apply nth_error_Some; congruence).
    rewrite Hlen in Hlt. pose proof (Nat.div_mod_eq d 2). lia. }
  pose proof (rotation_at_nth d (theta self) (table_index (end_ self) p) j Hj) as Hr.
  rewrite Hdim.
  destruct (rotate_vec_pair _ v j a c _ _ Ha Hc Hr) as [H1 H2].
  unfold polar in H1, H2. fold angle in H1, H2.
  rewrite !Rmult_1_l in H1, H2. auto.
Qed.

(** Witness for X1: the vector [1, 2] at position 1. *)
Lemma rotary_rotates_pairs_witness :
  let x := Tensor Float32 [[[[3%R; 4%R]]; [[1%R; 2%R]]]] in
  let pos := [[0%Z; 1%Z]] in
  let angle := rotary_angle 2 (theta Example.rot) 1 0 in
  rotary_wf Example.rot
  /\ has_shape4 1 2 1 2 (data x) = true
  /\ positions_ok Example.rot 1 2 (Some pos)
  /\ entry3 (data x) 0 1 0 = Some [1%R; 2%R]
  /\ exists y w,
       snd (forward Example.rot x (Some pos)) = Ok y
       /\ entry3 (data y) 0 1 0 = Some w
       /\ nth_error w 0 = Some (1 * cos angle - 2 * sin angle)%R
       /\ nth_error w 1 = Some (1 * sin angle + 2 * cos angle)%R.
Proof.
  intros x pos angle.
  assert (Hwf : rotary_wf Example.rot) by (intros H; discriminate H).
  assert (Hpos : positions_ok Example.rot 1 2 (Some pos)).
  { simpl. split; [reflexivity |]. split.
    - repeat constructor; simpl; lia.
    - exists [0%Z; 1%Z], 1%Z. repeat split; simpl; lia. }
  split; [exact Hwf |]. split; [reflexivity |]. split; [exact Hpos |].
  split; [reflexivity |].
  exact (rotary_rotates_pairs Example.rot x pos 1 2 1 2 0 1 0 0
           [1%R; 2%R] [0%Z; 1%Z] 1%Z 1%R 2%R
           Hwf eq_refl eq_refl eq_refl Hpos eq_refl eq_refl eq_refl eq_refl eq_refl).
Defined.

Lemma positions_ok_arange (self : t) (b s : nat) :
  1 <= b -> 1 <= s -> s <= end_ self ->
  positions_ok self b s (Some (arange_positions b s)).
Proof.
  intros Hb Hs Hend. unfold positions_ok, arange_positions.
  split; [apply repeat_length |]. split.
  - apply Forall_forall. intros row Hrow. apply repeat_spec in Hrow. subst row.
    split; [now rewrite length_map, length_seq |].
    apply Forall_map, Forall_forall. intros i Hi. apply in_seq in Hi. lia.
  - exists (map Z.of_nat (seq 0 s)), (Z.of_nat (s - 1)). split; [| split].
    + destruct b as [| b]; [lia |].
      replace (S b) with (b + 1) by lia. rewrite repeat_app. apply last_entry_app.
    + replace s with (s - 1 + 1) at 1 by lia.
      rewrite seq_app, map_app. apply last_entry_app.
    + lia.
Qed.

Lemma positions_ok_zeros (self : t) (b s : nat) :
  1 <= b -> 1 <= s -> 1 <= end_ self ->
  positions_ok self b s (Some (repeat (repeat 0%Z s) b)).
Proof.
  intros Hb Hs Hend. unfold positions_ok.
  split; [apply repeat_length |]. split.
  - apply Forall_forall. intros row Hrow. apply repeat_spec in Hrow. subst row.
    split; [apply repeat_length |].
    apply Forall_forall. intros p Hp. apply repeat_spec in Hp. lia.
  - exists (repeat 0%Z s), 0%Z. split; [| split].
    + destruct b as [| b]; [lia |].
      replace (S b) with (b + 1) by lia. rewrite repeat_app. apply last_entry_app.
    + destruct s as [| s]; [lia |].
      replace (S s) with (s + 1) by lia. rewrite repeat_app. apply last_entry_app.
    + lia.
Qed.

Lemma shaped4_vec {A} (b s h d : nat) (x : list (list (list (list A))))
      (xb : list (list (list A))) (xs : list (list A)) (v : list A) :
  shaped4 b s h d x -> In xb x -> In xs xb -> In v xs -> length v = d.
Proof.
  intros [_ Hx] Hxb Hxs Hv.
  rewrite Forall_forall in Hx. destruct (Hx _ Hxb) as [_ H1].
  rewrite Forall_forall in H1. destruct (H1 _ Hxs) as [_ H2].
  rewrite Forall_forall in H2. now apply H2.
Qed.

(** X2. Position 0 is the identity rotation: with every position id 0
    the encoder returns its input, values and dtype; and without position
    ids the first slot of every row comes back unchanged. *)
Theorem rotary_position_zero_is_identity
        (self : t) (x : tensor tensor4) (b s h d : nat) :
  rotary_wf self ->
  has_shape4 b s h d (data x) = true ->
  d mod 2 = 0 ->
  dim self = d ->
  1 <= b -> 1 <= s -> s <= end_ self ->
  snd (forward self x (Some (repeat (repeat 0%Z s) b))) = Ok x
  /\ exists y,
       snd (forward self x None) = Ok y
       /\ forall ib ih, entry3 (data y) ib 0 ih = entry3 (data x) ib 0 ih.
Proof.
  intros Hwf Hx Hd Hdim Hb Hs Hend.
  apply has_shape4_spec in Hx.
  assert (Hdim2 : dim self / 2 = d / 2) by now rewrite Hdim.
  split.
  - rewrite (forward_positions_exact self x _ b s h d Hwf Hx Hd Hdim2)
      by (apply positions_ok_zeros; lia).
    destruct x as [dt xd]. cbn [data dtype_of] in *. do 2 f_equal.
    unfold rotated. destruct Hx as [Hlen Hrows]. rewrite <- Hlen.
    rewrite map2_repeat_r. rewrite <- (map_id xd) at 2.
    apply map_ext_in. intros xb Hxb.
    rewrite Forall_forall in Hrows. destruct (Hrows _ Hxb) as [Hsl Hxs].
    rewrite <- Hsl. rewrite map2_repeat_r. rewrite <- (map_id xb) at 2.
    apply map_ext_in. intros xs Hxs'.
    rewrite <- (map_id xs) at 2. apply map_ext_in. intros v Hv.
    rewrite Forall_forall in Hxs. destruct (Hxs _ Hxs') as [_ Hvs].
    rewrite Forall_forall in Hvs. specialize (Hvs _ Hv).
    unfold table_index. cbn [Z.ltb Z.compare Z.to_nat].
    apply rotate_vec_zero; rewrite Hvs; [exact Hd | exact Hdim2].
  - eexists. split.
    { exact (forward_training_exact self x b s h d Hwf Hx Hd Hdim2 Hend). }
    cbn [data]. intros ib ih.
    destruct (entry3 (data x) ib 0 ih) as [v |] eqn:Ev.
    + assert (Hrow : nth_error (arange_positions b s) ib
                     = Some (map Z.of_nat (seq 0 s))).
      { unfold arange_positions. apply nth_error_repeat.
        unfold entry3 in Ev.
        destruct (nth_error (data x) ib) eqn:E; [| discriminate].
        destruct Hx as [<- _]. apply nth_error_Some. congruence. }
      assert (Hp : nth_error (map Z.of_nat (seq 0 s)) 0 = Some 0%Z).
      { destruct s; [lia | reflexivity]. }
      rewrite (rotated_entry self (data x) _ ib 0 ih v _ _ Ev Hrow Hp).
      f_equal. unfold table_index. cbn [Z.ltb Z.compare Z.to_nat].
      unfold entry3 in Ev.
      destruct (nth_error (data x) ib) as [xb |] eqn:Exb; [| discriminate].
      destruct (nth_error xb 0) as [xs |] eqn:Exs; [| discriminate].
      apply nth_error_In in Exb, Exs, Ev.
      pose proof (shaped4_vec _ _ _ _ _ _ _ _ Hx Exb Exs Ev) as Hl.
      apply rotate_vec_zero; rewrite Hl; [exact Hd | exact Hdim2].
    + unfold entry3, rotated in *.
      destruct (nth_error (data x) ib) as [xb |] eqn:Exb.
      2:{ destruct (nth_error (map2 _ _ _) ib) eqn:E; [| reflexivity].
          apply map2_nth_error_inv in E as (x0 & ? & E & _). congruence. }
      assert (Hrow : nth_error (arange_positions b s) ib
                     = Some (map Z.of_nat (seq 0 s))).
      { unfold arange_positions. apply nth_error_repeat.
        destruct Hx as [<- _]. apply nth_error_Some. congruence. }
      rewrite (map2_nth_error _ _ _ ib xb _ Exb Hrow).
      destruct (nth_error xb 0) as [xs |] eqn:Exs.
      2:{ destruct (nth_error (map2 _ _ _) 0) eqn:E; [| reflexivity].
          apply map2_nth_error_inv in E as (x0 & ? & E & _). congruence. }
      assert (Hp : nth_error (map Z.of_nat (seq 0 s)) 0 = Some 0%Z).
      { destruct s; [lia | reflexivity]. }
      rewrite (map2_nth_error _ _ _ 0 xs _ Exs Hp).
      rewrite nth_error_map, Ev. reflexivity.
Qed.

(** Witness for X2: one row of two positions. *)
Lemma rotary_position_zero_is_identity_witness :
  let x := Tensor BFloat16 [[[[3%R; 4%R]]; [[1%R; 2%R]]]] in
  rotary_wf Example.rot
  /\ has_shape4 1 2 1 2 (data x) = true
  /\ snd (forward Example.rot x (Some [[0%Z; 0%Z]])) = Ok x
  /\ exists y,
       snd (forward Example.rot x None) = Ok y
       /\ entry3 (data y) 0 0 0 = Some [3%R; 4%R].
Proof.
  intros x.
  assert (Hwf : rotary_wf Example.rot) by (intros H; discriminate H).
  split; [exact Hwf |]. split; [reflexivity |].
  destruct (rotary_position_zero_is_identity Example.rot x 1 2 1 2
              Hwf eq_refl eq_refl eq_refl (le_n 1) (le_S 1 1 (le_n 1))
              (le_S 2 2 (le_n 2)))
    as [Hzero (y & Hy & Hfirst)].
  split; [exact Hzero |].
  exists y. split; [exact Hy |]. rewrite Hfirst. reflexivity.
Defined.

Lemma map2_map2_l {A B C D E F} (f : D -> C -> E) (g : A -> B -> D)
      (h : A -> F -> E) (k : B -> C -> F) xs ys zs :
  (forall x y z, In x xs -> In y ys -> In z zs -> f (g x y) z = h x (k y z)) ->
  map2 f (map2 g xs ys) zs = map2 h xs (map2 k ys zs).
Proof.
  revert ys zs. induction xs as [| x xs IH]; intros [| y ys] [| z zs] H; simpl;
    try reflexivity.
  rewrite H by (now left). rewrite IH; [reflexivity |].
  intros x' y' z' Hx Hy Hz. apply H; now right.
Qed.

Lemma Forall2_Forall_l {A B} (R : A -> B -> Prop) (P : A -> Prop) xs ys :
  (forall x y, R x y -> P x) -> Forall2 R xs ys -> Forall P xs.
Proof. intros H. induction 1; constructor; eauto. Qed.

Lemma Forall2_Forall_r {A B} (R : A -> B -> Prop) (P : B -> Prop) xs ys :
  (forall x y, R x y -> P y) -> Forall2 R xs ys -> Forall P ys.
Proof. intros H. induction 1; constructor; eauto. Qed.

Lemma Forall2_map2 {A B C} (R : A -> B -> Prop) (P : C -> Prop)
      (f : A -> B -> C) xs ys :
  (forall x y, R x y -> P (f x y)) -> Forall2 R xs ys -> Forall P (map2 f xs ys).
Proof. intros H. induction 1; simpl; constructor; eauto. Qed.

(** A matrix of the batch's shape with entries in [0, end) is a valid
    position argument. *)
Lemma positions_ok_intro (self : t) (b s : nat) (pos : list (list Z)) :
  1 <= b -> 1 <= s ->
  length pos = b ->
  Forall (fun row => length row = s
                     /\ Forall (fun p => (0 <= p < Z.of_nat (end_ self))%Z) row) pos ->
  positions_ok self b s (Some pos).
Proof.
  intros Hb Hs Hlen Hrows. unfold positions_ok.
  split; [exact Hlen |]. split.
  - eapply Forall_impl; [| exact Hrows]. intros row [Hl Hr]. split; [exact Hl |].
    eapply Forall_impl; [| exact Hr]. intros p Hp. cbv beta in *. lia.
  - destruct (last_entry_nonempty pos) as [lr Hlr].
    { intros ->. simpl in Hlen. lia. }
    pose proof (last_entry_In _ _ Hlr) as Hin.
    rewrite Forall_forall in Hrows. destruct (Hrows _ Hin) as [Hl Hr].
    destruct (last_entry_nonempty lr) as [l Hl'].
    { intros ->. simpl in Hl. lia. }
    exists lr, l. split; [exact Hlr |]. split; [exact Hl' |].
    rewrite Forall_forall in Hr. apply Hr. eapply last_entry_In; eauto.
Qed.

Lemma table_index_add (end_ : nat) (p q : Z) :
  (0 <= p)%Z -> (0 <= q)%Z ->
  table_index end_ (p + q) = table_index end_ p + table_index end_ q.
Proof.
  intros Hp Hq. unfold table_index.
  replace (p <? 0)%Z with false by (symmetry; apply Z.ltb_ge; lia).
  replace (q <? 0)%Z with false by (symmetry; apply Z.ltb_ge; lia).
  replace (p + q <? 0)%Z with false by (symmetry; apply Z.ltb_ge; lia).
  apply Z2Nat.inj_add; lia.
Qed.

(** X3. Rotations compose by adding positions: encoding with position
    ids [pos1] and encoding the result with [pos2] is encoding once with
    [pos1 + pos2], as long as the sums stay inside the table. *)
Theorem rotary_positions_add
        (self : t) (x : tensor tensor4) (pos1 pos2 : list (list Z))
        (b s h d : nat) :
  rotary_wf self ->
  has_shape4 b s h d (data x) = true ->
  d mod 2 = 0 ->
  dim self = d ->
  1 <= b -> 1 <= s ->
  has_shape2 b s pos1 = true ->
  Forall2 (Forall2 (fun p q => (0 <= p /\ 0 <= q
                                /\ p + q < Z.of_nat (end_ self))%Z)) pos1 pos2 ->
  exists y,
    snd (forward self x (Some pos1)) = Ok y
    /\ snd (forward (fst (forward self x (Some pos1))) y (Some pos2))
       = snd (forward self x (Some (map2 (map2 Z.add) pos1 pos2))).
Proof.
  intros Hwf Hx Hd Hdim Hb Hs Hshape Hrel.
  apply has_shape4_spec in Hx. apply has_shape2_spec in Hshape as [Hlen Hrows].
  assert (Hdim2 : dim self / 2 = d / 2) by now rewrite Hdim.
  set (n := Z.of_nat (end_ self)) in *.
  assert (Hlen2 : length pos2 = b).
  { rewrite <- Hlen. symmetry. eapply Forall2_length; eauto. }
  assert (H1 : Forall (fun row => length row = s
                                  /\ Forall (fun p => (0 <= p < n)%Z) row) pos1).
  { rewrite Forall_forall in Hrows. apply Forall_forall. intros row Hrow.
    split; [now apply Hrows |].
    apply In_nth_error in Hrow as [i Hi].
    destruct (Forall2_nth_error_l _ _ _ _ _ Hrel Hi) as (row2 & _ & Hr).
    eapply Forall2_Forall_l; [| exact Hr]. cbv beta. intros; lia. }
  assert (H2 : Forall (fun row => length row = s
                                  /\ Forall (fun q => (0 <= q < n)%Z) row) pos2).
  { clear H1. revert Hrows. clear -Hrel.
    induction Hrel as [| r1 r2 p1 p2 Hr _ IH]; intros Hrows; constructor.
    - inversion Hrows as [| ? ? Hl _]; subst. split.
      + symmetry. eapply Forall2_length; eauto.
      + eapply Forall2_Forall_r; [| exact Hr]. cbv beta. intros; lia.
    - apply IH. now inversion Hrows. }
  assert (H12 : Forall (fun row => length row = s
                                   /\ Forall (fun r => (0 <= r < n)%Z) row)
                       (map2 (map2 Z.add) pos1 pos2)).
  { clear H1 H2. revert Hrows. clear -Hrel.
    induction Hrel as [| r1 r2 p1 p2 Hr _ IH]; intros Hrows; simpl; constructor.
    - inversion Hrows as [| ? ? Hl _]; subst. split.
      + rewrite map2_length; [reflexivity | eapply Forall2_length; eauto].
      + eapply Forall2_map2; [| exact Hr]. cbv beta. intros; lia.
    - apply IH. now inversion Hrows. }
  pose proof (positions_ok_intro self b s pos1 Hb Hs Hlen H1) as Hok1.
  pose proof (forward_positions_exact self x pos1 b s h d Hwf Hx Hd Hdim2 Hok1) as E1.
  eexists. split; [exact E1 |].
  destruct (forward_inv self x (Some pos1) _ b s h d Hwf Hx E1) as (_ & Hy & _).
  destruct (rotary_forward_wf self x (Some pos1) Hwf) as (Hwf1 & Hdim1 & Hend1).
  set (self1 := fst (forward self x (Some pos1))) in *.
  assert (Hth1 : theta self1 = theta self).
  { unfold self1. rewrite forward_state.
    now destruct (after_init_table self Hwf) as (_ & _ & _ & _ & ->). }
  assert (Hok2 : positions_ok self1 b s (Some pos2)).
  { apply positions_ok_intro; auto. now rewrite Hend1. }
  rewrite (forward_positions_exact self1 _ pos2 b s h d Hwf1 Hy Hd) by
    (auto; now rewrite Hdim1).
  rewrite (forward_positions_exact self x _ b s h d Hwf Hx Hd Hdim2).
  2:{ apply positions_ok_intro; auto.
      rewrite map2_length; congruence. }
  cbn [data dtype_of]. do 2 f_equal.
  unfold rotated. rewrite Hdim1, Hend1, Hth1.
  apply map2_map2_l. intros xb r1 r2 _ Hr1 Hr2.
  apply map2_map2_l. intros xs p q _ Hp Hq.
  rewrite Forall_forall in H1, H2.
  destruct (H1 _ Hr1) as [_ Hp1]. destruct (H2 _ Hr2) as [_ Hq2].
  rewrite Forall_forall in Hp1, Hq2. specialize (Hp1 _ Hp). specialize (Hq2 _ Hq).
  rewrite map_map. apply map_ext. intros v.
  rewrite rotate_vec_add. now rewrite table_index_add by lia.
Qed.

(** Witness for X3: positions [1, 0] and then [1, 1] in a table of three. *)
Lemma rotary_positions_add_witness :
  let x := Tensor Float32 [[[[3%R; 4%R]]; [[1%R; 2%R]]]] in
  let pos1 := [[1%Z; 0%Z]] in
  let pos2 := [[1%Z; 1%Z]] in
  rotary_wf Example.rot
  /\ has_shape4 1 2 1 2 (data x) = true
  /\ has_shape2 1 2 pos1 = true
  /\ exists y,
       snd (forward Example.rot x (Some pos1)) = Ok y
       /\ snd (forward (fst (forward Example.rot x (Some pos1))) y (Some pos2))
          = snd (forward Example.rot x (Some [[2%Z; 1%Z]])).
Proof.
  intros x pos1 pos2.
  assert (Hwf : rotary_wf Example.rot) by (intros H; discriminate H).
  split; [exact Hwf |]. split; [reflexivity |]. split; [reflexivity |].
  apply (rotary_positions_add Example.rot x pos1 pos2 1 2 1 2
           Hwf eq_refl eq_refl eq_refl (le_n 1) (le_S 1 1 (le_n 1)) eq_refl).
  repeat constructor; simpl; lia.
Defined.

(** X4. A negative position id counts from the end of the table: the
    call gives the same result as with [p + max_positions] in place of
    every negative [p]. *)
Theorem rotary_negative_position_wraps
        (self : t) (x : tensor tensor4) (pos : list (list Z)) (b s h d : nat) :
  rotary_wf self ->
  has_shape4 b s h d (data x) = true ->
  d mod 2 = 0 ->
  dim self = d ->
  positions_ok self b s (Some pos) ->
  let n := Z.of_nat (end_ self) in
  snd (forward self x (Some pos))
  = snd (forward self x
           (Some (map (map (fun p => if (p <? 0)%Z then (p + n)%Z else p)) pos))).
Proof.
  intros Hwf Hx Hd Hdim Hpos n.
  apply has_shape4_spec in Hx.
  assert (Hdim2 : dim self / 2 = d / 2) by now rewrite Hdim.
  set (norm := fun p => if (p <? 0)%Z then (p + n)%Z else p).
  assert (Hpos' : positions_ok self b s (Some (map (map norm) pos))).
  { destruct Hpos as (Hb & Hp & lr & l & Hlr & Hl & Hlast).
    split; [now rewrite length_map |]. split.
    - apply Forall_map. eapply Forall_impl; [| exact Hp].
      intros row [Hs Hr]. split; [now rewrite length_map |].
      apply Forall_map. eapply Forall_impl; [| exact Hr].
      intros p Hp'. cbv beta in *. unfold norm. fold n in Hp' |- *.
      destruct (Z.ltb_spec p 0); lia.
    - exists (map norm lr), (norm l). split; [| split].
      + now apply last_entry_map.
      + now apply last_entry_map.
      + unfold norm. replace (l <? 0)%Z with false
          by (symmetry; apply Z.ltb_ge; lia). exact Hlast. }
  rewrite (forward_positions_exact self x pos b s h d Hwf Hx Hd Hdim2 Hpos).
  rewrite (forward_positions_exact self x _ b s h d Hwf Hx Hd Hdim2 Hpos').
  do 2 f_equal. unfold rotated. rewrite map2_map_r.
  destruct Hpos as (_ & Hp & _).
  apply map2_ext_in. intros xb prow _ Hprow.
  rewrite map2_map_r. apply map2_ext_in. intros xs p _ Hin.
  rewrite Forall_forall in Hp. destruct (Hp _ Hprow) as [_ Hr].
  rewrite Forall_forall in Hr. specialize (Hr _ Hin). cbv beta in Hr. fold n in Hr.
  do 2 f_equal. unfold table_index, norm. fold n.
  destruct (p <? 0)%Z eqn:E.
  - apply Z.ltb_lt in E.
    replace (p + n <? 0)%Z with false by (symmetry; apply Z.ltb_ge; lia).
    reflexivity.
  - rewrite E. reflexivity.
Qed.

(** Witness for X4: position -1 in a table of three is position 2. *)
Lemma rotary_negative_position_wraps_witness :
  let x := Tensor Float32 [[[[3%R; 4%R]]; [[1%R; 2%R]]]] in
  rotary_wf Example.rot
  /\ has_shape4 1 2 1 2 (data x) = true
  /\ positions_ok Example.rot 1 2 (Some [[(-1)%Z; 0%Z]])
  /\ snd (forward Example.rot x (Some [[(-1)%Z; 0%Z]]))
     = snd (forward Example.rot x (Some [[2%Z; 0%Z]])).
Proof.
  intros x.
  assert (Hwf : rotary_wf Example.rot) by (intros H; discriminate H).
  assert (Hpos : positions_ok Example.rot 1 2 (Some [[(-1)%Z; 0%Z]])).
  { simpl. split; [reflexivity |]. split.
    - repeat constructor; simpl; lia.
    - exists [(-1)%Z; 0%Z], 0%Z. repeat split; simpl; lia. }
  split; [exact Hwf |]. split; [reflexivity |]. split; [exact Hpos |].
  exact (rotary_negative_position_wraps Example.rot x [[(-1)%Z; 0%Z]] 1 2 1 2
           Hwf eq_refl eq_refl eq_refl Hpos).
Defined.

(** X5. Calling the encoder without position ids is calling it with the
    positions [0, 1, ..., seq_length - 1] in every row. *)
Theorem rotary_default_positions
        (self : t) (x : tensor tensor4) (b s h d : nat) :
  rotary_wf self ->
  has_shape4 b s h d (data x) = true ->
  d mod 2 = 0 ->
  dim self = d ->
  1 <= b -> 1 <= s -> s <= end_ self ->
  snd (forward self x None)
  = snd (forward self x (Some (arange_positions b s))).
Proof.
  intros Hwf Hx Hd Hdim Hb Hs Hend.
  apply has_shape4_spec in Hx.
  assert (Hdim2 : dim self / 2 = d / 2) by now rewrite Hdim.
  rewrite (forward_training_exact self x b s h d Hwf Hx Hd Hdim2 Hend).
  rewrite (forward_positions_exact self x _ b s h d Hwf Hx Hd Hdim2)
    by (apply positions_ok_arange; lia).
  reflexivity.
Qed.

(** Witness for X5: one row of two positions. *)
Lemma rotary_default_positions_witness :
  let x := Tensor Float32 [[[[3%R; 4%R]]; [[1%R; 2%R]]]] in
  rotary_wf Example.rot
  /\ has_shape4 1 2 1 2 (data x) = true
  /\ snd (forward Example.rot x None)
     = snd (forward Example.rot x (Some [[0%Z; 1%Z]])).
Proof.
  intros x.
  assert (Hwf : rotary_wf Example.rot) by (intros H; discriminate H).
  split; [exact Hwf |]. split; [reflexivity |].
  exact (rotary_default_positions Example.rot x 1 2 1 2
           Hwf eq_refl eq_refl eq_refl (le_n 1) (le_S 1 1 (le_n 1))
           (le_S 2 2 (le_n 2))).
Defined.

Lemma sequence_first_Raise {A} (r : result A) (l : list (result A)) (e : error) :
  r = Raise e -> sequence (r :: l) = Raise e.
Proof. intros ->. reflexivity. Qed.

(** X6. Without position ids, a sequence longer than the table does not
    fail with the range error but with a shape error of the product
    (unless the table has exactly one row, which broadcasts). *)
Theorem rotary_sequence_longer_than_table
        (self : t) (x : tensor tensor4) (b s h d : nat) :
  rotary_wf self ->
  has_shape4 b s h d (data x) = true ->
  d mod 2 = 0 ->
  1 <= b ->
  end_ self < s ->
  end_ self <> 1 ->
  snd (forward self x None) = Raise RuntimeError.
Proof.
  intros Hwf Hx Hd Hb Hlong Hone.
  apply has_shape4_spec in Hx.
  pose proof (after_init_table self Hwf) as (Htab & _ & _ & Hend' & _).
  unfold forward. cbn [snd].
  set (self' := if _initialized_buffer self then self
                else init_rotary_embeddings self) in *.
  unfold shape4.
  replace (shape1 (hd [] (hd [] (data x))) mod 2 =? 0) with true.
  2:{ symmetry. apply Nat.eqb_eq.
      destruct (shape4_inner_dim _ _ _ _ _ Hx) as [E | E];
        (etransitivity; [apply (f_equal (fun n => n mod 2)); exact E | auto]). }
  cbn [assert_ bind].
  set (x1 := match dtype_of x with BFloat16 => to_float x | _ => x end).
  assert (Hdata : data x1 = data x) by (unfold x1; destruct (dtype_of x); reflexivity).
  rewrite Hdata.
  destruct Hx as [Hlen Hrows].
  destruct (data x) as [| xb rest] eqn:Ex; [simpl in Hlen; lia |].
  inversion Hrows as [| ? ? [Hs Hxb] Hrest]; subst.
  cbn [shape1].
  unfold select_freqs. cbn [bind].
  set (fb := firstn (length xb) (freqs_cis self')).
  assert (Hfb : length fb = end_ self).
  { unfold fb. rewrite length_firstn, Htab.
    destruct (rotary_table_shape (dim self') (end_ self') (theta self')) as [-> _].
    rewrite Hend'. lia. }
  unfold rotate. rewrite broadcast2_singleton_r.
  destruct xb as [| xs0 [| xs1 xb]].
  - simpl in Hlong. lia.
  - (* one position against an empty table: the product is empty *)
    assert (Hend0 : end_ self = 0) by (simpl in Hlong; lia).
    assert (Hnil : fb = []) by (destruct fb; [reflexivity | simpl in Hfb; lia]).
    rewrite (sequence_map_Ok_in _ (fun _ => [])).
    2:{ intros z Hz. apply in_map_iff in Hz as (z0 & <- & Hz0).
        assert (Hl : length z0 = 1).
        { destruct Hz0 as [<- | Hz0]; [reflexivity |].
          rewrite Forall_forall in Hrest. now destruct (Hrest _ Hz0). }
        destruct z0 as [| w [| ? ?]]; try discriminate.
        rewrite Hnil. reflexivity. }
    cbn [bind map data].
    replace (has_shape4 _ _ _ _ _) with false; [reflexivity |].
    symmetry. unfold has_shape4. cbn [forallb length Nat.eqb andb].
    apply andb_false_r.
  - cbn [map]. erewrite sequence_first_Raise; [reflexivity |].
    unfold broadcast2. cbn [length]. rewrite length_map, Hfb.
    replace (S (S (length xb)) =? end_ self) with false
      by (symmetry; apply Nat.eqb_neq; simpl in Hlong; lia).
    destruct fb as [| f0 [| f1 fb']]; try reflexivity.
    simpl in Hfb. congruence.
Qed.

(** Witness for X6: two positions against a table of none. *)
Lemma rotary_sequence_longer_than_table_witness :
  let rot := {| dim := 2; end_ := 0; theta := 10000; freqs_cis := [];
                _initialized_buffer := false |} in
  let x := Tensor Float32 [[[[3%R; 4%R]]; [[1%R; 2%R]]]] in
  rotary_wf rot
  /\ has_shape4 1 2 1 2 (data x) = true
  /\ snd (forward rot x None) = Raise RuntimeError.
Proof.
  intros rot x.
  assert (Hwf : rotary_wf rot) by (intros H; discriminate H).
  split; [exact Hwf |]. split; [reflexivity |].
  apply (rotary_sequence_longer_than_table rot x 1 2 1 2 Hwf eq_refl eq_refl);
    simpl; lia.
Defined.

End RotaryProperties.

Module LayoutFacts.
Import ResultFacts ShapeFacts PadToRightFacts MaskFacts SplitFacts ForwardEval.

Lemma firstn_add_skipn {A} (a b : nat) (l : list A) :
  firstn (a + b) l = firstn a l ++ firstn b (skipn a l).
Proof.
  revert l. induction a as [| a IH]; intros [| x l]; simpl; try reflexivity.
  - now rewrite firstn_nil.
  - now rewrite IH.
Qed.

Lemma concat_chunks {A} (n size : nat) (l : list A) :
  concat (chunks n size l) = firstn (n * size) l.
Proof.
  revert l. induction n as [| n IH]; intros l; simpl; [reflexivity |].
  now rewrite IH, firstn_add_skipn.
Qed.

Lemma column_nth_error {A} (j b : nat) (t : list (list A)) (i : nat)
      (row : list A) (x : A) :
  Forall (fun r => length r = b) t -> j < b ->
  nth_error t i = Some row -> nth_error row j = Some x ->
  nth_error (column j t) i = Some x.
Proof.
  intros Ht Hj. unfold column. revert i.
  induction Ht as [| r t Hr _ IH]; intros [| i]; simpl; try discriminate.
  - intros [= ->] ->. reflexivity.
  - intros Hi Hx.
    destruct (nth_error r j) eqn:E.
    + simpl. now apply IH.
    + apply nth_error_None in E. lia.
Qed.

Lemma transpose01_entry {A} (b : nat) (t : list (list A)) (i j : nat)
      (row : list A) (x : A) :
  Forall (fun r => length r = b) t ->
  nth_error t i = Some row -> nth_error row j = Some x ->
  entry2 (transpose01 b t) j i = Some x.
Proof.
  intros Ht Hi Hx.
  assert (Hj : j < b).
  { apply nth_error_In in Hi. rewrite Forall_forall in Ht.
    rewrite <- (Ht _ Hi). apply nth_error_Some. congruence. }
  unfold entry2, transpose01.
  rewrite nth_error_map, nth_error_seq.
  replace (j <? b) with true by (symmetry; now apply Nat.ltb_lt).
  cbn [option_map Nat.add]. eapply column_nth_error; eauto.
Qed.

Lemma entry2_map {A B} (f : A -> B) (x : list (list A)) (i j : nat) (a : A) :
  entry2 x i j = Some a -> entry2 (map (map f) x) i j = Some (f a).
Proof.
  unfold entry2. rewrite nth_error_map.
  destruct (nth_error x i); [| discriminate]. cbn [option_map].
  rewrite nth_error_map. now intros ->.
Qed.

End LayoutFacts.

Module LayoutProperties.
Import ResultFacts ShapeFacts PadToRightFacts MaskFacts SplitFacts ForwardEval.
Import LayoutFacts.

(** X7. Splitting the fused projection loses nothing and keeps the
    order: for every token [(js, ib)], the heads of its query, key and
    value vectors, laid end to end, are the token's feature row of the
    projection; this holds with and without grouped-query attention. *)
Theorem split_qkv_lossless
        (self : CausalSelfAttention) (qkv_states : tensor3) (s b : nat)
        (js ib : nat) (srow : tensor2) (row : vec) :
  1 <= s ->
  shaped3 s b (qkv_features self) qkv_states ->
  nth_error qkv_states js = Some srow ->
  nth_error srow ib = Some row ->
  exists q k v qh kh vh,
    split_qkv self qkv_states (shape1 qkv_states) (length qkv_states) = Ok (q, k, v)
    /\ entry2 q ib js = Some qh
    /\ entry2 k ib js = Some kh
    /\ entry2 v ib js = Some vh
    /\ length qh = n_local_q_heads self
    /\ length kh = kv_heads self
    /\ length vh = kv_heads self
    /\ concat qh ++ concat kh ++ concat vh = row.
Proof.
  intros Hs Hqkv Hsrow Hrow.
  pose proof (shaped3_shape1 _ _ _ _ Hqkv Hs) as Hb.
  destruct Hqkv as [Hlen Hrows].
  assert (Hcols : Forall (fun r : tensor2 => length r = b) qkv_states).
  { eapply Forall_impl; [| exact Hrows]. now intros r [Hr _]. }
  assert (Hwidth : length row = qkv_features self).
  { apply nth_error_In in Hsrow, Hrow.
    rewrite Forall_forall in Hrows. destruct (Hrows _ Hsrow) as [_ Hf].
    rewrite Forall_forall in Hf. now apply Hf. }
  pose proof (transpose01_entry b qkv_states js ib srow row Hcols Hsrow Hrow) as He.
  unfold split_qkv, qkv_features, kv_heads in *. rewrite Hb.
  destruct (is_gqa self).
  - set (nq := n_local_q_heads self * d_qk self) in *.
    set (nk := n_local_kv_heads self * d_qk self) in *.
    replace (forallb (rows_have (nq + nk + nk)) qkv_states) with true.
    2:{ symmetry. apply forallb_forall. intros r Hr.
        apply rows_have_Forall. rewrite Forall_forall in Hrows.
        now destruct (Hrows _ Hr). }
    cbn [guard bind].
    eexists _, _, _, _, _, _. split; [reflexivity |].
    split; [exact (entry2_map _ _ _ _ _ He) |].
    split; [exact (entry2_map _ _ _ _ _ He) |].
    split; [exact (entry2_map _ _ _ _ _ He) |].
    split; [| split; [| split]].
    + apply chunks_shape. rewrite length_firstn, length_skipn. fold nq. simpl. lia.
    + apply chunks_shape. rewrite length_firstn, length_skipn. fold nk. lia.
    + apply chunks_shape. rewrite length_firstn, length_skipn. fold nk. lia.
    + rewrite !concat_chunks. fold nq nk.
      rewrite !firstn_firstn, !Nat.min_id. cbn [skipn].
      transitivity (firstn nq row ++ skipn nq row); [| apply firstn_skipn].
      f_equal.
      transitivity (firstn nk (skipn nq row) ++ skipn nk (skipn nq row));
        [| apply firstn_skipn].
      f_equal. rewrite skipn_skipn, (Nat.add_comm nk nq).
      apply firstn_all2. rewrite length_skipn. lia.
  - set (n := n_local_q_heads self * d_qk self) in *.
    replace (forallb (rows_have (3 * n)) qkv_states) with true.
    2:{ symmetry. apply forallb_forall. intros r Hr.
        apply rows_have_Forall. rewrite Forall_forall in Hrows.
        now destruct (Hrows _ Hr). }
    cbn [guard bind].
    eexists _, _, _, _, _, _. split; [reflexivity |].
    split; [exact (entry2_map _ _ _ _ _ He) |].
    split; [exact (entry2_map _ _ _ _ _ He) |].
    split; [exact (entry2_map _ _ _ _ _ He) |].
    split; [| split; [| split]].
    + apply chunks_shape. rewrite length_firstn, length_skipn. fold n. lia.
    + apply chunks_shape. rewrite length_firstn, length_skipn. fold n. lia.
    + apply chunks_shape. rewrite length_firstn, length_skipn. fold n. lia.
    + rewrite !concat_chunks. fold n.
      rewrite !firstn_firstn, !Nat.min_id.
      replace (0 * n) with 0 by lia. replace (1 * n) with n by lia.
      cbn [skipn].
      transitivity (firstn n row ++ skipn n row); [| apply firstn_skipn].
      f_equal.
      transitivity (firstn n (skipn n row) ++ skipn n (skipn n row));
        [| apply firstn_skipn].
      f_equal. rewrite skipn_skipn. replace (n + n) with (2 * n) by lia.
      apply firstn_all2. rewrite length_skipn. lia.
Qed.

(** Witness for X7: grouped-query attention with two query heads and one
    key/value head of dimension two. *)
Lemma split_qkv_lossless_witness :
  let self := {| n_local_q_heads := 2; n_local_kv_heads := 1; n_repeats := 2;
                 is_gqa := true; d_qk := 2; d_v := 2; d_model := 4;
                 prefill_kv_len := 3 |} in
  let row := [1; 2; 3; 4; 5; 6; 7; 8]%R in
  let qkv_states : tensor3 := [[row]] in
  shaped3 1 1 (qkv_features self) qkv_states
  /\ exists q k v,
       split_qkv self qkv_states (shape1 qkv_states) (length qkv_states)
       = Ok (q, k, v)
       /\ entry2 q 0 0 = Some [[1; 2]; [3; 4]]%R
       /\ entry2 k 0 0 = Some [[5; 6]]%R
       /\ entry2 v 0 0 = Some [[7; 8]]%R.
Proof.
  intros self row qkv_states.
  assert (Hs : shaped3 1 1 (qkv_features self) qkv_states) by (repeat constructor).
  split; [exact Hs |].
  destruct (split_qkv_lossless self qkv_states 1 1 0 0 [row] row
              (le_n 1) Hs eq_refl eq_refl)
    as (q & k & v & qh & kh & vh & Hsplit & Hq & Hk & Hv & _).
  exists q, k, v. split; [exact Hsplit |].
  injection Hsplit as <- <- <-. repeat split; reflexivity.
Defined.

(** ** The cumulative sequence lengths *)

Lemma valid_before_S (m : bool_mask) (i : nat) (row : list bool) :
  nth_error m i = Some row ->
  valid_before m (S i) = valid_before m i + count_true row.
Proof.
  unfold valid_before. revert i.
  induction m as [| r m IH]; intros [| i] H; try discriminate.
  - injection H as ->. simpl. lia.
  - cbn [nth_error] in H. specialize (IH _ H).
    change (firstn (S (S i)) (r :: m)) with (r :: firstn (S i) m).
    change (firstn (S i) (r :: m)) with (r :: firstn i m).
    cbn [map]. unfold list_sum in *. cbn [fold_right]. lia.
Qed.

Lemma valid_before_le (m : bool_mask) (i : nat) :
  valid_before m i <= count_all m.
Proof.
  unfold valid_before, count_all. revert i.
  induction m as [| r m IH]; intros [| i]; simpl; try lia.
  specialize (IH i). lia.
Qed.

Lemma valid_before_all (m : bool_mask) :
  valid_before m (length m) = count_all m.
Proof. unfold valid_before, count_all. now rewrite firstn_all. Qed.

(** X8. The cumulative sequence lengths handed to the varlen kernel: one
    more entry than the batch has rows, entry [i] being the number of valid
    positions in the first [i] rows; so they start at 0, end at the total
    number of valid positions, and consecutive entries differ by a row's
    valid count.  (As long as the total fits int32.) *)
Theorem cu_seqlens_counts_valid_tokens (m : bool_mask) :
  (Z.of_nat (count_all m) < 2 ^ 31)%Z ->
  cu_seqlens m = map (fun i => Z.of_nat (valid_before m i)) (seq 0 (S (length m)))
  /\ length (cu_seqlens m) = S (length m)
  /\ nth_error (cu_seqlens m) 0 = Some 0%Z
  /\ nth_error (cu_seqlens m) (length m) = Some (Z.of_nat (count_all m))
  /\ forall i row,
       nth_error m i = Some row ->
       exists lo hi,
         nth_error (cu_seqlens m) i = Some lo
         /\ nth_error (cu_seqlens m) (S i) = Some hi
         /\ (hi - lo)%Z = Z.of_nat (count_true row).
Proof.
  intros Hfit.
  assert (Heq : cu_seqlens m
                = map (fun i => Z.of_nat (valid_before m i)) (seq 0 (S (length m)))).
  { unfold cu_seqlens. cbn [seq map]. f_equal.
    match goal with
    | |- ?f 0%Z _ = _ => set (cumsum := f)
    end.
    assert (Hgen : forall (l : bool_mask) (acc : nat),
               (Z.of_nat (acc + count_all l) < 2 ^ 31)%Z ->
               cumsum (Z.of_nat acc)
                      (map (fun row => wrap32 (Z.of_nat (count_true row))) l)
               = map (fun i => Z.of_nat (acc + valid_before l i))
                     (seq 1 (length l))).
    { induction l as [| r l IH]; intros acc Hacc; [reflexivity |].
      change (count_all (r :: l)) with (count_true r + count_all l) in Hacc.
      cbn [map length seq]. unfold cumsum at 1. fold cumsum.
      rewrite (wrap32_small (Z.of_nat (count_true r))) by lia.
      rewrite wrap32_small by lia.
      rewrite <- Nat2Z.inj_add. f_equal.
      - unfold valid_before. simpl. f_equal. lia.
      - rewrite IH by (rewrite <- Nat.add_assoc; exact Hacc).
        rewrite <- (seq_shift (length l) 1), map_map. apply map_ext. intros i.
        change (valid_before (r :: l) (S i))
          with (count_true r + valid_before l i).
        f_equal. lia. }
    etransitivity; [exact (Hgen m 0 Hfit) |].
    apply map_ext. reflexivity. }
  split; [exact Heq |]. rewrite Heq.
  split; [now rewrite length_map, length_seq |].
  split; [reflexivity |]. split.
  - rewrite nth_error_map, nth_error_seq.
    replace (length m <? S (length m)) with true
      by (symmetry; apply Nat.ltb_lt; lia).
    cbn [option_map Nat.add]. now rewrite valid_before_all.
  - intros i row Hrow.
    assert (Hi : i < length m) by (apply nth_error_Some; congruence).
    exists (Z.of_nat (valid_before m i)), (Z.of_nat (valid_before m (S i))).
    split; [| split].
    + rewrite nth_error_map, nth_error_seq.
      replace (i <? S (length m)) with true by (symmetry; apply Nat.ltb_lt; lia).
      reflexivity.
    + rewrite nth_error_map, nth_error_seq.
      replace (S i <? S (length m)) with true
        by (symmetry; apply Nat.ltb_lt; lia).
      reflexivity.
    + rewrite (valid_before_S m i row Hrow). lia.
Qed.

(** Witness for X8: rows with two, none and one valid position. *)
Lemma cu_seqlens_counts_valid_tokens_witness :
  let m := [[false; true; true]; [false; false; false]; [false; false; true]] in
  (Z.of_nat (count_all m) < 2 ^ 31)%Z
  /\ cu_seqlens m = [0; 2; 2; 3]%Z.
Proof.
  intros m.
  assert (Hfit : (Z.of_nat (count_all m) < 2 ^ 31)%Z) by (simpl; lia).
  split; [exact Hfit |].
  destruct (cu_seqlens_counts_valid_tokens m Hfit) as [Heq _].
  rewrite Heq. reflexivity.
Defined.

End LayoutProperties.

(* ================================================================== *)
(** * Further properties of the attention module *)

Module AttentionProperties.
Import ResultFacts ShapeFacts PadToRightFacts MaskFacts SplitFacts ForwardEval.
Import MonadFacts ErrorOrigins.

Lemma py_mod_Ok (a b r : nat) : py_mod a b = Ok r -> b <> 0 /\ r = a mod b.
Proof.
  unfold py_mod. destruct (Nat.eqb_spec b 0); [discriminate |].
  now intros [= <-].
Qed.

Lemma py_div_Ok (a b r : nat) : py_div a b = Ok r -> b <> 0 /\ r = a / b.
Proof.
  unfold py_div. destruct (Nat.eqb_spec b 0); [discriminate |].
  now intros [= <-].
Qed.

Lemma py_mod_nonzero (a b : nat) : b <> 0 -> py_mod a b = Ok (a mod b).
Proof. intros H. unfold py_mod. now destruct (Nat.eqb_spec b 0). Qed.

Lemma py_div_nonzero (a b : nat) : b <> 0 -> py_div a b = Ok (a / b).
Proof. intros H. unfold py_div. now destruct (Nat.eqb_spec b 0). Qed.

(** X9. [CausalSelfAttention.__init__] returns exactly for the
    configurations in which the tensor-parallel size divides the head
    counts, the key/value heads divide the attention heads, the attention
    heads divide the hidden size and the head dimension is even; a missing
    [num_key_value_heads] stands for [num_attention_heads]. *)
Theorem init_succeeds_iff (config : LlamaConfig) (tp_size : nat)
        (uninit : list (list RotaryEmbedding.complex)) :
  (exists r, CausalSelfAttention_init config tp_size uninit = Ok r)
  <-> (tp_size <> 0
       /\ num_attention_heads config <> 0
       /\ num_attention_heads config mod tp_size = 0
       /\ match num_key_value_heads config with
          | Some kv => kv <> 0 /\ kv mod tp_size = 0
                       /\ num_attention_heads config mod kv = 0
          | None => True
          end
       /\ hidden_size config mod num_attention_heads config = 0
       /\ (hidden_size config / num_attention_heads config) mod 2 = 0).
Proof.
  unfold CausalSelfAttention_init. split.
  - intros [r H].
    apply bind_Ok_inv in H as (r1 & H1 & H). apply py_mod_Ok in H1 as [Htp ->].
    apply bind_Ok_inv in H as (u1 & A1 & H). apply assert_Ok_inv, Nat.eqb_eq in A1.
    apply bind_Ok_inv in H as (kv & Hkv & H).
    apply bind_Ok_inv in H as (r2 & H2 & H). apply py_mod_Ok in H2 as [Hkv0 ->].
    apply bind_Ok_inv in H as (u2 & A2 & H). apply assert_Ok_inv, Nat.eqb_eq in A2.
    apply bind_Ok_inv in H as (nq & _ & H).
    apply bind_Ok_inv in H as (nkv & _ & H).
    apply bind_Ok_inv in H as (nrep & _ & H).
    apply bind_Ok_inv in H as (dqk & Hdqk & H). apply py_div_Ok in Hdqk as [Hh ->].
    apply bind_Ok_inv in H as (dv & _ & H).
    apply bind_Ok_inv in H as (rotary & Hrot & H).
    apply bind_Ok_inv in H as (r3 & H3 & H). apply py_mod_Ok in H3 as [_ ->].
    apply bind_Ok_inv in H as (u3 & A3 & H). apply assert_Ok_inv, Nat.eqb_eq in A3.
    unfold RotaryEmbedding.init_ in Hrot.
    apply bind_Ok_inv in Hrot as (u4 & A4 & _).
    apply assert_Ok_inv, Nat.eqb_eq in A4.
    repeat split; auto.
    destruct (num_key_value_heads config) as [kv' |]; [| exact I].
    apply bind_Ok_inv in Hkv as (r4 & H4 & Hkv). apply py_mod_Ok in H4 as [_ ->].
    apply bind_Ok_inv in Hkv as (u5 & A5 & Hkv).
    apply assert_Ok_inv, Nat.eqb_eq in A5. injection Hkv as <-. auto.
  - intros (Htp & Hh & A1 & Hkv & A3 & A4).
    rewrite (py_mod_nonzero _ _ Htp). cbn [bind]. rewrite A1. cbn [Nat.eqb assert_ bind].
    destruct (num_key_value_heads config) as [kv |].
    + destruct Hkv as (Hkv0 & A5 & A2).
      rewrite (py_mod_nonzero _ _ Htp). cbn [bind]. rewrite A5.
      cbn [Nat.eqb assert_ bind].
      rewrite (py_mod_nonzero _ _ Hkv0). cbn [bind]. rewrite A2.
      cbn [Nat.eqb assert_ bind].
      rewrite !(py_div_nonzero _ _ Htp), (py_div_nonzero _ _ Hkv0). cbn [bind].
      rewrite !(py_div_nonzero _ _ Hh). cbn [bind].
      unfold RotaryEmbedding.init_. rewrite A4. cbn [Nat.eqb assert_ bind].
      rewrite (py_mod_nonzero _ _ Hh). cbn [bind]. rewrite A3.
      cbn [Nat.eqb assert_ bind]. eauto.
    + cbn [bind].
      rewrite (py_mod_nonzero _ _ Hh). cbn [bind].
      rewrite Nat.Div0.mod_same. cbn [Nat.eqb assert_ bind].
      rewrite !(py_div_nonzero _ _ Htp), !(py_div_nonzero _ _ Hh). cbn [bind].
      unfold RotaryEmbedding.init_. rewrite A4. cbn [Nat.eqb assert_ bind].
      rewrite (py_mod_nonzero _ _ Hh). cbn [bind]. rewrite A3.
      cbn [Nat.eqb assert_ bind]. eauto.
Qed.

(** X10. What [__init__] builds is consistent with what [forward]
    expects: every local key/value head serves [n_repeats] local query
    heads, and the projection width [forward] splits is the configured
    [out_features] of [qkv_proj] divided by the tensor-parallel size;
    grouped-query attention is on exactly when the two head counts
    differ. *)
Theorem init_head_grouping (config : LlamaConfig) (tp_size : nat)
        (uninit : list (list RotaryEmbedding.complex))
        (self : CausalSelfAttention) (rot : RotaryEmbedding.t) :
  CausalSelfAttention_init config tp_size uninit = Ok (self, rot) ->
  let heads := num_attention_heads config in
  let kv := match num_key_value_heads config with
            | Some kv => kv
            | None => heads
            end in
  n_local_q_heads self * tp_size = heads
  /\ n_local_kv_heads self * tp_size = kv
  /\ n_local_q_heads self = n_repeats self * n_local_kv_heads self
  /\ (is_gqa self = false <-> heads = kv)
  /\ tp_size * qkv_features self = (heads + 2 * kv) * d_qk self.
Proof.
  intros H heads kv. unfold CausalSelfAttention_init in H.
  apply bind_Ok_inv in H as (r1 & H1 & H). apply py_mod_Ok in H1 as [Htp ->].
  apply bind_Ok_inv in H as (u1 & A1 & H). apply assert_Ok_inv, Nat.eqb_eq in A1.
  apply bind_Ok_inv in H as (kv' & Hkv & H).
  assert (Hkv' : kv' = kv /\ kv mod tp_size = 0).
  { unfold kv. destruct (num_key_value_heads config) as [k |].
    - apply bind_Ok_inv in Hkv as (r4 & H4 & Hkv). apply py_mod_Ok in H4 as [_ ->].
      apply bind_Ok_inv in Hkv as (u5 & A5 & Hkv).
      apply assert_Ok_inv, Nat.eqb_eq in A5. injection Hkv as <-. auto.
    - injection Hkv as <-. auto. }
  destruct Hkv' as [-> A5]. clear Hkv.
  apply bind_Ok_inv in H as (r2 & H2 & H). apply py_mod_Ok in H2 as [Hkv0 ->].
  apply bind_Ok_inv in H as (u2 & A2 & H). apply assert_Ok_inv, Nat.eqb_eq in A2.
  apply bind_Ok_inv in H as (nq & Hnq & H). apply py_div_Ok in Hnq as [_ ->].
  apply bind_Ok_inv in H as (nkv & Hnkv & H). apply py_div_Ok in Hnkv as [_ ->].
  apply bind_Ok_inv in H as (nrep & Hrep & H). apply py_div_Ok in Hrep as [_ ->].
  apply bind_Ok_inv in H as (dqk & Hdqk & H). apply py_div_Ok in Hdqk as [Hh ->].
  apply bind_Ok_inv in H as (dv & _ & H).
  apply bind_Ok_inv in H as (rotary & _ & H).
  apply bind_Ok_inv in H as (r3 & _ & H).
  apply bind_Ok_inv in H as (u3 & _ & H).
  injection H as <- _. unfold qkv_features. cbn.
  fold heads in A1, A2, Hh |- *.
  set (d := hidden_size config / heads).
  pose proof (Nat.div_mod_eq heads tp_size) as E1. rewrite A1 in E1.
  pose proof (Nat.div_mod_eq kv tp_size) as E2. rewrite A5 in E2.
  pose proof (Nat.div_mod_eq heads kv) as E3. rewrite A2 in E3.
  set (a := heads / tp_size) in *. set (c := kv / tp_size) in *.
  set (r := heads / kv) in *.
  assert (Ha : a * tp_size = heads) by lia.
  assert (Hc : c * tp_size = kv) by lia.
  split; [exact Ha |]. split; [exact Hc |]. split; [| split].
  - apply (Nat.mul_cancel_l _ _ tp_size Htp). nia.
  - destruct (Nat.eqb_spec heads kv) as [E | NE]; cbn; split; congruence.
  - destruct (Nat.eqb_spec heads kv) as [E | NE]; cbn; nia.
Qed.

(** Witness for X10: eight attention heads, two key/value heads, hidden
    size 32, tensor-parallel size 2. *)
Lemma init_head_grouping_witness :
  let config := {| hidden_size := 32; num_attention_heads := 8;
                   num_key_value_heads := Some 2;
                   max_position_embeddings := 16 |} in
  exists self rot,
    CausalSelfAttention_init config 2 [] = Ok (self, rot)
    /\ n_local_q_heads self = 4
    /\ n_local_kv_heads self = 1
    /\ n_repeats self = 4
    /\ is_gqa self = true
    /\ 2 * qkv_features self = (8 + 2 * 2) * d_qk self.
Proof.
  intros config.
  eexists _, _.
  match goal with
  | |- ?A /\ _ => assert (H : A) by reflexivity
  end.
  split; [exact H |].
  destruct (init_head_grouping config 2 [] _ _ H) as (_ & _ & _ & _ & Hw).
  split; [reflexivity |]. split; [reflexivity |]. split; [reflexivity |].
  split; [reflexivity |]. exact Hw.
Defined.

Section Effects.

Variable qkv_proj : tensor tensor3 -> tensor tensor3.
Variable o_proj : tensor tensor3 -> tensor tensor3.
Variable flash_attn_varlen_func : varlen_args -> tensor3.
Variable flash_attn_with_kvcache : kvcache_args -> tensor4 * tensor4 * tensor4.
Variable unpad_input : tensor4 -> bool_mask -> tensor3 * list nat * list Z * nat.
Variable pad_input : tensor3 -> list nat -> nat -> nat -> tensor4.

Let forward := CausalSelfAttention_forward qkv_proj o_proj flash_attn_varlen_func
                 flash_attn_with_kvcache unpad_input pad_input.

Ltac stop H := destruct H as [-> ->].

(** What one call does to the kernel log and to the store. *)
Lemma forward_trace
      (self : CausalSelfAttention) (hidden_states : tensor tensor3)
      (sequence_mask : bool_mask) (st st' : state)
      (r : result (tensor tensor3 * bool_mask)) :
  forward self hidden_states sequence_mask st = (st', r) ->
  (kernel_log st' = kernel_log st
   \/ exists c, kernel_log st' = kernel_log st ++ [c])
  /\ (local_store st' = local_store st
      \/ (local_store st <> None
          /\ (r = Raise RuntimeError \/ exists out, r = Ok out))).
Proof.
  unfold forward, CausalSelfAttention_forward. intros H.
  apply bindM_inv in H as (s1 & r1 & H1 & H). apply lift_inv in H1 as [-> ->].
  destruct (split_qkv _ _ _ _) as [[[q k] v] | e1]; [| stop H; auto].
  apply bindM_inv in H as (s2 & r2 & H2 & H).
  unfold get_local_store in H2. injection H2 as <- <-.
  apply bindM_inv in H as (s3 & r3 & H3 & H).
  assert (Hbranch :
            (kernel_log s3 = kernel_log st
             \/ exists c, kernel_log s3 = kernel_log st ++ [c])
            /\ (local_store s3 = local_store st
                \/ (local_store st <> None /\ exists a, r3 = Ok a))).
  { clear H. destruct (local_store st) as [cache |] eqn:Est.
    - (* inference *)
      apply bindM_inv in H3 as (s4 & r4 & H4 & H3). apply lift_inv in H4 as [-> ->].
      match type of H3 with
      | match ?c with _ => _ end => destruct c as [pos | e4]
      end; [| stop H3; rewrite Est; auto].
      apply bindM_inv in H3 as (s5 & r5 & H5 & H3). apply lift_inv in H5 as [-> ->].
      destruct (sequence _) as [offs | e5]; [| stop H3; rewrite Est; auto].
      apply bindM_inv in H3 as (s6 & r6 & H6 & H3).
      apply call_rotary_inv in H6 as (Hs6 & Hl6 & _ & _).
      destruct r6 as [q' | e6]; [| stop H3; rewrite Hs6, Hl6, Est; auto].
      apply bindM_inv in H3 as (s7 & r7 & H7 & H3).
      apply call_rotary_inv in H7 as (Hs7 & Hl7 & _ & _).
      destruct r7 as [k' | e7]; [| stop H3; rewrite Hs7, Hl7, Hs6, Hl6, Est; auto].
      apply bindM_inv in H3 as (s8 & r8 & H8 & H3).
      assert (H8' : (kernel_log s8 = kernel_log s7
                     \/ exists c, kernel_log s8 = kernel_log s7 ++ [c])
                    /\ local_store s8 = local_store s7).
      { clear H3. destruct (key cache) as [k_cache |].
        - apply bindM_inv in H8 as (s9 & r9 & H9 & H8).
          apply lift_inv in H9 as [-> ->].
          destruct (value cache) as [v_cache |]; [| stop H8; auto].
          apply bindM_inv in H8 as (s10 & r10 & H10 & H8).
          apply log_call_inv in H10 as (Hs10 & Hl10 & _ & ->).
          destruct (flash_attn_with_kvcache _) as [[out kc] vc].
          apply retM_inv in H8 as [-> _]. eauto.
        - apply bindM_inv in H8 as (s9 & r9 & H9 & H8).
          apply lift_inv in H9 as [-> ->].
          destruct (assert_ _ _) as [u |]; [| stop H8; auto].
          destruct (unpad_input (data q') sequence_mask) as [[[? ?] ?] ?].
          destruct (unpad_input (data k') sequence_mask) as [[[? ?] ?] ?].
          destruct (unpad_input v sequence_mask) as [[[? ?] ?] ?].
          apply bindM_inv in H8 as (s10 & r10 & H10 & H8).
          apply log_call_inv in H10 as (Hs10 & Hl10 & _ & ->).
          apply bindM_inv in H8 as (s11 & r11 & H11 & H8).
          apply lift_inv in H11 as [-> ->].
          destruct (pad_to_right _ _ _) as [[kc ?] |]; [| stop H8; eauto].
          apply bindM_inv in H8 as (s12 & r12 & H12 & H8).
          apply lift_inv in H12 as [-> ->].
          destruct (pad_to_right _ _ _) as [[vc ?] |]; [| stop H8; eauto].
          apply retM_inv in H8 as [-> _]. eauto. }
      destruct H8' as [Hlog8 Hst8].
      assert (Hlog : kernel_log s8 = kernel_log st
                     \/ exists c, kernel_log s8 = kernel_log st ++ [c]).
      { rewrite Hl7, Hl6 in Hlog8. exact Hlog8. }
      destruct r8 as [[[ao kc] vc] | e8].
      + apply bindM_inv in H3 as (s9 & r9 & H9 & H3).
        apply set_local_store_inv in H9 as (Hs9 & Hl9 & _ & ->).
        apply retM_inv in H3 as [-> ->].
        rewrite Hl9. split; [exact Hlog |]. right. split; [discriminate | eauto].
      + stop H3. split; [exact Hlog |]. left. congruence.
    - (* training *)
      apply bindM_inv in H3 as (s4 & r4 & H4 & H3).
      apply call_rotary_inv in H4 as (Hs4 & Hl4 & _ & _).
      destruct r4 as [q' | e4]; [| stop H3; rewrite Hs4, Hl4, Est; auto].
      apply bindM_inv in H3 as (s5 & r5 & H5 & H3).
      apply call_rotary_inv in H5 as (Hs5 & Hl5 & _ & _).
      destruct r5 as [k' | e5]; [| stop H3; rewrite Hs5, Hl5, Hs4, Hl4, Est; auto].
      apply bindM_inv in H3 as (s6 & r6 & H6 & H3).
      unfold CoreAttention_forward in H6.
      apply bindM_inv in H6 as (s7 & r7 & H7 & H6).
      apply log_call_inv in H7 as (Hs7 & Hl7 & _ & ->).
      apply retM_inv in H6 as [-> ->]. apply retM_inv in H3 as [-> ->].
      rewrite Hs7, Hl7, Hs5, Hl5, Hs4, Hl4, Est. eauto. }
  destruct Hbranch as [Hlog Hstore].
  destruct r3 as [ao | e3].
  - apply bindM_inv in H as (s8 & r8 & H8 & H). apply lift_inv in H8 as [-> ->].
    destruct (view3 _ _ _ _) as [out | e8] eqn:Ev.
    + apply retM_inv in H as [-> ->]. split; [exact Hlog |].
      destruct Hstore as [Hs | [Hne _]]; [now left | right].
      split; [exact Hne | eauto].
    + stop H. apply view3_Raise in Ev as ->. split; [exact Hlog |].
      destruct Hstore as [Hs | [Hne _]]; [now left | right]. auto.
  - stop H. split; [exact Hlog |].
    destruct Hstore as [Hs | [_ [a Ha]]]; [now left | discriminate].
Qed.

(** X11. A call of the attention module that fails with anything but a
    shape error leaves the attached store exactly as it was, and a call
    without a store never creates one: the store is written once, after
    the kernel has run, and only the final reshaping can fail after
    that. *)
Theorem forward_failure_keeps_store
        (self : CausalSelfAttention) (hidden_states : tensor tensor3)
        (sequence_mask : bool_mask) (st st' : state)
        (r : result (tensor tensor3 * bool_mask)) :
  forward self hidden_states sequence_mask st = (st', r) ->
  (local_store st = None -> local_store st' = None)
  /\ (forall e, r = Raise e -> e <> RuntimeError ->
      local_store st' = local_store st).
Proof.
  intros H. destruct (forward_trace _ _ _ _ _ _ H) as [_ Hstore]. split.
  - intros Hnone. destruct Hstore as [Hs | [Hne _]]; congruence.
  - intros e -> Hne.
    destruct Hstore as [Hs | [_ [Hr | [out Hr]]]]; congruence.
Qed.

(** X12. One call of the attention module invokes the fused kernel at
    most once, whatever the mode and the outcome. *)
Theorem forward_invokes_kernel_at_most_once
        (self : CausalSelfAttention) (hidden_states : tensor tensor3)
        (sequence_mask : bool_mask) (st st' : state)
        (r : result (tensor tensor3 * bool_mask)) :
  forward self hidden_states sequence_mask st = (st', r) ->
  kernel_log st' = kernel_log st
  \/ exists c, kernel_log st' = kernel_log st ++ [c].
Proof.
  intros H. now destruct (forward_trace _ _ _ _ _ _ H) as [Hlog _].
Qed.

End Effects.

(** Witness for X11: a decode call beyond the table fails with the range
    error and the store stays. *)
Lemma forward_failure_keeps_store_witness :
  let st := Example.state_with (Some (Example.store_at 2)) in
  exists st',
    Example.forward Example.attn Example.one_token [[true]] st
    = (st', Raise (ValueError 3 3 3))
    /\ local_store st' = local_store st.
Proof.
  intros st. eexists.
  match goal with
  | |- ?A /\ _ => assert (H : A) by (run; reflexivity)
  end.
  split; [exact H |].
  destruct (forward_failure_keeps_store
              Example.qkv_proj Example.o_proj Example.flash_attn_varlen_func
              Example.flash_attn_with_kvcache Example.unpad_input
              Example.pad_input _ _ _ _ _ _ H) as [_ Hkeep].
  apply (Hkeep _ eq_refl). discriminate.
Defined.

(** Witness for X12: a prefill call. *)
Lemma forward_invokes_kernel_at_most_once_witness :
  let st := Example.state_with (Some empty_store) in
  exists st' r,
    Example.forward Example.attn Example.two_tokens [[false; true]] st = (st', r)
    /\ (kernel_log st' = kernel_log st
        \/ exists c, kernel_log st' = kernel_log st ++ [c]).
Proof.
  intros st. eexists _, _.
  match goal with
  | |- ?A /\ _ => assert (H : A) by (run; reflexivity)
  end.
  split; [exact H |].
  exact (forward_invokes_kernel_at_most_once
           Example.qkv_proj Example.o_proj Example.flash_attn_varlen_func
           Example.flash_attn_with_kvcache Example.unpad_input
           Example.pad_input _ _ _ _ _ _ H).
Defined.

End AttentionProperties.

Module PadToRightProperties.
Import ResultFacts ShapeFacts PadToRightFacts.

Lemma select_row_prefix {A} (row : list A) (k j : nat) :
  k <= length row ->
  select_row row (repeat true k ++ repeat false j) = firstn k row.
Proof.
  revert row. induction k as [| k IH]; intros row Hk; simpl.
  - revert row Hk. induction j as [| j IHj]; intros [| x row] Hk; simpl;
      try reflexivity. apply IHj. lia.
  - destruct row as [| x row]; simpl in *; [lia |]. now rewrite IH by lia.
Qed.

(** The three tests of [pad_to_right], in the order the code meets them:
    the mask against the tensor, the right-padded mask against the slice
    of the destination, the values against the selected entries. *)
Lemma pad_to_right_cases
      (tensor : tensor4) (mask : bool_mask) (new_tensor : option tensor4) :
  rows_have (shape1 mask) mask = true ->
  let dest := match new_tensor with
              | None => zeros_like tensor
              | Some t => t
              end in
  let right_padded_mask := right_pad_mask (map count_true mask) (shape1 mask) in
  let d := inner_dims tensor in
  let D := inner_dims dest in
  pad_to_right tensor mask new_tensor
  = if has_shape2 (length mask) (shape1 mask) tensor then
      if (length dest =? length mask)
         && forallb (fun row => shape1 mask <=? length row) dest then
        if expandable (fst d) (fst D) && expandable (snd d) (snd D) then
          Ok (assign_rows dest right_padded_mask
                (map (fun v => expand (fst d) (fst D) (map (expand (snd d) (snd D)) v))
                     (select_rows tensor mask)),
              right_padded_mask)
        else Raise RuntimeError
      else Raise IndexError
    else Raise IndexError.
Proof.
  intros Hrect dest rpm d D.
  assert (Hshape : shape1 rpm = shape1 mask).
  { unfold rpm, right_pad_mask. destruct mask as [| mrow mask']; [reflexivity |].
    cbn [map shape1]. now rewrite length_map, length_seq. }
  assert (Hlen : length rpm = length mask).
  { unfold rpm, right_pad_mask. now rewrite !length_map. }
  assert (Hrows : rows_have (shape1 rpm) rpm = true).
  { rewrite Hshape. subst rpm. destruct mask as [| mrow mask'].
    - reflexivity.
    - apply rows_have_Forall. cbn [shape1].
      apply rows_have_Forall in Hrect. cbn [shape1] in Hrect.
      apply right_pad_mask_rows. }
  unfold pad_to_right, masked_select, masked_assign.
  fold dest. fold rpm. fold d. fold D.
  destruct (has_shape2 (length mask) (shape1 mask) tensor) eqn:Ht;
    cbn [guard bind]; [| reflexivity].
  destruct d as [d1 d2], D as [D1 D2]. cbn [fst snd].
  rewrite Hrows, Hshape, Hlen, andb_true_r.
  destruct ((length dest =? length mask)
            && forallb (fun row => shape1 mask <=? length row) dest);
    cbn [guard bind]; [| reflexivity].
  assert (Hvals : (length (select_rows tensor mask) =? count_all rpm) = true).
  { apply Nat.eqb_eq. apply rows_have_Forall in Hrect.
    unfold rpm. rewrite count_all_right_pad by exact Hrect.
    apply has_shape2_spec in Ht as [Hl Hr].
    apply (select_rows_length tensor mask (shape1 mask)); auto. }
  rewrite Hvals. cbn [andb].
  destruct (expandable d1 D1 && expandable d2 D2); reflexivity.
Qed.

Lemma expandable_spec (d D : nat) : expandable d D = true <-> d = D \/ d = 1.
Proof. unfold expandable. now rewrite orb_true_iff, !Nat.eqb_eq. Qed.

(** X13. For a non-empty mask with rows of equal length, [pad_to_right]
    returns exactly when tensor and mask agree on [(batch, seq)], a given
    destination has the batch's rows, each with room for [seq] entries,
    and the tensor's trailing sizes broadcast to the destination's (each
    equal, or 1).  It fails with an IndexError exactly when the leading
    shapes disagree, and with a RuntimeError exactly when they agree but
    the trailing sizes do not broadcast; there is no other failure. *)
Theorem pad_to_right_succeeds_iff
        (tensor : tensor4) (mask : bool_mask) (new_tensor : option tensor4) :
  rows_have (shape1 mask) mask = true ->
  mask <> [] -> 0 < shape1 mask ->
  let leading :=
    has_shape2 (length mask) (shape1 mask) tensor = true
    /\ match new_tensor with
       | None => True
       | Some dest =>
           length dest = length mask
           /\ Forall (fun drow => shape1 mask <= length drow) dest
       end in
  let trailing :=
    match new_tensor with
    | None => True
    | Some dest =>
        let (d1, d2) := inner_dims tensor in
        let (D1, D2) := inner_dims dest in
        (d1 = D1 \/ d1 = 1) /\ (d2 = D2 \/ d2 = 1)
    end in
  let r := pad_to_right tensor mask new_tensor in
  ((exists out, r = Ok out) <-> leading /\ trailing)
  /\ (r = Raise IndexError <-> ~ leading)
  /\ (r = Raise RuntimeError <-> leading /\ ~ trailing)
  /\ (forall e, r = Raise e -> e = IndexError \/ e = RuntimeError).
Proof.
  intros Hrect _ _ leading trailing r.
  pose proof (pad_to_right_cases tensor mask new_tensor Hrect) as Hr.
  cbv zeta in Hr. fold r in Hr.
  set (dest := match new_tensor with
               | None => zeros_like tensor
               | Some t => t
               end) in *.
  set (G1 := has_shape2 (length mask) (shape1 mask) tensor) in *.
  set (G2 := (length dest =? length mask)
             && forallb (fun row => shape1 mask <=? length row) dest) in *.
  set (G3 := expandable (fst (inner_dims tensor)) (fst (inner_dims dest))
             && expandable (snd (inner_dims tensor)) (snd (inner_dims dest))) in *.
  assert (H12 : G1 = true /\ G2 = true <-> leading).
  { unfold leading. fold G1. split.
    - intros [H1 H2]. split; [exact H1 |].
      destruct new_tensor as [t |]; [| exact I].
      apply andb_true_iff in H2 as [Hl Hf]. apply Nat.eqb_eq in Hl.
      split; [exact Hl |]. apply Forall_forall. intros drow Hin.
      rewrite forallb_forall in Hf. apply Nat.leb_le. now apply Hf.
    - intros [H1 H2]. split; [exact H1 |].
      apply andb_true_iff.
      destruct new_tensor as [t |].
      + destruct H2 as [Hl Hf]. split; [now apply Nat.eqb_eq |].
        apply forallb_forall. intros drow Hin. apply Nat.leb_le.
        revert drow Hin. now apply Forall_forall.
      + destruct (zeros_like_shape _ _ tensor H1) as [Hzb Hzs].
        split; [now apply Nat.eqb_eq |].
        apply forallb_forall. intros drow Hin. apply Nat.leb_le.
        revert drow Hin. now apply Forall_forall. }
  assert (H3 : G3 = true <-> trailing).
  { unfold trailing, G3, dest. destruct new_tensor as [t |].
    - destruct (inner_dims tensor) as [d1 d2], (inner_dims t) as [D1 D2].
      cbn [fst snd]. now rewrite andb_true_iff, !expandable_spec.
    - rewrite inner_dims_zeros_like, !expandable_same. tauto. }
  rewrite Hr. clear Hr r. rewrite <- H12, <- H3.
  clearbody G1 G2 G3. clear.
  assert (Hex : forall (x : tensor4 * bool_mask),
             exists out, Ok (A := tensor4 * bool_mask) x = Ok out) by eauto.
  destruct G1, G2, G3; repeat split; intros;
    repeat match goal with
           | H : exists _, Raise _ = Ok _ |- _ => destruct H as [? H]; discriminate H
           | H : Raise _ = Raise _ |- _ => injection H as <-
           end;
    intuition (try discriminate; try congruence; auto).
Qed.

(** Witness for X13: a destination whose last size is 3 for values whose
    last size is 2; one with too few columns; one that fits. *)
Lemma pad_to_right_succeeds_iff_witness :
  let tensor : tensor4 := [[[[1%R; 2%R]]; [[3%R; 4%R]]]] in
  let mask := [[true; true]] in
  rows_have (shape1 mask) mask = true
  /\ mask <> []
  /\ 0 < shape1 mask
  /\ pad_to_right tensor mask (Some (zeros 1 2 1 3)) = Raise RuntimeError
  /\ pad_to_right tensor mask (Some (zeros 1 1 1 2)) = Raise IndexError
  /\ exists out, pad_to_right tensor mask (Some (zeros 1 3 1 2)) = Ok out.
Proof.
  intros tensor mask.
  assert (Hne : mask <> []) by discriminate.
  assert (Hs : 0 < shape1 mask) by (simpl; lia).
  split; [reflexivity |]. split; [exact Hne |]. split; [exact Hs |].
  split; [| split].
  - apply (proj1 (proj2 (proj2 (pad_to_right_succeeds_iff
                                  tensor mask (Some (zeros 1 2 1 3))
                                  eq_refl Hne Hs)))).
    split.
    + split; [reflexivity |]. split; [reflexivity |]. repeat constructor.
    + simpl. intros [_ [H | H]]; discriminate H.
  - apply (proj1 (proj2 (pad_to_right_succeeds_iff
                           tensor mask (Some (zeros 1 1 1 2))
                           eq_refl Hne Hs))).
    intros [_ [_ H]]. inversion H as [| ? ? Hle _]. simpl in Hle. lia.
  - apply (proj1 (pad_to_right_succeeds_iff
                    tensor mask (Some (zeros 1 3 1 2)) eq_refl Hne Hs)).
    split.
    + split; [reflexivity |]. split; [reflexivity |]. repeat constructor.
    + simpl. split; left; reflexivity.
Defined.

Lemma right_pad_mask_counts (mask : bool_mask) (s : nat) :
  Forall (fun mrow => length mrow = s) mask ->
  map count_true (right_pad_mask (map count_true mask) s) = map count_true mask.
Proof.
  intros Hm. unfold right_pad_mask. rewrite !map_map.
  apply map_ext_in. intros mrow Hin.
  rewrite Forall_forall in Hm. specialize (Hm _ Hin).
  pose proof (count_true_le mrow).
  rewrite prefix_mask by lia. apply count_true_prefix.
Qed.

Lemma right_pad_mask_shape1 (counts : list nat) (s0 : nat) (mask : bool_mask) :
  length counts = length mask -> s0 = shape1 mask ->
  shape1 (right_pad_mask counts s0) = shape1 mask.
Proof.
  intros Hl ->. unfold right_pad_mask.
  destruct counts as [| c counts], mask as [| mrow mask']; try discriminate;
    [reflexivity |].
  cbn [map shape1]. now rewrite length_map, length_seq.
Qed.

(** X14. [pad_to_right] is idempotent: on its own output (tensor and
    right-padded mask, default destination) it returns that output again. *)
Theorem pad_to_right_idempotent
        (b s : nat) (tensor : tensor4) (mask : bool_mask)
        (new_tensor : tensor4) (right_padded_mask : bool_mask) :
  has_shape2 b s tensor = true ->
  has_shape2 b s mask = true ->
  pad_to_right tensor mask None = Ok (new_tensor, right_padded_mask) ->
  pad_to_right new_tensor right_padded_mask None
  = Ok (new_tensor, right_padded_mask).
Proof.
  intros Ht Hm H.
  destruct (zeros_like_shape b s tensor Ht) as [Hzb Hzs].
  rewrite (pad_to_right_spec b s tensor mask None Ht Hm Hzb Hzs
             (inner_dims_zeros_like tensor)) in H.
  cbv zeta in H. injection H as <- <-.
  pose proof Ht as Ht'. pose proof Hm as Hm'.
  apply has_shape2_spec in Ht' as [Htl Htr].
  apply has_shape2_spec in Hm' as [Hml Hmr].
  set (Zf := map (map (map (fun _ : R => 0%R)))).
  set (t' := right_padded (zeros_like tensor) tensor mask).
  set (m' := right_pad_mask (map count_true mask) (shape1 mask)).
  assert (Hrow : forall r row mrow,
             nth_error tensor r = Some row -> nth_error mask r = Some mrow ->
             length row = s /\ length mrow = s /\ count_true mrow <= s
             /\ length (select_row row mrow) = count_true mrow
             /\ nth_error t' r
                = Some (select_row row mrow ++ skipn (count_true mrow) (Zf row))
             /\ nth_error m' r
                = Some (repeat true (count_true mrow)
                        ++ repeat false (s - count_true mrow))).
  { intros r row mrow Hr Hmask.
    pose proof (nth_error_In _ _ Hr) as Hin.
    pose proof (nth_error_In _ _ Hmask) as Hin'.
    pose proof (proj1 (Forall_forall _ _) Htr _ Hin) as Hl.
    pose proof (proj1 (Forall_forall _ _) Hmr _ Hin') as Hl'.
    cbv beta in Hl, Hl'.
    pose proof (count_true_le mrow) as Hk.
    split; [exact Hl |]. split; [exact Hl' |]. split; [lia |].
    split; [apply select_row_length; lia |]. split.
    - unfold t'. apply right_padded_nth; auto. now apply zeros_like_nth.
    - unfold m', right_pad_mask.
      assert (Hne : mask <> []) by (intros ->; destruct r; discriminate).
      rewrite (shape1_rows s mask) by auto.
      rewrite nth_error_map, nth_error_map, Hmask. cbn [option_map].
      now rewrite prefix_mask by lia. }
  assert (Hlt' : length t' = b).
  { unfold t'. rewrite right_padded_length; congruence. }
  assert (Hlm' : length m' = b).
  { unfold m', right_pad_mask. now rewrite !length_map. }
  assert (Hboth : forall r, r < b ->
             exists row mrow, nth_error tensor r = Some row
                              /\ nth_error mask r = Some mrow).
  { intros r Hr.
    destruct (nth_error tensor r) as [row |] eqn:Er;
      [| apply nth_error_None in Er; lia].
    destruct (nth_error mask r) as [mrow |] eqn:Em;
      [| apply nth_error_None in Em; lia].
    eauto. }
  assert (Ht2 : has_shape2 b s t' = true).
  { apply has_shape2_spec. split; [exact Hlt' |].
    apply Forall_forall. intros x Hx. apply In_nth_error in Hx as [r Hr].
    assert (Hrb : r < b) by (rewrite <- Hlt'; apply nth_error_Some; congruence).
    destruct (Hboth r Hrb) as (row & mrow & Er & Em).
    destruct (Hrow r row mrow Er Em) as (Hl & Hl' & Hk & Hsel & Hn & _).
    rewrite Hn in Hr. injection Hr as <-.
    unfold Zf. rewrite length_app, length_skipn, Hsel, length_map. lia. }
  assert (Hm2 : has_shape2 b s m' = true).
  { apply has_shape2_spec. split; [exact Hlm' |].
    apply Forall_forall. intros x Hx. apply In_nth_error in Hx as [r Hr].
    assert (Hrb : r < b) by (rewrite <- Hlm'; apply nth_error_Some; congruence).
    destruct (Hboth r Hrb) as (row & mrow & Er & Em).
    destruct (Hrow r row mrow Er Em) as (Hl & Hl' & Hk & Hsel & _ & Hn).
    rewrite Hn in Hr. injection Hr as <-.
    rewrite length_app, !repeat_length. lia. }
  destruct (zeros_like_shape b s t' Ht2) as [Hzb' Hzs'].
  rewrite (pad_to_right_spec b s t' m' None Ht2 Hm2 Hzb' Hzs'
             (inner_dims_zeros_like t')).
  cbv zeta. f_equal. f_equal.
  - apply nth_error_ext. intros r.
    destruct (Nat.lt_ge_cases r b) as [Hrb | Hrb].
    + destruct (Hboth r Hrb) as (row & mrow & Er & Em).
      destruct (Hrow r row mrow Er Em) as (Hl & Hl' & Hk & Hsel & Hn & Hn').
      rewrite (right_padded_nth _ _ _ r _ _ _ (zeros_like_nth _ _ _ Hn) Hn Hn').
      rewrite Hn. f_equal.
      rewrite count_true_prefix.
      rewrite select_row_prefix
        by (unfold Zf; rewrite length_app, length_skipn, Hsel, length_map; lia).
      rewrite firstn_app, Hsel, Nat.sub_diag, firstn_O, app_nil_r.
      rewrite <- Hsel at 1. rewrite firstn_all. f_equal.
      unfold Zf. rewrite skipn_map, skipn_app, Hsel, Nat.sub_diag, skipn_O.
      rewrite <- Hsel at 1. rewrite skipn_all. cbn [app].
      rewrite <- skipn_map. f_equal.
      rewrite map_map. apply map_ext. intros x.
      rewrite map_map. apply map_ext. intros y.
      rewrite map_map. reflexivity.
    + rewrite (proj2 (nth_error_None _ _)) by (rewrite right_padded_length;
        [lia | unfold zeros_like; rewrite length_map; lia | lia]).
      symmetry. apply nth_error_None. lia.
  - assert (Hs1 : shape1 m' = shape1 mask).
    { unfold m'. apply right_pad_mask_shape1; [now rewrite length_map | reflexivity]. }
    assert (Hc : map count_true m' = map count_true mask).
    { unfold m'. destruct mask as [| mrow0 mask0]; [reflexivity |].
      rewrite (shape1_rows s (mrow0 :: mask0)) by (auto; discriminate).
      now apply right_pad_mask_counts. }
    rewrite Hs1, Hc. reflexivity.
Qed.

(** Witness for X14: a left-padded row and a row with a gap. *)
Lemma pad_to_right_idempotent_witness :
  let tensor : tensor4 := [[[[1%R]]; [[2%R]]; [[3%R]]]; [[[4%R]]; [[5%R]]; [[6%R]]]] in
  let mask := [[false; true; true]; [true; false; true]] in
  let out : tensor4 := [[[[2%R]]; [[3%R]]; [[0%R]]]; [[[4%R]]; [[6%R]]; [[0%R]]]] in
  let out_mask := [[true; true; false]; [true; true; false]] in
  has_shape2 2 3 tensor = true
  /\ has_shape2 2 3 mask = true
  /\ pad_to_right tensor mask None = Ok (out, out_mask)
  /\ pad_to_right out out_mask None = Ok (out, out_mask).
Proof.
  intros tensor mask out out_mask.
  split; [reflexivity |]. split; [reflexivity |]. split; [reflexivity |].
  exact (pad_to_right_idempotent 2 3 tensor mask out out_mask
           eq_refl eq_refl eq_refl).
Defined.

End PadToRightProperties.

(* ================================================================== *)
(** * The gated MLP and the decoder layer *)

Module TensorFacts.
Import ResultFacts ShapeFacts ForwardEval.

Lemma sequence_map2_Forall2 {A B C} (f : A -> B -> result C) (g : A -> B -> C)
      (xs : list A) (ys : list B) :
  Forall2 (fun x y => f x y = Ok (g x y)) xs ys ->
  sequence (map2 f xs ys) = Ok (map2 g xs ys).
Proof.
  induction 1 as [| x y xs ys Hxy _ IH]; [reflexivity |].
  cbn [map2 sequence]. rewrite Hxy, IH. reflexivity.
Qed.

Lemma Forall2_same_length {A B} (P : A -> Prop) (Q : B -> Prop)
      (xs : list A) (ys : list B) :
  length xs = length ys -> Forall P xs -> Forall Q ys ->
  Forall2 (fun x y => P x /\ Q y) xs ys.
Proof.
  revert ys. induction xs as [| x xs IH]; intros [| y ys] Hl Hx Hy;
    simpl in Hl; try discriminate; constructor;
    inversion Hx; inversion Hy; subst; auto.
Qed.

(** On operands of one shape the elementwise operation is pointwise. *)
Lemma broadcast3_same_shape (f : R -> R -> R) (a b c : nat) (x y : tensor3) :
  shaped3 a b c x -> shaped3 a b c y ->
  broadcast3 f x y = Ok (map2 (map2 (map2 f)) x y).
Proof.
  intros [Hxa Hx] [Hya Hy]. unfold broadcast3.
  rewrite broadcast2_same_length by congruence.
  apply sequence_map2_Forall2.
  eapply Forall2_impl;
    [| apply Forall2_same_length; [| exact Hx | exact Hy]; congruence].
  intros xa ya [[Hxb Hxa'] [Hyb Hya']]. cbv beta.
  rewrite broadcast2_same_length by congruence.
  apply sequence_map2_Forall2.
  eapply Forall2_impl;
    [| apply Forall2_same_length; [| exact Hxa' | exact Hya']; congruence].
  intros xb yb [Hxc Hyc]. cbv beta.
  rewrite broadcast2_same_length by congruence.
  apply sequence_map2_Ok.
Qed.

Lemma map2_Forall2_shape {A B C} (g : A -> B -> C) (P : A -> Prop) (Q : B -> Prop)
      (T : C -> Prop) (xs : list A) (ys : list B) :
  (forall x y, P x -> Q y -> T (g x y)) ->
  Forall P xs -> Forall Q ys -> Forall T (map2 g xs ys).
Proof.
  intros H Hx. revert ys. induction Hx as [| x xs Hpx _ IH]; intros ys Hy;
    [constructor |].
  destruct ys as [| y ys]; [constructor |].
  inversion Hy; subst. cbn [map2]. constructor; auto.
Qed.

Lemma map2_shaped3 (f : R -> R -> R) (a b c : nat) (x y : tensor3) :
  shaped3 a b c x -> shaped3 a b c y ->
  shaped3 a b c (map2 (map2 (map2 f)) x y).
Proof.
  intros [Hxa Hx] [Hya Hy]. split.
  - rewrite map2_length by congruence. exact Hxa.
  - eapply map2_Forall2_shape; [| exact Hx | exact Hy].
    intros xa ya [Hxb Hxa'] [Hyb Hya']. cbv beta. split.
    + rewrite map2_length by congruence. exact Hxb.
    + eapply map2_Forall2_shape; [| exact Hxa' | exact Hya'].
      intros xb yb Hxc Hyc. cbv beta.
      rewrite map2_length by congruence. exact Hxc.
Qed.

Lemma entry3_map2 (f : R -> R -> R) (x y : tensor3) (i j l : nat) (u v : R) :
  entry3 x i j l = Some u -> entry3 y i j l = Some v ->
  entry3 (map2 (map2 (map2 f)) x y) i j l = Some (f u v).
Proof.
  unfold entry3. intros Hx Hy.
  destruct (nth_error x i) as [xa |] eqn:Exa; [| discriminate].
  destruct (nth_error y i) as [ya |] eqn:Eya; [| discriminate].
  rewrite (map2_nth_error _ _ _ _ _ _ Exa Eya).
  destruct (nth_error xa j) as [xb |] eqn:Exb; [| discriminate].
  destruct (nth_error ya j) as [yb |] eqn:Eyb; [| discriminate].
  rewrite (map2_nth_error _ _ _ _ _ _ Exb Eyb).
  now apply map2_nth_error.
Qed.

Lemma entry3_map_rows {A B} (g : list A -> list B) (x : list (list (list A)))
      (i j l : nat) :
  entry3 (map (map g) x) i j l
  = match nth_error x i with
    | Some xa => match nth_error xa j with
                 | Some row => nth_error (g row) l
                 | None => None
                 end
    | None => None
    end.
Proof.
  unfold entry3. rewrite nth_error_map.
  destruct (nth_error x i) as [xa |]; [| reflexivity]. cbn [option_map].
  rewrite nth_error_map. now destruct (nth_error xa j).
Qed.

Lemma entry3_shaped {A} (a b c : nat) (x : list (list (list A))) (i j l : nat) :
  shaped3 a b c x -> i < a -> j < b -> l < c ->
  exists u, entry3 x i j l = Some u.
Proof.
  intros [Ha Hx] Hi Hj Hl. unfold entry3.
  destruct (nth_error x i) as [xa |] eqn:Exa.
  2:{ apply nth_error_None in Exa. lia. }
  apply nth_error_In in Exa as Hin.
  rewrite Forall_forall in Hx. destruct (Hx _ Hin) as [Hb Hxa].
  destruct (nth_error xa j) as [xb |] eqn:Exb.
  2:{ apply nth_error_None in Exb. lia. }
  apply nth_error_In in Exb as Hin'.
  rewrite Forall_forall in Hxa. specialize (Hxa _ Hin').
  destruct (nth_error xb l) as [u |] eqn:Eu; [eauto |].
  apply nth_error_None in Eu. lia.
Qed.

Lemma entry3_bounds {A} (a b c : nat) (x : list (list (list A))) (i j l : nat) (u : A) :
  shaped3 a b c x -> entry3 x i j l = Some u -> i < a /\ j < b /\ l < c.
Proof.
  intros [Ha Hx] H. unfold entry3 in H.
  destruct (nth_error x i) as [xa |] eqn:Exa; [| discriminate].
  destruct (nth_error xa j) as [xb |] eqn:Exb; [| discriminate].
  apply nth_error_In in Exa as Hin. apply nth_error_In in Exb as Hin'.
  rewrite Forall_forall in Hx. destruct (Hx _ Hin) as [Hb Hxa].
  rewrite Forall_forall in Hxa. specialize (Hxa _ Hin').
  assert (i < length x) by (apply nth_error_Some; congruence).
  assert (j < length xa) by (apply nth_error_Some; congruence).
  assert (l < length xb) by (apply nth_error_Some; congruence).
  lia.
Qed.

Lemma last_dim {A} (a b c : nat) (x : list (list (list A))) :
  shaped3 a b c x -> 0 < a -> 0 < b -> shape1 (hd [] x) = c.
Proof.
  intros [Ha Hx] H0a H0b.
  destruct x as [| xa x]; simpl in *; [lia |].
  inversion Hx as [| ? ? [Hb Hxa] _]; subst.
  destruct xa as [| xb xa]; simpl in *; [lia |].
  now inversion Hxa.
Qed.

Lemma shaped3_map_rows {A B} (g : list A -> list B) (a b c c' : nat)
      (x : list (list (list A))) :
  (forall row, length row = c -> length (g row) = c') ->
  shaped3 a b c x -> shaped3 a b c' (map (map g) x).
Proof.
  intros Hg [Ha Hx]. split; [now rewrite length_map |].
  apply Forall_map. eapply Forall_impl; [| exact Hx].
  intros xa [Hb Hxa]. cbv beta. split; [now rewrite length_map |].
  apply Forall_map. eapply Forall_impl; [| exact Hxa]. auto.
Qed.

End TensorFacts.

Module MLPProperties.
Import ResultFacts ShapeFacts ForwardEval TensorFacts.

Section GLU.

Variable act : tensor tensor3 -> tensor tensor3.
Variable gate_up_proj : tensor tensor3 -> tensor tensor3.
Variable down_proj : tensor tensor3 -> tensor tensor3.

(** X15. [GLUActivation.forward] needs an even, non-zero number of merged
    features.  On a non-empty tensor with an odd number of features the
    unpacking into gate and up fails: three chunks come back for 3 or more
    features, the tensor itself for none; for one feature [torch.split]
    itself rejects the zero chunk size.  The activation is never called,
    and [MLP.forward] fails in the same way when [gate_up_proj] returns
    such a tensor. *)
Theorem glu_rejects_odd_width (merged_states : tensor tensor3) (a b n : nat) :
  shaped3 a b n (data merged_states) -> 0 < a -> 0 < b ->
  n = 0 \/ n mod 2 = 1 ->
  let e := if n =? 0 then UnpackError 2 1
           else if n =? 1 then Raised RuntimeError
           else UnpackError 2 3 in
  GLUActivation_forward act merged_states = Throw e
  /\ forall hidden_states,
       gate_up_proj hidden_states = merged_states ->
       MLP_forward act gate_up_proj down_proj hidden_states = Throw e.
Proof.
  intros Hsh Ha Hb Hn e.
  assert (Hglu : GLUActivation_forward act merged_states = Throw e).
  { unfold GLUActivation_forward, split_last.
    rewrite (last_dim _ _ _ _ Hsh Ha Hb). subst e.
    destruct (Nat.eqb_spec n 0) as [-> | Hn0]; [reflexivity |].
    destruct (Nat.eqb_spec n 1) as [-> | Hn1]; [reflexivity |].
    destruct Hn as [Hn | Hn]; [contradiction |].
    assert (Hk : 0 < n / 2 /\ n = 2 * (n / 2) + 1).
    { pose proof (Nat.div_mod_eq n 2). lia. }
    destruct Hk as [Hk Hnk]. set (k := n / 2) in *. clearbody k.
    destruct (Nat.eqb_spec k 0) as [E | _]; [lia |].
    replace (n + k - 1) with (3 * k) by lia.
    rewrite Nat.div_mul by lia. reflexivity. }
  split; [exact Hglu |].
  intros hidden_states Hproj. unfold MLP_forward. rewrite Hproj, Hglu. reflexivity.
Qed.

(** X16. On a non-empty tensor with [2 k] merged features, [k > 0], and an
    activation that keeps the shape of the gate, [GLUActivation.forward]
    returns a tensor of [k] features: feature [l] of the result is the
    activated gate's feature [l] times the merged feature [k + l]; the
    gate is the first [k] merged features. *)
Theorem glu_gates_second_half (merged_states : tensor tensor3) (a b k : nat) :
  shaped3 a b (2 * k) (data merged_states) -> 0 < a -> 0 < b -> 0 < k ->
  let dt := dtype_of merged_states in
  let gate := act (Tensor dt (map (map (firstn k)) (data merged_states))) in
  shaped3 a b k (data gate) ->
  exists out,
    GLUActivation_forward act merged_states = Return out
    /\ dtype_of out = promote (dtype_of gate) dt
    /\ shaped3 a b k (data out)
    /\ forall i j l u,
         l < k ->
         entry3 (data merged_states) i j (k + l) = Some u ->
         exists g, entry3 (data gate) i j l = Some g
                   /\ entry3 (data out) i j l = Some (g * u)%R.
Proof.
  intros Hsh Ha Hb Hk dt gate Hgate.
  set (up := map (map (fun row => firstn k (skipn k row))) (data merged_states)).
  assert (Hup : shaped3 a b k up).
  { eapply shaped3_map_rows; [| exact Hsh].
    intros row Hrow. rewrite length_firstn, length_skipn. lia. }
  exists (Tensor (promote (dtype_of gate) dt) (map2 (map2 (map2 Rmult)) (data gate) up)).
  split; [| split; [reflexivity | split; [now apply map2_shaped3 |]]].
  - unfold GLUActivation_forward, split_last.
    rewrite (last_dim _ _ _ _ Hsh Ha Hb).
    replace (2 * k / 2) with k by (rewrite Nat.mul_comm, Nat.div_mul; lia).
    destruct (Nat.eqb_spec k 0) as [E | _]; [lia |].
    replace ((2 * k + k - 1) / k) with 2
      by (apply (Nat.div_unique _ _ 2 (k - 1)); lia).
    cbn [Nat.max seq map of_result obind unpack2 Nat.mul Nat.add skipn].
    fold dt. fold gate. rewrite Nat.add_0_r. fold up.
    unfold tensor_mul. cbn [data dtype_of].
    rewrite (broadcast3_same_shape _ _ _ _ _ _ Hgate Hup). reflexivity.
  - intros i j l u Hl Hu. cbn [data].
    destruct (entry3_bounds _ _ _ _ _ _ _ _ Hsh Hu) as (Hi & Hj & _).
    destruct (entry3_shaped _ _ _ _ i j l Hgate Hi Hj Hl) as [g Hg].
    exists g. split; [exact Hg |].
    apply entry3_map2; [exact Hg |].
    unfold up. rewrite entry3_map_rows.
    unfold entry3 in Hu.
    destruct (nth_error (data merged_states) i) as [xa |]; [| discriminate].
    destruct (nth_error xa j) as [row |]; [| discriminate].
    rewrite nth_error_firstn.
    destruct (Nat.ltb_spec l k); [| lia].
    now rewrite nth_error_skipn.
Qed.

End GLU.

(** Witness for X15: three merged features. *)
Lemma glu_rejects_odd_width_witness :
  let merged_states := Tensor Float32 [[[1%R; 2%R; 3%R]]] in
  shaped3 1 1 3 (data merged_states)
  /\ GLUActivation_forward LayerExample.act merged_states = Throw (UnpackError 2 3).
Proof.
  intros merged_states.
  assert (Hsh : shaped3 1 1 3 (data merged_states)).
  { split; [reflexivity |]. repeat constructor. }
  split; [exact Hsh |].
  exact (proj1 (glu_rejects_odd_width LayerExample.act LayerExample.gate_up_proj
                  LayerExample.down_proj merged_states 1 1 3 Hsh
                  ltac:(lia) ltac:(lia) (or_intror eq_refl))).
Defined.

(** Witness for X16: four merged features, the identity as activation. *)
Lemma glu_gates_second_half_witness :
  let merged_states := Tensor Float32 [[[1%R; 2%R; 3%R; 4%R]]] in
  shaped3 1 1 4 (data merged_states)
  /\ exists out,
       GLUActivation_forward LayerExample.act merged_states = Return out
       /\ shaped3 1 1 2 (data out)
       /\ exists g, entry3 (data out) 0 0 1 = Some (g * 4)%R.
Proof.
  intros merged_states.
  assert (Hsh : shaped3 1 1 4 (data merged_states)).
  { split; [reflexivity |]. repeat constructor. }
  assert (Hgate : shaped3 1 1 2 [[[1%R; 2%R]]]).
  { split; [reflexivity |]. repeat constructor. }
  split; [exact Hsh |].
  destruct (glu_gates_second_half LayerExample.act merged_states 1 1 2 Hsh
              ltac:(lia) ltac:(lia) ltac:(lia) Hgate)
    as (out & Hout & _ & Hshape & Hentry).
  exists out. split; [exact Hout |]. split; [exact Hshape |].
  destruct (Hentry 0 0 1 4%R ltac:(lia) eq_refl) as (g & _ & Hg).
  exists g. exact Hg.
Defined.

End MLPProperties.

Module LayerProperties.
Import ResultFacts ShapeFacts MonadFacts ForwardEval TensorFacts.

Lemma promote_same (d : dtype) : promote d d = d.
Proof. now destruct d. Qed.

Lemma zeros_shaped3 (a b c : nat) (x : tensor3) :
  shaped3 a b c x -> shaped3 a b c (map (map (map (fun _ => 0%R))) x).
Proof.
  apply shaped3_map_rows. intros row Hrow. now rewrite length_map.
Qed.

Lemma add_zeros_row (row : vec) :
  map2 Rplus (map (fun _ => 0%R) row) row = row.
Proof.
  induction row as [| v row IH]; [reflexivity |].
  cbn [map map2]. rewrite IH. f_equal. apply Rplus_0_l.
Qed.

Lemma add_zeros (x : tensor3) :
  map2 (map2 (map2 Rplus)) (map (map (map (fun _ => 0%R))) x) x = x.
Proof.
  induction x as [| xa x IH]; [reflexivity |].
  cbn [map map2]. rewrite IH. f_equal.
  induction xa as [| row xa IHa]; [reflexivity |].
  cbn [map map2]. now rewrite IHa, add_zeros_row.
Qed.

(** Adding a zero tensor of its own shape leaves a tensor as it is,
    values and dtype. *)
Lemma tensor_add_zeros (a b c : nat) (x : tensor tensor3) :
  shaped3 a b c (data x) -> tensor_add (zeros_like3 x) x = Ok x.
Proof.
  intros Hx. unfold tensor_add, zeros_like3. cbn [data dtype_of].
  rewrite (broadcast3_same_shape _ a b c) by (auto using zeros_shaped3).
  cbn [bind]. rewrite add_zeros, promote_same. now destruct x.
Qed.

Section Layer.

Variable qkv_proj : tensor tensor3 -> tensor tensor3.
Variable o_proj : tensor tensor3 -> tensor tensor3.
Variable flash_attn_varlen_func : varlen_args -> tensor3.
Variable flash_attn_with_kvcache : kvcache_args -> tensor4 * tensor4 * tensor4.
Variable unpad_input : tensor4 -> bool_mask -> tensor3 * list nat * list Z * nat.
Variable pad_input : tensor3 -> list nat -> nat -> nat -> tensor4.
Variable act : tensor tensor3 -> tensor tensor3.
Variable gate_up_proj : tensor tensor3 -> tensor tensor3.
Variable down_proj : tensor tensor3 -> tensor tensor3.
Variable input_layernorm : tensor tensor3 -> tensor tensor3.
Variable post_attention_layernorm : tensor tensor3 -> tensor tensor3.

Let attention := CausalSelfAttention_forward qkv_proj o_proj flash_attn_varlen_func
                   flash_attn_with_kvcache unpad_input pad_input.
Let layer := LlamaDecoderLayer_forward qkv_proj o_proj flash_attn_varlen_func
               flash_attn_with_kvcache unpad_input pad_input
               act gate_up_proj down_proj input_layernorm post_attention_layernorm.

(** What a returning attention call returns: the output projection of
    some tensor, and the mask. *)
Lemma attention_returns_projection
      (self : CausalSelfAttention) (hidden_states : tensor tensor3)
      (sequence_mask : bool_mask) (st st' : state)
      (r : tensor tensor3 * bool_mask) :
  attention self hidden_states sequence_mask st = (st', Ok r) ->
  exists x, r = (o_proj x, sequence_mask).
Proof.
  unfold attention, CausalSelfAttention_forward. intros H.
  apply bindM_Ok_inv in H as ([[q k] v] & s1 & _ & H).
  apply bindM_Ok_inv in H as (store & s2 & _ & H).
  apply bindM_Ok_inv in H as (ao & s3 & _ & H).
  apply bindM_Ok_inv in H as (ao' & s4 & _ & H).
  apply retM_inv in H as [_ H]. injection H as H. eexists. exact H.
Qed.

(** X17. The residual connections make a decoder layer with zero output
    projections the identity on the hidden states: when [o_proj] and
    [down_proj] return zeros of the hidden states' shape and dtype (zero
    weights), and the attention call and the gated activation run
    without error, the layer returns its hidden states and its mask
    unchanged, whatever the norms, the kernels and the other projections
    compute; the module state is the one the attention call leaves. *)
Theorem layer_identity_at_zero_projections
        (self : CausalSelfAttention) (hidden_states : tensor tensor3)
        (sequence_mask : bool_mask) (st st' : state)
        (attn_result : tensor tensor3 * bool_mask) (gated : tensor tensor3)
        (a b c : nat) :
  shaped3 a b c (data hidden_states) ->
  (forall x, o_proj x = zeros_like3 hidden_states) ->
  (forall x, down_proj x = zeros_like3 hidden_states) ->
  attention self (input_layernorm hidden_states) sequence_mask st
  = (st', Ok attn_result) ->
  GLUActivation_forward act (gate_up_proj (post_attention_layernorm hidden_states))
  = Return gated ->
  layer self hidden_states sequence_mask st
  = (st', Return (hidden_states, sequence_mask)).
Proof.
  intros Hx Ho Hdown Hattn Hglu.
  destruct (attention_returns_projection _ _ _ _ _ _ Hattn) as [x ->].
  rewrite Ho in Hattn.
  unfold layer, LlamaDecoderLayer_forward, bindMO, of_M, liftMO, retMO.
  fold attention. rewrite Hattn. cbn [of_result fst snd].
  rewrite (tensor_add_zeros a b c) by exact Hx. cbn [of_result].
  unfold MLP_forward. rewrite Hglu. cbn [obind]. rewrite Hdown.
  rewrite (tensor_add_zeros a b c) by exact Hx. reflexivity.
Qed.

End Layer.

Import Example.

(** Witness for X17: a prefill of two tokens through the example layer
    with zero projections. *)
Lemma layer_identity_at_zero_projections_witness :
  let st := state_with (Some empty_store) in
  exists st',
    LayerExample.forward attn two_tokens [[true; true]] st
    = (st', Return (two_tokens, [[true; true]])).
Proof.
  intros st.
  assert (Hx : shaped3 2 1 2 (data two_tokens)).
  { split; [reflexivity |]. repeat constructor. }
  assert (Hattn : exists st' r,
             CausalSelfAttention_forward
               qkv_proj LayerExample.zero_proj flash_attn_varlen_func
               flash_attn_with_kvcache unpad_input pad_input
               attn (LayerExample.rms_norm two_tokens) [[true; true]] st
             = (st', Ok r)).
  { eexists _, _. run. reflexivity. }
  destruct Hattn as (st' & r & Hattn).
  assert (Hglu : exists y,
             GLUActivation_forward LayerExample.act
               (LayerExample.gate_up_proj (LayerExample.rms_norm two_tokens))
             = Return y).
  { eexists. run. reflexivity. }
  destruct Hglu as [y Hglu].
  exists st'.
  exact (layer_identity_at_zero_projections
           qkv_proj LayerExample.zero_proj flash_attn_varlen_func
           flash_attn_with_kvcache unpad_input pad_input
           LayerExample.act LayerExample.gate_up_proj LayerExample.zero_proj
           LayerExample.rms_norm LayerExample.rms_norm
           attn two_tokens [[true; true]] st st' r y 2 1 2
           Hx (fun _ => eq_refl) (fun _ => eq_refl) Hattn Hglu).
Defined.

End LayerProperties.

(* ================================================================== *)
(** * The embedding's token counter *)

Module EmbeddingFacts.
Import ResultFacts PadToRightFacts MaskFacts ForwardEval RotationFacts.

Lemma wrap64_small (z : Z) : (- 2 ^ 63 <= z < 2 ^ 63)%Z -> wrap64 z = z.
Proof.
  intros H. unfold wrap64.
  rewrite Z.mod_small by lia. lia.
Qed.

Lemma last_entry_cons {A} (x : A) (l : list A) :
  l <> [] -> last_entry (x :: l) = last_entry l.
Proof.
  intros Hl. unfold last_entry. cbn [rev].
  destruct (rev l) as [| y r] eqn:E; [| reflexivity].
  apply (f_equal (@rev A)) in E. rewrite rev_involutive in E. now elim Hl.
Qed.

(** Without overflow the last running sum is the number of True entries. *)
Lemma cumsum64_last (row : list bool) (acc : Z) :
  row <> [] ->
  (0 <= acc)%Z -> (acc + Z.of_nat (length row) < 2 ^ 63)%Z ->
  last_entry (cumsum64 acc row) = Ok (acc + Z.of_nat (count_true row))%Z.
Proof.
  revert acc. induction row as [| b row IH]; intros acc Hne Hacc Hlen;
    [now elim Hne |].
  cbn [cumsum64 length] in *. rewrite Nat2Z.inj_succ in Hlen.
  assert (Hb : (0 <= b2z b <= 1)%Z) by (destruct b; simpl; lia).
  assert (Hc : (b2z b = Z.of_nat (if b then 1 else 0))%Z) by now destruct b.
  rewrite wrap64_small by lia. rewrite count_true_cons.
  destruct row as [| b' row].
  - unfold last_entry, count_true. simpl. f_equal. lia.
  - rewrite last_entry_cons by discriminate.
    rewrite IH; [f_equal; lia | discriminate | lia | lia].
Qed.

Lemma last_counts (input_mask : bool_mask) :
  Forall (fun mrow => mrow <> [] /\ (Z.of_nat (length mrow) < 2 ^ 63)%Z) input_mask ->
  sequence (map last_entry (map (cumsum64 0) input_mask))
  = Ok (map (fun mrow => Z.of_nat (count_true mrow)) input_mask).
Proof.
  induction 1 as [| mrow mask [Hne Hlen] _ IH]; [reflexivity |].
  cbn [map sequence]. rewrite cumsum64_last, IH by (auto; lia). reflexivity.
Qed.

Lemma last_counts_empty_row (input_mask : bool_mask) :
  In [] input_mask ->
  sequence (map last_entry (map (cumsum64 0) input_mask)) = Raise IndexError.
Proof.
  induction input_mask as [| mrow mask IH]; [intros [] |].
  intros [-> | Hin]; [reflexivity |].
  cbn [map sequence].
  destruct (last_entry (cumsum64 0 mrow)) as [x | e] eqn:E.
  - rewrite (IH Hin). reflexivity.
  - unfold last_entry in E. destruct (rev (cumsum64 0 mrow)); [| discriminate].
    now injection E as <-.
Qed.

Lemma map2_ext_Forall2 {A B C} (g g' : A -> B -> C) xs ys :
  Forall2 (fun x y => g x y = g' x y) xs ys -> map2 g xs ys = map2 g' xs ys.
Proof. induction 1; simpl; congruence. Qed.

Lemma map2_repeat_l {A B C} (g : A -> B -> C) (x : A) (ys : list B) :
  map2 g (repeat x (length ys)) ys = map (g x) ys.
Proof. induction ys as [| y ys IH]; simpl; [reflexivity | now rewrite IH]. Qed.

Lemma embedding_update
      (token_embedding : list (list Z) -> tensor tensor3)
      (input_ids : list (list Z)) (input_mask : bool_mask) (st : embedding_store)
      (past : list Z) :
  past = match past_length st with
         | Some past_length => past_length
         | None => repeat 0%Z (length input_ids)
         end ->
  Forall2 (fun p mrow =>
             mrow <> [] /\ (0 <= p)%Z /\ (p + Z.of_nat (length mrow) < 2 ^ 63)%Z)
          past input_mask ->
  Embedding_forward token_embedding input_ids input_mask (Some st)
  = (Some {| past_length :=
               Some (map2 (fun p mrow => (p + Z.of_nat (count_true mrow))%Z)
                          past input_mask) |},
     Ok (token_embedding (transpose01 (shape1 input_ids) input_ids))).
Proof.
  intros Hpast H. unfold Embedding_forward. rewrite <- Hpast.
  rewrite last_counts.
  2:{ clear - H. induction H as [| p mrow ps mask [Hne [Hp Hl]] _ IH];
        constructor; auto. split; [exact Hne | lia]. }
  cbn [bind].
  rewrite broadcast2_same_length.
  2:{ rewrite length_map. eapply Forall2_length; eauto. }
  rewrite sequence_map2_Ok. cbn [bind]. rewrite map2_map_r.
  do 4 f_equal. apply map2_ext_Forall2.
  eapply Forall2_impl; [| exact H].
  intros p mrow (_ & Hp & Hl). cbv beta.
  pose proof (count_true_le mrow). apply wrap64_small. lia.
Qed.

Lemma offsets_rows_nonempty (f : Z -> Z) (sequence_mask : bool_mask) (offs : list Z) :
  sequence (map last_entry
              (map (fun mrow => map f (cumsum32 0 mrow)) sequence_mask)) = Ok offs ->
  Forall (fun mrow => mrow <> []) sequence_mask.
Proof.
  revert offs. induction sequence_mask as [| mrow mask IH]; intros offs H;
    [constructor |].
  cbn [map sequence] in H.
  apply bind_Ok_inv in H as (x & Hx & H).
  apply bind_Ok_inv in H as (xs & Hxs & _).
  constructor; [| eapply IH; eauto].
  intros ->. discriminate Hx.
Qed.

Lemma Forall2_repeat_l {A B} (P : A -> B -> Prop) (x : A) (ys : list B) :
  Forall (P x) ys -> Forall2 P (repeat x (length ys)) ys.
Proof. induction 1; simpl; constructor; auto. Qed.

End EmbeddingFacts.

Module EmbeddingProperties.
Import ResultFacts PadToRightFacts MaskFacts ForwardEval OffsetFacts RotationFacts
       EmbeddingFacts.
Import ModelExample.

(** X18. With a store attached, [Embedding.forward] adds to each row's
    [past_length] the number of valid tokens of that row of the mask,
    starting from zero when the store has no counter yet, and returns the
    embedding of the transposed ids; nothing wraps as long as the counter
    plus the sequence length stays below 2^63. *)
Theorem embedding_counts_valid_tokens
        (token_embedding : list (list Z) -> tensor tensor3)
        (input_ids : list (list Z)) (input_mask : bool_mask) (st : embedding_store) :
  let past := match past_length st with
              | Some past_length => past_length
              | None => repeat 0%Z (length input_ids)
              end in
  Forall2 (fun p mrow =>
             mrow <> [] /\ (0 <= p)%Z /\ (p + Z.of_nat (length mrow) < 2 ^ 63)%Z)
          past input_mask ->
  Embedding_forward token_embedding input_ids input_mask (Some st)
  = (Some {| past_length :=
               Some (map2 (fun p mrow => (p + Z.of_nat (count_true mrow))%Z)
                          past input_mask) |},
     Ok (token_embedding (transpose01 (shape1 input_ids) input_ids))).
Proof. intros past H. now apply (embedding_update _ _ _ _ past). Qed.

(** Witness for X18: a decode step on two rows, the second one padding. *)
Lemma embedding_counts_valid_tokens_witness :
  let st := {| past_length := Some [3%Z; 5%Z] |} in
  Embedding_forward id_embedding [[7%Z]; [9%Z]] [[true]; [false]] (Some st)
  = (Some {| past_length := Some [4%Z; 5%Z] |},
     Ok (Tensor Float32 [[[7%R]; [9%R]]])).
Proof.
  intros st.
  apply (embedding_counts_valid_tokens id_embedding [[7%Z]; [9%Z]]
           [[true]; [false]] st).
  repeat constructor; try discriminate; simpl; lia.
Defined.

(** X19. The edges of [Embedding.forward].  Without a store the mask is
    not read: any mask gives the embedding.  With a store, a mask with an
    empty row (sequence length 0) fails with an IndexError, and a counter
    whose length neither is the mask's batch size nor broadcasts with it
    fails with a RuntimeError; in both cases the store is left as it
    was. *)
Theorem embedding_edges
        (token_embedding : list (list Z) -> tensor tensor3)
        (input_ids : list (list Z)) (input_mask : bool_mask) :
  Embedding_forward token_embedding input_ids input_mask None
  = (None, Ok (token_embedding (transpose01 (shape1 input_ids) input_ids)))
  /\ (forall st,
        In [] input_mask ->
        Embedding_forward token_embedding input_ids input_mask (Some st)
        = (Some st, Raise IndexError))
  /\ (forall st,
        let past := match past_length st with
                    | Some past_length => past_length
                    | None => repeat 0%Z (length input_ids)
                    end in
        ~ In [] input_mask ->
        length past <> length input_mask ->
        length past <> 1 -> length input_mask <> 1 ->
        Embedding_forward token_embedding input_ids input_mask (Some st)
        = (Some st, Raise RuntimeError)).
Proof.
  split; [reflexivity |]. split.
  - intros st Hin. unfold Embedding_forward.
    rewrite (last_counts_empty_row _ Hin). reflexivity.
  - intros st past Hne Hlen Hp1 Hm1. unfold Embedding_forward. fold past.
    assert (Hlast : exists last,
               sequence (map last_entry (map (cumsum64 0) input_mask)) = Ok last
               /\ length last = length input_mask).
    { clear - Hne. induction input_mask as [| mrow mask IH].
      - exists []. split; reflexivity.
      - destruct IH as (last & Hl & Hlen); [intros H; apply Hne; now right |].
        destruct mrow as [| b mrow]; [elim Hne; now left |].
        destruct (last_entry_nonempty (cumsum64 0 (b :: mrow))) as [x Hx];
          [discriminate |].
        exists (x :: last). cbn [map sequence]. rewrite Hx, Hl. simpl.
        split; [reflexivity | now rewrite Hlen]. }
    destruct Hlast as (last & -> & Hll). cbn [bind].
    unfold broadcast2. rewrite Hll.
    destruct (Nat.eqb_spec (length past) (length input_mask)) as [E | _];
      [contradiction |].
    destruct past as [| p [| p' past']]; simpl in Hp1; try lia;
      destruct last as [| c [| c' last']]; simpl in Hll; try lia; reflexivity.
Qed.

(** Witness for X19: a mask of sequence length 0. *)
Lemma embedding_edges_witness :
  let st := {| past_length := Some [3%Z] |} in
  Embedding_forward id_embedding [[]] [[]] (Some st) = (Some st, Raise IndexError).
Proof.
  intros st.
  apply (proj1 (proj2 (embedding_edges id_embedding [[]] [[]])) st).
  left. reflexivity.
Defined.

Section Counters.

Variable qkv_proj : tensor tensor3 -> tensor tensor3.
Variable o_proj : tensor tensor3 -> tensor tensor3.
Variable flash_attn_varlen_func : varlen_args -> tensor3.
Variable flash_attn_with_kvcache : kvcache_args -> tensor4 * tensor4 * tensor4.
Variable unpad_input : tensor4 -> bool_mask -> tensor3 * list nat * list Z * nat.
Variable pad_input : tensor3 -> list nat -> nat -> nat -> tensor4.

Let forward := CausalSelfAttention_forward qkv_proj o_proj flash_attn_varlen_func
                 flash_attn_with_kvcache unpad_input pad_input.

(** X20. The embedding's counter and the attention module's cache cursor
    advance together.  When both modules see the same mask and the
    attention call returns, then after a prefill (neither store has its
    entry yet) and after each decode step (one mask column, entries
    stored, [past_length] one more than [position_offsets] before the
    step), [past_length] is [position_offsets + 1] in every row: the
    embedding counts the tokens seen, the cursor points at the last one. *)
Theorem past_length_is_cursor_plus_one
        (self : CausalSelfAttention) (hidden_states : tensor tensor3)
        (token_embedding : list (list Z) -> tensor tensor3)
        (input_ids : list (list Z)) (input_mask : bool_mask)
        (st st' : state) (cache : store) (embedding_cache : embedding_store)
        (out : tensor tensor3 * bool_mask) :
  local_store st = Some cache ->
  forward self hidden_states input_mask st = (st', Ok out) ->
  length input_ids = length input_mask ->
  Forall (fun mrow => (Z.of_nat (length mrow) < 2 ^ 31)%Z) input_mask ->
  match position_offsets cache, past_length embedding_cache with
  | None, None => True
  | Some offsets, Some past =>
      past = map Z.succ offsets
      /\ length offsets = length input_mask
      /\ rows_have 1 input_mask = true
      /\ Forall (fun o => (-1 <= o)%Z /\ (o + 1 < 2 ^ 31)%Z) offsets
  | _, _ => False
  end ->
  exists offsets' k_cache v_cache,
    local_store st'
    = Some {| key := Some k_cache; value := Some v_cache;
              position_offsets := Some offsets' |}
    /\ Embedding_forward token_embedding input_ids input_mask (Some embedding_cache)
       = (Some {| past_length := Some (map Z.succ offsets') |},
          Ok (token_embedding (transpose01 (shape1 input_ids) input_ids))).
Proof.
  intros Hstore H Hids Hlen Hinv.
  destruct (inference_store_update qkv_proj o_proj flash_attn_varlen_func
              flash_attn_with_kvcache unpad_input pad_input
              self hidden_states input_mask st st' cache out Hstore H)
    as (pos & offsets' & k_cache & v_cache & Hpos & Hoffs & Hst & _).
  exists offsets', k_cache, v_cache. split; [exact Hst |].
  destruct (position_offsets cache) as [offsets |] eqn:Eo;
    destruct (past_length embedding_cache) as [past |] eqn:Ep; try contradiction.
  - (* a decode step *)
    destruct Hinv as (-> & Hl & Hrows & Hrange).
    rewrite decode_positions_eq in Hpos by exact Hl. injection Hpos as <-.
    apply decode_offsets in Hoffs; [| exact Hl | exact Hrows].
    apply rows_have_Forall in Hrows.
    assert (Hboth : Forall2 (fun o mrow =>
                               length mrow = 1
                               /\ (-1 <= o)%Z /\ (o + 1 < 2 ^ 31)%Z)
                            offsets input_mask).
    { clear - Hl Hrows Hrange. revert input_mask Hl Hrows.
      induction Hrange as [| o offs Ho _ IH]; intros [| mrow mask] Hl Hrows;
        simpl in Hl; try discriminate; constructor; inversion Hrows; subst; auto. }
    rewrite (embedding_update _ _ _ _ (map Z.succ offsets)).
    + do 4 f_equal. subst offsets'. rewrite map2_map_l.
      clear - Hboth. induction Hboth as [| o mrow offs mask (Hm & Ho1 & Ho2) _ IH];
        [reflexivity |].
      cbn [map2 map]. rewrite IH. f_equal.
      destruct mrow as [| m [| ? ?]]; try discriminate Hm.
      cbn [hd]. rewrite wrap32_small by (destruct m; simpl; lia).
      destruct m; unfold count_true; simpl; lia.
    + now rewrite Ep.
    + clear - Hboth. induction Hboth as [| o mrow offs mask (Hm & Ho1 & Ho2) _ IH];
        simpl; constructor; auto.
      split; [intros ->; discriminate Hm |]. rewrite Hm. lia.
  - (* a prefill *)
    injection Hpos as <-.
    pose proof (offsets_rows_nonempty _ _ _ Hoffs) as Hne.
    apply prefill_offsets in Hoffs; [| exact Hlen].
    rewrite (embedding_update _ _ _ _ (repeat 0%Z (length input_mask))).
    + do 4 f_equal. rewrite map2_repeat_l. subst offsets'. rewrite map_map.
      apply map_ext. intros mrow. lia.
    + now rewrite Ep, Hids.
    + apply Forall2_repeat_l.
      clear - Hne Hlen. induction Hne as [| mrow mask Hm _ IH]; constructor;
        inversion Hlen; subst; auto.
      split; [exact Hm |]. lia.
Qed.

End Counters.

(** Witness for X20: a prefill of two tokens, the first one padding. *)
Lemma past_length_is_cursor_plus_one_witness :
  let st := Example.state_with (Some empty_store) in
  let input_mask := [[false; true]] in
  exists st' out offsets' k_cache v_cache,
    Example.forward Example.attn Example.two_tokens input_mask st = (st', Ok out)
    /\ local_store st'
       = Some {| key := Some k_cache; value := Some v_cache;
                 position_offsets := Some offsets' |}
    /\ fst (Embedding_forward id_embedding [[7%Z; 9%Z]] input_mask
                              (Some {| past_length := None |}))
       = Some {| past_length := Some (map Z.succ offsets') |}.
Proof.
  intros st input_mask. eexists _, _.
  match goal with
  | |- exists o k v, ?A /\ _ => assert (H : A) by (run; reflexivity)
  end.
  destruct (past_length_is_cursor_plus_one
              Example.qkv_proj Example.o_proj Example.flash_attn_varlen_func
              Example.flash_attn_with_kvcache Example.unpad_input
              Example.pad_input
              Example.attn Example.two_tokens id_embedding [[7%Z; 9%Z]] input_mask
              st _ empty_store {| past_length := None |} _
              eq_refl H eq_refl
              ltac:(repeat constructor) I)
    as (offsets' & k_cache & v_cache & Hst & Hemb).
  exists offsets', k_cache, v_cache. split; [exact H |]. split; [exact Hst |].
  rewrite Hemb. reflexivity.
Defined.

End EmbeddingProperties.

(* ================================================================== *)
(** * The masked mean of the loss *)

Module LossFacts.
Import ResultFacts PadToRightFacts MaskFacts ForwardEval SplitFacts.

Lemma total_app (l1 l2 : list R) : total (l1 ++ l2) = (total l1 + total l2)%R.
Proof. unfold total. induction l1 as [| x l1 IH]; simpl; [lra | rewrite IH; lra]. Qed.

Lemma total_cons (x : R) (l : list R) : total (x :: l) = (x + total l)%R.
Proof. reflexivity. Qed.

Lemma total_abs_nonneg (l : list R) : (0 <= total (map Rabs l))%R.
Proof.
  induction l as [| x l IH]; [simpl; lra |].
  cbn [map]. rewrite total_cons. pose proof (Rabs_pos x). lra.
Qed.

Lemma total_abs (l : list R) : (Rabs (total l) <= total (map Rabs l))%R.
Proof.
  induction l as [| x l IH].
  - simpl. rewrite Rabs_R0. lra.
  - cbn [map]. rewrite !total_cons. pose proof (Rabs_triang x (total l)). lra.
Qed.

Lemma total_nonneg (l : list R) : Forall (fun x => (0 <= x)%R) l -> (0 <= total l)%R.
Proof.
  induction 1 as [| x l Hx _ IH]; [simpl; lra |]. rewrite total_cons. lra.
Qed.

(** ** The masked product *)

Lemma masked_row_total (g : R -> R) (row : list R) (mrow : list bool) :
  g 0%R = 0%R ->
  total (map g (map2 (fun l m => (l * b2r m)%R) row mrow))
  = total (map g (select_row row mrow)).
Proof.
  intros Hg. revert mrow.
  induction row as [| x row IH]; intros [| b mrow]; try reflexivity.
  cbn [map2 select_row]. destruct b; cbn [map b2r]; rewrite !total_cons, IH.
  - now rewrite Rmult_1_r.
  - rewrite Rmult_0_r, Hg. lra.
Qed.

(** The entries the mask drops enter the sum as zeros. *)
Lemma masked_total (g : R -> R) (loss : tensor2) (label_mask : bool_mask) :
  g 0%R = 0%R ->
  total (map g (concat (map2 (map2 (fun l m => (l * b2r m)%R)) loss label_mask)))
  = total (map g (select_rows loss label_mask)).
Proof.
  intros Hg. revert label_mask.
  induction loss as [| row loss IH]; intros [| mrow mask]; try reflexivity.
  cbn [map2 concat select_rows].
  rewrite !map_app, !total_app, IH, (masked_row_total g _ _ Hg). reflexivity.
Qed.

Lemma masked_row_nonneg (row : list R) (mrow : list bool) :
  Forall (fun x => (0 <= x)%R) (select_row row mrow) ->
  Forall (fun x => (0 <= x)%R) (map2 (fun l m => (l * b2r m)%R) row mrow).
Proof.
  revert mrow. induction row as [| x row IH]; intros [| b mrow] H;
    try constructor.
  - cbn [select_row] in H. destruct b; cbn [b2r].
    + inversion H; subst. lra.
    + lra.
  - apply IH. cbn [select_row] in H. destruct b; [now inversion H | exact H].
Qed.

Lemma masked_nonneg (loss : tensor2) (label_mask : bool_mask) :
  Forall (fun x => (0 <= x)%R) (select_rows loss label_mask) ->
  Forall (fun x => (0 <= x)%R)
         (concat (map2 (map2 (fun l m => (l * b2r m)%R)) loss label_mask)).
Proof.
  revert label_mask. induction loss as [| row loss IH]; intros [| mrow mask] H;
    try constructor.
  cbn [map2 concat select_rows] in *. apply Forall_app in H as [H1 H2].
  apply Forall_app. split; [now apply masked_row_nonneg | now apply IH].
Qed.

Lemma masked_product (b s : nat) (loss : tensor2) (label_mask : bool_mask) :
  has_shape2 b s loss = true -> has_shape2 b s label_mask = true ->
  broadcast2 (fun lrow mrow => broadcast2 (fun l m => Ok (l * b2r m)%R) lrow mrow)
             loss label_mask
  = Ok (map2 (map2 (fun l m => (l * b2r m)%R)) loss label_mask).
Proof.
  unfold has_shape2. intros Hl Hm.
  apply andb_true_iff in Hl as [Hlb Hls], Hm as [Hmb Hms].
  apply Nat.eqb_eq in Hlb, Hmb.
  apply rows_have_Forall in Hls, Hms.
  rewrite broadcast2_same_length by congruence.
  assert (Hgen : forall loss mask,
             length loss = length mask ->
             Forall (fun row => length row = s) loss ->
             Forall (fun row => length row = s) mask ->
             sequence (map2 (fun lrow mrow =>
                               broadcast2 (fun l m => Ok (l * b2r m)%R) lrow mrow)
                            loss mask)
             = Ok (map2 (map2 (fun l m => (l * b2r m)%R)) loss mask)).
  { clear. induction loss as [| row loss IH]; intros [| mrow mask] Hlen Hl Hm;
      simpl in Hlen; try discriminate; [reflexivity |].
    inversion Hl; inversion Hm; subst. cbn [map2 sequence].
    rewrite broadcast2_same_length by congruence.
    rewrite sequence_map2_Ok. cbn [bind]. rewrite IH by (auto; lia). reflexivity. }
  apply Hgen; [congruence | exact Hls | exact Hms].
Qed.

Lemma length_select_row {A} (row : list A) (mrow : list bool) :
  length row = length mrow -> length (select_row row mrow) = count_true mrow.
Proof.
  revert mrow. induction row as [| x row IH]; intros [| b mrow] H;
    simpl in H; try discriminate; [reflexivity |].
  rewrite count_true_cons. cbn [select_row].
  destruct b; simpl; rewrite IH by lia; reflexivity.
Qed.

Lemma length_select_rows {A} (s : nat) (t : list (list A)) (m : bool_mask) :
  length t = length m ->
  Forall (fun row => length row = s) t -> Forall (fun row => length row = s) m ->
  length (select_rows t m) = count_all m.
Proof.
  revert m. induction t as [| row t IH]; intros [| mrow m] Hlen Ht Hm;
    simpl in Hlen; try discriminate; [reflexivity |].
  inversion Ht; inversion Hm; subst.
  cbn [select_rows]. rewrite length_app, length_select_row, IH by (auto; lia).
  reflexivity.
Qed.

Lemma selected_count (b s : nat) (loss : tensor2) (label_mask : bool_mask) :
  has_shape2 b s loss = true -> has_shape2 b s label_mask = true ->
  length (select_rows loss label_mask) = count_all label_mask.
Proof.
  unfold has_shape2. intros Hl Hm.
  apply andb_true_iff in Hl as [Hlb Hls], Hm as [Hmb Hms].
  apply Nat.eqb_eq in Hlb, Hmb. apply rows_have_Forall in Hls, Hms.
  apply (length_select_rows s); congruence.
Qed.

Lemma total_bounds (lo hi : R) (l : list R) :
  Forall (fun x => (lo <= x <= hi)%R) l ->
  (lo * INR (length l) <= total l <= hi * INR (length l))%R.
Proof.
  induction 1 as [| x l Hx _ IH].
  - simpl. lra.
  - rewrite total_cons.
    change (length (x :: l)) with (S (length l)). rewrite S_INR. lra.
Qed.

(** ** Sums in a float dtype *)

Lemma max_finite_pos (dt : dtype) : (0 < max_finite dt)%R.
Proof. destruct dt; apply IZR_lt; reflexivity. Qed.

Lemma as_float_finite (dt : dtype) (x : R) :
  (Rabs x <= max_finite dt)%R -> as_float dt x = Finite x.
Proof.
  intros H. unfold as_float. destruct (Rle_dec _ _); [reflexivity | contradiction].
Qed.

Lemma as_float_overflow (dt : dtype) (x : R) :
  (0 <= x)%R -> (max_finite dt < x)%R -> as_float dt x = Inf false.
Proof.
  intros H0 H. unfold as_float. rewrite (Rabs_right x) by lra.
  destruct (Rle_dec _ _); [lra |]. destruct (Rlt_dec x 0); [lra | reflexivity].
Qed.

(** As long as the magnitudes add up to a finite value of the dtype, no
    partial sum overflows, in whatever order: the sum is the real sum. *)
Lemma float_sum_exact (dt : dtype) (xs : list R) (acc : R) :
  (Rabs acc + total (map Rabs xs) <= max_finite dt)%R ->
  fold_left (float_add dt) (map (as_float dt) xs) (Finite acc)
  = Finite (acc + total xs).
Proof.
  revert acc. induction xs as [| x xs IH]; intros acc H.
  - simpl. f_equal. lra.
  - cbn [map] in *. rewrite total_cons in *.
    pose proof (total_abs_nonneg xs). pose proof (Rabs_pos acc).
    pose proof (Rabs_pos x). pose proof (Rabs_triang acc x).
    cbn [fold_left]. rewrite (as_float_finite dt x) by lra.
    cbn [float_add]. rewrite (as_float_finite dt (acc + x)) by lra.
    rewrite IH by lra. f_equal. lra.
Qed.

Lemma float_sum_stays_inf (dt : dtype) (xs : list R) :
  Forall (fun x => (0 <= x)%R) xs ->
  fold_left (float_add dt) (map (as_float dt) xs) (Inf false) = Inf false.
Proof.
  induction 1 as [| x xs Hx _ IH]; [reflexivity |].
  cbn [map fold_left].
  assert (Hstep : float_add dt (Inf false) (as_float dt x) = Inf false).
  { unfold as_float.
    destruct (Rle_dec (Rabs x) (max_finite dt)); [reflexivity |].
    destruct (Rlt_dec x 0); [lra | reflexivity]. }
  rewrite Hstep. exact IH.
Qed.

(** Non-negative entries whose real sum is beyond the dtype's largest
    finite value sum to +inf, in whatever order. *)
Lemma float_sum_overflow (dt : dtype) (xs : list R) (acc : R) :
  Forall (fun x => (0 <= x)%R) xs ->
  (0 <= acc <= max_finite dt)%R ->
  (max_finite dt < acc + total xs)%R ->
  fold_left (float_add dt) (map (as_float dt) xs) (Finite acc) = Inf false.
Proof.
  intros Hxs. revert acc. induction Hxs as [| x xs Hx Hxs IH]; intros acc Hacc H.
  - simpl in H. lra.
  - rewrite total_cons in H. cbn [map fold_left].
    destruct (Rle_dec x (max_finite dt)) as [Hle | Hgt].
    + rewrite (as_float_finite dt x) by (rewrite Rabs_right; lra).
      cbn [float_add].
      destruct (Rle_dec (acc + x) (max_finite dt)) as [Hle' | Hgt'].
      * rewrite (as_float_finite dt (acc + x)) by (rewrite Rabs_right; lra).
        apply IH; lra.
      * rewrite (as_float_overflow dt (acc + x)) by lra.
        now apply float_sum_stays_inf.
    + rewrite (as_float_overflow dt x) by lra.
      cbn [float_add]. now apply float_sum_stays_inf.
Qed.

Lemma count_as_int64 (n : nat) :
  (Z.of_nat n < 2 ^ 63)%Z -> wrap64 (Z.of_nat n) = Z.of_nat n.
Proof. intros H. unfold wrap64. rewrite Z.mod_small by lia. lia. Qed.

(** Without overflow the masked sum is the real sum of the selected
    entries. *)
Lemma masked_mean_eq (b s : nat) (loss : tensor2) (label_mask : bool_mask) (dt : dtype) :
  has_shape2 b s loss = true -> has_shape2 b s label_mask = true ->
  (Z.of_nat (count_all label_mask) < 2 ^ 63)%Z ->
  (total (map Rabs (select_rows loss label_mask)) <= max_finite dt)%R ->
  masked_mean loss label_mask dt
  = Ok (Tensor dt (float_div dt (Finite (total (select_rows loss label_mask)))
                             (Z.of_nat (count_all label_mask)))).
Proof.
  intros Hl Hm Hc Hfit. unfold masked_mean.
  rewrite (masked_product b s) by assumption. cbn [bind].
  rewrite count_as_int64 by exact Hc. unfold sum_all.
  rewrite float_sum_exact.
  2:{ rewrite (masked_total Rabs) by apply Rabs_R0. rewrite Rabs_R0. lra. }
  pose proof (masked_total (fun x => x) loss label_mask eq_refl) as Ht.
  rewrite !map_id in Ht. rewrite Ht, Rplus_0_l. reflexivity.
Qed.

(** The mean over the selected positions, with its bounds, and the
    overflow of a non-negative loss. *)
Lemma masked_mean_selected
      (b s : nat) (loss : tensor2) (label_mask : bool_mask) (dtype : dtype) :
  has_shape2 b s loss = true -> has_shape2 b s label_mask = true ->
  0 < count_all label_mask ->
  (Z.of_nat (count_all label_mask) < 2 ^ 63)%Z ->
  let selected := select_rows loss label_mask in
  let mean := (total selected / INR (count_all label_mask))%R in
  length selected = count_all label_mask
  /\ ((total (map Rabs selected) <= max_finite dtype)%R ->
      masked_mean loss label_mask dtype = Ok (Tensor dtype (Finite mean))
      /\ forall lo hi,
           Forall (fun x => (lo <= x <= hi)%R) selected -> (lo <= mean <= hi)%R)
  /\ (Forall (fun x => (0 <= x)%R) selected ->
      (max_finite dtype < total selected)%R ->
      masked_mean loss label_mask dtype = Ok (Tensor dtype (Inf false))).
Proof.
  intros Hl Hm Hpos Hc selected mean.
  assert (Hn : (1 <= INR (count_all label_mask))%R).
  { change 1%R with (INR 1). apply le_INR. lia. }
  assert (Hlen : length selected = count_all label_mask)
    by now apply (selected_count b s).
  assert (Hinv : (0 < / INR (count_all label_mask) <= 1)%R).
  { split; [apply Rinv_0_lt_compat; lra |].
    rewrite <- Rinv_1. apply Rinv_le_contravar; lra. }
  split; [exact Hlen |]. split.
  - intros Hfit. split.
    + rewrite (masked_mean_eq b s) by assumption. fold selected.
      unfold float_div.
      destruct (Z.eqb_spec (Z.of_nat (count_all label_mask)) 0) as [E | _]; [lia |].
      rewrite <- INR_IZR_INZ. fold mean.
      rewrite as_float_finite; [reflexivity |].
      pose proof (total_abs selected). pose proof (Rabs_pos (total selected)).
      unfold mean, Rdiv. rewrite Rabs_mult, (Rabs_right (/ _)) by lra.
      assert (Rabs (total selected) * / INR (count_all label_mask)
              <= Rabs (total selected) * 1)%R
        by (apply Rmult_le_compat_l; lra).
      lra.
    + intros lo hi Hall. apply total_bounds in Hall. rewrite Hlen in Hall.
      subst mean. unfold Rdiv. split.
      * apply Rmult_le_reg_r with (r := INR (count_all label_mask)); [lra |].
        rewrite Rmult_assoc, Rinv_l by lra. lra.
      * apply Rmult_le_reg_r with (r := INR (count_all label_mask)); [lra |].
        rewrite Rmult_assoc, Rinv_l by lra. lra.
  - intros Hnonneg Hbig. unfold masked_mean.
    rewrite (masked_product b s) by assumption. cbn [bind].
    rewrite count_as_int64 by exact Hc. unfold sum_all.
    rewrite float_sum_overflow.
    + unfold float_div.
      destruct (Z.ltb_spec (Z.of_nat (count_all label_mask)) 0); [lia | reflexivity].
    + now apply masked_nonneg.
    + pose proof (max_finite_pos dtype). lra.
    + pose proof (masked_total (fun x => x) loss label_mask eq_refl) as Ht.
      rewrite !map_id in Ht. rewrite Ht. fold selected. lra.
Qed.

End LossFacts.

Module LossProperties.
Import ResultFacts PadToRightFacts MaskFacts ForwardEval SplitFacts LossFacts.

(** X21. When no label is selected (the mask is all False, or the batch
    is empty), [masked_mean] divides zero by zero: the result is NaN,
    whatever the loss values. *)
Theorem masked_mean_of_nothing_is_nan
        (b s : nat) (loss : tensor2) (label_mask : bool_mask) (dtype : dtype) :
  has_shape2 b s loss = true -> has_shape2 b s label_mask = true ->
  count_all label_mask = 0 ->
  masked_mean loss label_mask dtype = Ok (Tensor dtype NaN).
Proof.
  intros Hl Hm Hc.
  assert (Hnil : select_rows loss label_mask = []).
  { apply length_zero_iff_nil. rewrite <- Hc. now apply (selected_count b s). }
  rewrite (masked_mean_eq b s); try assumption.
  - rewrite Hnil, Hc. unfold float_div. cbn [total fold_right Z.of_nat Z.eqb].
    destruct (Req_EM_T 0 0) as [_ | H]; [reflexivity | now elim H].
  - rewrite Hc. reflexivity.
  - rewrite Hnil. cbn [map total fold_right].
    pose proof (max_finite_pos dtype). lra.
Qed.

(** Witness for X21: one row, both labels masked. *)
Lemma masked_mean_of_nothing_is_nan_witness :
  masked_mean [[1%R; 2%R]] [[false; false]] Float32 = Ok (Tensor Float32 NaN).
Proof.
  apply (masked_mean_of_nothing_is_nan 1 2); reflexivity.
Defined.

(** X22. With at least one selected label, as long as the magnitudes of
    the selected entries add up to a finite value of the dtype asked for,
    [masked_mean] is the arithmetic mean of the loss at the selected
    positions: the entries where the mask is False do not enter it, and it
    lies between any bounds of the selected entries.  When the selected
    entries are non-negative and their sum is beyond the dtype's largest
    finite value, the result is +inf. *)
Theorem masked_mean_is_mean_of_selected
        (b s : nat) (loss : tensor2) (label_mask : bool_mask) (dtype : dtype) :
  has_shape2 b s loss = true -> has_shape2 b s label_mask = true ->
  0 < count_all label_mask ->
  (Z.of_nat (count_all label_mask) < 2 ^ 63)%Z ->
  let selected := select_rows loss label_mask in
  let mean := (total selected / INR (count_all label_mask))%R in
  length selected = count_all label_mask
  /\ ((total (map Rabs selected) <= max_finite dtype)%R ->
      masked_mean loss label_mask dtype = Ok (Tensor dtype (Finite mean))
      /\ forall lo hi,
           Forall (fun x => (lo <= x <= hi)%R) selected -> (lo <= mean <= hi)%R)
  /\ (Forall (fun x => (0 <= x)%R) selected ->
      (max_finite dtype < total selected)%R ->
      masked_mean loss label_mask dtype = Ok (Tensor dtype (Inf false))).
Proof. apply masked_mean_selected. Qed.

(** Witness for X22: the masked entry, 100, does not enter the mean; and
    two float32 entries of 3e38 sum to +inf. *)
Lemma masked_mean_is_mean_of_selected_witness :
  masked_mean [[1%R; 100%R]; [2%R; 3%R]] [[true; false]; [true; true]] Float32
  = Ok (Tensor Float32 (Finite (total [1%R; 2%R; 3%R] / INR 3)%R))
  /\ masked_mean [[3e38%R; 3e38%R]] [[true; true]] Float32
     = Ok (Tensor Float32 (Inf false)).
Proof.
  split.
  - destruct (masked_mean_is_mean_of_selected 2 2
                [[1%R; 100%R]; [2%R; 3%R]] [[true; false]; [true; true]] Float32
                eq_refl eq_refl ltac:(cbv; lia) eq_refl) as (_ & Hmean & _).
    apply Hmean. cbn [select_rows select_row app map total fold_right].
    rewrite !Rabs_right by lra.
    apply Rle_trans with (r2 := IZR 6); [simpl; lra |].
    apply IZR_le. intros H. discriminate H.
  - destruct (masked_mean_is_mean_of_selected 1 2
                [[3e38%R; 3e38%R]] [[true; true]] Float32
                eq_refl eq_refl ltac:(cbv; lia) eq_refl) as (_ & _ & Hinf).
    apply Hinf.
    + repeat constructor; lra.
    + cbn [select_rows select_row app total fold_right max_finite].
      apply Rlt_le_trans with (r2 := IZR (6 * 10 ^ 38)).
      * apply IZR_lt. reflexivity.
      * rewrite mult_IZR. lra.
Defined.

Lemma In_select_row {A} (x : A) (row : list A) (mrow : list bool) :
  In x (select_row row mrow) -> In x row.
Proof.
  revert mrow. induction row as [| y row IH]; intros [| b mrow]; simpl; try tauto.
  destruct b; simpl; intros H.
  - destruct H as [-> | H]; [now left | right; eauto].
  - right. eauto.
Qed.

Lemma In_select_rows {A} (x : A) (t : list (list A)) (m : bool_mask) :
  In x (select_rows t m) -> exists row, In row t /\ In x row.
Proof.
  revert m. induction t as [| row t IH]; intros [| mrow m]; simpl; try tauto.
  rewrite in_app_iff. intros [H | H].
  - exists row. split; [now left | eapply In_select_row; eauto].
  - destruct (IH _ H) as (row' & Hr & Hx). exists row'. auto.
Qed.

Lemma In_column {A} (x : A) (j : nat) (t : list (list A)) :
  In x (column j t) -> exists row, In row t /\ In x row.
Proof.
  unfold column. rewrite in_flat_map. intros (row & Hrow & Hx).
  exists row. split; [exact Hrow |].
  destruct (nth_error row j) as [y |] eqn:E; [| destruct Hx].
  destruct Hx as [<- | []]. eapply nth_error_In; eauto.
Qed.

Lemma transpose01_has_shape2 {A} (s b : nat) (t : list (list A)) :
  has_shape2 s b t = true -> 0 < s ->
  shape1 t = b /\ has_shape2 b s (transpose01 b t) = true.
Proof.
  unfold has_shape2. intros H Hs.
  apply andb_true_iff in H as [Hlen Hrows].
  apply Nat.eqb_eq in Hlen. apply rows_have_Forall in Hrows.
  split.
  - destruct t as [| row t]; simpl in *; [lia |]. now inversion Hrows.
  - apply andb_true_iff. split.
    + apply Nat.eqb_eq. unfold transpose01. now rewrite length_map, length_seq.
    + apply rows_have_Forall. unfold transpose01.
      apply Forall_map, Forall_forall. intros j Hj. apply in_seq in Hj.
      apply (column_shape j s b t (fun _ => True)); [exact Hlen | | lia].
      eapply Forall_impl; [| exact Hrows]. intros row Hr. split; [exact Hr |].
      apply Forall_forall. auto.
Qed.

Lemma selected_from (P : R -> Prop) (b : nat) (per_token : tensor2)
      (label_mask : bool_mask) :
  Forall (Forall P) per_token ->
  Forall P (select_rows (transpose01 b per_token) label_mask).
Proof.
  intros Hall. apply Forall_forall. intros x Hx.
  apply In_select_rows in Hx as (col & Hcol & Hx).
  unfold transpose01 in Hcol. apply in_map_iff in Hcol as (j & <- & _).
  apply In_column in Hx as (row & Hrow & Hx).
  rewrite Forall_forall in Hall. specialize (Hall _ Hrow).
  rewrite Forall_forall in Hall. now apply Hall.
Qed.

Section LossForward.

Variable sharded_cross_entropy : tensor tensor3 -> list (list Z) -> tensor2.

(** X23. [Loss.forward] returns a float32 scalar.  With at least one
    selected label and per-token cross entropies (computed in
    [seq, batch] layout and transposed back) between 0 and [hi], where
    [hi] times the number of selected labels is a finite float32 value,
    it is the mean of the per-token values over the selected positions,
    and lies between any bounds of the per-token values.  When the
    per-token values are non-negative and those selected sum beyond the
    largest finite float32 value, the loss is +inf. *)
Theorem loss_is_mean_cross_entropy
        (sharded_logits : tensor tensor3) (label_ids : list (list Z))
        (label_mask : bool_mask) (b s : nat) (hi : R) :
  let per_token := sharded_cross_entropy
                     sharded_logits (transpose01 (shape1 label_ids) label_ids) in
  let selected := select_rows (transpose01 b per_token) label_mask in
  has_shape2 s b per_token = true ->
  has_shape2 b s label_mask = true ->
  0 < count_all label_mask ->
  (Z.of_nat (count_all label_mask) < 2 ^ 63)%Z ->
  Forall (Forall (fun x => (0 <= x)%R)) per_token ->
  (Forall (Forall (fun x => (x <= hi)%R)) per_token ->
   (hi * INR (count_all label_mask) <= max_finite Float32)%R ->
   exists loss,
     Loss_forward sharded_cross_entropy sharded_logits label_ids label_mask
     = Ok (Tensor Float32 (Finite loss))
     /\ (loss * INR (count_all label_mask) = total selected)%R
     /\ forall lo hi',
          Forall (Forall (fun x => (lo <= x <= hi')%R)) per_token ->
          (lo <= loss <= hi')%R)
  /\ ((max_finite Float32 < total selected)%R ->
      Loss_forward sharded_cross_entropy sharded_logits label_ids label_mask
      = Ok (Tensor Float32 (Inf false))).
Proof.
  intros per_token selected Hce Hm Hpos Hc Hnonneg.
  assert (Hs : 0 < s).
  { destruct s; [| lia]. exfalso.
    unfold has_shape2 in Hm. apply andb_true_iff in Hm as [_ Hms].
    apply rows_have_Forall in Hms.
    assert (count_all label_mask = 0); [| lia].
    clear - Hms. unfold count_all.
    induction Hms as [| mrow mask Hr _ IH]; [reflexivity |].
    change (list_sum (map count_true (mrow :: mask)))
      with (count_true mrow + list_sum (map count_true mask)).
    rewrite IH. destruct mrow; [reflexivity | discriminate]. }
  destruct (transpose01_has_shape2 s b per_token Hce Hs) as [Hsh Ht].
  destruct (masked_mean_selected b s (transpose01 b per_token)
              label_mask Float32 Ht Hm Hpos Hc) as (Hlen & Hmean & Hinf).
  fold selected in Hlen, Hmean, Hinf.
  assert (Hsel0 : Forall (fun x => (0 <= x)%R) selected)
    by now apply selected_from.
  split.
  - intros Hhi Hfit.
    assert (Hselhi : Forall (fun x => (0 <= x <= hi)%R) selected).
    { apply (selected_from (fun x => (0 <= x <= hi)%R)).
      clear - Hnonneg Hhi. induction Hnonneg as [| row t H0 _ IH];
        [constructor |].
      inversion Hhi as [| ? ? H1 H2]; subst. constructor; [| now apply IH].
      clear - H0 H1. induction H0 as [| x row Hx _ IH]; [constructor |].
      inversion H1; subst. constructor; [lra | now apply IH]. }
    destruct Hmean as [Hmean Hbounds].
    { replace (map Rabs selected) with selected.
      - apply total_bounds in Hselhi. rewrite Hlen in Hselhi. lra.
      - clear - Hsel0. induction Hsel0 as [| x l Hx _ IH]; [reflexivity |].
        cbn [map]. rewrite <- IH, Rabs_right by lra. reflexivity. }
    eexists. split; [| split].
    + unfold Loss_forward. fold per_token. rewrite Hsh. exact Hmean.
    + field. apply not_0_INR. lia.
    + intros lo hi' Hall. apply Hbounds.
      now apply (selected_from (fun x => (lo <= x <= hi')%R)).
  - intros Hbig. unfold Loss_forward. fold per_token. rewrite Hsh.
    now apply Hinf.
Qed.

End LossForward.

(** Witness for X23: one row of two labels, the first one masked. *)
Lemma loss_is_mean_cross_entropy_witness :
  exists loss,
    Loss_forward ModelExample.label_cross_entropy (Tensor Float32 [])
                 [[1%Z; 2%Z]] [[false; true]]
    = Ok (Tensor Float32 (Finite loss))
    /\ (1 <= loss <= 2)%R.
Proof.
  destruct (loss_is_mean_cross_entropy ModelExample.label_cross_entropy
              (Tensor Float32 []) [[1%Z; 2%Z]] [[false; true]] 1 2 2
              eq_refl eq_refl ltac:(cbv; lia) eq_refl
              ltac:(repeat constructor; simpl; lra)) as [Hfinite _].
  destruct Hfinite as (loss & Hloss & _ & Hbounds).
  - repeat constructor; simpl; lra.
  - apply Rle_trans with (r2 := IZR 2); [simpl; lra |].
    apply IZR_le. intros H. discriminate H.
  - exists loss. split; [exact Hloss |].
    apply Hbounds. repeat constructor; simpl; lra.
Defined.

End LossProperties.

(* ================================================================== *)
(** * Flop counts and block costs *)

Module FlopsProperties.
Import ResultFacts ModelExample.

Lemma py_floordiv_Return (a b : Z) :
  b <> 0%Z -> py_floordiv a b = Return (a / b)%Z.
Proof.
  intros H. unfold py_floordiv.
  destruct (Z.eqb_spec b 0); [contradiction | reflexivity].
Qed.

Lemma exact_division (h a : Z) : a <> 0%Z -> (h mod a = 0)%Z -> (a * (h / a) = h)%Z.
Proof. intros Ha Hm. pose proof (Z.div_mod h a Ha). lia. Qed.

(** X24. When the number of heads divides the hidden size, [get_flops]
    returns the closed forms: with [k] key/value heads of width
    [hidden_size / num_heads] ([k = num_heads] when not given), the model
    flops are [6 b s h (L (2h + 2 k h/a + 2s + 3f) + V)], and the hardware
    flops add the recomputed forward flops: nothing without recomputation,
    the two sequence-quadratic terms [4 L b s^2 h] for SELECTIVE, the whole
    decoder forward pass for FULL. *)
Theorem get_flops_closed_form
        (num_layers hidden_size num_heads : Z) (num_key_value_heads : option Z)
        (vocab_size seq_len ffn_hidden_size batch_size : Z) :
  num_heads <> 0%Z ->
  (hidden_size mod num_heads = 0)%Z ->
  let k := match num_key_value_heads with Some k => k | None => num_heads end in
  let kv_width := (k * (hidden_size / num_heads))%Z in
  let decoder_flops_fwd :=
    (2 * num_layers * batch_size * seq_len * hidden_size
     * (2 * hidden_size + 2 * kv_width + 2 * seq_len + 3 * ffn_hidden_size))%Z in
  let model_flops :=
    (6 * batch_size * seq_len * hidden_size
     * (num_layers * (2 * hidden_size + 2 * kv_width + 2 * seq_len + 3 * ffn_hidden_size)
        + vocab_size))%Z in
  let flops := get_flops num_layers hidden_size num_heads num_key_value_heads
                         vocab_size seq_len ffn_hidden_size batch_size in
  flops GNone = Return (model_flops, model_flops)
  /\ flops (GEnum SELECTIVE)
     = Return (model_flops,
               (model_flops
                + 4 * num_layers * batch_size * seq_len * seq_len * hidden_size)%Z)
  /\ flops (GEnum FULL) = Return (model_flops, (model_flops + decoder_flops_fwd)%Z).
Proof.
  intros Ha Hm k kv_width decoder_flops_fwd model_flops flops.
  subst flops. unfold get_flops. rewrite (py_floordiv_Return _ _ Ha). cbn [obind].
  fold k.
  pose proof (exact_division _ _ Ha Hm) as E.
  subst model_flops decoder_flops_fwd kv_width.
  set (dh := (hidden_size / num_heads)%Z) in *. clearbody dh. clear Hm.
  subst hidden_size.
  repeat split; f_equal; f_equal; ring.
Qed.

(** Witness for X24: a model of 2 layers, hidden size 8 in 4 heads with 2
    key/value heads. *)
Lemma get_flops_closed_form_witness :
  4%Z <> 0%Z
  /\ (8 mod 4 = 0)%Z
  /\ get_flops 2 8 4 (Some 2%Z) 100 16 32 3 GNone = Return (930816, 930816)%Z
  /\ get_flops 2 8 4 (Some 2%Z) 100 16 32 3 (GEnum SELECTIVE)
     = Return (930816, 979968)%Z
  /\ get_flops 2 8 4 (Some 2%Z) 100 16 32 3 (GEnum FULL)
     = Return (930816, 1164288)%Z.
Proof.
  split; [discriminate |]. split; [reflexivity |].
  exact (get_flops_closed_form 2 8 4 (Some 2%Z) 100 16 32 3
           ltac:(discriminate) eq_refl).
Defined.

(** The terms of the count, for non-negative sizes: the decoder's forward
    flops, their sequence-quadratic part and the lm head's. *)
Lemma get_flops_terms
      (num_layers hidden_size num_heads : Z) (num_key_value_heads : option Z)
      (vocab_size seq_len ffn_hidden_size batch_size : Z) :
  (0 <= num_layers)%Z -> (0 <= hidden_size)%Z -> (0 < num_heads)%Z ->
  (0 <= match num_key_value_heads with Some k => k | None => num_heads end)%Z ->
  (0 <= vocab_size)%Z -> (0 <= seq_len)%Z -> (0 <= ffn_hidden_size)%Z ->
  (0 <= batch_size)%Z ->
  exists decoder quadratic lm_head : Z,
    (0 <= quadratic <= decoder)%Z /\ (0 <= lm_head)%Z
    /\ forall g,
         get_flops num_layers hidden_size num_heads num_key_value_heads
                   vocab_size seq_len ffn_hidden_size batch_size g
         = let model_flops := (3 * (decoder + lm_head))%Z in
           match g with
           | GNone => Return (model_flops, model_flops)
           | GEnum SELECTIVE => Return (model_flops, (model_flops + quadratic)%Z)
           | GEnum FULL => Return (model_flops, (model_flops + decoder)%Z)
           | GOther => Throw GranularityValueError
           end.
Proof.
  intros HL Hh Ha Hk HV Hs Hf Hb.
  unfold get_flops. rewrite py_floordiv_Return by lia. cbn [obind].
  set (k := match num_key_value_heads with Some k => k | None => num_heads end) in *.
  assert (Hd : (0 <= hidden_size / num_heads)%Z) by (apply Z.div_pos; lia).
  set (dh := (hidden_size / num_heads)%Z) in *. clearbody dh k.
  set (qkv := (2 * num_layers * batch_size * seq_len * hidden_size * num_heads * dh
               + 2 * num_layers * batch_size * seq_len * hidden_size * 2 * k * dh)%Z).
  set (qk := (2 * num_layers * batch_size * num_heads * seq_len * dh * seq_len)%Z).
  set (v := (2 * num_layers * batch_size * num_heads * seq_len * seq_len * dh)%Z).
  set (out := (2 * num_layers * batch_size * num_heads * seq_len * dh * hidden_size)%Z).
  set (f1 := (4 * num_layers * batch_size * seq_len * hidden_size * ffn_hidden_size)%Z).
  set (f2 := (2 * num_layers * batch_size * seq_len * ffn_hidden_size * hidden_size)%Z).
  set (lm := (2 * batch_size * seq_len * hidden_size * vocab_size)%Z).
  assert (0 <= qkv)%Z.
  { subst qkv. apply Z.add_nonneg_nonneg; repeat apply Z.mul_nonneg_nonneg; lia. }
  assert (0 <= qk)%Z by (subst qk; repeat apply Z.mul_nonneg_nonneg; lia).
  assert (0 <= v)%Z by (subst v; repeat apply Z.mul_nonneg_nonneg; lia).
  assert (0 <= out)%Z by (subst out; repeat apply Z.mul_nonneg_nonneg; lia).
  assert (0 <= f1)%Z by (subst f1; repeat apply Z.mul_nonneg_nonneg; lia).
  assert (0 <= f2)%Z by (subst f2; repeat apply Z.mul_nonneg_nonneg; lia).
  assert (0 <= lm)%Z by (subst lm; repeat apply Z.mul_nonneg_nonneg; lia).
  exists (qkv + qk + v + out + f1 + f2)%Z, (qk + v)%Z, lm.
  split; [lia |]. split; [lia |].
  intros [| [|] |]; reflexivity.
Qed.

(** X25. For non-negative sizes and a positive number of heads,
    [get_flops] returns for each recomputation mode, the model flops do
    not depend on the mode, and the hardware flops are ordered: model
    flops = no recomputation <= SELECTIVE <= FULL <= 4/3 of the model
    flops. *)
Theorem get_flops_recompute_order
        (num_layers hidden_size num_heads : Z) (num_key_value_heads : option Z)
        (vocab_size seq_len ffn_hidden_size batch_size : Z) :
  (0 <= num_layers)%Z -> (0 <= hidden_size)%Z -> (0 < num_heads)%Z ->
  (0 <= match num_key_value_heads with Some k => k | None => num_heads end)%Z ->
  (0 <= vocab_size)%Z -> (0 <= seq_len)%Z -> (0 <= ffn_hidden_size)%Z ->
  (0 <= batch_size)%Z ->
  let flops := get_flops num_layers hidden_size num_heads num_key_value_heads
                         vocab_size seq_len ffn_hidden_size batch_size in
  exists model_flops selective_flops full_flops : Z,
    flops GNone = Return (model_flops, model_flops)
    /\ flops (GEnum SELECTIVE) = Return (model_flops, selective_flops)
    /\ flops (GEnum FULL) = Return (model_flops, full_flops)
    /\ (0 <= model_flops <= selective_flops)%Z
    /\ (selective_flops <= full_flops)%Z
    /\ (3 * full_flops <= 4 * model_flops)%Z.
Proof.
  intros HL Hh Ha Hk HV Hs Hf Hb flops. subst flops.
  destruct (get_flops_terms num_layers hidden_size num_heads num_key_value_heads
              vocab_size seq_len ffn_hidden_size batch_size HL Hh Ha Hk HV Hs Hf Hb)
    as (decoder & quadratic & lm_head & Hq & Hlm & Hflops).
  exists (3 * (decoder + lm_head))%Z, (3 * (decoder + lm_head) + quadratic)%Z,
         (3 * (decoder + lm_head) + decoder)%Z.
  rewrite !Hflops. cbv zeta.
  split; [reflexivity |]. split; [reflexivity |]. split; [reflexivity |]. lia.
Qed.

(** Witness for X25: grouped-query attention with a hidden size the heads
    do not divide. *)
Lemma get_flops_recompute_order_witness :
  exists model_flops selective_flops full_flops : Z,
    get_flops 2 9 4 (Some 2%Z) 100 16 32 3 GNone = Return (model_flops, model_flops)
    /\ get_flops 2 9 4 (Some 2%Z) 100 16 32 3 (GEnum SELECTIVE)
       = Return (model_flops, selective_flops)
    /\ get_flops 2 9 4 (Some 2%Z) 100 16 32 3 (GEnum FULL)
       = Return (model_flops, full_flops)
    /\ (0 <= model_flops <= selective_flops)%Z
    /\ (selective_flops <= full_flops)%Z
    /\ (3 * full_flops <= 4 * model_flops)%Z.
Proof.
  apply (get_flops_recompute_order 2 9 4 (Some 2%Z) 100 16 32 3); simpl; lia.
Defined.

(** With heads, the count has one value per mode. *)
Lemma get_flops_modes
      (num_layers hidden_size num_heads : Z) (num_key_value_heads : option Z)
      (vocab_size seq_len ffn_hidden_size batch_size : Z) :
  num_heads <> 0%Z ->
  exists model_flops selective_flops full_flops : Z,
    forall g,
      get_flops num_layers hidden_size num_heads num_key_value_heads
                vocab_size seq_len ffn_hidden_size batch_size g
      = match g with
        | GNone => Return (model_flops, model_flops)
        | GEnum SELECTIVE => Return (model_flops, selective_flops)
        | GEnum FULL => Return (model_flops, full_flops)
        | GOther => Throw GranularityValueError
        end.
Proof.
  intros Ha. unfold get_flops. rewrite (py_floordiv_Return _ _ Ha). cbn [obind].
  do 3 eexists. intros [| [|] |]; reflexivity.
Qed.

(** X26. [get_flops] fails in two ways only, whatever the sizes: with a
    ZeroDivisionError exactly when [num_heads] is 0 (the division comes
    first, so also under an invalid mode), and with the ValueError on the
    mode exactly when [num_heads] is not 0 and the mode is none of None,
    FULL and SELECTIVE. *)
Theorem get_flops_errors
        (num_layers hidden_size num_heads : Z) (num_key_value_heads : option Z)
        (vocab_size seq_len ffn_hidden_size batch_size : Z)
        (recompute_granularity : granularity_arg) :
  let r := get_flops num_layers hidden_size num_heads num_key_value_heads
                     vocab_size seq_len ffn_hidden_size batch_size
                     recompute_granularity in
  (r = Throw (Raised ZeroDivisionError) <-> num_heads = 0%Z)
  /\ (r = Throw GranularityValueError
      <-> num_heads <> 0%Z /\ recompute_granularity = GOther)
  /\ ((exists flops, r = Return flops)
      <-> num_heads <> 0%Z /\ recompute_granularity <> GOther).
Proof.
  intros r. subst r. unfold get_flops, py_floordiv.
  destruct (Z.eqb_spec num_heads 0) as [-> | Ha]; cbn [obind].
  - split; [tauto |]. split.
    + split; [discriminate | intros [H _]; now elim H].
    + split; [intros [? ?]; discriminate | intros [H _]; now elim H].
  - split; [| split].
    + split; [| contradiction].
      destruct recompute_granularity as [| [|] |]; discriminate.
    + split.
      * destruct recompute_granularity as [| [|] |]; try discriminate. auto.
      * intros [_ ->]. reflexivity.
    + split.
      * intros [flops H]. split; [exact Ha |].
        intros ->. discriminate H.
      * intros [_ Hg].
        destruct recompute_granularity as [| [|] |]; try (eexists; reflexivity).
        now elim Hg.
Qed.

Lemma py_div_Ok_nonzero (a b : nat) : b <> 0 -> py_div a b = Ok (a / b).
Proof.
  intros H. unfold py_div. destruct (Nat.eqb_spec b 0); [contradiction | reflexivity].
Qed.

(** X27. [get_block_compute_costs] fails, with a ZeroDivisionError, exactly
    when the configuration has no attention head.  Otherwise the cost of
    the lm head is [vocab_size * hidden_size] and the cost of a decoder
    layer is at most [4 h^2 + 3 d_ff h]: it is that value when the heads
    divide the hidden size, and less by [4 h (h mod heads)] in general. *)
Theorem block_costs_bound (model_config : LlamaModelConfig) :
  let config := attention_config model_config in
  let h := hidden_size config in
  let d_ff := intermediate_size model_config in
  (get_block_compute_costs model_config = Raise ZeroDivisionError
   <-> num_attention_heads config = 0)
  /\ (forall e, get_block_compute_costs model_config = Raise e -> e = ZeroDivisionError)
  /\ (forall costs,
        get_block_compute_costs model_config = Ok costs ->
        cost_TensorParallelColumnLinear costs = vocab_size model_config * h
        /\ cost_LlamaDecoderLayer costs + 4 * h * (h mod num_attention_heads config)
           = 4 * h * h + 3 * d_ff * h).
Proof.
  intros config h d_ff. unfold get_block_compute_costs, py_div.
  fold config. fold h. fold d_ff.
  destruct (Nat.eqb_spec (num_attention_heads config) 0) as [E | E]; simpl.
  - split; [tauto |]. split; [now intros e [= <-] | discriminate].
  - split; [split; [discriminate | contradiction] |].
    split; [discriminate |].
    intros costs [= <-]. simpl. split; [reflexivity |].
    pose proof (Nat.div_mod_eq h (num_attention_heads config)) as Hdm.
    fold h. set (a := num_attention_heads config) in *.
    set (q := h / a) in *. set (r := h mod a) in *. clearbody q r. nia.
Qed.

(** X28. The block costs agree with the flop count: for a configuration
    whose heads divide the hidden size and whose key/value heads are the
    attention heads, the decoder-layer cost times [2 L b s] is the forward
    flops of the decoder without their sequence-quadratic terms (what FULL
    recomputes beyond SELECTIVE), and the lm-head cost times [6 b s] is the
    lm head's share of the model flops. *)
Theorem block_costs_match_flops
        (model_config : LlamaModelConfig) (seq_len batch_size : Z) :
  let config := attention_config model_config in
  num_attention_heads config <> 0 ->
  hidden_size config mod num_attention_heads config = 0 ->
  num_key_value_heads config = None
  \/ num_key_value_heads config = Some (num_attention_heads config) ->
  let flops :=
    get_flops (Z.of_nat (num_hidden_layers model_config))
              (Z.of_nat (hidden_size config))
              (Z.of_nat (num_attention_heads config))
              (option_map Z.of_nat (num_key_value_heads config))
              (Z.of_nat (vocab_size model_config))
              seq_len
              (Z.of_nat (intermediate_size model_config))
              batch_size in
  exists costs model_flops selective_flops full_flops,
    get_block_compute_costs model_config = Ok costs
    /\ flops (GEnum SELECTIVE) = Return (model_flops, selective_flops)
    /\ flops (GEnum FULL) = Return (model_flops, full_flops)
    /\ (full_flops - selective_flops
        = 2 * Z.of_nat (num_hidden_layers model_config) * batch_size * seq_len
          * Z.of_nat (cost_LlamaDecoderLayer costs))%Z
    /\ (model_flops - 3 * (full_flops - model_flops)
        = 6 * batch_size * seq_len
          * Z.of_nat (cost_TensorParallelColumnLinear costs))%Z.
Proof.
  intros config Ha Hm Hkv flops.
  assert (Ha' : Z.of_nat (num_attention_heads config) <> 0%Z) by lia.
  assert (Hm' : (Z.of_nat (hidden_size config)
                 mod Z.of_nat (num_attention_heads config) = 0)%Z).
  { rewrite <- Nat2Z.inj_mod, Hm. reflexivity. }
  assert (Hk : match option_map Z.of_nat (num_key_value_heads config) with
               | Some k => k
               | None => Z.of_nat (num_attention_heads config)
               end = Z.of_nat (num_attention_heads config)).
  { destruct Hkv as [-> | ->]; reflexivity. }
  subst flops. unfold get_flops, get_block_compute_costs. fold config.
  rewrite (py_floordiv_Return _ _ Ha'), (py_div_Ok_nonzero _ _ Ha), Hk.
  cbn [obind bind].
  pose proof (exact_division _ _ Ha' Hm') as E.
  rewrite <- Nat2Z.inj_div in *.
  pose proof (Nat.div_mod_eq (hidden_size config) (num_attention_heads config)) as E'.
  rewrite Hm, Nat.add_0_r in E'.
  set (dh := hidden_size config / num_attention_heads config) in *. clearbody dh.
  do 4 eexists. split; [reflexivity |]. split; [reflexivity |].
  split; [reflexivity |]. cbn [cost_LlamaDecoderLayer cost_TensorParallelColumnLinear].
  rewrite E'. split.
  - rewrite !Nat2Z.inj_add, !Nat2Z.inj_mul. simpl Z.of_nat. ring.
  - rewrite !Nat2Z.inj_mul. ring.
Qed.

(** Witness for X28. *)
Lemma block_costs_match_flops_witness :
  exists costs model_flops selective_flops full_flops,
    get_block_compute_costs small_config = Ok costs
    /\ get_flops 2 8 4 None 100 16 32 3 (GEnum SELECTIVE)
       = Return (model_flops, selective_flops)
    /\ get_flops 2 8 4 None 100 16 32 3 (GEnum FULL)
       = Return (model_flops, full_flops)
    /\ (full_flops - selective_flops
        = 2 * 2 * 3 * 16 * Z.of_nat (cost_LlamaDecoderLayer costs))%Z
    /\ (model_flops - 3 * (full_flops - model_flops)
        = 6 * 3 * 16 * Z.of_nat (cost_TensorParallelColumnLinear costs))%Z.
Proof.
  exact (block_costs_match_flops small_config 16 3
           ltac:(discriminate) eq_refl (or_introl eq_refl)).
Defined.

Lemma truediv_pair (m hw den : R) :
  (model_flops_per_s <-- py_truediv m den ;;
   hardware_flops_per_s <-- py_truediv hw den ;;
   Return (model_flops_per_s, hardware_flops_per_s))
  = if Req_EM_T den 0 then Throw (Raised ZeroDivisionError)
    else Return ((m / den)%R, (hw / den)%R).
Proof. unfold py_truediv. destruct (Req_EM_T den 0); reflexivity. Qed.

(** X29. [get_flops_per_sec] on a module with a parallel configuration
    whose recomputation mode is valid, at least one attention head, a
    positive iteration time and a non-empty world: it returns, both rates
    are the flop counts of [get_flops] divided by
    [iteration_time * world_size * 1e12], and the hardware rate is between
    the model rate and 4/3 of it. *)
Theorem flops_per_sec_bounds
        (model_config : LlamaModelConfig) (recompute_granularity : granularity_arg)
        (world_size : nat) (iteration_time_in_sec : R)
        (sequence_length global_batch_size : Z) :
  let config := attention_config model_config in
  num_attention_heads config <> 0 ->
  recompute_granularity <> GOther ->
  (0 < iteration_time_in_sec)%R ->
  world_size <> 0 ->
  (0 <= sequence_length)%Z -> (0 <= global_batch_size)%Z ->
  exists model_flops hardware_flops model_flops_per_s hardware_flops_per_s,
    get_flops (Z.of_nat (num_hidden_layers model_config))
              (Z.of_nat (hidden_size config))
              (Z.of_nat (num_attention_heads config))
              (option_map Z.of_nat (num_key_value_heads config))
              (Z.of_nat (vocab_size model_config))
              sequence_length
              (Z.of_nat (intermediate_size model_config))
              global_batch_size
              recompute_granularity
    = Return (model_flops, hardware_flops)
    /\ get_flops_per_sec model_config (Some recompute_granularity) world_size
                         iteration_time_in_sec sequence_length global_batch_size
       = Return (model_flops_per_s, hardware_flops_per_s)
    /\ (model_flops_per_s * (iteration_time_in_sec * INR world_size * 1e12)
        = IZR model_flops)%R
    /\ (hardware_flops_per_s * (iteration_time_in_sec * INR world_size * 1e12)
        = IZR hardware_flops)%R
    /\ (0 <= model_flops_per_s <= hardware_flops_per_s)%R
    /\ (3 * hardware_flops_per_s <= 4 * model_flops_per_s)%R.
Proof.
  intros config Ha Hg Ht Hw Hs Hb.
  destruct (get_flops_terms
              (Z.of_nat (num_hidden_layers model_config))
              (Z.of_nat (hidden_size config))
              (Z.of_nat (num_attention_heads config))
              (option_map Z.of_nat (num_key_value_heads config))
              (Z.of_nat (vocab_size model_config))
              sequence_length
              (Z.of_nat (intermediate_size model_config))
              global_batch_size)
    as (decoder & quadratic & lm_head & Hq & Hlm & Hflops); try lia.
  { destruct (num_key_value_heads config); simpl; lia. }
  assert (Hex : exists m hw,
             get_flops (Z.of_nat (num_hidden_layers model_config))
                       (Z.of_nat (hidden_size config))
                       (Z.of_nat (num_attention_heads config))
                       (option_map Z.of_nat (num_key_value_heads config))
                       (Z.of_nat (vocab_size model_config))
                       sequence_length
                       (Z.of_nat (intermediate_size model_config))
                       global_batch_size
                       recompute_granularity = Return (m, hw)
             /\ (0 <= m <= hw)%Z /\ (3 * hw <= 4 * m)%Z).
  { rewrite Hflops. cbv zeta.
    destruct recompute_granularity as [| [|] |]; [| | | now elim Hg];
      do 2 eexists; (split; [reflexivity | lia]). }
  destruct Hex as (m & hw & Hfl & Hm & Hhw).
  assert (Hden : (0 < iteration_time_in_sec * INR world_size * 1e12)%R).
  { assert (0 < INR world_size)%R by (apply lt_0_INR; lia).
    apply Rmult_lt_0_compat; [apply Rmult_lt_0_compat; assumption | lra]. }
  set (den := (iteration_time_in_sec * INR world_size * 1e12)%R) in *.
  exists m, hw, (IZR m / den)%R, (IZR hw / den)%R.
  split; [exact Hfl |]. split.
  { unfold get_flops_per_sec. fold config. cbn [obind]. rewrite Hfl. cbn [obind].
    fold den. unfold py_truediv.
    destruct (Req_EM_T den 0) as [E | _]; [lra |]. reflexivity. }
  assert (Hm0 : (0 <= IZR m)%R) by (apply IZR_le; lia).
  assert (Hmh : (IZR m <= IZR hw)%R) by (apply IZR_le; lia).
  assert (Hh3 : (3 * IZR hw <= 4 * IZR m)%R).
  { rewrite <- !mult_IZR. apply IZR_le. lia. }
  assert (Hinv : (0 < / den)%R) by now apply Rinv_0_lt_compat.
  split; [field; lra |]. split; [field; lra |].
  unfold Rdiv. split; [split |].
  - apply Rmult_le_pos; lra.
  - apply Rmult_le_compat_r; lra.
  - rewrite <- !Rmult_assoc. apply Rmult_le_compat_r; lra.
Qed.

(** Witness for X29: the small model under selective recomputation, on 8
    devices, 2 seconds per iteration. *)
Lemma flops_per_sec_bounds_witness :
  exists model_flops hardware_flops model_flops_per_s hardware_flops_per_s,
    get_flops 2 8 4 None 100 16 32 3 (GEnum SELECTIVE)
    = Return (model_flops, hardware_flops)
    /\ get_flops_per_sec small_config (Some (GEnum SELECTIVE)) 8 2 16 3
       = Return (model_flops_per_s, hardware_flops_per_s)
    /\ (model_flops_per_s * (2 * INR 8 * 1e12) = IZR model_flops)%R
    /\ (hardware_flops_per_s * (2 * INR 8 * 1e12) = IZR hardware_flops)%R
    /\ (0 <= model_flops_per_s <= hardware_flops_per_s)%R
    /\ (3 * hardware_flops_per_s <= 4 * model_flops_per_s)%R.
Proof.
  apply (flops_per_sec_bounds small_config (GEnum SELECTIVE) 8 2 16 3);
    try discriminate; try lia; lra.
Defined.

(** X30. The failures of [get_flops_per_sec], in the order the code meets
    them: an AttributeError exactly when the module has no parallel
    configuration (whatever the other arguments, since the mode is read
    before the flops are counted); otherwise the failure of [get_flops] if
    it has one; otherwise a ZeroDivisionError exactly when
    [iteration_time * world_size * 1e12] is zero. *)
Theorem flops_per_sec_errors
        (model_config : LlamaModelConfig) (parallel_config : option granularity_arg)
        (world_size : nat) (iteration_time_in_sec : R)
        (sequence_length global_batch_size : Z) :
  let config := attention_config model_config in
  let r := get_flops_per_sec model_config parallel_config world_size
                             iteration_time_in_sec sequence_length
                             global_batch_size in
  (r = Throw AttributeError <-> parallel_config = None)
  /\ (r = Throw GranularityValueError
      <-> parallel_config = Some GOther /\ num_attention_heads config <> 0)
  /\ (r = Throw (Raised ZeroDivisionError)
      <-> exists g, parallel_config = Some g
                    /\ (num_attention_heads config = 0
                        \/ (g <> GOther
                            /\ (iteration_time_in_sec = 0%R \/ world_size = 0)))).
Proof.
  intros config r. subst r. unfold get_flops_per_sec. fold config.
  destruct parallel_config as [g |]; cbn [obind].
  2:{ split; [tauto |]. split.
      - split; [discriminate | intros [H _]; discriminate H].
      - split; [discriminate | intros (g & H & _); discriminate H]. }
  assert (Hden : (iteration_time_in_sec * INR world_size * 1e12 = 0)%R
                 <-> iteration_time_in_sec = 0%R \/ world_size = 0).
  { split.
    - intros H.
      apply Rmult_integral in H as [H | H]; [| lra].
      apply Rmult_integral in H as [H | H]; [now left | right].
      destruct world_size; [reflexivity |].
      pose proof (lt_0_INR (S world_size) ltac:(lia)). lra.
    - intros [-> | ->]; simpl; lra. }
  destruct (Nat.eq_dec (num_attention_heads config) 0) as [Ea | Ea].
  - unfold get_flops, py_floordiv. rewrite Ea. cbn [Z.of_nat Z.eqb obind].
    split; [split; discriminate |].
    split; [split; [discriminate | tauto] |].
    split; [eauto | reflexivity].
  - destruct (get_flops_modes
                (Z.of_nat (num_hidden_layers model_config))
                (Z.of_nat (hidden_size config))
                (Z.of_nat (num_attention_heads config))
                (option_map Z.of_nat (num_key_value_heads config))
                (Z.of_nat (vocab_size model_config))
                sequence_length
                (Z.of_nat (intermediate_size model_config))
                global_batch_size ltac:(lia)) as (m & hs & hf & Hflops).
    rewrite Hflops.
    set (den := (iteration_time_in_sec * INR world_size * 1e12)%R) in *.
    assert (Hvalid : forall g' (v : R * R),
               g' <> GOther ->
               let r := if Req_EM_T den 0 then Throw (Raised ZeroDivisionError)
                        else Return v in
               (r = Throw AttributeError <-> Some g' = @None granularity_arg)
               /\ (r = Throw GranularityValueError
                   <-> Some g' = Some GOther /\ num_attention_heads config <> 0)
               /\ (r = Throw (Raised ZeroDivisionError)
                   <-> exists g, Some g' = Some g
                                 /\ (num_attention_heads config = 0
                                     \/ (g <> GOther
                                         /\ (iteration_time_in_sec = 0%R
                                             \/ world_size = 0))))).
    { intros g' v Hg' r. subst r.
      destruct (Req_EM_T den 0) as [E | E].
      - split; [split; discriminate |].
        split; [split; [discriminate | intros [[= H] _]; contradiction] |].
        split; [| reflexivity].
        intros _. exists g'. split; [reflexivity |]. right.
        split; [exact Hg' | now apply Hden].
      - split; [split; discriminate |].
        split; [split; [discriminate | intros [[= H] _]; contradiction] |].
        split; [discriminate |].
        intros (g0 & _ & [H | [_ H]]); [contradiction |].
        apply Hden in H. contradiction. }
    destruct g as [| [|] |]; cbn [obind]; rewrite ?truediv_pair;
      try (apply Hvalid; discriminate).
    split; [split; discriminate |].
    split; [split; [auto | reflexivity] |].
    split; [discriminate |].
    intros (g0 & [= <-] & [H | [H _]]); [contradiction | now elim H].
Qed.

End FlopsProperties.
